(** * ProVEAN: attack-path sampling, building, statistics and steering

    A shallow embedding of the Python packages [progag] and [server]:
    every module of the development mirrors one source file.

    Conventions of the embedding.
    - Python [int] host identifiers are [Z]; list lengths and counters that
      the code only ever increments from zero are [nat].
    - A Python [float] is carried by the rational [Q] it equals. Where the
      program truncates or compares the result of float arithmetic
      ([get_metric_index], [_score_to_bin], the retraining test of the
      steering generator) the operations round as binary64 does (module
      [Float64]); elsewhere they are exact.
    - Python exceptions are the constructors of [exn]; a computation that
      may raise returns a [res].
    - The module-level pseudo-random generator of [random] is an oracle
      tape [Rng]: a list of naturals, one consumed per primitive draw.
      Code that draws is written in the monad [M].
    - Objects that the code mutates in place (the sampler's weights, the
      [visited] set of a walk, the generator's lists and sets) are passed
      in and returned. A call that raises returns no object; what it
      leaves in [unique_hashes] and [generated] is given by the
      definitions named [..._leaves].
    - The list [stability] belongs to the class [PathGenerator], not to
      its instances: a generator is created with the list as it finds it,
      and other generators may append to it.

    Left out: the [sample] method of the [SourceTarget] strategy (its
    [init] is modelled), the persistence layer (DuckDB
    and CSV files), wall-clock times, the decision tree of scikit-learn
    (a parameter of the steering generator) and the coordinator's
    processes and queues. *)

From Stdlib Require Import ZArith NArith QArith Qabs Qround Qpower Lqa List Lia Bool Ascii String.
From stdpp Require Import gmap strings list fin_maps pretty.

Local Open Scope Z_scope.
Local Open Scope nat_scope.

(** ** Exceptions, results and the random oracle *)

Inductive exn : Type :=
| IndexError
| KeyError
| ValueError
| ZeroDivisionError
| StatisticsError
| AssertionError
| NetworkXError.

Inductive res (A : Type) : Type :=
| Ok (a : A)
| Raise (e : exn).

Arguments Ok {A} a.
Arguments Raise {A} e.

Definition res_bind {A B} (x : res A) (f : A -> res B) : res B :=
  match x with
  | Ok a => f a
  | Raise e => Raise e
  end.

#[global] Instance res_ret : MRet res := @Ok.
#[global] Instance res_mbind : MBind res := fun A B f x => res_bind x f.

Definition Rng : Type := list nat.

(** One primitive draw: the head of the tape (0 once the tape is used up). *)
Definition draw (r : Rng) : nat * Rng :=
  match r with
  | [] => (0, [])
  | u :: r' => (u, r')
  end.

Definition M (A : Type) : Type := Rng -> res (A * Rng).

Definition ret {A} (a : A) : M A := fun r => Ok (a, r).
Definition raise {A} (e : exn) : M A := fun _ => Raise e.
Definition bind {A B} (c : M A) (k : A -> M B) : M B :=
  fun r => match c r with
           | Ok (a, r') => k a r'
           | Raise e => Raise e
           end.
Definition lift {A} (x : res A) : M A :=
  fun r => match x with Ok a => Ok (a, r) | Raise e => Raise e end.

Declare Scope rng_scope.
Delimit Scope rng_scope with rng.
Notation "x <~ c ;; k" := (bind c (fun x => k))
  (at level 100, c at next level, right associativity) : rng_scope.
Local Open Scope rng_scope.

(** *** The primitives of Python's [random] module *)
Module Random.

(** [random.choice(seq)]: [seq[randbelow(len(seq))]]; an empty sequence
    raises [IndexError]. *)
Definition choice {A} (seq : list A) : M A :=
  fun r =>
    match seq with
    | [] => Raise IndexError
    | x :: _ => let (u, r') := draw r in
                Ok (nth (u mod length seq) seq x, r')
    end.

(** [random.random()]: a multiple of 2^-53 in [0, 1). *)
Definition random : M Q :=
  fun r => let (u, r') := draw r in
           Ok (Qmake (Z.of_nat u mod 2 ^ 53) (2 ^ 53), r').

(** [random.randint(a, b)]: [a + randbelow(b - a + 1)]; an empty range
    raises [ValueError]. *)
Definition randint (a b : Z) : M Z :=
  fun r =>
    if (b <? a)%Z then Raise ValueError
    else let (u, r') := draw r in
         Ok ((a + Z.of_nat u mod (b - a + 1))%Z, r').

(** [int(random.gauss(mu, sigma))]: the normal distribution has full
    support, so the truncated draw is whatever integer the oracle says
    (even draws are non-negative, odd ones negative). *)
Definition gauss_int : M Z :=
  fun r => let (u, r') := draw r in
           Ok (if Nat.even u then Z.of_nat (u / 2)
               else (- Z.of_nat (S (u / 2)))%Z, r').

(** [bisect.bisect(cum, s)] on a non-decreasing list. *)
Fixpoint bisect (cum : list nat) (s : nat) : nat :=
  match cum with
  | [] => 0
  | c :: cum' => if c <=? s then S (bisect cum' s) else 0
  end.

Fixpoint accumulate (acc : nat) (counts : list nat) : list nat :=
  match counts with
  | [] => []
  | c :: counts' => (acc + c) :: accumulate (acc + c) counts'
  end.

(** [random.sample(population, 1, counts=counts)[0]]: one element drawn
    with multiplicity [counts]; [ValueError] when the two lengths differ
    or when the multiset is empty. *)
Definition sample1 {A} (population : list A) (counts : list nat) : M A :=
  fun r =>
    match population with
    | [] => Raise ValueError
    | x :: _ =>
        if negb (length counts =? length population) then Raise ValueError
        else
          let cum_counts := accumulate 0 counts in
          let total := List.last cum_counts 0 in
          if total =? 0 then Raise ValueError
          else let (u, r') := draw r in
               Ok (nth (bisect (removelast cum_counts) (u mod total))
                       population x, r')
    end.

End Random.

(** ** progag/vulnerabilities.py *)
Module Vulnerabilities.

(** [PRIV_GUEST = 0], [PRIV_USER = 1], [PRIV_ROOT = 2]. *)
Inductive Privilege : Type := PRIV_GUEST | PRIV_USER | PRIV_ROOT.

Definition priv_rank (p : Privilege) : Z :=
  match p with PRIV_GUEST => 0 | PRIV_USER => 1 | PRIV_ROOT => 2 end%Z.

Definition priv_leb (a b : Privilege) : bool := (priv_rank a <=? priv_rank b)%Z.
Definition priv_eqb (a b : Privilege) : bool := (priv_rank a =? priv_rank b)%Z.

(** [PRIVILEGE_STR = ["guest", "user", "root"]]. *)
Definition PRIVILEGE_STR (p : Privilege) : string :=
  match p with
  | PRIV_GUEST => "guest"
  | PRIV_USER => "user"
  | PRIV_ROOT => "root"
  end.

(** [RPSTR2PRIV]; a missing key is a [KeyError]. *)
Definition RPSTR2PRIV (s : string) : res Privilege :=
  if String.eqb s "NONE" then Ok PRIV_GUEST
  else if String.eqb s "LOW" then Ok PRIV_GUEST
  else if String.eqb s "SINGLE" then Ok PRIV_USER
  else if String.eqb s "MEDIUM" then Ok PRIV_USER
  else if String.eqb s "MULTIPLE" then Ok PRIV_USER
  else if String.eqb s "HIGH" then Ok PRIV_ROOT
  else if String.eqb s "CRITICAL" then Ok PRIV_ROOT
  else Raise KeyError.

(** The fields of a CVSS v2 and v3 metric that [_get_privileges] reads. *)
Record MetricV2 : Type := {
  v2_authentication : string;
  obtainAllPrivilege : bool;
  obtainUserPrivilege : bool
}.

Record MetricV3 : Type := {
  v3_privilegesRequired : string;
  v3_scope : string
}.

Definition _get_privileges (v2 : option MetricV2) (v3 : option MetricV3)
  : res (Privilege * Privilege) :=
  match v2, v3 with
  | Some v2, _ =>
      res_bind (RPSTR2PRIV (v2_authentication v2)) (fun req_priv =>
      let gain_priv :=
        if obtainAllPrivilege v2 then PRIV_ROOT
        else if obtainUserPrivilege v2 then PRIV_USER
        else PRIV_USER in
      Ok (req_priv, gain_priv))
  | None, Some v3 =>
      res_bind (RPSTR2PRIV (v3_privilegesRequired v3)) (fun req_priv =>
      let gain_priv :=
        if String.eqb (v3_scope v3) "UNCHANGED" then req_priv
        else PRIV_USER in
      Ok (req_priv, gain_priv))
  | None, None => Ok (PRIV_GUEST, PRIV_GUEST)
  end.

Record SteeringBaseFeatures : Type := {
  base_score : Q;
  impact_score : Q;
  exploitability_score : Q;
  access_vector : Z;
  access_complexity : Z;
  authentication : Z;
  confidentiality_impact : Z;
  integrity_impact : Z;
  availability_impact : Z;
  base_severity : Z
}.

(** [SteeringBaseFeatures.default()]. *)
Definition default_features : SteeringBaseFeatures :=
  {| base_score := 5; impact_score := 5; exploitability_score := 5;
     access_vector := 0; access_complexity := 0; authentication := 0;
     confidentiality_impact := 0; integrity_impact := 0;
     availability_impact := 0; base_severity := 0 |}.

Record Vulnerability : Type := {
  cve_id : string;
  base_features : SteeringBaseFeatures;
  priv_required : Privilege;
  priv_gained : Privilege
}.

(** [Vulnerability.__init__], after the JSON record has been read into its
    first v2 metric, its first v3 metric and its base features. *)
Definition Vulnerability_init (id : string) (metric2 : option MetricV2)
    (metric3 : option MetricV3) (features : SteeringBaseFeatures)
  : res Vulnerability :=
  res_bind (_get_privileges metric2 metric3) (fun privs =>
  Ok {| cve_id := id; base_features := features;
        priv_required := fst privs; priv_gained := snd privs |}).

Definition impact (v : Vulnerability) : Q := impact_score (base_features v).
Definition likelihood (v : Vulnerability) : Q :=
  exploitability_score (base_features v).
Definition score (v : Vulnerability) : Q := base_score (base_features v).

(** [VulnerabilityPool(dict[str, Vulnerability])]. *)
Abbreviation VulnerabilityPool := (gmap string Vulnerability).

End Vulnerabilities.

(** ** progag/model.py *)
Module Model.
Import Vulnerabilities.

Record NetworkHost : Type := {
  host_id : Z;
  hostname : string;
  ipv4 : string;
  cves : list string;
  services : gmap string (list string);
  domain : Z
}.

(** The part of [networkx.DiGraph] the program uses: the nodes in insertion
    order and, per node, its successors and predecessors in insertion
    order. *)
Record DiGraph : Type := {
  nodes : list Z;
  succ : gmap Z (list Z);
  pred : gmap Z (list Z)
}.

Definition empty_graph : DiGraph := {| nodes := []; succ := ∅; pred := ∅ |}.

Definition add_node (n : Z) (g : DiGraph) : DiGraph :=
  match succ g !! n with
  | Some _ => g
  | None => {| nodes := nodes g ++ [n];
               succ := <[n := []]> (succ g);
               pred := <[n := []]> (pred g) |}
  end.

Definition adj_add (u v : Z) (adj : gmap Z (list Z)) : gmap Z (list Z) :=
  let old := default [] (adj !! u) in
  if bool_decide (v ∈ old) then adj else <[u := old ++ [v]]> adj.

Definition add_edge (u v : Z) (g : DiGraph) : DiGraph :=
  let g := add_node v (add_node u g) in
  {| nodes := nodes g;
     succ := adj_add u v (succ g);
     pred := adj_add v u (pred g) |}.

(** [G.successors(n)] (also [G.neighbors(n)]) and [G.predecessors(n)]:
    a node that is not in the graph raises [NetworkXError]. *)
Definition successors (g : DiGraph) (n : Z) : res (list Z) :=
  match succ g !! n with Some l => Ok l | None => Raise NetworkXError end.

Definition predecessors (g : DiGraph) (n : Z) : res (list Z) :=
  match pred g !! n with Some l => Ok l | None => Raise NetworkXError end.

Definition out_degree (g : DiGraph) (n : Z) : res nat :=
  match succ g !! n with Some l => Ok (length l) | None => Raise KeyError end.

Definition in_degree (g : DiGraph) (n : Z) : res nat :=
  match pred g !! n with Some l => Ok (length l) | None => Raise KeyError end.

(** [G.edges]: every node's out-edges, node by node. *)
Definition edges_of (g : DiGraph) : list (Z * Z) :=
  flat_map (fun u => map (fun v => (u, v)) (default [] (succ g !! u))) (nodes g).

(** [AttackGraphModel(nx.DiGraph)]: the graph it inherits is the field
    [graph]. *)
Record AttackGraphModel : Type := {
  graph : DiGraph;
  hosts : gmap Z NetworkHost;
  vulnerabilties : gmap string Vulnerability;
  host_keys : list Z
}.

Definition empty_model : AttackGraphModel :=
  {| graph := empty_graph; hosts := ∅; vulnerabilties := ∅; host_keys := [] |}.

(** [add_host(host)] with the default [ignore_vulns=False],
    [drop_vuln=False]: an unknown CVE raises [ValueError]. *)
Definition add_host (host : NetworkHost) (m : AttackGraphModel)
  : res AttackGraphModel :=
  let keys := if bool_decide (is_Some (hosts m !! host_id host))
              then host_keys m else host_keys m ++ [host_id host] in
  let known cve := bool_decide (is_Some (vulnerabilties m !! cve)) in
  if negb (forallb known (cves host)) then Raise ValueError
  else if negb (forallb (fun '(_, l) => forallb known l)
                        (map_to_list (services host)))
  then Raise ValueError
  else Ok {| graph := add_node (host_id host) (graph m);
             hosts := <[host_id host := host]> (hosts m);
             vulnerabilties := vulnerabilties m;
             host_keys := keys |}.

Definition model_add_edge (u v : Z) (m : AttackGraphModel) : AttackGraphModel :=
  {| graph := add_edge u v (graph m);
     hosts := hosts m;
     vulnerabilties := vulnerabilties m;
     host_keys := host_keys m |}.

(** [read_from_file] once the JSON text is decoded: the pool, then every
    host, then every edge. *)
Definition load (pool : gmap string Vulnerability) (hs : list NetworkHost)
    (es : list (Z * Z)) : res AttackGraphModel :=
  m ← foldl (fun acc host => m ← acc; add_host host m)
            (Ok {| graph := empty_graph; hosts := ∅;
                   vulnerabilties := pool; host_keys := [] |}) hs;
  Ok (foldl (fun m e => model_add_edge (fst e) (snd e) m) m es).

(** [get_random_host]. *)
Definition get_random_host (m : AttackGraphModel) : M Z :=
  Random.choice (host_keys m).

(** The loop of [sample_cve_on_host] that keeps the CVEs whose required
    privilege is at most [current_priv]; [self.vulnerabilties[cve]] raises
    [KeyError] on a CVE that is not in the pool. *)
Fixpoint filter_by_privilege (pool : gmap string Vulnerability)
    (current_priv : Privilege) (cves : list string) : res (list string) :=
  match cves with
  | [] => Ok []
  | cve :: rest =>
      match pool !! cve with
      | None => Raise KeyError
      | Some v =>
          res_bind (filter_by_privilege pool current_priv rest) (fun filtered =>
          Ok (if priv_leb (priv_required v) current_priv
              then cve :: filtered else filtered))
      end
  end.

(** [sample_cve_on_host(host_id, current_priv)] with [preferred_cves=None]:
    the call the method makes of itself when it retries. *)
Definition sample_cve_on_host_plain (m : AttackGraphModel) (h : Z)
    (current_priv : Privilege) : M (option string) :=
  match hosts m !! h with
  | None => raise KeyError
  | Some host =>
      let cves := cves host in
      if priv_eqb current_priv PRIV_ROOT then
        cve <~ Random.choice cves ;; ret (Some cve)
      else
        filtered <~ lift (filter_by_privilege (vulnerabilties m) current_priv cves) ;;
        match filtered with
        | [] => ret None
        | _ => cve <~ Random.choice filtered ;; ret (Some cve)
        end
  end.

(** [sample_cve_on_host(host_id, current_priv, preferred_cves)]. *)
Definition sample_cve_on_host (m : AttackGraphModel) (h : Z)
    (current_priv : Privilege) (preferred_cves : option (gset string))
  : M (option string) :=
  match preferred_cves with
  | None => sample_cve_on_host_plain m h current_priv
  | Some preferred =>
      match hosts m !! h with
      | None => raise KeyError
      | Some host =>
          let cves := List.filter (fun cve => bool_decide (cve ∈ preferred))
                                  (cves host) in
          match cves with
          | [] => sample_cve_on_host_plain m h current_priv
          | _ =>
              if priv_eqb current_priv PRIV_ROOT then
                cve <~ Random.choice cves ;; ret (Some cve)
              else
                filtered <~ lift (filter_by_privilege (vulnerabilties m)
                                                      current_priv cves) ;;
                match filtered with
                | [] => sample_cve_on_host_plain m h current_priv
                | _ => cve <~ Random.choice filtered ;; ret (Some cve)
                end
          end
      end
  end.

(** [l.remove(x)]: the first occurrence of [x] goes. The loop below only
    removes an element it has just read from the list. *)
Fixpoint list_remove (x : string) (l : list string) : list string :=
  match l with
  | [] => []
  | y :: l' => if String.eqb x y then l' else y :: list_remove x l'
  end.

(** [for cve in l: if cve not in self.vulnerabilties: l.remove(cve)]: the
    list iterator reads [l[i]] for [i = 0, 1, ...] from the list as it is at
    that moment, and stops when [i] is past its end. [todo] bounds the
    number of iterations by the length the list had at the start. *)
Fixpoint drop_loop (known : string -> bool) (todo i : nat) (l : list string)
  : list string :=
  match todo with
  | O => l
  | S todo' =>
      match l !! i with
      | None => l
      | Some cve =>
          drop_loop known todo' (S i) (if known cve then l else list_remove cve l)
      end
  end.

Definition drop_unknown (known : string -> bool) (l : list string) : list string :=
  drop_loop known (length l) 0 l.

(** The first three statements of [add_host]: they run before any check. *)
Definition register (host : NetworkHost) (m : AttackGraphModel) : AttackGraphModel :=
  {| graph := add_node (host_id host) (graph m);
     hosts := <[host_id host := host]> (hosts m);
     vulnerabilties := vulnerabilties m;
     host_keys := if bool_decide (is_Some (hosts m !! host_id host))
                  then host_keys m else host_keys m ++ [host_id host] |}.

(** [add_host(host, ignore_vulns, drop_vuln)]: the model as the call leaves
    it and the exception it raises, if any. With [drop_vuln] the lists of
    the host object are edited in place, and [self.hosts] holds that
    object. *)
Definition add_host_with (host : NetworkHost) (ignore_vulns drop_vuln : bool)
    (m : AttackGraphModel) : AttackGraphModel * option exn :=
  let known cve := bool_decide (is_Some (vulnerabilties m !! cve)) in
  if ignore_vulns then (register host m, None)
  else if drop_vuln then
    (register {| host_id := host_id host; hostname := hostname host;
                 ipv4 := ipv4 host;
                 cves := drop_unknown known (cves host);
                 services := drop_unknown known <$> services host;
                 domain := domain host |} m, None)
  else if forallb known (cves host)
          && forallb (fun '(_, l) => forallb known l) (map_to_list (services host))
  then (register host m, None)
  else (register host m, Some ValueError).

(** [add_link(source, target)]. *)
Definition add_link (source target : Z) (m : AttackGraphModel) : AttackGraphModel :=
  model_add_edge target source (model_add_edge source target m).

End Model.

(** ** progag/sampling.py *)
Module Sampling.
Import Vulnerabilities Model.

Definition Edge : Type := (Z * Z)%type.

Definition ABSOLUTE_MAX_LENGTH : nat := 40.

(** [generate_weight_pattern(N)]. *)
Definition generate_weight_pattern (N : Z) : list nat :=
  if (N <=? 0)%Z then []
  else
    let N := Z.to_nat (N - 1) in
    let peak := N / 2 in
    let first_half := seq 0 (peak + 1) in
    let second_half := if N mod 2 =? 0 then removelast first_half
                       else first_half in
    first_half ++ rev second_half.

(** [WEIGHT_PATTERN[i]], defined for [0 <= i <= ABSOLUTE_MAX_LENGTH]. *)
Definition WEIGHT_PATTERN (i : nat) : res (list nat) :=
  if i <=? ABSOLUTE_MAX_LENGTH
  then Ok (0 :: generate_weight_pattern (Z.of_nat i - 3) ++ [0; 0])
  else Raise IndexError.

(** The state of a [PathSampler]; its strategy is kept apart (see
    [SamplingStrategy] below). *)
Record PathSampler : Type := {
  model : AttackGraphModel;
  min_length : Z;
  max_length : Z;
  valid_hosts : list Z;
  sampled : nat;
  use_dynamic_weights : bool;
  edge_weights : gmap Edge nat
}.

Definition weight (s : PathSampler) (e : Edge) : res nat :=
  match edge_weights s !! e with
  | Some w => Ok w
  | None => Raise KeyError
  end.

Fixpoint weights_of (s : PathSampler) (es : list Edge) : res (list nat) :=
  match es with
  | [] => Ok []
  | e :: es' =>
      res_bind (weight s e) (fun w =>
      res_bind (weights_of s es') (fun ws => Ok (w :: ws)))
  end.

(** The loop of [PathSampler.__init__] over [model.hosts.values()] (the
    hosts in the order of [host_keys]) that collects [valid_hosts]. *)
Fixpoint select_valid_hosts (m : AttackGraphModel) (hosts_filter : option (gset Z))
    (keys : list Z) : res (list Z) :=
  match keys with
  | [] => Ok []
  | k :: keys' =>
      match hosts m !! k with
      | None => select_valid_hosts m hosts_filter keys'
      | Some host =>
          o ← out_degree (graph m) (host_id host);
          i ← in_degree (graph m) (host_id host);
          rest ← select_valid_hosts m hosts_filter keys';
          if (o =? 0) && (i =? 0) then Ok rest
          else if match hosts_filter with
                  | Some f => negb (bool_decide (host_id host ∈ f))
                  | None => false
                  end
          then Ok rest
          else Ok (host_id host :: rest)
      end
  end.

(** The statements of [PathSampler.__init__] that set the fields of the
    sampler: all but the last one, [self.strategy.init(self)], which
    [PathSampler_init] below adds. *)
Definition PathSampler_fields (m : AttackGraphModel)
    (min_length max_length : option Z) (hosts_filter : option (gset Z))
    (use_dynamic_weights : bool) : res PathSampler :=
  max_length0 ← match max_length with
                | Some M0 => if (Z.of_nat ABSOLUTE_MAX_LENGTH <? M0)%Z
                             then Raise AssertionError else Ok M0
                | None => Ok (Z.of_nat ABSOLUTE_MAX_LENGTH)
                end;
  min_length0 ← match min_length with
                | Some m0 => if (max_length0 <? m0)%Z then Raise ValueError
                             else Ok m0
                | None => Ok 1%Z
                end;
  valid ← select_valid_hosts m hosts_filter (host_keys m);
  let weights : gmap Edge nat :=
    if use_dynamic_weights
    then list_to_map (map (fun e => (e, 4)) (edges_of (graph m)))
    else ∅ in
  Ok {| model := m;
        min_length := min_length0;
        max_length := Z.min (Z.min max_length0 (Z.of_nat (length valid)))
                            (Z.of_nat ABSOLUTE_MAX_LENGTH);
        valid_hosts := valid;
        sampled := 0;
        use_dynamic_weights := use_dynamic_weights;
        edge_weights := weights |}.

(** [_sample_next_host(current_host, visited, forward)]. *)
Definition _sample_next_host (s : PathSampler) (current_host : Z)
    (visited : gset Z) (forward : bool) : M (option Z) :=
  all <~ lift (if forward then successors (graph (model s)) current_host
               else predecessors (graph (model s)) current_host) ;;
  let neighbors := List.filter (fun host => negb (bool_decide (host ∈ visited))) all in
  let edge_to (host : Z) : Edge :=
    if forward then (current_host, host) else (host, current_host) in
  match neighbors with
  | [] => ret None
  | [a] => ret (Some a)
  | [a; b] =>
      if use_dynamic_weights s then
        wa <~ lift (weight s (edge_to a)) ;;
        wb <~ lift (weight s (edge_to b)) ;;
        r <~ Random.random ;;
        if wa + wb =? 0 then raise ZeroDivisionError
        else if negb (Qle_bool (Qmake (Z.of_nat wa) (Pos.of_nat (wa + wb))) r)
             then ret (Some a) else ret (Some b)
      else
        r <~ Random.random ;;
        if negb (Qle_bool (1 # 2) r) then ret (Some a) else ret (Some b)
  | _ =>
      if use_dynamic_weights s then
        weights <~ lift (weights_of s (map edge_to neighbors)) ;;
        host <~ Random.sample1 neighbors weights ;;
        ret (Some host)
      else
        host <~ Random.choice neighbors ;;
        ret (Some host)
  end.

(** The [for _ in range(max_length)] loop of [_sample_one_end]. The call of
    [_sample_next_host] passes [forward=True] whatever the direction of the
    walk, and [if not next_host] also stops on the host whose id is 0. *)
Fixpoint walk (s : PathSampler) (steps : nat) (forward : bool)
    (current_host : Z) (visited : gset Z) (path : list Edge)
  : M (list Edge * gset Z) :=
  match steps with
  | O => ret (path, visited)
  | S steps' =>
      next_host <~ _sample_next_host s current_host visited true ;;
      match next_host with
      | None => ret (path, visited)
      | Some next_host =>
          if (next_host =? 0)%Z then ret (path, visited)
          else
            let visited := {[next_host]} ∪ visited in
            let path := if forward then path ++ [(current_host, next_host)]
                        else (next_host, current_host) :: path in
            walk s steps' forward next_host visited path
      end
  end.

(** [_sample_one_end(start_host, max_length, forward, visited)]: the
    sampled path together with the [visited] set as the call leaves it
    (the caller's set object when one was passed). *)
Definition _sample_one_end (s : PathSampler) (start_host : Z) (max_length : Z)
    (forward : bool) (visited : option (gset Z)) : M (list Edge * gset Z) :=
  let visited := default ∅ visited in
  let visited := {[start_host]} ∪ visited in
  walk s (Z.to_nat max_length) forward start_host visited [].

(** [_sample_length()]. *)
Definition _sample_length (s : PathSampler) : M Z :=
  let span := (max_length s - min_length s + 1)%Z in
  g <~ (if (span =? 0)%Z then ret 0%Z else Random.gauss_int) ;;
  let length := (g + min_length s - 1)%Z in
  if ((length <? min_length s) || (max_length s <? length))%Z
  then Random.randint (min_length s) (max_length s)
  else ret length.

(** [for weight, edge in zip(...): self.edge_weights[edge] += weight]. *)
Fixpoint add_weights (ws : list nat) (path : list Edge) (ew : gmap Edge nat)
  : res (gmap Edge nat) :=
  match ws, path with
  | w :: ws', e :: path' =>
      match ew !! e with
      | None => Raise KeyError
      | Some old => add_weights ws' path' (<[e := old + w]> ew)
      end
  | _, _ => Ok ew
  end.

(** [_update_weights(path)]. *)
Definition _update_weights (s : PathSampler) (path : list Edge) : res PathSampler :=
  let final_length := length path in
  ew ← (if ((min_length s <=? Z.of_nat final_length)
             && (Z.of_nat final_length <? max_length s + 1))%Z
        then ws ← WEIGHT_PATTERN final_length;
             add_weights ws path (edge_weights s)
        else Ok (edge_weights s));
  let sampled' := S (sampled s) in
  let ew := if sampled' mod 200 =? 0
            then (fun score => if 100 <=? score then score / 100 else score) <$> ew
            else ew in
  Ok {| model := model s; min_length := min_length s;
        max_length := max_length s; valid_hosts := valid_hosts s;
        sampled := sampled'; use_dynamic_weights := use_dynamic_weights s;
        edge_weights := ew |}.

(** The strategies that are sampled from below. [SourceTarget], whose
    [sample] has a re-sampling loop, is modelled as far as the constructor
    of the sampler runs it (see [Strategy] and [SourceTarget_init]); the
    generators below take the sampling function as a parameter. *)
Inductive SamplingStrategy : Type :=
| Uniform
| StartingAt (hosts : list Z)
| EndingAt (hosts : list Z)
| PassingThrough (hosts : list Z).

(** [strategy.init(sampler)]. *)
Definition strategy_init (st : SamplingStrategy) (s : PathSampler) : SamplingStrategy :=
  let valid hs := List.filter (fun h => bool_decide (h ∈ valid_hosts s)) hs in
  match st with
  | Uniform => Uniform
  | StartingAt hs => StartingAt (valid hs)
  | EndingAt hs => EndingAt (valid hs)
  | PassingThrough hs => PassingThrough (valid hs)
  end.

(** A strategy object as [PathSampler] receives it: one of the four above,
    or [SourceTarget(sources, targets)] with its [dfs_results], which
    [init] sets. *)
Inductive Strategy : Type :=
| Sampled (st : SamplingStrategy)
| SourceTarget (sources targets : list Z) (dfs_results : gmap Edge nat).

(** The loop of [dfs] over [graph.successors(node)]: a neighbor that was
    not visited is marked and queued at [distance + 1]. *)
Fixpoint dfs_neighbors (neighbors : list Z) (distance : nat)
    (visited : gset Z) (queue : list (Z * nat)) : gset Z * list (Z * nat) :=
  match neighbors with
  | [] => (visited, queue)
  | neighbor :: rest =>
      if bool_decide (neighbor ∈ visited)
      then dfs_neighbors rest distance visited queue
      else dfs_neighbors rest distance ({[neighbor]} ∪ visited)
                         (queue ++ [(neighbor, S distance)])
  end.

(** The [while queue] loop of [dfs], for at most [passes] passes: [None]
    when they do not suffice. *)
Fixpoint dfs_loop (passes : nat) (g : DiGraph) (target : Z)
    (visited : gset Z) (queue : list (Z * nat)) : option (res (option nat)) :=
  match passes with
  | 0 => None
  | S passes' =>
      match queue with
      | [] => Some (Ok None)
      | (node, distance) :: queue' =>
          if (node =? target)%Z then Some (Ok (Some distance))
          else match successors g node with
               | Raise e => Some (Raise e)
               | Ok neighbors =>
                   let '(visited', queue'') :=
                     dfs_neighbors neighbors distance visited queue' in
                   dfs_loop passes' g target visited' queue''
               end
      end
  end.

(** [SourceTarget.dfs(source, target)]: a breadth-first search. A pass
    takes one node off the queue and a node is queued once, so that one
    pass more than the graph has nodes is enough ([dfs_passes_suffice] in
    [WalkFacts]). *)
Definition dfs (g : DiGraph) (source target : Z) : res (option nat) :=
  match dfs_loop (S (length (nodes g))) g target {[source]} [(source, 0)] with
  | Some r => r
  | None => Ok None
  end.

(** The inner loop of [SourceTarget.init]:
    [res = self.dfs(source, target); if res: self.dfs_results[...] = res]
    (neither [None] nor the distance 0 is stored). *)
Fixpoint dfs_targets (g : DiGraph) (source : Z) (targets : list Z)
    (dfs_results : gmap Edge nat) : res (gmap Edge nat) :=
  match targets with
  | [] => Ok dfs_results
  | target :: rest =>
      r ← dfs g source target;
      dfs_targets g source rest
        match r with
        | Some (S d) => <[(source, target) := S d]> dfs_results
        | _ => dfs_results
        end
  end.

Fixpoint dfs_sources (g : DiGraph) (sources targets : list Z)
    (dfs_results : gmap Edge nat) : res (gmap Edge nat) :=
  match sources with
  | [] => Ok dfs_results
  | source :: rest =>
      dfs_results' ← dfs_targets g source targets dfs_results;
      dfs_sources g rest targets dfs_results'
  end.

(** The loops that give every pair the distance 40 when no path was
    found. *)
Definition all_forty (sources targets : list Z) : gmap Edge nat :=
  fold_left (fun acc source =>
               fold_left (fun acc target => <[(source, target) := 40]> acc)
                         targets acc)
            sources ∅.

(** [SourceTarget.init(sampler)]: the hosts that are not valid are
    removed, the sampler is forced to use dynamic weights (its
    [edge_weights] stay as the constructor left them), and the distances
    are computed. *)
Definition SourceTarget_init (s : PathSampler) (sources targets : list Z)
  : res (PathSampler * Strategy) :=
  let sources := List.filter (fun h => bool_decide (h ∈ valid_hosts s)) sources in
  let targets := List.filter (fun h => bool_decide (h ∈ valid_hosts s)) targets in
  let s' := {| model := model s; min_length := min_length s;
               max_length := max_length s; valid_hosts := valid_hosts s;
               sampled := sampled s; use_dynamic_weights := true;
               edge_weights := edge_weights s |} in
  dfs_results ← dfs_sources (graph (model s)) sources targets ∅;
  let dfs_results := if bool_decide (dfs_results = ∅)
                     then all_forty sources targets else dfs_results in
  Ok (s', SourceTarget sources targets dfs_results).

(** [PathSampler(model, min_length=, max_length=, hosts=, strategy=,
    use_dynamic_weights=)]: the fields, then [self.strategy.init(self)]
    ([strategy] defaults to [Uniform()]). It gives the sampler and the
    strategy as [init] leaves them. *)
Definition PathSampler_init (m : AttackGraphModel)
    (min_length max_length : option Z) (hosts_filter : option (gset Z))
    (strategy : option Strategy) (use_dynamic_weights : bool)
  : res (PathSampler * Strategy) :=
  s ← PathSampler_fields m min_length max_length hosts_filter use_dynamic_weights;
  match default (Sampled Uniform) strategy with
  | Sampled st => Ok (s, Sampled (strategy_init st s))
  | SourceTarget sources targets _ => SourceTarget_init s sources targets
  end.

(** [strategy.sample(sampler)]. *)
Definition strategy_sample (st : SamplingStrategy) (s : PathSampler) : M (list Edge) :=
  match st with
  | Uniform =>
      max_length <~ _sample_length s ;;
      start_host <~ Random.choice (valid_hosts s) ;;
      pv <~ _sample_one_end s start_host max_length true None ;;
      ret (fst pv)
  | StartingAt hosts =>
      max_length <~ _sample_length s ;;
      start_host <~ Random.choice hosts ;;
      pv <~ _sample_one_end s start_host max_length true None ;;
      ret (fst pv)
  | EndingAt hosts =>
      max_length <~ _sample_length s ;;
      start_host <~ Random.choice hosts ;;
      pv <~ _sample_one_end s start_host max_length false None ;;
      ret (fst pv)
  | PassingThrough hosts =>
      max_length <~ _sample_length s ;;
      start_host <~ Random.choice hosts ;;
      first_half <~ Random.randint 0 max_length ;;
      let second_half := (max_length - first_half)%Z in
      let visited : gset Z := ∅ in
      pv1 <~ _sample_one_end s start_host first_half true (Some visited) ;;
      let '(first_path, visited) := pv1 in
      pv2 <~ _sample_one_end s start_host second_half false (Some visited) ;;
      let '(second_path, visited) := pv2 in
      ret (first_path ++ second_path)
  end.

(** [sample_path()] for a given strategy: the path and the sampler with its
    weights updated. *)
Definition sample_path (strategy : PathSampler -> M (list Edge)) (s : PathSampler)
  : M (list Edge * PathSampler) :=
  path <~ strategy s ;;
  if use_dynamic_weights s
  then s' <~ lift (_update_weights s path) ;; ret (path, s')
  else ret (path, s).

End Sampling.

(** ** hashlib.sha256 (FIPS 180-4), on the bytes of a string *)
Module Hashlib.
Local Open Scope N_scope.

Definition w32 (x : N) : N := x mod 2 ^ 32.
Definition add32 (x y : N) : N := w32 (x + y).
Definition rotr (n x : N) : N := N.lor (N.shiftr x n) (w32 (N.shiftl x (32 - n))).
Definition not32 (x : N) : N := N.lxor x (2 ^ 32 - 1).

Definition Ch (x y z : N) : N := N.lxor (N.land x y) (N.land (not32 x) z).
Definition Maj (x y z : N) : N :=
  N.lxor (N.lxor (N.land x y) (N.land x z)) (N.land y z).
Definition Sigma0 (x : N) : N := N.lxor (N.lxor (rotr 2 x) (rotr 13 x)) (rotr 22 x).
Definition Sigma1 (x : N) : N := N.lxor (N.lxor (rotr 6 x) (rotr 11 x)) (rotr 25 x).
Definition sigma0 (x : N) : N := N.lxor (N.lxor (rotr 7 x) (rotr 18 x)) (N.shiftr x 3).
Definition sigma1 (x : N) : N := N.lxor (N.lxor (rotr 17 x) (rotr 19 x)) (N.shiftr x 10).

(** The constants of FIPS 180-4, from their definition: the first 32 bits
    of the fractional parts of the cube roots (round constants) and of the
    square roots (initial hash value) of the first primes. *)
Definition is_prime (p : nat) : bool :=
  (2 <=? p)%nat && forallb (fun d => negb (p mod d =? 0)%nat) (seq 2 (p - 2)).

Definition first_primes (n : nat) : list N :=
  map N.of_nat (firstn n (List.filter is_prime (seq 0 320))).

(** The integer cube root, bit by bit from [2 ^ bits] down. *)
Fixpoint icbrt (bits : nat) (x r : N) : N :=
  match bits with
  | O => r
  | S b => let r' := r + 2 ^ N.of_nat b in
           icbrt b x (if r' * r' * r' <=? x then r' else r)
  end.

Definition K256 : list N :=
  Eval vm_compute in
    map (fun p => w32 (icbrt 40 (p * 2 ^ 96) 0)) (first_primes 64).

Definition H0 : list N :=
  Eval vm_compute in
    map (fun p => w32 (N.sqrt (p * 2 ^ 64))) (first_primes 8).

(** The padded message: the bytes, 0x80, zeros up to 56 modulo 64, and the
    bit length on eight bytes, most significant first. *)
Definition be_bytes (n : nat) (x : N) : list N :=
  map (fun i => N.shiftr x (8 * N.of_nat i) mod 256) (rev (seq 0 n)).

Definition pad (msg : list N) : list N :=
  let l := length msg in
  let zeros := ((64 - (l + 9) mod 64) mod 64)%nat in
  msg ++ [0x80] ++ repeat 0 zeros ++ be_bytes 8 (8 * N.of_nat l).

Fixpoint words (fuel : nat) (bs : list N) : list N :=
  match fuel, bs with
  | S fuel', b0 :: b1 :: b2 :: b3 :: bs' =>
      (N.shiftl b0 24 + N.shiftl b1 16 + N.shiftl b2 8 + b3) :: words fuel' bs'
  | _, _ => []
  end.

(** The message schedule, most recent word first. *)
Fixpoint schedule (n : nat) (w : list N) : list N :=
  match n with
  | O => w
  | S n' =>
      let at_ i := nth i w 0 in
      schedule n' (add32 (add32 (sigma1 (at_ 1%nat)) (at_ 6%nat))
                         (add32 (sigma0 (at_ 14%nat)) (at_ 15%nat)) :: w)
  end.

Definition round (st : list N) (kw : N * N) : list N :=
  match st with
  | [a; b; c; d; e; f; g; h] =>
      let t1 := add32 (add32 (add32 h (Sigma1 e)) (add32 (Ch e f g) (fst kw))) (snd kw) in
      let t2 := add32 (Sigma0 a) (Maj a b c) in
      [add32 t1 t2; a; b; c; add32 d t1; e; f; g]
  | _ => st
  end.

Definition compress (h : list N) (block : list N) : list N :=
  let w := rev (schedule 48 (rev block)) in
  let st := fold_left round (combine K256 w) h in
  map (fun p => add32 (fst p) (snd p)) (combine h st).

Fixpoint blocks (fuel : nat) (ws : list N) : list (list N) :=
  match fuel, ws with
  | _, [] => []
  | O, _ => []
  | S fuel', _ => firstn 16 ws :: blocks fuel' (skipn 16 ws)
  end.

Definition sha256_words (msg : list N) : list N :=
  let ws := words (length msg + 72) (pad msg) in
  fold_left compress (blocks (length ws) ws) H0.

Definition hex_digit (x : N) : ascii :=
  nth (N.to_nat x)
      (list_ascii_of_string "0123456789abcdef") "0"%char.

Definition hex32 (x : N) : list ascii :=
  map (fun i => hex_digit (N.shiftr x (4 * N.of_nat i) mod 16)) (rev (seq 0 8)).

(** [hashlib.sha256(s.encode()).hexdigest()]: a string is the sequence of
    its UTF-8 bytes. *)
Definition sha256_hexdigest (s : string) : string :=
  string_of_list_ascii
    (flat_map hex32 (sha256_words (map N_of_ascii (list_ascii_of_string s)))).

End Hashlib.

(** ** Python floats

    A [float] of the program is carried by the rational it equals. Where
    the program truncates or compares the result of float arithmetic
    ([get_metric_index], [_score_to_bin], the retraining test of the
    steering generator) the operations are rounded as binary64 rounds
    them; elsewhere they are exact. *)
Module Float64.

(** [2 ** k] as a rational. *)
Definition pow2 (k : Z) : Q := (2 ^ k)%Q.

(** The exponent of the leading bit of a positive rational: the [k] with
    [2 ** k <= x < 2 ** (k + 1)]. *)
Definition ilog2 (x : Q) : Z :=
  let k := (Z.log2 (Qnum x) - Z.log2 (Zpos (Qden x)))%Z in
  if Qle_bool (pow2 k) x then k else (k - 1)%Z.

(** The integer nearest to [x], the even one of the two when [x] is half
    way between them. *)
Definition nearest_even (x : Q) : Z :=
  let f := Qfloor x in
  match (x - inject_Z f ?= 1 # 2)%Q with
  | Lt => f
  | Gt => (f + 1)%Z
  | Eq => if Z.even f then f else (f + 1)%Z
  end.

(** The exponent of the last bit binary64 keeps of a positive [x]: 53 bits
    from the leading one, and never below the last bit of the subnormal
    numbers. *)
Definition last_bit (x : Q) : Z := Z.max (ilog2 x - 52) (-1074).

(** The binary64 number nearest to a positive rational. *)
Definition round_positive (x : Q) : Q :=
  let u := pow2 (last_bit x) in
  (inject_Z (nearest_even (x / u)) * u)%Q.

(** The binary64 number nearest to a rational [x], ties to even: the value
    a Python [float] takes for it. Overflow to infinity is not modelled:
    the numbers at hand are far below [2 ** 1024]. *)
Definition b64 (x : Q) : Q :=
  match Qnum x with
  | Z0 => 0%Q
  | Zpos _ => Qred (round_positive x)
  | Zneg _ => Qred (- round_positive (- x))
  end.

(** [x + y], [x * y] and [x / y] on floats. *)
Definition fadd (x y : Q) : Q := b64 (x + y).
Definition fmul (x y : Q) : Q := b64 (x * y).
Definition fdiv (x y : Q) : Q := b64 (x / y).

(** [sum(l)] on a list of floats: from the integer 0, left to right, one
    rounding per addition (as CPython does up to 3.11; from 3.12 on [sum]
    compensates the rounding errors). *)
Definition fsum (l : list Q) : Q := fold_left (fun acc x => fadd acc (b64 x)) l 0%Q.

End Float64.

(** ** Python built-ins used by the program *)
Module Builtins.

(** [l[i]] addressing of a list of length [len]: a negative index counts
    from the end, anything outside raises [IndexError]. *)
Definition py_index (len : nat) (i : Z) : res nat :=
  if ((0 <=? i) && (i <? Z.of_nat len))%Z then Ok (Z.to_nat i)
  else if ((- Z.of_nat len <=? i) && (i <? 0))%Z then Ok (Z.to_nat (Z.of_nat len + i))
  else Raise IndexError.

(** [l[i] = x]. *)
Definition py_setitem {A} (l : list A) (i : Z) (x : A) : res (list A) :=
  k ← py_index (length l) i; Ok (<[k := x]> l).

(** [l[i] += n]. *)
Definition py_additem (l : list nat) (i : Z) (n : nat) : res (list nat) :=
  k ← py_index (length l) i; Ok (alter (fun c => c + n) k l).

(** [int(x)] on a float: truncation toward zero. *)
Definition int_of_float (x : Q) : Z := Z.quot (Qnum x) (Zpos (Qden x)).

(** [s.split(sep)] for a non-empty separator. [skip] counts the characters
    of a separator just matched that are still to be passed over; [cur] is
    the current piece, last character first. *)
Fixpoint split_go (sep s : string) (skip : nat) (cur : list ascii) : list string :=
  match s with
  | EmptyString => [string_of_list_ascii (rev cur)]
  | String c s' =>
      match skip with
      | S k => split_go sep s' k cur
      | O =>
          if String.prefix sep s
          then string_of_list_ascii (rev cur)
               :: split_go sep s' (String.length sep - 1) []
          else split_go sep s' 0 (c :: cur)
      end
  end.

Definition split (sep s : string) : list string := split_go sep s 0 [].

(** [sep.join(parts)]. *)
Fixpoint join (sep : string) (parts : list string) : string :=
  match parts with
  | [] => ""
  | [p] => p
  | p :: ps => p +:+ sep +:+ join sep ps
  end.

Definition is_space (c : ascii) : bool :=
  let n := nat_of_ascii c in
  (n =? 32) || ((9 <=? n) && (n <=? 13)) || ((28 <=? n) && (n <=? 31)).

Definition digit_of (c : ascii) : option Z :=
  let n := nat_of_ascii c in
  if (48 <=? n) && (n <=? 57) then Some (Z.of_nat (n - 48)) else None.

(** The digits of an integer literal, single underscores allowed between
    digits. *)
Fixpoint digits (cs : list ascii) (acc : Z) (after_digit : bool) : res Z :=
  match cs with
  | [] => if after_digit then Ok acc else Raise ValueError
  | c :: cs' =>
      match digit_of c with
      | Some d => digits cs' (10 * acc + d)%Z true
      | None =>
          if (nat_of_ascii c =? 95) && after_digit
          then digits cs' acc false
          else Raise ValueError
      end
  end.

Fixpoint lstrip (cs : list ascii) : list ascii :=
  match cs with
  | c :: cs' => if is_space c then lstrip cs' else cs
  | [] => []
  end.

(** [int(s)] on a string of ASCII characters: surrounding white space, an
    optional sign, decimal digits. *)
Definition int_of_str (s : string) : res Z :=
  let cs := rev (lstrip (rev (lstrip (list_ascii_of_string s)))) in
  match cs with
  | "-"%char :: cs' => z ← digits cs' 0%Z false; Ok (- z)%Z
  | "+"%char :: cs' => digits cs' 0%Z false
  | _ => digits cs 0%Z false
  end.

(** [str(i)] on an integer. *)
Definition str_of_int (i : Z) : string := pretty i.

(** [l[i]]. *)
Definition py_getitem {A} (l : list A) (i : Z) : res A :=
  k ← py_index (length l) i;
  match l !! k with
  | Some x => Ok x
  | None => Raise IndexError
  end.

End Builtins.

(** ** statistics.mean, statistics.median and numpy.median *)
Module Statistics.

Definition Qsum (l : list Q) : Q := fold_right Qplus 0%Q l.

(** [statistics.mean(data)]: the exact sum over the count; empty data
    raises [StatisticsError]. *)
Definition mean (data : list Q) : res Q :=
  match data with
  | [] => Raise StatisticsError
  | _ => Ok (Qred (Qsum data / inject_Z (Z.of_nat (length data))))
  end.

Fixpoint insert_sorted (x : Q) (l : list Q) : list Q :=
  match l with
  | [] => [x]
  | y :: l' => if Qle_bool x y then x :: l else y :: insert_sorted x l'
  end.

(** [sorted(data)]. *)
Definition sorted (data : list Q) : list Q := fold_right insert_sorted [] data.

(** The middle of sorted data: the middle element, or the mean of the two
    middle elements. *)
Definition middle (data : list Q) : Q :=
  let n := length data in
  if n mod 2 =? 1 then nth (n / 2) data 0%Q
  else Qred ((nth (n / 2 - 1) data 0 + nth (n / 2) data 0) / 2)%Q.

(** [statistics.median(data)]; empty data raises [StatisticsError]. *)
Definition median (data : list Q) : res Q :=
  match data with
  | [] => Raise StatisticsError
  | _ => Ok (middle (sorted data))
  end.

(** [numpy.median(data)]: [nan] on empty data, here [None]. *)
Definition np_median (data : list Q) : option Q :=
  match data with
  | [] => None
  | _ => Some (middle (sorted data))
  end.

End Statistics.

(** ** progag/attack_paths.py *)
Module AttackPaths.
Import Vulnerabilities Model Sampling Builtins Statistics.

Record AttackPath : Type := {
  ap_trace : string;
  ap_length : nat;
  ap_likelihood : Q;
  ap_impact : Q;
  ap_score : Q;
  ap_risk : Q;
  ap_damage : Q;
  ap_hash : string;
  ap_vulns : list Vulnerability;
  ap_edges : list Edge
}.

(** [AttackPath.__init__(trace, vulns, edges)]: [statistics.mean] raises
    on an empty [vulns] before [vulns[-1]] could. *)
Definition AttackPath_init (trace : string) (vulns : list Vulnerability)
    (edges : list Edge) : res AttackPath :=
  lik ← mean (map likelihood vulns);
  imp ← match last vulns with
        | Some v => Ok (impact v)
        | None => Raise IndexError
        end;
  sco ← median (map score vulns);
  dmg ← mean (map impact vulns);
  Ok {| ap_trace := trace;
        ap_length := length vulns;
        ap_likelihood := lik;
        ap_impact := imp;
        ap_score := sco;
        ap_risk := Qred (lik * imp / 10);
        ap_damage := dmg;
        ap_hash := Hashlib.sha256_hexdigest trace;
        ap_vulns := vulns;
        ap_edges := edges |}.

(** The property [hosts]: the set of the hosts on the path. *)
Definition ap_hosts (ap : AttackPath) : gset Z :=
  list_to_set (flat_map (fun e => [fst e; snd e]) (ap_edges ap)).

(** The properties [source_host] and [target_host]. *)
Definition source_host (ap : AttackPath) : res Z :=
  match ap_edges ap with
  | e :: _ => Ok (fst e)
  | [] => Raise IndexError
  end.

Definition target_host (ap : AttackPath) : res Z :=
  match last (ap_edges ap) with
  | Some e => Ok (snd e)
  | None => Raise IndexError
  end.

(** [SteeringBaseFeatures.median(features)]: [float(nan)] is harmless but
    [int(nan)] raises [ValueError]. *)
Definition features_median (features : list SteeringBaseFeatures)
  : res SteeringBaseFeatures :=
  let med (f : SteeringBaseFeatures -> Q) : res Q :=
    match np_median (map f features) with
    | Some q => Ok q
    | None => Raise ValueError
    end in
  let medz (f : SteeringBaseFeatures -> Z) : res Z :=
    q ← med (fun x => inject_Z (f x)); Ok (int_of_float q) in
  bs ← med base_score;
  is_ ← med impact_score;
  es ← med exploitability_score;
  av ← medz access_vector;
  ac ← medz access_complexity;
  au ← medz authentication;
  ci ← medz confidentiality_impact;
  ii ← medz integrity_impact;
  ai ← medz availability_impact;
  sv ← medz base_severity;
  Ok {| base_score := bs; impact_score := is_; exploitability_score := es;
        access_vector := av; access_complexity := ac; authentication := au;
        confidentiality_impact := ci; integrity_impact := ii;
        availability_impact := ai; base_severity := sv |}.

(** [to_features_vector()]. *)
Definition to_features_vector (ap : AttackPath) : res SteeringBaseFeatures :=
  features_median (map base_features (ap_vulns ap)).

(** One step of the loop of [from_trace]. *)
Definition parse_step (m : AttackGraphModel) (step : string)
  : res (Edge * Vulnerability) :=
  match split "#" step with
  | [priv_source; cve; priv_target] =>
      source ← match split "@" priv_source with
               | _ :: x :: _ => int_of_str x
               | _ => Raise IndexError
               end;
      target ← match split "@" priv_target with
               | _ :: x :: _ => int_of_str x
               | _ => Raise IndexError
               end;
      match vulnerabilties m !! cve with
      | Some v => Ok ((source, target), v)
      | None => Raise KeyError
      end
  | _ => Raise ValueError
  end.

Fixpoint parse_steps (m : AttackGraphModel) (steps : list string)
  : res (list (Edge * Vulnerability)) :=
  match steps with
  | [] => Ok []
  | step :: steps' =>
      ev ← parse_step m step;
      rest ← parse_steps m steps';
      Ok (ev :: rest)
  end.

(** [AttackPath.from_trace(trace, model)]. *)
Definition from_trace (trace : string) (m : AttackGraphModel) : res AttackPath :=
  evs ← parse_steps m (split "##" trace);
  AttackPath_init trace (map snd evs) (map fst evs).

Definition METRIC_STEPS : nat := 100.
Definition MAX_LENGTH : nat := 40.

(** [get_metric_index(value)]: [int(value / 10 * METRIC_STEPS)] in
    binary64, [value] being read as the float nearest to it. *)
Definition get_metric_index (value : Q) : Z :=
  let value := Float64.b64 value in
  if Qeq_bool value 10 then Z.of_nat METRIC_STEPS - 1
  else int_of_float (Float64.fmul (Float64.fdiv value 10)
                                  (inject_Z (Z.of_nat METRIC_STEPS))).

Record AttackPathStatistics : Type := {
  num_paths : nat;
  likelihoods : list nat;
  impacts : list nat;
  damages : list nat;
  scores : list nat;
  lengths : list nat;
  risks : list nat;
  hosts_count : gmap Z nat;
  edges_count : gmap Z (gmap Z nat);
  hosts_sum : nat;
  edges_sum : nat
}.

(** [AttackPathStatistics.__init__()]. *)
Definition AttackPathStatistics_init : AttackPathStatistics :=
  {| num_paths := 0;
     likelihoods := repeat 0 METRIC_STEPS;
     impacts := repeat 0 METRIC_STEPS;
     damages := repeat 0 METRIC_STEPS;
     scores := repeat 0 METRIC_STEPS;
     lengths := repeat 0 MAX_LENGTH;
     risks := repeat 0 METRIC_STEPS;
     hosts_count := ∅;
     edges_count := ∅;
     hosts_sum := 0;
     edges_sum := 0 |}.

Definition count_edge (ec : gmap Z (gmap Z nat)) (e : Edge) : gmap Z (gmap Z nat) :=
  let row := default ∅ (ec !! fst e) in
  <[fst e := <[snd e := S (default 0 (row !! snd e))]> row]> ec.

Definition count_host (hc : gmap Z nat) (h : Z) : gmap Z nat :=
  <[h := S (default 0 (hc !! h))]> hc.

(** [_update_hosts_and_edges(ap)]. *)
Definition _update_hosts_and_edges (st : AttackPathStatistics) (ap : AttackPath)
  : AttackPathStatistics :=
  {| num_paths := num_paths st;
     likelihoods := likelihoods st; impacts := impacts st;
     damages := damages st; scores := scores st;
     lengths := lengths st; risks := risks st;
     hosts_count := fold_left count_host (elements (ap_hosts ap)) (hosts_count st);
     edges_count := fold_left count_edge (ap_edges ap) (edges_count st);
     hosts_sum := hosts_sum st + size (ap_hosts ap);
     edges_sum := edges_sum st + length (ap_edges ap) |}.

(** The length tally of [update]:
    [if le >= MAX_LENGTH: lengths[MAX_LENGTH - 1] += 1 else: lengths[le] += 1]. *)
Definition tally_length (lengths : list nat) (le : nat) : res (list nat) :=
  if MAX_LENGTH <=? le
  then py_additem lengths (Z.of_nat MAX_LENGTH - 1) 1
  else py_additem lengths (Z.of_nat le) 1.

(** The body of the loop of [update], for one path. *)
Definition update_one (st : AttackPathStatistics) (ap : AttackPath)
  : res AttackPathStatistics :=
  let st := _update_hosts_and_edges st ap in
  li ← py_additem (likelihoods st) (get_metric_index (ap_likelihood ap)) 1;
  im ← py_additem (impacts st) (get_metric_index (ap_impact ap)) 1;
  sc ← py_additem (scores st) (get_metric_index (ap_score ap)) 1;
  ri ← py_additem (risks st) (get_metric_index (ap_risk ap)) 1;
  dg ← py_additem (damages st) (get_metric_index (ap_damage ap)) 1;
  le ← tally_length (lengths st) (ap_length ap);
  Ok {| num_paths := num_paths st;
        likelihoods := li; impacts := im; damages := dg; scores := sc;
        lengths := le; risks := ri;
        hosts_count := hosts_count st; edges_count := edges_count st;
        hosts_sum := hosts_sum st; edges_sum := edges_sum st |}.

Fixpoint update_loop (st : AttackPathStatistics) (new_paths : list AttackPath)
  : res AttackPathStatistics :=
  match new_paths with
  | [] => Ok st
  | ap :: rest => st' ← update_one st ap; update_loop st' rest
  end.

(** [AttackPathStatistics.update(new_paths)]. *)
Definition update (st : AttackPathStatistics) (new_paths : list AttackPath)
  : res AttackPathStatistics :=
  update_loop
    {| num_paths := num_paths st + length new_paths;
       likelihoods := likelihoods st; impacts := impacts st;
       damages := damages st; scores := scores st;
       lengths := lengths st; risks := risks st;
       hosts_count := hosts_count st; edges_count := edges_count st;
       hosts_sum := hosts_sum st; edges_sum := edges_sum st |}
    new_paths.

End AttackPaths.

(** ** progag/generation.py

    The generator is modelled as constructed with the default
    [db=None, db_path=None, csv_path=None]: [save_paths] and
    [save_stats_to_csv] then return at once. The wall-clock list [times]
    is left out. *)
Module Generation.
Import Vulnerabilities Model Sampling Builtins Statistics AttackPaths.

Definition SCORE_BINS : nat := 200.
Definition LENGTH_BINS : nat := 40.

Definition FiveFloats : Type := (Q * Q * Q * Q * Q)%type.

Record PathGenerator : Type := {
  gen_model : AttackGraphModel;
  path_sampler : PathSampler;
  sample_size : Z;
  iteration : nat;
  unique_hashes : gset string;
  collision : list Q;
  generated : list nat;
  statistics : option AttackPathStatistics;
  count_lik : list N;
  count_imp : list N;
  count_sco : list N;
  count_ris : list N;
  count_len : list N;
  prev_cdf_lik : list Q;
  prev_cdf_imp : list Q;
  prev_cdf_sco : list Q;
  prev_cdf_ris : list Q;
  prev_cdf_len : list Q;
  stability : list FiveFloats
}.

(** [PathGenerator.__init__] once the sampler is built. [stability] is an
    attribute of the class ([stability: list[...] = []] in the class
    body) that [__init__] does not rebind: the generators of a process,
    the steering ones included, append to one list. [found] is that list
    as the new generator finds it: empty for the first generator of the
    process, and what the earlier ones have appended for the others. *)
Definition PathGenerator_init (m : AttackGraphModel) (s : PathSampler)
    (sample_size : Z) (compute_statistics : bool) (found : list FiveFloats)
  : PathGenerator :=
  {| gen_model := m; path_sampler := s; sample_size := sample_size;
     iteration := 0; unique_hashes := ∅; collision := []; generated := [];
     statistics := if compute_statistics then Some AttackPathStatistics_init
                   else None;
     count_lik := repeat 0%N SCORE_BINS; count_imp := repeat 0%N SCORE_BINS;
     count_sco := repeat 0%N SCORE_BINS; count_ris := repeat 0%N SCORE_BINS;
     count_len := repeat 0%N LENGTH_BINS;
     prev_cdf_lik := repeat 0%Q SCORE_BINS; prev_cdf_imp := repeat 0%Q SCORE_BINS;
     prev_cdf_sco := repeat 0%Q SCORE_BINS; prev_cdf_ris := repeat 0%Q SCORE_BINS;
     prev_cdf_len := repeat 0%Q LENGTH_BINS;
     stability := found |}.

(** The list [stability] as [g] reads it after other generators of the
    process have appended [entries] to it. *)
Definition others_append (entries : list FiveFloats) (g : PathGenerator)
  : PathGenerator :=
  {| gen_model := gen_model g; path_sampler := path_sampler g;
     sample_size := sample_size g; iteration := iteration g;
     unique_hashes := unique_hashes g; collision := collision g;
     generated := generated g; statistics := statistics g;
     count_lik := count_lik g; count_imp := count_imp g;
     count_sco := count_sco g; count_ris := count_ris g;
     count_len := count_len g;
     prev_cdf_lik := prev_cdf_lik g; prev_cdf_imp := prev_cdf_imp g;
     prev_cdf_sco := prev_cdf_sco g; prev_cdf_ris := prev_cdf_ris g;
     prev_cdf_len := prev_cdf_len g;
     stability := stability g ++ entries |}.

(** *** The attack-path builder *)

(** The text one step of the trace records: [priv_on_source] has already
    been overwritten with [priv_gained] when the step is formatted. *)
Definition trace_step (priv_on_source : Privilege) (source_host : Z)
    (cve : string) (priv_gained : Privilege) (target_host : Z) : string :=
  PRIVILEGE_STR priv_on_source +:+ "@" +:+ str_of_int source_host +:+ "#"
  +:+ cve +:+ "#"
  +:+ PRIVILEGE_STR priv_gained +:+ "@" +:+ str_of_int target_host.

(** The [for source_host, target_host in path] loop of
    [convert_reachability_to_ap]. *)
Fixpoint exploit_loop (m : AttackGraphModel) (preferred_cves : option (gset string))
    (path : list Edge) (priv_on_source : Privilege)
    (exploited_vulns : list Vulnerability) (trace_steps : list string)
  : M (list Vulnerability * list string) :=
  match path with
  | [] => ret (exploited_vulns, trace_steps)
  | (source_host, target_host) :: rest =>
      cve <~ sample_cve_on_host m target_host priv_on_source preferred_cves ;;
      match cve with
      | None => ret (exploited_vulns, trace_steps)
      | Some cve =>
          match vulnerabilties m !! cve with
          | None => raise KeyError
          | Some vuln =>
              let priv_gained := priv_gained vuln in
              let priv_on_source := priv_gained in
              exploit_loop m preferred_cves rest priv_on_source
                (exploited_vulns ++ [vuln])
                (trace_steps ++ [trace_step priv_on_source source_host cve
                                            priv_gained target_host])
          end
      end
  end.

(** [convert_reachability_to_ap(path, preferred_cves)]. *)
Definition convert_reachability_to_ap (m : AttackGraphModel) (path : list Edge)
    (preferred_cves : option (gset string)) : M (option AttackPath) :=
  vt <~ exploit_loop m preferred_cves path PRIV_GUEST [] [] ;;
  let '(exploited_vulns, trace_steps) := vt in
  match exploited_vulns with
  | [] => ret None
  | _ =>
      let trace := join "##" trace_steps in
      let ap_length := length exploited_vulns in
      ap <~ lift (AttackPath_init trace exploited_vulns (firstn ap_length path)) ;;
      ret (Some ap)
  end.

(** *** Stability *)

(** [_score_to_bin(score)]: [int(score / 10 * SCORE_BINS)] in binary64,
    [score] being read as the float nearest to it. *)
Definition _score_to_bin (score : Q) : Z :=
  let score := Float64.b64 score in
  if Qeq_bool score 10 then Z.of_nat SCORE_BINS - 1
  else int_of_float (Float64.fmul (Float64.fdiv score 10)
                                  (inject_Z (Z.of_nat SCORE_BINS))).

(** [count[i] += 1] on a [numpy.uint64] array. *)
Definition np_incr (count : list N) (i : Z) : res (list N) :=
  k ← py_index (length count) i;
  Ok (alter (fun c => ((c + 1) mod 2 ^ 64)%N) k count).

(** The length tally of [update_stability]. *)
Definition tally_count_len (count_len : list N) (le : nat) : res (list N) :=
  if LENGTH_BINS <? le then np_incr count_len (Z.of_nat LENGTH_BINS - 1)
  else if 1 <=? le then np_incr count_len (Z.of_nat le - 1)
  else Ok count_len.

Fixpoint cumsum (acc : Q) (l : list N) : list Q :=
  match l with
  | [] => []
  | x :: l' => let acc := Qred (acc + inject_Z (Z.of_N x)) in acc :: cumsum acc l'
  end.

(** [_measurements_to_cdf(metrics)]. *)
Definition _measurements_to_cdf (metrics : list N) : list Q :=
  let cdf := cumsum 0 metrics in
  let total := List.last cdf 0%Q in
  if negb (Qle_bool total 0) then map (fun x => Qred (x / total)) cdf
  else map (fun _ => 0%Q) cdf.

Definition Qabs_diff (a b : Q) : Q := Qred (Qabs (a - b)).
Definition Qmax (a b : Q) : Q := if Qle_bool a b then b else a.

(** [statistical_difference(cdf1, cdf2)]. *)
Definition statistical_difference (cdf1 cdf2 : list Q) : Q :=
  fold_right Qmax 0%Q (map (fun p => Qabs_diff (fst p) (snd p)) (combine cdf1 cdf2)).

Record Counts : Type := {
  c_lik : list N; c_imp : list N; c_sco : list N; c_ris : list N; c_len : list N
}.

Fixpoint count_paths (c : Counts) (new_paths : list AttackPath) : res Counts :=
  match new_paths with
  | [] => Ok c
  | path :: rest =>
      lik ← np_incr (c_lik c) (_score_to_bin (ap_likelihood path));
      imp ← np_incr (c_imp c) (_score_to_bin (ap_impact path));
      sco ← np_incr (c_sco c) (_score_to_bin (ap_score path));
      ris ← np_incr (c_ris c) (_score_to_bin (ap_risk path));
      len ← tally_count_len (c_len c) (ap_length path);
      count_paths {| c_lik := lik; c_imp := imp; c_sco := sco;
                     c_ris := ris; c_len := len |} rest
  end.

(** [update_stability(new_paths)]. *)
Definition update_stability (g : PathGenerator) (new_paths : list AttackPath)
  : res PathGenerator :=
  c ← count_paths {| c_lik := count_lik g; c_imp := count_imp g;
                     c_sco := count_sco g; c_ris := count_ris g;
                     c_len := count_len g |} new_paths;
  let cdf_lik := _measurements_to_cdf (c_lik c) in
  let cdf_imp := _measurements_to_cdf (c_imp c) in
  let cdf_sco := _measurements_to_cdf (c_sco c) in
  let cdf_ris := _measurements_to_cdf (c_ris c) in
  let cdf_len := _measurements_to_cdf (c_len c) in
  let stability' :=
    if 0 <? iteration g then
      stability g ++
      [(Qred (1 - statistical_difference (prev_cdf_lik g) cdf_lik),
        Qred (1 - statistical_difference (prev_cdf_imp g) cdf_imp),
        Qred (1 - statistical_difference (prev_cdf_sco g) cdf_sco),
        Qred (1 - statistical_difference (prev_cdf_ris g) cdf_ris),
        Qred (1 - statistical_difference (prev_cdf_len g) cdf_len))]
    else stability g in
  Ok {| gen_model := gen_model g; path_sampler := path_sampler g;
        sample_size := sample_size g; iteration := iteration g;
        unique_hashes := unique_hashes g; collision := collision g;
        generated := generated g; statistics := statistics g;
        count_lik := c_lik c; count_imp := c_imp c; count_sco := c_sco c;
        count_ris := c_ris c; count_len := c_len c;
        prev_cdf_lik := cdf_lik; prev_cdf_imp := cdf_imp;
        prev_cdf_sco := cdf_sco; prev_cdf_ris := cdf_ris;
        prev_cdf_len := cdf_len;
        stability := stability' |}.

(** *** Sampling attack paths *)

Section WithStrategy.

(** [self.path_sampler.strategy.sample]: any implementation of the abstract
    class [SamplingStrategy]. *)
Variable strategy : PathSampler -> M (list Edge).

(** The local variables of [sample_attack_paths] together with the two
    objects its loop mutates. *)
Record SampleState : Type := {
  ss_sampler : PathSampler;
  ss_unique_hashes : gset string;
  ss_attack_paths : list AttackPath;
  ss_sampled_aps : nat;
  ss_collisions : nat
}.

(** The loop of [sample_attack_paths] fused with the generator
    [sample_reachability_paths] it consumes lazily: [todo] counts the
    remaining iterations of [for i in range(self.sample_size)]. *)
Fixpoint sample_loop (m : AttackGraphModel) (sample_size : Z)
    (preferred_cves : option (gset string)) (todo : nat) (st : SampleState)
  : M SampleState :=
  match todo with
  | O => ret st
  | S todo' =>
      ps <~ sample_path strategy (ss_sampler st) ;;
      let '(path, sampler') := ps in
      let st := {| ss_sampler := sampler';
                   ss_unique_hashes := ss_unique_hashes st;
                   ss_attack_paths := ss_attack_paths st;
                   ss_sampled_aps := ss_sampled_aps st;
                   ss_collisions := ss_collisions st |} in
      match path with
      | [] => sample_loop m sample_size preferred_cves todo' st
      | _ =>
          if (Z.of_nat (ss_sampled_aps st) =? sample_size)%Z then ret st
          else
            ap <~ convert_reachability_to_ap m path preferred_cves ;;
            match ap with
            | None => sample_loop m sample_size preferred_cves todo' st
            | Some ap =>
                let st :=
                  if bool_decide (ap_hash ap ∈ ss_unique_hashes st)
                  then {| ss_sampler := ss_sampler st;
                          ss_unique_hashes := ss_unique_hashes st;
                          ss_attack_paths := ss_attack_paths st;
                          ss_sampled_aps := S (ss_sampled_aps st);
                          ss_collisions := S (ss_collisions st) |}
                  else {| ss_sampler := ss_sampler st;
                          ss_unique_hashes := {[ap_hash ap]} ∪ ss_unique_hashes st;
                          ss_attack_paths := ss_attack_paths st ++ [ap];
                          ss_sampled_aps := S (ss_sampled_aps st);
                          ss_collisions := ss_collisions st |} in
                sample_loop m sample_size preferred_cves todo' st
            end
      end
  end.

(** [sample_attack_paths(preferred_cves)]: the new paths and the generator
    when the call returns. What a call that raises leaves in the generator
    is given by [sample_attack_paths_leaves] below. *)
Definition sample_attack_paths (g : PathGenerator)
    (preferred_cves : option (gset string)) : M (list AttackPath * PathGenerator) :=
  st <~ sample_loop (gen_model g) (sample_size g) preferred_cves
          (Z.to_nat (sample_size g))
          {| ss_sampler := path_sampler g;
             ss_unique_hashes := unique_hashes g;
             ss_attack_paths := [];
             ss_sampled_aps := 0;
             ss_collisions := 0 |} ;;
  let sampled_aps := ss_sampled_aps st in
  let collisions := ss_collisions st in
  ret (ss_attack_paths st,
       {| gen_model := gen_model g; path_sampler := ss_sampler st;
          sample_size := sample_size g; iteration := iteration g;
          unique_hashes := ss_unique_hashes st;
          collision := collision g ++
            [if 0 <? sampled_aps
             then Qred (inject_Z (Z.of_nat collisions) / inject_Z (Z.of_nat sampled_aps))
             else 0%Q];
          generated := generated g ++ [sampled_aps - collisions];
          statistics := statistics g;
          count_lik := count_lik g; count_imp := count_imp g;
          count_sco := count_sco g; count_ris := count_ris g;
          count_len := count_len g;
          prev_cdf_lik := prev_cdf_lik g; prev_cdf_imp := prev_cdf_imp g;
          prev_cdf_sco := prev_cdf_sco g; prev_cdf_ris := prev_cdf_ris g;
          prev_cdf_len := prev_cdf_len g;
          stability := stability g |}).

(** The set [self.unique_hashes] when the loop of [sample_attack_paths]
    stops, whether it ends or raises: the loop adds the hash of a path as
    soon as it has built it, so that the hashes added before
    [sample_path] or the builder raises stay in the set. *)
Fixpoint hashes_after_loop (m : AttackGraphModel) (sample_size : Z)
    (preferred_cves : option (gset string)) (todo : nat) (st : SampleState)
    (r : Rng) : gset string :=
  match todo with
  | O => ss_unique_hashes st
  | S todo' =>
      match sample_path strategy (ss_sampler st) r with
      | Raise _ => ss_unique_hashes st
      | Ok ((path, sampler'), r) =>
          let st := {| ss_sampler := sampler';
                       ss_unique_hashes := ss_unique_hashes st;
                       ss_attack_paths := ss_attack_paths st;
                       ss_sampled_aps := ss_sampled_aps st;
                       ss_collisions := ss_collisions st |} in
          match path with
          | [] => hashes_after_loop m sample_size preferred_cves todo' st r
          | _ =>
              if (Z.of_nat (ss_sampled_aps st) =? sample_size)%Z
              then ss_unique_hashes st
              else
                match convert_reachability_to_ap m path preferred_cves r with
                | Raise _ => ss_unique_hashes st
                | Ok (None, r) =>
                    hashes_after_loop m sample_size preferred_cves todo' st r
                | Ok (Some ap, r) =>
                    let st :=
                      if bool_decide (ap_hash ap ∈ ss_unique_hashes st)
                      then {| ss_sampler := ss_sampler st;
                              ss_unique_hashes := ss_unique_hashes st;
                              ss_attack_paths := ss_attack_paths st;
                              ss_sampled_aps := S (ss_sampled_aps st);
                              ss_collisions := S (ss_collisions st) |}
                      else {| ss_sampler := ss_sampler st;
                              ss_unique_hashes :=
                                {[ap_hash ap]} ∪ ss_unique_hashes st;
                              ss_attack_paths := ss_attack_paths st ++ [ap];
                              ss_sampled_aps := S (ss_sampled_aps st);
                              ss_collisions := ss_collisions st |} in
                    hashes_after_loop m sample_size preferred_cves todo' st r
                end
          end
      end
  end.

(** [self.unique_hashes] and [self.generated] as a call of
    [sample_attack_paths] leaves them. A call that raises does so in its
    loop: the hashes are those added so far, and [generated], which is
    appended to after the loop, is as before. *)
Definition sample_attack_paths_leaves (g : PathGenerator)
    (preferred_cves : option (gset string)) (r : Rng)
  : gset string * list nat :=
  match sample_attack_paths g preferred_cves r with
  | Ok ((_, g'), _) => (unique_hashes g', generated g')
  | Raise _ =>
      (hashes_after_loop (gen_model g) (sample_size g) preferred_cves
         (Z.to_nat (sample_size g))
         {| ss_sampler := path_sampler g;
            ss_unique_hashes := unique_hashes g;
            ss_attack_paths := [];
            ss_sampled_aps := 0;
            ss_collisions := 0 |} r,
       generated g)
  end.

(** [self.statistics.update(paths)] when statistics are computed. *)
Definition update_statistics (g : PathGenerator) (paths : list AttackPath)
  : res PathGenerator :=
  st ← match statistics g with
       | Some st => st' ← update st paths; Ok (Some st')
       | None => Ok None
       end;
  Ok {| gen_model := gen_model g; path_sampler := path_sampler g;
        sample_size := sample_size g; iteration := iteration g;
        unique_hashes := unique_hashes g; collision := collision g;
        generated := generated g; statistics := st;
        count_lik := count_lik g; count_imp := count_imp g;
        count_sco := count_sco g; count_ris := count_ris g;
        count_len := count_len g;
        prev_cdf_lik := prev_cdf_lik g; prev_cdf_imp := prev_cdf_imp g;
        prev_cdf_sco := prev_cdf_sco g; prev_cdf_ris := prev_cdf_ris g;
        prev_cdf_len := prev_cdf_len g;
        stability := stability g |}.

(** [self.iteration += 1]. *)
Definition next_iteration (g : PathGenerator) : PathGenerator :=
  {| gen_model := gen_model g; path_sampler := path_sampler g;
     sample_size := sample_size g; iteration := S (iteration g);
     unique_hashes := unique_hashes g; collision := collision g;
     generated := generated g; statistics := statistics g;
     count_lik := count_lik g; count_imp := count_imp g;
     count_sco := count_sco g; count_ris := count_ris g;
     count_len := count_len g;
     prev_cdf_lik := prev_cdf_lik g; prev_cdf_imp := prev_cdf_imp g;
     prev_cdf_sco := prev_cdf_sco g; prev_cdf_ris := prev_cdf_ris g;
     prev_cdf_len := prev_cdf_len g;
     stability := stability g |}.

(** [PathGenerator.step()]. *)
Definition step (g : PathGenerator) : M (list AttackPath * PathGenerator) :=
  pg <~ sample_attack_paths g None ;;
  let '(attack_paths, g) := pg in
  g <~ lift (update_stability g attack_paths) ;;
  g <~ lift (update_statistics g attack_paths) ;;
  ret (attack_paths, next_iteration g).

(** [self.unique_hashes] and [self.generated] as a call of [step] leaves
    them, whether it returns or raises: what follows
    [sample_attack_paths] in [step] writes neither. *)
Definition step_leaves (g : PathGenerator) (r : Rng) : gset string * list nat :=
  sample_attack_paths_leaves g None r.

End WithStrategy.

(** *** The summary of an iteration *)

(** The dictionary that [iteration_summary] returns, one field per key. *)
Record IterationSummary : Type := {
  sum_iteration : Z;
  sum_generated : nat;
  sum_collision : Q;
  sum_st_likelihood : option Q;
  sum_st_impact : option Q;
  sum_st_risk : option Q;
  sum_st_score : option Q;
  sum_st_length : option Q;
  sum_time : Q
}.

(** [t[0]] ... [t[4]] on a tuple of [stability]. *)
Definition five_0 (t : FiveFloats) : Q := let '(a, _, _, _, _) := t in a.
Definition five_1 (t : FiveFloats) : Q := let '(_, b, _, _, _) := t in b.
Definition five_2 (t : FiveFloats) : Q := let '(_, _, c, _, _) := t in c.
Definition five_3 (t : FiveFloats) : Q := let '(_, _, _, d, _) := t in d.
Definition five_4 (t : FiveFloats) : Q := let '(_, _, _, _, e) := t in e.

(** [None if i == 0 else self.stability[i-1][k]]. *)
Definition stability_entry (g : PathGenerator) (i : Z) (k : FiveFloats -> Q)
  : res (option Q) :=
  if (i =? 0)%Z then Ok None
  else t ← py_getitem (stability g) (i - 1); Ok (Some (k t)).

(** [iteration_summary(i)]. [times] is [self.times], the wall-clock
    durations that [step] appends, one per iteration. *)
Definition iteration_summary (g : PathGenerator) (times : list Q) (i : option Z)
  : res IterationSummary :=
  let i := match i with
           | Some i => i
           | None => (Z.of_nat (iteration g) - 1)%Z
           end in
  gen ← py_getitem (generated g) i;
  col ← py_getitem (collision g) i;
  st_likelihood ← stability_entry g i five_0;
  st_impact ← stability_entry g i five_1;
  st_risk ← stability_entry g i five_2;
  st_score ← stability_entry g i five_3;
  st_length ← stability_entry g i five_4;
  time ← py_getitem times i;
  Ok {| sum_iteration := i; sum_generated := gen; sum_collision := col;
        sum_st_likelihood := st_likelihood; sum_st_impact := st_impact;
        sum_st_risk := st_risk; sum_st_score := st_score;
        sum_st_length := st_length; sum_time := time |}.

End Generation.

(** ** progag/steering.py *)
Module Steering.
Import Vulnerabilities Model Sampling Builtins Statistics AttackPaths Generation.

Record AttackPathQuery : Type := {
  likelihood_range : option (Q * Q);
  impact_range : option (Q * Q);
  score_range : option (Q * Q);
  risk_range : option (Q * Q);
  length_range : option (Z * Z);
  sources : option (list Z);
  targets : option (list Z)
}.

Definition in_range (range : option (Q * Q)) (x : Q) : bool :=
  match range with
  | Some (a, b) => Qle_bool a x && Qle_bool x b
  | None => true
  end.

(** [check_bounds(attack_path)]. *)
Definition check_bounds (q : AttackPathQuery) (attack_path : AttackPath) : bool :=
  in_range (likelihood_range q) (ap_likelihood attack_path)
  && in_range (impact_range q) (ap_impact attack_path)
  && in_range (score_range q) (ap_score attack_path)
  && in_range (risk_range q) (ap_risk attack_path)
  && match length_range q with
     | Some (a, b) => ((a <=? Z.of_nat (ap_length attack_path))
                       && (Z.of_nat (ap_length attack_path) <=? b))%Z
     | None => true
     end.

Record SteeringPathGenerator : Type := {
  base : PathGenerator;
  query : AttackPathQuery;
  disable_steering : bool;
  min_dataset_size : Z;
  max_dataset_size : Z;
  query_aps : list AttackPath;
  nonquery_aps : list AttackPath;
  query_hashes : gset string;
  query_generated : list nat;
  precision : list Q;
  steering : list bool;
  steering_compliant_vulns : gset string
}.

(** [SteeringPathGenerator.__init__] once the query's sampler is built;
    [found] is the list [stability] of the class [PathGenerator], which the
    subclass inherits, as the new generator finds it. *)
Definition SteeringPathGenerator_init (m : AttackGraphModel) (s : PathSampler)
    (q : AttackPathQuery) (min_training_size max_training_size sample_size : Z)
    (compute_statistics disable_steering : bool) (found : list FiveFloats)
  : SteeringPathGenerator :=
  {| base := PathGenerator_init m s sample_size compute_statistics found;
     query := q; disable_steering := disable_steering;
     min_dataset_size := min_training_size;
     max_dataset_size := max_training_size;
     query_aps := []; nonquery_aps := []; query_hashes := ∅;
     query_generated := []; precision := []; steering := [];
     steering_compliant_vulns := ∅ |}.

Definition with_base (g : SteeringPathGenerator) (b : PathGenerator)
  : SteeringPathGenerator :=
  {| base := b; query := query g; disable_steering := disable_steering g;
     min_dataset_size := min_dataset_size g;
     max_dataset_size := max_dataset_size g;
     query_aps := query_aps g; nonquery_aps := nonquery_aps g;
     query_hashes := query_hashes g; query_generated := query_generated g;
     precision := precision g; steering := steering g;
     steering_compliant_vulns := steering_compliant_vulns g |}.

(** [_can_steer()]. *)
Definition _can_steer (g : SteeringPathGenerator) : bool :=
  if disable_steering g then false
  else ((min_dataset_size g <=? Z.of_nat (length (query_aps g)))
        && (min_dataset_size g <=? Z.of_nat (length (nonquery_aps g))))%Z.

(** [l[-n:]] for a positive [n]. *)
Definition last_n {A} (n : nat) (l : list A) : list A := skipn (length l - n) l.

(** The test of [step] that decides whether the classifier is trained
    again:
    [last_five = self.precision[-5:]; avg = sum(last_five) / 5.0;
     update_steering_vulns = avg <= self.precision[-1]];
    [self.precision[-1]] raises [IndexError] on an empty history. The
    entries are floats (each the quotient of two counts, or [0]); [sum]
    adds them from left to right, one rounding per addition, and the
    division rounds once more. *)
Definition update_steering_vulns (precision : list Q) : res bool :=
  let last_five := last_n 5 precision in
  let avg := Float64.fdiv (Float64.fsum last_five) 5 in
  match last precision with
  | Some p => Ok (Qle_bool avg (Float64.b64 p))
  | None => Raise IndexError
  end.

(** [update_steering_vulns or len(self.steering_compliant_vulns) == 0]. *)
Definition retrains (g : SteeringPathGenerator) : res bool :=
  u ← update_steering_vulns (precision g);
  Ok (u || (size (steering_compliant_vulns g) =? 0)).

(** The split of [update_paths]. *)
Definition split_paths (q : AttackPathQuery) (new_paths : list AttackPath)
  : list AttackPath * list AttackPath :=
  (List.filter (check_bounds q) new_paths,
   List.filter (fun p => negb (check_bounds q p)) new_paths).

(** [buffer = buffer[-MAX:]] when [len(buffer) > MAX]. *)
Definition trim (MAX : Z) (buffer : list AttackPath) : list AttackPath :=
  if (MAX <? Z.of_nat (length buffer))%Z then
    if (0 <? MAX)%Z then last_n (Z.to_nat MAX) buffer
    else if (MAX =? 0)%Z then buffer
    else skipn (Z.to_nat (- MAX)) buffer
  else buffer.

(** [update_paths(new_paths)]. *)
Definition update_paths (g : SteeringPathGenerator) (new_paths : list AttackPath)
  : (list AttackPath * list AttackPath) * SteeringPathGenerator :=
  let '(q_aps, n_aps) := split_paths (query g) new_paths in
  let total := length q_aps + length n_aps in
  let p := if total =? 0 then 0%Q
           else Qred (inject_Z (Z.of_nat (length q_aps)) / inject_Z (Z.of_nat total)) in
  ((q_aps, n_aps),
   {| base := base g; query := query g; disable_steering := disable_steering g;
      min_dataset_size := min_dataset_size g;
      max_dataset_size := max_dataset_size g;
      query_aps := trim (max_dataset_size g) (query_aps g ++ q_aps);
      nonquery_aps := trim (max_dataset_size g) (nonquery_aps g ++ n_aps);
      query_hashes := query_hashes g; query_generated := query_generated g;
      precision := precision g ++ [p]; steering := steering g;
      steering_compliant_vulns := steering_compliant_vulns g |}).

Section WithStrategyAndClassifier.

Variable strategy : PathSampler -> M (list Edge).

(** [DecisionTreeClassifier(class_weight="balanced").fit(X, Y).predict]:
    from the labelled feature vectors to the predicate the fitted tree
    computes. *)
Variable classifier :
  list (SteeringBaseFeatures * bool) -> res (SteeringBaseFeatures -> bool).

Fixpoint labelled (label : bool) (aps : list AttackPath)
  : res (list (SteeringBaseFeatures * bool)) :=
  match aps with
  | [] => Ok []
  | ap :: rest =>
      f ← to_features_vector ap;
      fs ← labelled label rest;
      Ok ((f, label) :: fs)
  end.

(** [update_steering_compliant_vulns()]. *)
Definition update_steering_compliant_vulns (g : SteeringPathGenerator)
  : res SteeringPathGenerator :=
  q_features ← labelled true (query_aps g);
  n_features ← labelled false (nonquery_aps g);
  predict ← classifier (q_features ++ n_features);
  let compliant : gset string :=
    dom (filter (fun kv => predict (base_features (snd kv)) = true)
                (vulnerabilties (gen_model (base g)))) in
  Ok {| base := base g; query := query g; disable_steering := disable_steering g;
        min_dataset_size := min_dataset_size g;
        max_dataset_size := max_dataset_size g;
        query_aps := query_aps g; nonquery_aps := nonquery_aps g;
        query_hashes := query_hashes g; query_generated := query_generated g;
        precision := precision g; steering := steering g;
        steering_compliant_vulns := compliant |}.

(** [_advance_iteration(attack_paths)]. *)
Definition _advance_iteration (g : SteeringPathGenerator)
    (attack_paths : list AttackPath)
  : res ((list AttackPath * list AttackPath) * SteeringPathGenerator) :=
  let '((q_aps, n_aps), g) := update_paths g attack_paths in
  b ← update_stability (base g) q_aps;
  b ← update_statistics b q_aps;
  Ok ((q_aps, n_aps),
      {| base := b; query := query g; disable_steering := disable_steering g;
         min_dataset_size := min_dataset_size g;
         max_dataset_size := max_dataset_size g;
         query_aps := query_aps g; nonquery_aps := nonquery_aps g;
         query_hashes := list_to_set (map ap_hash q_aps) ∪ query_hashes g;
         query_generated := query_generated g ++ [length q_aps];
         precision := precision g; steering := steering g;
         steering_compliant_vulns := steering_compliant_vulns g |}).

(** The end of [step] and of [add_bootstrap]:
    [self.steering.append(steering)] and [self.iteration += 1]. *)
Definition finish_iteration (g : SteeringPathGenerator) (steered : bool)
  : SteeringPathGenerator :=
  {| base := next_iteration (base g); query := query g;
     disable_steering := disable_steering g;
     min_dataset_size := min_dataset_size g;
     max_dataset_size := max_dataset_size g;
     query_aps := query_aps g; nonquery_aps := nonquery_aps g;
     query_hashes := query_hashes g; query_generated := query_generated g;
     precision := precision g; steering := steering g ++ [steered];
     steering_compliant_vulns := steering_compliant_vulns g |}.

(** [SteeringPathGenerator.step()]. *)
Definition step (g : SteeringPathGenerator)
  : M ((list AttackPath * list AttackPath) * SteeringPathGenerator) :=
  sg <~ (if _can_steer g then
           again <~ lift (retrains g) ;;
           g <~ lift (if again : bool then update_steering_compliant_vulns g
                      else Ok g) ;;
           pb <~ sample_attack_paths strategy (base g)
                   (Some (steering_compliant_vulns g)) ;;
           ret (true, fst pb, with_base g (snd pb))
         else
           pb <~ sample_attack_paths strategy (base g) None ;;
           ret (false, fst pb, with_base g (snd pb))) ;;
  let '(steered, attack_paths, g) := sg in
  rg <~ lift (_advance_iteration g attack_paths) ;;
  ret (fst rg, finish_iteration (snd rg) steered).

Fixpoint from_traces (m : AttackGraphModel) (paths : list string)
  : res (list AttackPath) :=
  match paths with
  | [] => Ok []
  | p :: rest =>
      ap ← from_trace p m;
      aps ← from_traces m rest;
      Ok (ap :: aps)
  end.

Fixpoint update_weights_all (s : PathSampler) (aps : list AttackPath)
  : res PathSampler :=
  match aps with
  | [] => Ok s
  | ap :: rest => s' ← _update_weights s (ap_edges ap); update_weights_all s' rest
  end.

(** [b.generated.append(n); b.collision.append(0);
     b.unique_hashes.update(hashes)]. *)
Definition pretend_sampled (b : PathGenerator) (attack_paths : list AttackPath)
  : PathGenerator :=
  {| gen_model := gen_model b; path_sampler := path_sampler b;
     sample_size := sample_size b; iteration := iteration b;
     unique_hashes := list_to_set (map ap_hash attack_paths) ∪ unique_hashes b;
     collision := collision b ++ [0%Q];
     generated := generated b ++ [length attack_paths];
     statistics := statistics b;
     count_lik := count_lik b; count_imp := count_imp b;
     count_sco := count_sco b; count_ris := count_ris b;
     count_len := count_len b;
     prev_cdf_lik := prev_cdf_lik b; prev_cdf_imp := prev_cdf_imp b;
     prev_cdf_sco := prev_cdf_sco b; prev_cdf_ris := prev_cdf_ris b;
     prev_cdf_len := prev_cdf_len b;
     stability := stability b |}.

Definition with_sampler (b : PathGenerator) (s : PathSampler) : PathGenerator :=
  {| gen_model := gen_model b; path_sampler := s;
     sample_size := sample_size b; iteration := iteration b;
     unique_hashes := unique_hashes b; collision := collision b;
     generated := generated b; statistics := statistics b;
     count_lik := count_lik b; count_imp := count_imp b;
     count_sco := count_sco b; count_ris := count_ris b;
     count_len := count_len b;
     prev_cdf_lik := prev_cdf_lik b; prev_cdf_imp := prev_cdf_imp b;
     prev_cdf_sco := prev_cdf_sco b; prev_cdf_ris := prev_cdf_ris b;
     prev_cdf_len := prev_cdf_len b;
     stability := stability b |}.

(** [add_bootstrap(paths)]. *)
Definition add_bootstrap (g : SteeringPathGenerator) (paths : list string)
  : res ((list AttackPath * list AttackPath) * SteeringPathGenerator) :=
  attack_paths ← from_traces (gen_model (base g)) paths;
  let g := with_base g (pretend_sampled (base g) attack_paths) in
  rg ← _advance_iteration g attack_paths;
  let '(result, g) := rg in
  s ← (if use_dynamic_weights (path_sampler (base g))
       then update_weights_all (path_sampler (base g)) attack_paths
       else Ok (path_sampler (base g)));
  Ok (result, finish_iteration (with_base g (with_sampler (base g) s)) false).

(** [self.unique_hashes] and [self.generated] as a call of [step] leaves
    them, whether it returns or raises: only [sample_attack_paths] writes
    them. *)
Definition step_leaves (g : SteeringPathGenerator) (r : Rng)
  : gset string * list nat :=
  if _can_steer g then
    match retrains g with
    | Raise _ => (unique_hashes (base g), generated (base g))
    | Ok again =>
        match (if again : bool then update_steering_compliant_vulns g
               else Ok g) with
        | Raise _ => (unique_hashes (base g), generated (base g))
        | Ok g =>
            sample_attack_paths_leaves strategy (base g)
              (Some (steering_compliant_vulns g)) r
        end
    end
  else sample_attack_paths_leaves strategy (base g) None r.

(** The same for [add_bootstrap]: it raises before it writes them, when a
    trace does not parse, or after it has written both. *)
Definition add_bootstrap_leaves (g : SteeringPathGenerator)
    (paths : list string) : gset string * list nat :=
  match from_traces (gen_model (base g)) paths with
  | Raise _ => (unique_hashes (base g), generated (base g))
  | Ok attack_paths =>
      (unique_hashes (pretend_sampled (base g) attack_paths),
       generated (pretend_sampled (base g) attack_paths))
  end.

End WithStrategyAndClassifier.

(** The dictionary of [SteeringPathGenerator.iteration_summary]: the one of
    the base class with two more keys. *)
Record SteeringSummary : Type := {
  prev_summary : IterationSummary;
  sum_steering : bool;
  sum_precision : Q
}.

(** [SteeringPathGenerator.iteration_summary(i)]. *)
Definition iteration_summary (g : SteeringPathGenerator) (times : list Q)
    (i : option Z) : res SteeringSummary :=
  let i := match i with
           | Some i => i
           | None => (Z.of_nat (iteration (base g)) - 1)%Z
           end in
  prev ← Generation.iteration_summary (base g) times (Some i);
  st ← py_getitem (steering g) i;
  p ← py_getitem (precision g) i;
  Ok {| prev_summary := prev; sum_steering := st; sum_precision := p |}.

End Steering.

(** ** server/joint.py *)
Module Joint.
Import Builtins AttackPaths.

(** The loop of [_compute_histograms] for the attribute ["length"], over
    the items of [attr_data.value_counts()]: every distinct length of the
    query result with the number of rows that have it. *)
Fixpoint fill_lengths (histogram : list nat) (len_counts : list (Z * nat))
  : res (list nat) :=
  match len_counts with
  | [] => Ok histogram
  | (le, count) :: rest =>
      h ← (if (Z.of_nat MAX_LENGTH <=? le)%Z
           then py_setitem histogram (Z.of_nat MAX_LENGTH - 1) count
           else py_setitem histogram le count);
      fill_lengths h rest
  end.

Definition length_histogram (len_counts : list (Z * nat)) : res (list nat) :=
  fill_lengths (repeat 0 MAX_LENGTH) len_counts.

(** The loop for the other attributes. *)
Fixpoint fill_metric (histogram : list nat) (oth_counts : list (Q * nat))
  : res (list nat) :=
  match oth_counts with
  | [] => Ok histogram
  | (val, count) :: rest =>
      h ← py_additem histogram (get_metric_index val) count;
      fill_metric h rest
  end.

Definition metric_histogram (oth_counts : list (Q * nat)) : res (list nat) :=
  fill_metric (repeat 0 METRIC_STEPS) oth_counts.

End Joint.

(** ** progag/testing/ground_truth.py

    The exhaustive enumeration the sampled paths are compared with. The
    generators are consumed with [list(...)]: a call returns the list of
    what it yields, or raises what the first failing step raises. The
    database and the timings are left out, and so is
    [networkx.transitive_closure], whose result reaches the functions below
    as the dictionary [has_path]. *)
Module GroundTruth.
Import Vulnerabilities Model Sampling Builtins Statistics AttackPaths Generation.

(** The [for next_node in successors[current_node]] loop of
    [_all_simple_paths_source_to_target]; [deeper] is the recursive call on
    the path extended by [next_node]. *)
Fixpoint extend_path (deeper : list Z -> res (list (list Z)))
    (current_path : list Z) (target : Z) (has_path : gmap (Z * Z) bool)
    (next_nodes : list Z) : res (list (list Z)) :=
  match next_nodes with
  | [] => Ok []
  | next_node :: rest =>
      if (next_node =? target)%Z then
        more ← extend_path deeper current_path target has_path rest;
        Ok ((current_path ++ [next_node]) :: more)
      else if bool_decide (next_node ∈ current_path) then
        extend_path deeper current_path target has_path rest
      else
        match has_path !! (next_node, target) with
        | None => Raise KeyError
        | Some false => extend_path deeper current_path target has_path rest
        | Some true =>
            found ← deeper (current_path ++ [next_node]);
            more ← extend_path deeper current_path target has_path rest;
            Ok (found ++ more)
        end
  end.

(** [_all_simple_paths_source_to_target(G, current_path, target, has_path,
    successors, cutoff)] for a [cutoff] that is not negative: the recursion
    counts it down to 0. The graph [G] is passed along and never read. *)
Fixpoint _all_simple_paths_source_to_target (cutoff : nat) (current_path : list Z)
    (target : Z) (has_path : gmap (Z * Z) bool) (successors : gmap Z (list Z))
  : res (list (list Z)) :=
  match cutoff with
  | O => Ok []
  | S cutoff' =>
      match last current_path with
      | None => Raise IndexError
      | Some current_node =>
          match successors !! current_node with
          | None => Raise KeyError
          | Some next_nodes =>
              extend_path
                (fun path => _all_simple_paths_source_to_target cutoff' path target
                               has_path successors)
                current_path target has_path next_nodes
          end
      end
  end.

(** The tuple [APEssentials]: trace, likelihood, impact, score, risk and
    length. *)
Definition APEssentials : Type := (string * Q * Q * Q * Q * nat)%type.

(** The base case of [_all_attack_paths_from_rp]: the metrics of the
    vulnerabilities exploited along the whole path. *)
Definition essentials (trace : list string) (vulns : list Vulnerability)
  : res APEssentials :=
  likelihood ← (if length vulns =? 0 then Raise ZeroDivisionError
                else Ok (Qred (fold_left Qplus (map likelihood vulns) 0%Q
                               / inject_Z (Z.of_nat (length vulns)))));
  impact ← match last vulns with
           | Some v => Ok (impact v)
           | None => Raise IndexError
           end;
  score ← median (map score vulns);
  let risk := Qred (likelihood * impact / 10) in
  Ok (join "##" trace, likelihood, impact, score, risk, length vulns).

(** The [for cve in model.hosts[target].cves] loop; [deeper] is the
    recursive call after the exploit of [cve]. *)
Fixpoint exploit_each (m : AttackGraphModel)
    (deeper : string -> Vulnerability -> res (list APEssentials))
    (priv_on_source : Privilege) (cves : list string) : res (list APEssentials) :=
  match cves with
  | [] => Ok []
  | cve :: rest =>
      match vulnerabilties m !! cve with
      | None => Raise KeyError
      | Some vuln =>
          if negb (priv_leb (priv_required vuln) priv_on_source) then
            exploit_each m deeper priv_on_source rest
          else
            found ← deeper cve vuln;
            more ← exploit_each m deeper priv_on_source rest;
            Ok (found ++ more)
      end
  end.

(** [_all_attack_paths_from_rp(model, path, trace, vulns, source,
    priv_on_source)]. *)
Fixpoint _all_attack_paths_from_rp (m : AttackGraphModel) (path : list Z)
    (trace : list string) (vulns : list Vulnerability) (source : Z)
    (priv_on_source : Privilege) : res (list APEssentials) :=
  match path with
  | [] => e ← essentials trace vulns; Ok [e]
  | target :: rest =>
      match hosts m !! target with
      | None => Raise KeyError
      | Some host =>
          exploit_each m
            (fun cve vuln =>
               let priv_gained := priv_gained vuln in
               let trace_step :=
                 trace_step priv_on_source source cve priv_gained target in
               _all_attack_paths_from_rp m rest (trace ++ [trace_step])
                 (vulns ++ [vuln]) target priv_gained)
            priv_on_source (cves host)
      end
  end.

(** The loop of [_attack_paths_from_reachability_paths(model, rps)]. *)
Fixpoint _attack_paths_from_reachability_paths (m : AttackGraphModel)
    (rps : list (list Z)) : res (list APEssentials) :=
  match rps with
  | [] => Ok []
  | rp :: rest =>
      match rp with
      | [] => Raise IndexError
      | source :: path =>
          aps ← _all_attack_paths_from_rp m path [] [] source PRIV_GUEST;
          more ← _attack_paths_from_reachability_paths m rest;
          Ok (aps ++ more)
      end
  end.

End GroundTruth.

(** * Scenarios

    Small networks used below to run the definitions. Host ids start at 1:
    the walk of [_sample_one_end] stops on host 0. *)
Module Scenarios.
Import Vulnerabilities Model Sampling AttackPaths Generation Steering.

Definition get {A} (fallback : A) (x : res A) : A :=
  match x with Ok a => a | Raise _ => fallback end.

Definition no_vuln : Vulnerability :=
  {| cve_id := ""; base_features := default_features;
     priv_required := PRIV_GUEST; priv_gained := PRIV_GUEST |}.

(** A v2 record without authentication that yields all privileges. *)
Definition cve_root : Vulnerability :=
  get no_vuln (Vulnerability_init "CVE-ROOT"
    (Some {| v2_authentication := "NONE"; obtainAllPrivilege := true;
             obtainUserPrivilege := false |}) None default_features).

(** A v2 record without authentication that yields user privileges. *)
Definition cve_user : Vulnerability :=
  get no_vuln (Vulnerability_init "CVE-USER"
    (Some {| v2_authentication := "NONE"; obtainAllPrivilege := false;
             obtainUserPrivilege := true |}) None default_features).

(** A v2 record that needs a single authentication. *)
Definition cve_auth : Vulnerability :=
  get no_vuln (Vulnerability_init "CVE-AUTH"
    (Some {| v2_authentication := "SINGLE"; obtainAllPrivilege := false;
             obtainUserPrivilege := true |}) None default_features).

Definition pool : gmap string Vulnerability :=
  list_to_map [("CVE-ROOT", cve_root); ("CVE-USER", cve_user);
               ("CVE-AUTH", cve_auth)].

Definition host (i : Z) (name : string) (cs : list string) : NetworkHost :=
  {| host_id := i; hostname := name; ipv4 := ""; cves := cs;
     services := ∅; domain := 0 |}.

(** The line 1 -> 2 -> 3: host 2 offers the CVE that yields root, host 3
    the one that yields user. *)
Definition line_model : AttackGraphModel :=
  get empty_model
    (load pool [host 1 "a" []; host 2 "b" ["CVE-ROOT"]; host 3 "c" ["CVE-USER"]]
          [(1, 2); (2, 3)]%Z).

(** The fork 1 <-> 2 -> 3: hosts 1 and 2 are linked both ways, so that 1
    is a successor and the only predecessor of 2. *)
Definition fork_model : AttackGraphModel :=
  get empty_model
    (load pool [host 1 "a" ["CVE-USER"]; host 2 "b" ["CVE-USER"];
                host 3 "c" ["CVE-USER"]]
          [(2, 3); (2, 1); (1, 2)]%Z).

(** Host 4 has no CVE; host 5 only one that needs authentication. *)
Definition bare_model : AttackGraphModel :=
  get empty_model
    (load pool [host 4 "d" []; host 5 "e" ["CVE-AUTH"; "CVE-USER"]] [(4, 5)]%Z).

Definition no_path : AttackPath :=
  {| ap_trace := ""; ap_length := 0; ap_likelihood := 0; ap_impact := 0;
     ap_score := 0; ap_risk := 0; ap_damage := 0; ap_hash := "";
     ap_vulns := []; ap_edges := [] |}.

(** The attack path the builder makes of the walk 1 -> 2 -> 3. *)
Definition line_path : AttackPath :=
  match convert_reachability_to_ap line_model [(1, 2); (2, 3)]%Z None [] with
  | Ok (Some ap, _) => ap
  | _ => no_path
  end.

(** A path of one step, read back from its trace. *)
Definition one_step_trace : string := "guest@1#CVE-USER#user@2".

Definition one_step_path : AttackPath :=
  get no_path (from_trace one_step_trace line_model).

(** The privilege barrier 6 -> 7: host 7 only has a CVE that needs
    authentication. *)
Definition barrier_model : AttackGraphModel :=
  get empty_model
    (load pool [host 6 "f" []; host 7 "g" ["CVE-AUTH"]] [(6, 7)]%Z).

Definition sampler_of (m : AttackGraphModel) : PathSampler :=
  get {| model := m; min_length := 1; max_length := 0; valid_hosts := [];
         sampled := 0; use_dynamic_weights := false; edge_weights := ∅ |}
      (p ← PathSampler_init m None None None None true; Ok (fst p)).

(** The strategy of [PathSampler(fork_model, strategy=PassingThrough([2]))]
    once the sampler has initialised it. *)
Definition through_2 : SamplingStrategy :=
  strategy_init (PassingThrough [2%Z]) (sampler_of fork_model).

Definition no_query : AttackPathQuery :=
  {| likelihood_range := None; impact_range := None; score_range := None;
     risk_range := None; length_range := None; sources := None; targets := None |}.

(** [SteeringPathGenerator(line_model, AttackPathQuery())]. *)
Definition line_generator : SteeringPathGenerator :=
  SteeringPathGenerator_init line_model (sampler_of line_model) no_query
    20 200 500 true false [].

(** The same generator with [sample_size=4]. *)
Definition small_generator : SteeringPathGenerator :=
  SteeringPathGenerator_init line_model (sampler_of line_model) no_query
    20 200 4 true false [].

(** A generator three iterations old: both buffers are full enough to
    steer, a classifier has already selected a CVE, and the precision went
    0.5, 1.0, 0.6. *)
Definition stalled_generator : SteeringPathGenerator :=
  {| base := base small_generator; query := no_query;
     disable_steering := false;
     min_dataset_size := 20; max_dataset_size := 200;
     query_aps := repeat one_step_path 20;
     nonquery_aps := repeat line_path 20;
     query_hashes := ∅; query_generated := [];
     precision := [1 # 2; 1; 3 # 5]%Q; steering := [false; true; true];
     steering_compliant_vulns := {["CVE-USER"]} |}.

(** The strategy of a sampler built without one. *)
Definition uniform : PathSampler -> M (list Edge) := strategy_sample Uniform.

(** A classifier that labels every vulnerability compliant. *)
Definition accept_all (training : list (SteeringBaseFeatures * bool))
  : res (SteeringBaseFeatures -> bool) := Ok (fun _ => true).

(** A short run: a bootstrap of one trace, then one step on the draws of
    [tape]. *)
Definition bootstrapped
  : (list AttackPath * list AttackPath) * SteeringPathGenerator :=
  get (([], []), small_generator) (add_bootstrap small_generator [one_step_trace]).

(** A bootstrap that lists one trace twice. *)
Definition bootstrapped_twice
  : (list AttackPath * list AttackPath) * SteeringPathGenerator :=
  get (([], []), line_generator)
      (add_bootstrap line_generator [one_step_trace; one_step_trace]).

Definition tape : Rng := [0; 0; 0; 0; 4; 0; 0; 0; 6; 1; 0; 0; 2; 2; 0].

Definition stepped
  : ((list AttackPath * list AttackPath) * SteeringPathGenerator) * Rng :=
  get (bootstrapped, tape)
      (Steering.step uniform accept_all (snd bootstrapped) tape).

(** A generator created after another generator of the process has
    appended an entry to [stability], and the same short run of it. *)
Definition anothers_entry : FiveFloats := (1 # 2, 1 # 2, 1 # 2, 1 # 2, 1 # 2)%Q.

Definition late_generator : SteeringPathGenerator :=
  SteeringPathGenerator_init line_model (sampler_of line_model) no_query
    20 200 4 true false [anothers_entry].

Definition late_stepped
  : ((list AttackPath * list AttackPath) * SteeringPathGenerator) * Rng :=
  get (bootstrapped, tape)
      (bg ← add_bootstrap late_generator [one_step_trace];
       Steering.step uniform accept_all (snd bg) tape).

(** A query for the paths that end at host 1 or 2 of the fork, the
    strategy [get_sampler] gives its sampler, and its generator with
    [sample_size=2]. *)
Definition to_hosts_1_2 : AttackPathQuery :=
  {| likelihood_range := None; impact_range := None; score_range := None;
     risk_range := None; length_range := None; sources := None;
     targets := Some [1; 2]%Z |}.

Definition ending_at_1_2 : PathSampler -> M (list Edge) :=
  strategy_sample (strategy_init (EndingAt [1; 2]%Z) (sampler_of fork_model)).

Definition fork_generator : SteeringPathGenerator :=
  SteeringPathGenerator_init fork_model (sampler_of fork_model) to_hosts_1_2
    20 200 2 true false [].

(** The draws of a step of it: a walk of one edge that ends at host 1, then
    a walk of one edge that ends at host 2. *)
Definition fork_tape : Rng := [2; 0; 0; 2; 1].

(** Two hosts that no edge links yet. *)
Definition unlinked_model : AttackGraphModel :=
  get empty_model (load pool [host 1 "a" []; host 2 "b" ["CVE-ROOT"]] []).

(** A line of seven hosts, 1 -> 2 -> ... -> 7, each with the same CVE. *)
Definition long_line : AttackGraphModel :=
  get empty_model
    (load pool (map (fun i => host i "h" ["CVE-USER"]) [1; 2; 3; 4; 5; 6; 7]%Z)
          [(1, 2); (2, 3); (3, 4); (4, 5); (5, 6); (6, 7)]%Z).

Definition six_steps : list Edge :=
  [(1, 2); (2, 3); (3, 4); (4, 5); (5, 6); (6, 7)]%Z.

(** The sampler of the long line after the walk along the whole line. *)
Definition reweighted : PathSampler :=
  get (sampler_of long_line) (_update_weights (sampler_of long_line) six_steps).

(** [EndingAt([3])] on the line 1 -> 2 -> 3: host 3 has no successor. *)
Definition ended_at_3 : (list Edge * PathSampler) * Rng :=
  get (([], sampler_of line_model), [])
      (sample_path (strategy_sample (EndingAt [3%Z])) (sampler_of line_model) [0; 0]).

(** The statistics after one update with the one-step path. *)
Definition counted_once : AttackPathStatistics :=
  get AttackPathStatistics_init (update AttackPathStatistics_init [one_step_path]).

(** A generator moved to iteration [n]. *)
Definition at_iteration (n : nat) (g : PathGenerator) : PathGenerator :=
  {| gen_model := gen_model g; path_sampler := path_sampler g;
     sample_size := sample_size g; iteration := n;
     unique_hashes := unique_hashes g; collision := collision g;
     generated := generated g; statistics := statistics g;
     count_lik := count_lik g; count_imp := count_imp g; count_sco := count_sco g;
     count_ris := count_ris g; count_len := count_len g;
     prev_cdf_lik := prev_cdf_lik g; prev_cdf_imp := prev_cdf_imp g;
     prev_cdf_sco := prev_cdf_sco g; prev_cdf_ris := prev_cdf_ris g;
     prev_cdf_len := prev_cdf_len g;
     stability := stability g |}.

(** The line generator at iteration 1 after [update_stability] with the
    one-step path. *)
Definition measured_once : PathGenerator :=
  get (base line_generator)
      (update_stability (at_iteration 1 (base line_generator)) [one_step_path]).

(** The paths of one [sample_attack_paths] call after the bootstrap, on the
    draws of [tape]. *)
Definition fresh_round : (list AttackPath * PathGenerator) * Rng :=
  get (([], base (snd bootstrapped)), tape)
      (sample_attack_paths uniform (base (snd bootstrapped)) None tape).

(** The stalled generator takes in two more paths. *)
Definition split_once
  : (list AttackPath * list AttackPath) * SteeringPathGenerator :=
  update_paths stalled_generator [one_step_path; line_path].

(** A triangle 1 -> 2 -> 3 with the shortcut 1 -> 3, as the dictionaries
    that [_all_simple_paths] builds of it. *)
Definition triangle_successors : gmap Z (list Z) :=
  <[1%Z := [2; 3]%Z]> (<[2%Z := [3%Z]]> (<[3%Z := []]> ∅)).

Definition triangle_has_path : gmap (Z * Z) bool :=
  (<[(1, 1) := false]> (<[(1, 2) := true]> (<[(1, 3) := true]>
   (<[(2, 1) := false]> (<[(2, 2) := false]> (<[(2, 3) := true]>
   (<[(3, 1) := false]> (<[(3, 2) := false]> (<[(3, 3) := false]> ∅)))))))))%Z.

End Scenarios.

(** * Properties *)

(** ** hashlib.sha256 on the test vectors of FIPS 180-4 *)
Module HashlibFacts.
Import Hashlib.

Example sha256_abc :
  sha256_hexdigest "abc"
  = "ba7816bf8f01cfea414140de5dae2223b00361a396177a9cb410ff61f20015ad"%string.
Proof. vm_compute. reflexivity. Qed.

Example sha256_empty :
  sha256_hexdigest ""
  = "e3b0c44298fc1c149afbf4c8996fb92427ae41e4649b934ca495991b7852b855"%string.
Proof. vm_compute. reflexivity. Qed.

Example sha256_two_blocks :
  sha256_hexdigest "abcdbcdecdefdefgefghfghighijhijkijkljklmklmnlmnomnopnopq"
  = "248d6a61d20638b8e5c026930c3e6039a33ce45964ff2167f6ecedd419db06c1"%string.
Proof. vm_compute. reflexivity. Qed.

End HashlibFacts.

(** ** The model: privilege-aware CVE sampling *)
Module ModelFacts.
Import Vulnerabilities Model.

(** A CVE qualifies for an attacker holding [p] when the pool knows it and
    its required privilege is at most [p]; it is barred when the pool
    knows it and its required privilege is above [p]. *)
Definition qualifies (m : AttackGraphModel) (p : Privilege) (cve : string) : Prop :=
  exists v, vulnerabilties m !! cve = Some v /\ priv_leb (priv_required v) p = true.

Definition barred (m : AttackGraphModel) (p : Privilege) (cve : string) : Prop :=
  exists v, vulnerabilties m !! cve = Some v /\ priv_leb (priv_required v) p = false.

Lemma priv_leb_root (p : Privilege) : priv_leb p PRIV_ROOT = true.
Proof. destruct p; reflexivity. Qed.

Lemma priv_eqb_root (p : Privilege) : priv_eqb p PRIV_ROOT = true <-> p = PRIV_ROOT.
Proof. destruct p; simpl; split; intros H; try reflexivity; discriminate H. Qed.

Lemma barred_not_qualifies m p cve : barred m p cve -> ~ qualifies m p cve.
Proof.
  intros [v [Hv Hb]] [v' [Hv' Hq]].
  rewrite Hv in Hv'. injection Hv' as <-. rewrite Hb in Hq. discriminate Hq.
Qed.

Lemma filter_by_privilege_barred pool p l (m : AttackGraphModel) :
  pool = vulnerabilties m ->
  Forall (barred m p) l -> filter_by_privilege pool p l = Ok [].
Proof.
  intros ->. induction 1 as [|cve l [v [Hv Hb]] _ IH]; simpl.
  - reflexivity.
  - rewrite Hv, IH. simpl. rewrite Hb. reflexivity.
Qed.

Lemma filter_by_privilege_nil pool p l (m : AttackGraphModel) :
  pool = vulnerabilties m ->
  filter_by_privilege pool p l = Ok [] -> Forall (barred m p) l.
Proof.
  intros ->. induction l as [|cve l IH]; simpl; intros H.
  - constructor.
  - destruct (vulnerabilties m !! cve) as [v|] eqn:Hv; [|discriminate H].
    destruct (filter_by_privilege (vulnerabilties m) p l) as [f|e]; [|discriminate H].
    simpl in H.
    destruct (priv_leb (priv_required v) p) eqn:Hb; [discriminate H|].
    injection H as ->. constructor; [exists v; auto | apply IH; reflexivity].
Qed.

Lemma filter_by_privilege_sound pool p l f cve :
  filter_by_privilege pool p l = Ok f -> In cve f ->
  In cve l /\ exists v, pool !! cve = Some v /\ priv_leb (priv_required v) p = true.
Proof.
  revert f. induction l as [|c l IH]; simpl; intros f H Hin.
  - injection H as <-. destruct Hin.
  - destruct (pool !! c) as [v|] eqn:Hv; [|discriminate H].
    destruct (filter_by_privilege pool p l) as [f'|e]; [|discriminate H].
    simpl in H. injection H as <-.
    destruct (priv_leb (priv_required v) p) eqn:Hb.
    + destruct Hin as [<-|Hin].
      * split; [left; reflexivity | exists v; auto].
      * destruct (IH f' eq_refl Hin) as [? ?]. split; [right|]; assumption.
    + destruct (IH f' eq_refl Hin) as [? ?]. split; [right|]; assumption.
Qed.

Lemma choice_In {A} (l : list A) (x : A) (r r' : Rng) :
  Random.choice l r = Ok (x, r') -> In x l.
Proof.
  unfold Random.choice. destruct l as [|y l0] eqn:El; [discriminate|].
  rewrite <- El. destruct (draw r) as [u r1]. intros H.
  assert (Hx : x = nth (u mod length l) l y) by congruence.
  rewrite Hx. apply nth_In. apply Nat.mod_upper_bound.
  rewrite El. discriminate.
Qed.

(** What a successful plain call returns: nothing exactly when the attacker
    is not root and every CVE of the host is barred, and otherwise a CVE of
    the host that, unless the attacker is root, qualifies. *)
Lemma sample_cve_on_host_plain_spec m h p r o r' :
  sample_cve_on_host_plain m h p r = Ok (o, r') ->
  exists host, hosts m !! h = Some host /\
    match o with
    | None => p <> PRIV_ROOT /\ r' = r /\ Forall (barred m p) (cves host)
    | Some cve => In cve (cves host) /\ (p = PRIV_ROOT \/ qualifies m p cve)
    end.
Proof.
  unfold sample_cve_on_host_plain.
  destruct (hosts m !! h) as [host|] eqn:Hh; [|discriminate].
  intros H. exists host. split; [reflexivity|].
  destruct (priv_eqb p PRIV_ROOT) eqn:Hroot.
  - unfold bind, ret in H.
    destruct (Random.choice (cves host) r) as [[c r1]|e] eqn:Hc; [|discriminate H].
    injection H as <- <-. split; [eapply choice_In; eauto|].
    left. apply priv_eqb_root. assumption.
  - unfold bind, lift in H.
    destruct (filter_by_privilege (vulnerabilties m) p (cves host)) as [f|e] eqn:Hf;
      [|discriminate H].
    destruct f as [|c f].
    + injection H as <- <-. split; [|split; [reflexivity|]].
      * intros ->. discriminate Hroot.
      * eapply filter_by_privilege_nil; eauto.
    + unfold ret in H.
      destruct (Random.choice (c :: f) r) as [[c' r1]|e] eqn:Hc; [|discriminate H].
      injection H as <- <-. apply choice_In in Hc.
      destruct (filter_by_privilege_sound _ _ _ _ _ Hf Hc) as [Hin Hq].
      split; [assumption | right; exact Hq].
Qed.

(** The same for a call with or without preference. *)
Lemma sample_cve_on_host_spec m h p preferred r o r' :
  sample_cve_on_host m h p preferred r = Ok (o, r') ->
  exists host, hosts m !! h = Some host /\
    match o with
    | None => p <> PRIV_ROOT /\ r' = r /\ Forall (barred m p) (cves host)
    | Some cve => In cve (cves host) /\ (p = PRIV_ROOT \/ qualifies m p cve)
    end.
Proof.
  destruct preferred as [preferred|]; [|apply sample_cve_on_host_plain_spec].
  intros H. unfold sample_cve_on_host in H.
  destruct (hosts m !! h) as [host|] eqn:Hh; [|discriminate H].
  set (wanted := List.filter _ (cves host)) in H.
  assert (Hsub : forall c, In c wanted -> In c (cves host)).
  { intros c Hc. apply List.filter_In in Hc. tauto. }
  destruct wanted as [|c w] eqn:Hw.
  { apply sample_cve_on_host_plain_spec in H. rewrite Hh in H. exact H. }
  destruct (priv_eqb p PRIV_ROOT) eqn:Hroot.
  - unfold bind, ret in H.
    destruct (Random.choice (c :: w) r) as [[c' r1]|e] eqn:Hc; [|discriminate H].
    injection H as <- <-. exists host. split; [reflexivity|].
    split; [apply Hsub; eapply choice_In; eauto|].
    left. apply priv_eqb_root. assumption.
  - unfold bind, lift in H.
    destruct (filter_by_privilege (vulnerabilties m) p (c :: w)) as [f|e] eqn:Hf;
      [|discriminate H].
    destruct f as [|c' f].
    { apply sample_cve_on_host_plain_spec in H. rewrite Hh in H. exact H. }
    unfold ret in H.
    destruct (Random.choice (c' :: f) r) as [[c'' r1]|e] eqn:Hc; [|discriminate H].
    injection H as <- <-. apply choice_In in Hc.
    destruct (filter_by_privilege_sound _ _ _ _ _ Hf Hc) as [Hin Hq].
    exists host. split; [reflexivity|].
    split; [apply Hsub; assumption | right; exact Hq].
Qed.

(** A guest or user attacker gets nothing, and draws nothing, on a host
    whose CVEs are all barred, with or without preference. *)
Lemma sample_cve_on_host_barred m h host p preferred r :
  hosts m !! h = Some host -> p <> PRIV_ROOT ->
  Forall (barred m p) (cves host) ->
  sample_cve_on_host m h p preferred r = Ok (None, r).
Proof.
  intros Hh Hp Hall.
  assert (Hroot : priv_eqb p PRIV_ROOT = false).
  { destruct (priv_eqb p PRIV_ROOT) eqn:E; [|reflexivity].
    apply priv_eqb_root in E. contradiction. }
  assert (Hplain : sample_cve_on_host_plain m h p r = Ok (None, r)).
  { unfold sample_cve_on_host_plain. rewrite Hh, Hroot. unfold bind, lift.
    rewrite (filter_by_privilege_barred _ _ _ m eq_refl Hall). reflexivity. }
  destruct preferred as [preferred|]; [|exact Hplain].
  unfold sample_cve_on_host. rewrite Hh.
  set (wanted := List.filter _ (cves host)).
  assert (Hw : Forall (barred m p) wanted).
  { apply List.Forall_forall. intros c Hc. apply List.filter_In in Hc.
    rewrite List.Forall_forall in Hall. apply Hall. tauto. }
  destruct wanted as [|c w]; [exact Hplain|].
  rewrite Hroot. unfold bind, lift.
  rewrite (filter_by_privilege_barred _ _ _ m eq_refl Hw). exact Hplain.
Qed.

(** C5. With [preferred_cves] given: when no CVE of the host is preferred,
    or every preferred CVE of the host is barred for [current_priv], the
    call is the call without preference (same result, same draws); and the
    call returns [None] only when the retry without preference returned
    it, that is when every CVE of the host is barred. *)
Theorem sample_cve_on_host_preferred_retry
    (m : AttackGraphModel) (h : Z) (host : NetworkHost) (p : Privilege)
    (preferred : gset string) (r : Rng) :
  hosts m !! h = Some host ->
  let wanted := List.filter (fun cve => bool_decide (cve ∈ preferred)) (cves host) in
  (wanted = [] \/ Forall (barred m p) wanted ->
   sample_cve_on_host m h p (Some preferred) r = sample_cve_on_host m h p None r)
  /\
  (forall r', sample_cve_on_host m h p (Some preferred) r = Ok (None, r') ->
     sample_cve_on_host m h p None r = Ok (None, r') /\
     Forall (barred m p) (cves host)).
Proof.
  intros Hh wanted. unfold sample_cve_on_host. rewrite Hh. fold wanted.
  split.
  - intros [Hnil | Hbar].
    + rewrite Hnil. reflexivity.
    + destruct wanted as [|c w] eqn:Hw; [reflexivity|].
      destruct (priv_eqb p PRIV_ROOT) eqn:Hroot.
      * apply priv_eqb_root in Hroot. subst p.
        inversion Hbar as [|? ? [v [_ Hb]] _]; subst.
        rewrite priv_leb_root in Hb. discriminate Hb.
      * unfold bind, lift.
        rewrite (filter_by_privilege_barred _ _ _ m eq_refl Hbar). reflexivity.
  - intros r' H.
    assert (Hplain : sample_cve_on_host_plain m h p r = Ok (None, r')).
    { destruct wanted as [|c w]; [exact H|].
      destruct (priv_eqb p PRIV_ROOT).
      - unfold bind, ret in H.
        destruct (Random.choice (c :: w) r) as [[c' r1]|e]; discriminate H.
      - unfold bind, lift in H.
        destruct (filter_by_privilege (vulnerabilties m) p (c :: w)) as [f|e];
          [|discriminate H].
        destruct f as [|c' f]; [exact H|].
        unfold ret in H.
        destruct (Random.choice (c' :: f) r) as [[c'' r1]|e]; discriminate H. }
    split; [exact Hplain|].
    destruct (sample_cve_on_host_plain_spec _ _ _ _ _ _ Hplain) as [host' [Hh' [_ [_ Hall]]]].
    rewrite Hh in Hh'. injection Hh' as <-. exact Hall.
Qed.

(** C9. On a host whose [cves] list is empty, the call without preference
    returns [None] for a guest or user attacker and raises [IndexError]
    for a root attacker. *)
Theorem sample_cve_on_host_no_cves
    (m : AttackGraphModel) (h : Z) (host : NetworkHost) (r : Rng) :
  hosts m !! h = Some host -> cves host = [] ->
  sample_cve_on_host m h PRIV_GUEST None r = Ok (None, r) /\
  sample_cve_on_host m h PRIV_USER None r = Ok (None, r) /\
  sample_cve_on_host m h PRIV_ROOT None r = Raise IndexError.
Proof.
  intros Hh Hc. unfold sample_cve_on_host, sample_cve_on_host_plain.
  rewrite Hh, Hc. repeat split.
Qed.

Import Scenarios.

(** On host 5 the only preferred CVE needs authentication: a guest falls
    back on the call without preference and gets the other CVE. *)
Lemma sample_cve_on_host_preferred_retry_witness :
  sample_cve_on_host bare_model 5 PRIV_GUEST (Some {["CVE-AUTH"]}) [7]
    = sample_cve_on_host bare_model 5 PRIV_GUEST None [7]
  /\ sample_cve_on_host bare_model 5 PRIV_GUEST None [7] = Ok (Some "CVE-USER", []).
Proof.
  split; [|vm_compute; reflexivity].
  apply (sample_cve_on_host_preferred_retry bare_model 5
           (host 5 "e" ["CVE-AUTH"; "CVE-USER"]) PRIV_GUEST {["CVE-AUTH"]} [7]).
  - vm_compute. reflexivity.
  - right. constructor; [|constructor].
    exists cve_auth. split; vm_compute; reflexivity.
Defined.

(** Host 4 has no CVE. *)
Lemma sample_cve_on_host_no_cves_witness :
  sample_cve_on_host bare_model 4 PRIV_GUEST None [7] = Ok (None, [7]) /\
  sample_cve_on_host bare_model 4 PRIV_USER None [7] = Ok (None, [7]) /\
  sample_cve_on_host bare_model 4 PRIV_ROOT None [7] = Raise IndexError.
Proof.
  apply (sample_cve_on_host_no_cves bare_model 4 (host 4 "d" []) [7]).
  - vm_compute. reflexivity.
  - reflexivity.
Defined.

End ModelFacts.

(** ** The attack-path builder and the [AttackPath] constructor *)
Module BuilderFacts.
Import Vulnerabilities Model Sampling Builtins Statistics AttackPaths Generation.
Import ModelFacts.

(** The privileges along a path: guest on the foothold, then what each
    exploited vulnerability gives. *)
Definition priv_sequence (ap : AttackPath) : list Privilege :=
  PRIV_GUEST :: map priv_gained (ap_vulns ap).

Fixpoint nondecreasing (ps : list Privilege) : bool :=
  match ps with
  | p :: (q :: _) as rest => priv_leb p q && nondecreasing rest
  | _ => true
  end.

(** Every vulnerability of the chain needs no more than what the attacker
    holds when reaching it. *)
Fixpoint chain_ok (held : Privilege) (vs : list Vulnerability) : Prop :=
  match vs with
  | [] => True
  | v :: vs' => priv_leb (priv_required v) held = true /\ chain_ok (priv_gained v) vs'
  end.

(** What the spec asks of every attack path. *)
Definition path_invariants (ap : AttackPath) : Prop :=
  ap_length ap = length (ap_vulns ap)
  /\ length (ap_vulns ap) = length (ap_edges ap)
  /\ 1 <= ap_length ap
  /\ mean (map likelihood (ap_vulns ap)) = Ok (ap_likelihood ap)
  /\ (exists v, last (ap_vulns ap) = Some v /\ ap_impact ap = impact v)
  /\ median (map score (ap_vulns ap)) = Ok (ap_score ap)
  /\ mean (map impact (ap_vulns ap)) = Ok (ap_damage ap)
  /\ (ap_risk ap == ap_likelihood ap * ap_impact ap / 10)%Q
  /\ ap_hash ap = Hashlib.sha256_hexdigest (ap_trace ap).

Lemma exploit_loop_spec m preferred path :
  forall held vs ts r vs' ts' r',
    exploit_loop m preferred path held vs ts r = Ok ((vs', ts'), r') ->
    exists new news,
      vs' = vs ++ new /\ ts' = ts ++ news /\ length news = length new
      /\ length new <= length path /\ chain_ok held new.
Proof.
  induction path as [|[source target] rest IH]; simpl; intros held vs ts r vs' ts' r' H.
  - injection H as <- <- <-. exists [], []. rewrite !app_nil_r. simpl. auto.
  - unfold bind in H.
    destruct (sample_cve_on_host m target held preferred r) as [[o r1]|e] eqn:Hs;
      [|discriminate H].
    destruct o as [cve|].
    + destruct (vulnerabilties m !! cve) as [vuln|] eqn:Hv; [|discriminate H].
      apply IH in H. destruct H as (new & news & -> & -> & Hlen & Hle & Hok).
      exists (vuln :: new), (trace_step (priv_gained vuln) source cve
                                         (priv_gained vuln) target :: news).
      rewrite <- !app_assoc. simpl. repeat split; auto; try lia.
      apply sample_cve_on_host_spec in Hs. destruct Hs as (host & _ & _ & Hq).
      destruct Hq as [-> | (v & Hv' & Hq)]; [apply priv_leb_root|].
      rewrite Hv in Hv'. injection Hv' as <-. exact Hq.
    + injection H as <- <- <-. exists [], []. rewrite !app_nil_r. simpl.
      repeat split; auto; lia.
Qed.

Lemma AttackPath_init_spec trace vulns edges :
  vulns <> [] ->
  exists ap, AttackPath_init trace vulns edges = Ok ap
    /\ ap_trace ap = trace /\ ap_vulns ap = vulns /\ ap_edges ap = edges
    /\ ap_length ap = length vulns
    /\ mean (map likelihood vulns) = Ok (ap_likelihood ap)
    /\ (exists v, last vulns = Some v /\ ap_impact ap = impact v)
    /\ median (map score vulns) = Ok (ap_score ap)
    /\ mean (map impact vulns) = Ok (ap_damage ap)
    /\ (ap_risk ap == ap_likelihood ap * ap_impact ap / 10)%Q
    /\ ap_hash ap = Hashlib.sha256_hexdigest trace.
Proof.
  intros Hne. unfold AttackPath_init.
  destruct (last vulns) as [v|] eqn:Hlast.
  2:{ apply last_None in Hlast. contradiction. }
  destruct vulns as [|v0 vs]; [contradiction|].
  cbn [map mean median]. cbn [mbind res_mbind res_bind].
  eexists. split; [reflexivity|]. cbn.
  repeat split; try reflexivity.
  - exists v. split; reflexivity.
  - apply Qred_correct.
Qed.

Lemma AttackPath_init_inv trace vulns edges ap :
  AttackPath_init trace vulns edges = Ok ap ->
  vulns <> [] /\ ap_vulns ap = vulns /\ ap_edges ap = edges /\ ap_trace ap = trace.
Proof.
  intros H. destruct vulns as [|v vs]; [discriminate H|].
  destruct (AttackPath_init_spec trace (v :: vs) edges ltac:(discriminate))
    as (ap' & Hap & Ht & Hv & He & _).
  rewrite H in Hap. injection Hap as <-. repeat split; auto; discriminate.
Qed.

Lemma path_invariants_init trace vulns edges ap :
  AttackPath_init trace vulns edges = Ok ap ->
  length vulns = length edges -> path_invariants ap.
Proof.
  intros H Hlen. destruct (AttackPath_init_inv _ _ _ _ H) as (Hne & _).
  destruct (AttackPath_init_spec trace vulns edges Hne)
    as (ap' & Hap & Ht & Hv & He & Hl & Hlik & Himp & Hsco & Hdmg & Hrisk & Hhash).
  rewrite H in Hap. injection Hap as <-.
  unfold path_invariants. rewrite Hv, He, Ht, Hl.
  repeat split; auto.
  destruct vulns; [contradiction | simpl; lia].
Qed.

Lemma convert_reachability_to_ap_spec m path preferred r ap r' :
  convert_reachability_to_ap m path preferred r = Ok (Some ap, r') ->
  exists vs ts,
    exploit_loop m preferred path PRIV_GUEST [] [] r = Ok ((vs, ts), r')
    /\ AttackPath_init (join "##" ts) vs (firstn (length vs) path) = Ok ap.
Proof.
  unfold convert_reachability_to_ap, bind. intros H.
  destruct (exploit_loop m preferred path PRIV_GUEST [] [] r)
    as [[[vs ts] r1]|e] eqn:Hloop; [|discriminate H].
  destruct vs as [|v vs]; [discriminate H|].
  unfold lift, ret in H.
  destruct (AttackPath_init (join "##" ts) (v :: vs) (firstn (length (v :: vs)) path))
    as [ap'|e] eqn:Hinit; [|discriminate H].
  injection H as <- <-. exists (v :: vs), ts. split; [reflexivity | exact Hinit].
Qed.

Lemma chain_ok_lookup vs :
  forall held, chain_ok held vs ->
  forall i v, vs !! i = Some v ->
  exists h, (held :: map priv_gained vs) !! i = Some h
            /\ priv_leb (priv_required v) h = true.
Proof.
  induction vs as [|v0 vs IH]; intros held Hok i v Hi; [discriminate Hi|].
  destruct Hok as [H0 Hok]. destruct i as [|i].
  - injection Hi as <-. exists held. split; [reflexivity | exact H0].
  - apply (IH _ Hok i v Hi).
Qed.

Lemma from_trace_spec trace m ap :
  from_trace trace m = Ok ap ->
  exists evs, AttackPath_init trace (map snd evs) (map fst evs) = Ok ap.
Proof.
  unfold from_trace. destruct (parse_steps m (split "##" trace)) as [evs|e];
    [|discriminate].
  intros H. exists evs. exact H.
Qed.

(** C1, as the code has it. On every path the builder returns, the
    privileges start at guest and become each exploited vulnerability's
    [priv_gained]; each exploited vulnerability requires no more than the
    privilege held just before it. *)
Theorem builder_respects_required_privilege
    (m : AttackGraphModel) (path : list Edge) (preferred : option (gset string))
    (r r' : Rng) (ap : AttackPath) :
  convert_reachability_to_ap m path preferred r = Ok (Some ap, r') ->
  priv_sequence ap !! 0 = Some PRIV_GUEST /\
  forall i v, ap_vulns ap !! i = Some v ->
    priv_sequence ap !! S i = Some (priv_gained v) /\
    exists held, priv_sequence ap !! i = Some held
                 /\ priv_leb (priv_required v) held = true.
Proof.
  intros H. split; [reflexivity|].
  apply convert_reachability_to_ap_spec in H. destruct H as (vs & ts & Hloop & Hinit).
  apply exploit_loop_spec in Hloop.
  destruct Hloop as (new & news & Hvs & _ & _ & _ & Hok). simpl in Hvs. subst new.
  destruct (AttackPath_init_inv _ _ _ _ Hinit) as (_ & Hv & _).
  unfold priv_sequence. rewrite Hv. intros i v Hi. split.
  - simpl. rewrite list_lookup_fmap, Hi. reflexivity.
  - apply (chain_ok_lookup vs PRIV_GUEST Hok i v Hi).
Qed.

(** C3, as the code has it. An [AttackPath] built from a non-empty
    [vulns] has the length and the metrics the spec lists, whatever
    [edges] is: the constructor does not compare the two lists. The two
    places that build one, the builder and [from_trace], pass as many
    edges as vulnerabilities, so that every attack path they return
    satisfies [path_invariants]. *)
Theorem attack_path_invariants :
  (forall trace vulns edges, vulns <> [] ->
     exists ap, AttackPath_init trace vulns edges = Ok ap
       /\ ap_length ap = length vulns /\ 1 <= ap_length ap
       /\ mean (map likelihood vulns) = Ok (ap_likelihood ap)
       /\ (exists v, last vulns = Some v /\ ap_impact ap = impact v)
       /\ median (map score vulns) = Ok (ap_score ap)
       /\ mean (map impact vulns) = Ok (ap_damage ap)
       /\ (ap_risk ap == ap_likelihood ap * ap_impact ap / 10)%Q
       /\ ap_hash ap = Hashlib.sha256_hexdigest trace)
  /\ (forall m path preferred r ap r',
        convert_reachability_to_ap m path preferred r = Ok (Some ap, r') ->
        path_invariants ap /\ ap_edges ap = firstn (ap_length ap) path)
  /\ (forall trace m ap, from_trace trace m = Ok ap -> path_invariants ap).
Proof.
  split; [|split].
  - intros trace vulns edges Hne.
    destruct (AttackPath_init_spec trace vulns edges Hne)
      as (ap & Hap & _ & _ & _ & Hl & Hrest).
    exists ap. split; [exact Hap|]. split; [exact Hl|]. split; [|exact Hrest].
    rewrite Hl. destruct vulns; [contradiction | simpl; lia].
  - intros m path preferred r ap r' H.
    apply convert_reachability_to_ap_spec in H. destruct H as (vs & ts & Hloop & Hinit).
    apply exploit_loop_spec in Hloop.
    destruct Hloop as (new & news & Hvs & _ & _ & Hle & _). simpl in Hvs. subst new.
    assert (Hlen : length vs = length (firstn (length vs) path)).
    { rewrite length_firstn. lia. }
    split; [exact (path_invariants_init _ _ _ _ Hinit Hlen)|].
    destruct (AttackPath_init_inv _ _ _ _ Hinit) as (Hne & Hv & He & _).
    destruct (AttackPath_init_spec (join "##" ts) vs (firstn (length vs) path) Hne)
      as (ap' & Hap & _ & _ & _ & Hl & _).
    rewrite Hinit in Hap. injection Hap as <-. rewrite He, Hl. reflexivity.
  - intros trace m ap H. apply from_trace_spec in H. destruct H as (evs & Hinit).
    apply (path_invariants_init _ _ _ _ Hinit). rewrite !length_map. reflexivity.
Qed.

Import Scenarios.

(** C1, refuted as stated. On the line 1 -> 2 -> 3 the attacker becomes
    root on host 2 and then only user on host 3: the privileges along the
    path the builder returns go down. *)
Lemma builder_privileges_drop :
  convert_reachability_to_ap line_model [(1, 2); (2, 3)]%Z None []
    = Ok (Some line_path, [])
  /\ priv_sequence line_path = [PRIV_GUEST; PRIV_ROOT; PRIV_USER]
  /\ nondecreasing (priv_sequence line_path) = false.
Proof. vm_compute. repeat split. Qed.

(** On the line, both exploited CVEs need no more than guest. *)
Lemma builder_respects_required_privilege_witness :
  convert_reachability_to_ap line_model [(1, 2); (2, 3)]%Z None []
    = Ok (Some line_path, [])
  /\ priv_sequence line_path !! 0 = Some PRIV_GUEST
  /\ forall i v, ap_vulns line_path !! i = Some v ->
       priv_sequence line_path !! S i = Some (priv_gained v) /\
       exists held, priv_sequence line_path !! i = Some held
                    /\ priv_leb (priv_required v) held = true.
Proof.
  split; [vm_compute; reflexivity|].
  apply (builder_respects_required_privilege
           line_model [(1, 2); (2, 3)]%Z None [] []).
  vm_compute. reflexivity.
Defined.

(** X5. An empty walk gives no path, and the model is not consulted: no draw
    is made and no host or CVE is looked up. *)
Theorem empty_walk_gives_no_path
    (m : AttackGraphModel) (preferred : option (gset string)) (r : Rng) :
  convert_reachability_to_ap m [] preferred r = Ok (None, r).
Proof. unfold convert_reachability_to_ap, bind. cbn. reflexivity. Qed.

(** X6. The privilege barrier: when every CVE of the first target is barred
    for a guest, the builder returns no path. *)
Theorem privilege_barrier_gives_no_path
    (m : AttackGraphModel) (source target : Z) (host : NetworkHost)
    (rest : list Edge) (preferred : option (gset string)) (r : Rng) :
  hosts m !! target = Some host ->
  Forall (barred m PRIV_GUEST) (cves host) ->
  convert_reachability_to_ap m ((source, target) :: rest) preferred r
  = Ok (None, r).
Proof.
  intros Hh Hall. unfold convert_reachability_to_ap, bind. cbn [exploit_loop].
  unfold bind.
  rewrite (sample_cve_on_host_barred m target host PRIV_GUEST preferred r Hh
             ltac:(discriminate) Hall).
  reflexivity.
Qed.

(** Host 7 only has a CVE that needs authentication. *)
Lemma privilege_barrier_gives_no_path_witness :
  convert_reachability_to_ap barrier_model [(6, 7)%Z] None [3] = Ok (None, [3]).
Proof.
  apply (privilege_barrier_gives_no_path barrier_model 6 7 (host 7 "g" ["CVE-AUTH"])).
  - vm_compute. reflexivity.
  - constructor; [|constructor]. exists cve_auth. split; vm_compute; reflexivity.
Defined.

(** X9. The edges of a built path are a prefix of the walk it was built
    from. *)
Theorem built_path_follows_walk
    (m : AttackGraphModel) (path : list Edge) (preferred : option (gset string))
    (r r' : Rng) (ap : AttackPath) :
  convert_reachability_to_ap m path preferred r = Ok (Some ap, r') ->
  exists rest, path = ap_edges ap ++ rest.
Proof.
  intros H. apply convert_reachability_to_ap_spec in H.
  destruct H as (vs & ts & _ & Hinit).
  destruct (AttackPath_init_inv _ _ _ _ Hinit) as (_ & _ & He & _).
  exists (skipn (length vs) path). rewrite He. symmetry. apply firstn_skipn.
Qed.

(** The path built on the line keeps both edges of the walk. *)
Lemma built_path_follows_walk_witness :
  exists rest, [(1, 2); (2, 3)]%Z = ap_edges line_path ++ rest.
Proof.
  apply (built_path_follows_walk line_model [(1, 2); (2, 3)]%Z None [] []).
  vm_compute. reflexivity.
Defined.

(** C3, refuted as stated. The constructor takes two vulnerabilities and
    no edge: the path has length 2 and an empty list of edges. *)
Lemma constructor_takes_unequal_lists :
  exists ap, AttackPath_init "t" [cve_user; cve_user] [] = Ok ap
    /\ ap_length ap = 2 /\ length (ap_vulns ap) = 2 /\ length (ap_edges ap) = 0.
Proof. eexists. split; [vm_compute; reflexivity|]. repeat split. Qed.

(** The path built on the line, a path read back from its trace, and a
    direct call of the constructor. *)
Lemma attack_path_invariants_witness :
  path_invariants line_path /\ path_invariants one_step_path
  /\ exists ap, AttackPath_init one_step_trace [cve_user] [(1, 2)%Z] = Ok ap
                /\ ap_length ap = 1.
Proof.
  destruct attack_path_invariants as (Hinit & Hbuild & Htrace).
  split; [|split].
  - apply (Hbuild line_model [(1, 2); (2, 3)]%Z None [] line_path []).
    vm_compute. reflexivity.
  - apply (Htrace one_step_trace line_model). vm_compute. reflexivity.
  - destruct (Hinit one_step_trace [cve_user] [(1, 2)%Z]) as (ap & Hap & Hl & _).
    + discriminate.
    + exists ap. split; [exact Hap | exact Hl].
Defined.

End BuilderFacts.

(** ** The rounding of binary64 *)
Module Float64Facts.
Import Float64.




Lemma pow2_lt a b : (a < b)%Z -> (pow2 a < pow2 b)%Q.
Proof. intros H. unfold pow2. apply Qpower_lt_compat_l; [exact H|]. reflexivity. Qed.







(** *** The nearest integer *)





(** *** Rounding *)

















End Float64Facts.

(** ** The length tallies of the statistics and of the joint histograms *)
Module TallyFacts.
Import Float64 Float64Facts Builtins AttackPaths Joint Scenarios.

(** The slot of [lengths] that [update] increments for a path of length
    [le]: the length itself, and the last slot from [MAX_LENGTH] on. *)
Definition length_slot (le : nat) : nat :=
  if MAX_LENGTH <=? le then MAX_LENGTH - 1 else le.

Lemma py_index_nat (len i : nat) : i < len -> py_index len (Z.of_nat i) = Ok i.
Proof.
  intros H. unfold py_index.
  replace ((0 <=? Z.of_nat i) && (Z.of_nat i <? Z.of_nat len))%Z with true.
  - rewrite Nat2Z.id. reflexivity.
  - symmetry. apply andb_true_intro. split; [apply Z.leb_le | apply Z.ltb_lt]; lia.
Qed.

Lemma tally_length_spec (ls : list nat) (le : nat) :
  length ls = MAX_LENGTH ->
  tally_length ls le = Ok (alter (fun c => c + 1) (length_slot le) ls).
Proof.
  intros Hlen. unfold tally_length, length_slot, py_additem.
  destruct (MAX_LENGTH <=? le) eqn:Hle.
  - change (Z.of_nat MAX_LENGTH - 1)%Z with (Z.of_nat (MAX_LENGTH - 1)).
    rewrite py_index_nat; [reflexivity | rewrite Hlen; unfold MAX_LENGTH; lia].
  - apply Nat.leb_gt in Hle. rewrite py_index_nat; [reflexivity | lia].
Qed.

Lemma update_one_lengths st ap st' :
  length (lengths st) = MAX_LENGTH -> update_one st ap = Ok st' ->
  lengths st' = alter (fun c => c + 1) (length_slot (ap_length ap)) (lengths st).
Proof.
  intros Hlen. unfold update_one. cbn [mbind res_mbind res_bind].
  repeat match goal with
         | |- context [py_additem ?l ?i ?n] =>
             destruct (py_additem l i n); cbn [res_bind]; [|discriminate]
         end.
  cbn [_update_hosts_and_edges lengths].
  rewrite tally_length_spec by exact Hlen. cbn [res_bind].
  intros H. injection H as <-. reflexivity.
Qed.

Lemma update_loop_lengths new_paths :
  forall st st', length (lengths st) = MAX_LENGTH ->
    update_loop st new_paths = Ok st' ->
    forall i, i < MAX_LENGTH ->
      lengths st' !! i
      = Some (default 0 (lengths st !! i)
              + length (List.filter (fun ap => length_slot (ap_length ap) =? i)
                                    new_paths)).
Proof.
  induction new_paths as [|ap rest IH]; intros st st' Hlen H i Hi.
  - injection H as <-. simpl.
    destruct (lookup_lt_is_Some_2 (lengths st) i) as [c Hc]; [lia|].
    rewrite Hc. simpl. f_equal. lia.
  - cbn [update_loop mbind res_mbind res_bind] in H.
    destruct (update_one st ap) as [st1|e] eqn:H1; [|discriminate H].
    cbn [res_bind] in H.
    pose proof (update_one_lengths _ _ _ Hlen H1) as Hl.
    assert (Hlen1 : length (lengths st1) = MAX_LENGTH).
    { rewrite Hl, length_alter. exact Hlen. }
    rewrite (IH st1 st' Hlen1 H i Hi). f_equal. rewrite Hl. cbn [List.filter].
    destruct (lookup_lt_is_Some_2 (lengths st) i) as [c Hc]; [lia|].
    destruct (length_slot (ap_length ap) =? i) eqn:Heq.
    + apply Nat.eqb_eq in Heq. subst i.
      rewrite list_lookup_alter_eq, Hc. simpl. lia.
    + apply Nat.eqb_neq in Heq.
      rewrite list_lookup_alter_ne by exact Heq. rewrite Hc. reflexivity.
Qed.

(** C6, as the code has it. [update] tallies every path in the slot whose
    index is the length of the path, and in the last slot (index 39) from
    length 40 on: after the update, slot [i] has grown by the number of new
    paths whose [length_slot] is [i]. *)
Theorem update_tallies_length_at_its_index
    (st st' : AttackPathStatistics) (new_paths : list AttackPath) :
  length (lengths st) = MAX_LENGTH ->
  update st new_paths = Ok st' ->
  (forall le, le < MAX_LENGTH -> length_slot le = le)
  /\ (forall le, MAX_LENGTH <= le -> length_slot le = MAX_LENGTH - 1)
  /\ forall i, i < MAX_LENGTH ->
       lengths st' !! i
       = Some (default 0 (lengths st !! i)
               + length (List.filter (fun ap => length_slot (ap_length ap) =? i)
                                     new_paths)).
Proof.
  intros Hlen H. split; [|split].
  - intros le Hle. unfold length_slot.
    destruct (MAX_LENGTH <=? le) eqn:E; [apply Nat.leb_le in E; lia | reflexivity].
  - intros le Hle. unfold length_slot.
    destruct (MAX_LENGTH <=? le) eqn:E; [reflexivity | apply Nat.leb_gt in E; lia].
  - unfold update in H. intros i Hi.
    exact ((fun Hl => update_loop_lengths new_paths _ st' Hl H i Hi) Hlen).
Qed.

(** C6, refuted as stated. A path of length 1 leaves the first of the 40
    slots (index 0) untouched and increments the slot of index 1. *)
Lemma update_skips_first_slot :
  ap_length one_step_path = 1
  /\ (st ← update AttackPathStatistics_init [one_step_path];
      Ok (lengths st !! 0, lengths st !! 1)) = Ok (Some 0, Some 1).
Proof. vm_compute. split; reflexivity. Qed.

(** One path of length 1 adds one to the slot of index 1. *)
Lemma update_tallies_length_at_its_index_witness :
  exists st', update AttackPathStatistics_init [one_step_path] = Ok st'
    /\ lengths st' !! 1
       = Some (default 0 (lengths AttackPathStatistics_init !! 1)
               + length (List.filter
                           (fun ap => length_slot (ap_length ap) =? 1)
                           [one_step_path])).
Proof.
  eexists. split; [vm_compute; reflexivity|].
  eapply (update_tallies_length_at_its_index AttackPathStatistics_init _
            [one_step_path]).
  - reflexivity.
  - vm_compute. reflexivity.
  - unfold MAX_LENGTH. lia.
Defined.

(** *** Metric buckets *)




(** The rounding is seen at a bucket's lower end: [5.8 / 10 * 100] is
    [57.99999999999999] as a float, so that 5.8 is counted in bucket 57. *)
Lemma get_metric_index_rounds_below :
  get_metric_index (58 # 10) = 57%Z /\ get_metric_index (57 # 10) = 57%Z
  /\ get_metric_index (59 # 10) = 59%Z.
Proof. vm_compute. repeat split. Qed.

(** *** The length tally of [update_stability] *)

(** X8. [update_stability] counts a path of length [le] between 1 and 40 in
    the slot of index [le - 1], a longer one in the last slot, and a path
    of length 0 nowhere. *)
Theorem stability_tally_is_shifted (count_len : list N) (le : nat) :
  length count_len = Generation.LENGTH_BINS ->
  Generation.tally_count_len count_len le
  = Ok (match le with
        | O => count_len
        | S k => alter (fun c => ((c + 1) mod 2 ^ 64)%N)
                       (Nat.min k (Generation.LENGTH_BINS - 1)) count_len
        end).
Proof.
  intros Hlen. unfold Generation.tally_count_len, Generation.np_incr.
  destruct (Generation.LENGTH_BINS <? le) eqn:Hgt.
  - apply Nat.ltb_lt in Hgt. destruct le as [|k]; [lia|].
    change (Z.of_nat Generation.LENGTH_BINS - 1)%Z
      with (Z.of_nat (Generation.LENGTH_BINS - 1)).
    rewrite py_index_nat by (rewrite Hlen; unfold Generation.LENGTH_BINS; lia).
    cbn [mbind res_mbind res_bind]. rewrite Nat.min_r by lia. reflexivity.
  - apply Nat.ltb_ge in Hgt. destruct le as [|k]; [reflexivity|].
    cbn [Nat.leb].
    replace (Z.of_nat (S k) - 1)%Z with (Z.of_nat k) by lia.
    rewrite py_index_nat by lia.
    cbn [mbind res_mbind res_bind]. rewrite Nat.min_l by lia. reflexivity.
Qed.

(** A path of length 1 is counted in the slot of index 0. *)
Lemma stability_tally_is_shifted_witness :
  Generation.tally_count_len (repeat 0%N Generation.LENGTH_BINS) 1
  = Ok (alter (fun c => ((c + 1) mod 2 ^ 64)%N) 0
              (repeat 0%N Generation.LENGTH_BINS)).
Proof.
  apply (stability_tally_is_shifted (repeat 0%N Generation.LENGTH_BINS) 1).
  apply repeat_length.
Defined.

(** *** server/joint.py *)

Lemma py_setitem_nat {A} (l : list A) (i : nat) (x : A) :
  i < length l -> py_setitem l (Z.of_nat i) x = Ok (<[i := x]> l).
Proof.
  intros H. unfold py_setitem. rewrite py_index_nat by exact H. reflexivity.
Qed.

Definition fill_step (h : list nat) (lc : Z * nat) : list nat :=
  <[(if (Z.of_nat MAX_LENGTH <=? fst lc)%Z then MAX_LENGTH - 1
     else Z.to_nat (fst lc)) := snd lc]> h.

Lemma fill_lengths_nonneg len_counts :
  forall h, length h = MAX_LENGTH ->
    Forall (fun lc => (0 <= fst lc)%Z) len_counts ->
    fill_lengths h len_counts = Ok (fold_left fill_step len_counts h).
Proof.
  induction len_counts as [|[le count] rest IH]; intros h Hlen Hall; [reflexivity|].
  inversion Hall as [|? ? Hle Hrest]; subst. simpl in Hle.
  cbn [fill_lengths fold_left mbind res_mbind res_bind].
  assert (Hstep : (if (Z.of_nat MAX_LENGTH <=? le)%Z
                   then py_setitem h (Z.of_nat MAX_LENGTH - 1) count
                   else py_setitem h le count) = Ok (fill_step h (le, count))).
  { unfold fill_step. cbn [fst snd].
    destruct (Z.of_nat MAX_LENGTH <=? le)%Z eqn:E.
    - change (Z.of_nat MAX_LENGTH - 1)%Z with (Z.of_nat (MAX_LENGTH - 1)).
      apply py_setitem_nat. rewrite Hlen. unfold MAX_LENGTH. lia.
    - apply Z.leb_gt in E. rewrite <- (Z2Nat.id le) at 1 by exact Hle.
      apply py_setitem_nat. rewrite Hlen. lia. }
  rewrite Hstep. cbn [res_bind]. apply IH; [|exact Hrest].
  unfold fill_step. rewrite length_insert. exact Hlen.
Qed.

Lemma fold_fill_step_other (post : list (Z * nat)) :
  forall h, Forall (fun lc => (0 <= fst lc < Z.of_nat MAX_LENGTH - 1)%Z) post ->
    fold_left fill_step post h !! (MAX_LENGTH - 1) = h !! (MAX_LENGTH - 1).
Proof.
  induction post as [|[le count] rest IH]; intros h Hall; [reflexivity|].
  inversion Hall as [|? ? Hle Hrest]; subst. simpl in Hle.
  cbn [fold_left]. rewrite (IH _ Hrest). unfold fill_step. cbn [fst snd].
  destruct (Z.of_nat MAX_LENGTH <=? le)%Z eqn:E; [apply Z.leb_le in E; lia|].
  apply list_lookup_insert_ne. unfold MAX_LENGTH in *. lia.
Qed.

(** C10, as the code has it. The last slot, index 39, is written by every
    length of 39 or more: 39 is the index of length 39 itself, and the
    lengths from 40 on are sent there. When such a length is followed only
    by lengths below 39, the last slot of the length histogram holds the
    count of that length alone, whatever was counted before it: each
    write replaces the slot. *)
Theorem last_length_slot_is_overwritten
    (pre post : list (Z * nat)) (le : Z) (count : nat) :
  Forall (fun lc => (0 <= fst lc)%Z) pre ->
  (Z.of_nat MAX_LENGTH - 1 <= le)%Z ->
  Forall (fun lc => (0 <= fst lc < Z.of_nat MAX_LENGTH - 1)%Z) post ->
  exists h, length_histogram (pre ++ (le, count) :: post) = Ok h
            /\ h !! (MAX_LENGTH - 1) = Some count.
Proof.
  intros Hpre Hle Hpost. unfold length_histogram.
  rewrite fill_lengths_nonneg.
  - eexists. split; [reflexivity|].
    rewrite fold_left_app. cbn [fold_left].
    rewrite (fold_fill_step_other post _ Hpost).
    unfold fill_step at 1. cbn [fst snd].
    replace (if (Z.of_nat MAX_LENGTH <=? le)%Z then MAX_LENGTH - 1 else Z.to_nat le)
      with (MAX_LENGTH - 1)
      by (destruct (Z.of_nat MAX_LENGTH <=? le)%Z eqn:E; [reflexivity|];
          apply Z.leb_gt in E; unfold MAX_LENGTH in *; lia).
    apply list_lookup_insert_eq.
    assert (Hl : forall l h, length h = MAX_LENGTH ->
                   length (fold_left fill_step l h) = MAX_LENGTH).
    { induction l as [|x l IHl]; intros h Hh; [exact Hh|].
      cbn [fold_left]. apply IHl. unfold fill_step. rewrite length_insert. exact Hh. }
    rewrite Hl; [unfold MAX_LENGTH; lia | apply repeat_length].
  - apply repeat_length.
  - apply Forall_app. split; [exact Hpre|]. constructor; [simpl; unfold MAX_LENGTH in Hle; lia|].
    eapply Forall_impl; [exact Hpost|]. intros lc Hlc. simpl in Hlc. lia.
Qed.

(** C10, refuted as stated. Three rows of length 41, two of length 40 and
    one of length 39, in this order: the last slot ends at 1, the count of
    length 39, not at 2, the count of the last length of 40 or more. *)
Lemma length_39_overwrites_last_slot :
  exists h, length_histogram [(41%Z, 3); (40%Z, 2); (39%Z, 1)] = Ok h
            /\ h !! 39 = Some 1.
Proof. eexists. split; [vm_compute; reflexivity|]. reflexivity. Qed.

(** Three rows of length 41 and two of length 40: the last slot ends at 2,
    not at 5. *)
Lemma last_length_slot_is_overwritten_witness :
  exists h, length_histogram [(41%Z, 3); (40%Z, 2); (7%Z, 1)] = Ok h
            /\ h !! 39 = Some 2.
Proof.
  apply (last_length_slot_is_overwritten [(41%Z, 3)] [(7%Z, 1)] 40 2).
  - repeat constructor; simpl; lia.
  - unfold MAX_LENGTH. lia.
  - repeat constructor; unfold MAX_LENGTH; simpl; lia.
Defined.

End TallyFacts.

(** ** The path sampler: one-end walks and [PassingThrough] *)
Module SamplingFacts.
Import Model Sampling Scenarios.

Definition swap (e : Edge) : Edge := (snd e, fst e).

(** A backward path read as the forward path it mirrors. *)
Definition mirror (path : list Edge) : list Edge := rev (map swap path).

Lemma mirror_snoc path cur next :
  mirror (path ++ [(cur, next)]) = (next, cur) :: mirror path.
Proof. unfold mirror. rewrite map_app, rev_app_distr. reflexivity. Qed.

Lemma walk_mirror s steps :
  forall cur visited fwd r,
    walk s steps false cur visited (mirror fwd) r
    = match walk s steps true cur visited fwd r with
      | Ok ((path, visited'), r') => Ok ((mirror path, visited'), r')
      | Raise e => Raise e
      end.
Proof.
  induction steps as [|steps IH]; intros cur visited fwd r; [reflexivity|].
  cbn [walk]. unfold bind.
  destruct (_sample_next_host s cur visited true r) as [[[next|] r1]|e];
    try reflexivity.
  destruct (next =? 0)%Z; [reflexivity|].
  rewrite <- mirror_snoc. apply IH.
Qed.

(** X1. A walk with [forward=False] visits the hosts a forward walk visits, on
    the same draws, and returns the forward edges reversed and in reverse
    order: it follows successors, never predecessors. *)
Theorem backward_walk_mirrors_forward_walk s start max_length visited r :
  _sample_one_end s start max_length false visited r
  = match _sample_one_end s start max_length true visited r with
    | Ok ((path, visited'), r') => Ok ((mirror path, visited'), r')
    | Raise e => Raise e
    end.
Proof. unfold _sample_one_end. apply (walk_mirror s _ start _ []). Qed.

Lemma walk_forward_shape s steps :
  forall cur visited acc r path visited' r',
    walk s steps true cur visited acc r = Ok ((path, visited'), r') ->
    exists new, path = acc ++ new
                /\ (new = [] \/ exists next rest, new = (cur, next) :: rest).
Proof.
  induction steps as [|steps IH]; intros cur visited acc r path visited' r' H.
  - injection H as <- <- <-. exists []. rewrite app_nil_r. auto.
  - cbn [walk] in H. unfold bind in H.
    destruct (_sample_next_host s cur visited true r) as [[[next|] r1]|e];
      [| |discriminate H].
    + destruct (next =? 0)%Z.
      * injection H as <- <- <-. exists []. rewrite app_nil_r. auto.
      * apply IH in H. destruct H as (new & -> & _).
        exists ((cur, next) :: new). rewrite <- app_assoc. split; [reflexivity|].
        right. exists next, new. reflexivity.
    + injection H as <- <- <-. exists []. rewrite app_nil_r. auto.
Qed.

(** X2. [PassingThrough.sample] returns the forward part first: the
    result is the path of its first [_sample_one_end] call, made with
    [forward=True] from the pivot, followed by the path of its second call,
    made with [forward=False] from the same pivot and the visited set the
    first call left. A non-empty forward part starts at the pivot and a
    non-empty backward part ends at it, so the pivot sits at the two ends
    of the result, not at the junction. *)
Theorem passing_through_forward_part_first hosts s r path r' :
  strategy_sample (PassingThrough hosts) s r = Ok (path, r') ->
  exists max_length r1 pivot r2 first_half r3 forward_part visited r4
         backward_part visited',
    _sample_length s r = Ok (max_length, r1)
    /\ Random.choice hosts r1 = Ok (pivot, r2) /\ In pivot hosts
    /\ Random.randint 0 max_length r2 = Ok (first_half, r3)
    /\ _sample_one_end s pivot first_half true (Some ∅) r3
       = Ok ((forward_part, visited), r4)
    /\ _sample_one_end s pivot (max_length - first_half) false (Some visited) r4
       = Ok ((backward_part, visited'), r')
    /\ path = forward_part ++ backward_part
    /\ (forward_part = [] \/ exists next rest, forward_part = (pivot, next) :: rest)
    /\ (backward_part = [] \/ exists prev front, backward_part = front ++ [(prev, pivot)]).
Proof.
  cbn [strategy_sample]. unfold bind. intros H.
  destruct (_sample_length s r) as [[max_length r1]|e] eqn:Hlength;
    [|discriminate H].
  destruct (Random.choice hosts r1) as [[pivot r2]|e] eqn:Hpivot; [|discriminate H].
  destruct (Random.randint 0 max_length r2) as [[first_half r3]|e] eqn:Hhalf;
    [|discriminate H].
  destruct (_sample_one_end s pivot first_half true (Some ∅) r3)
    as [[[fwd v1] r4]|e] eqn:Hfwd; [|discriminate H].
  destruct (_sample_one_end s pivot (max_length - first_half) false (Some v1) r4)
    as [[[bwd v2] r5]|e] eqn:Hbwd; [|discriminate H].
  injection H as <- <-.
  exists max_length, r1, pivot, r2, first_half, r3, fwd, v1, r4, bwd, v2.
  split; [reflexivity|]. split; [exact Hpivot|].
  split; [eapply ModelFacts.choice_In; eauto|]. split; [exact Hhalf|].
  split; [exact Hfwd|]. split; [exact Hbwd|]. split; [reflexivity|].
  unfold _sample_one_end in Hfwd, Hbwd.
  change (@nil Edge) with (mirror []) in Hbwd. rewrite walk_mirror in Hbwd.
  destruct (walk s _ true pivot _ [] r4) as [[[fwd2 v2'] r5']|e] eqn:Hbwd2;
    [|discriminate Hbwd].
  injection Hbwd as <- <- <-.
  apply walk_forward_shape in Hfwd. apply walk_forward_shape in Hbwd2.
  destruct Hfwd as (new1 & -> & Hnew1). destruct Hbwd2 as (new2 & -> & Hnew2).
  split; [exact Hnew1|].
  destruct Hnew2 as [-> | (next & rest & ->)]; [left; reflexivity|].
  right. exists next, (mirror rest). unfold mirror. reflexivity.
Qed.

(** On the fork with pivot 2: the forward part (2, 3), then (1, 2). *)
Lemma passing_through_forward_part_first_witness :
  exists max_length r1 pivot r2 first_half r3 forward_part visited r4
         backward_part visited',
    _sample_length (sampler_of fork_model) [4; 0; 1; 0] = Ok (max_length, r1)
    /\ Random.choice [2%Z] r1 = Ok (pivot, r2) /\ In pivot [2%Z]
    /\ Random.randint 0 max_length r2 = Ok (first_half, r3)
    /\ _sample_one_end (sampler_of fork_model) pivot first_half true (Some ∅) r3
       = Ok ((forward_part, visited), r4)
    /\ _sample_one_end (sampler_of fork_model) pivot (max_length - first_half)
         false (Some visited) r4
       = Ok ((backward_part, visited'), [])
    /\ [(2, 3); (1, 2)]%Z = forward_part ++ backward_part
    /\ (forward_part = []
        \/ exists next rest, forward_part = (pivot, next) :: rest)
    /\ (backward_part = []
        \/ exists prev front, backward_part = front ++ [(prev, pivot)]).
Proof.
  apply (passing_through_forward_part_first [2%Z] (sampler_of fork_model)
           [4; 0; 1; 0] [(2, 3); (1, 2)]%Z []).
  vm_compute. reflexivity.
Defined.

(** C2: what the code does on the line 1 -> 2 -> 3. Host 2 has the single
    predecessor 1, and [_sample_next_host] called with [forward=False]
    picks it; but a walk from host 2 with [forward=False] extends through
    the successor 3 and returns the edge (3, 2), which is not an edge of
    the graph. *)
Theorem backward_walk_extends_through_successors :
  predecessors (graph line_model) 2 = Ok [1%Z]
  /\ successors (graph line_model) 2 = Ok [3%Z]
  /\ _sample_next_host (sampler_of line_model) 2 {[2%Z]} false [] = Ok (Some 1%Z, [])
  /\ _sample_one_end (sampler_of line_model) 2 1 false None []
     = Ok (([(3, 2)%Z], {[3%Z; 2%Z]}), []).
Proof. vm_compute. repeat split. Qed.

(** C7: what the code does on the fork 1 <-> 2 -> 3 with pivot 2 and one
    step on each side. The draws are: 4 for the length (2), 0 for the
    pivot, 1 for the size of the forward part, 0 for the first host. The
    forward part is (2, 3), the part sampled with [forward=False] is
    (1, 2), and the result lists the forward part first: its two edges do
    not meet. *)
Theorem passing_through_returns_forward_part_first :
  successors (graph fork_model) 2 = Ok [3; 1]%Z
  /\ predecessors (graph fork_model) 2 = Ok [1%Z]
  /\ _sample_one_end (sampler_of fork_model) 2 1 true (Some ∅) [0]
     = Ok (([(2, 3)%Z], {[3%Z; 2%Z]}), [])
  /\ _sample_one_end (sampler_of fork_model) 2 1 false (Some {[3%Z; 2%Z]}) []
     = Ok (([(1, 2)%Z], {[1%Z; 3%Z; 2%Z]}), [])
  /\ through_2 = PassingThrough [2%Z]
  /\ strategy_sample through_2 (sampler_of fork_model) [4; 0; 1; 0]
     = Ok ([(2, 3); (1, 2)]%Z, []).
Proof. vm_compute. repeat split. Qed.

End SamplingFacts.

(** ** Deduplication: [unique_hashes] against [generated] *)
Module DedupFacts.
Import Vulnerabilities Model Sampling AttackPaths Generation Steering Scenarios.

(** The invariant of the spec: as many hashes as paths counted. *)
Definition dedup_invariant (g : PathGenerator) : Prop :=
  size (unique_hashes g) = sum_list (generated g).

(** The bootstraps that keep it: traces that parse, with pairwise distinct
    hashes that the generator has not seen. *)
Definition fresh_bootstrap (g : SteeringPathGenerator) (paths : list string) : Prop :=
  exists aps, from_traces (gen_model (base g)) paths = Ok aps
    /\ NoDup (map ap_hash aps)
    /\ Forall (fun ap => ap_hash ap ∉ unique_hashes (base g)) aps.

Ltac break_res H :=
  repeat match type of H with
         | context [mbind _ ?x] =>
             let E := fresh "E" in
             destruct x eqn:E; cbn [mbind res_mbind res_bind] in H;
             [|discriminate H]
         end;
  cbv zeta in H.

Lemma sum_list_snoc (l : list nat) (n : nat) : sum_list (l ++ [n]) = sum_list l + n.
Proof. induction l as [|x l IH]; cbn in *; [unfold id | rewrite IH]; lia. Qed.

Lemma update_stability_keeps g paths g' :
  update_stability g paths = Ok g' ->
  unique_hashes g' = unique_hashes g /\ generated g' = generated g.
Proof.
  unfold update_stability. intros H. break_res H. injection H as <-. split; reflexivity.
Qed.

Lemma update_statistics_keeps g paths g' :
  update_statistics g paths = Ok g' ->
  unique_hashes g' = unique_hashes g /\ generated g' = generated g.
Proof.
  unfold update_statistics. intros H. break_res H. injection H as <-. split; reflexivity.
Qed.

Section Runs.

Variable strategy : PathSampler -> M (list Edge).
Variable classifier :
  list (SteeringBaseFeatures * bool) -> res (SteeringBaseFeatures -> bool).

(** What the loop of [sample_attack_paths] maintains, [before] being the
    number of hashes when it starts. *)
Definition loop_invariant (before : nat) (st : SampleState) : Prop :=
  ss_collisions st <= ss_sampled_aps st
  /\ size (ss_unique_hashes st) + ss_collisions st = before + ss_sampled_aps st.

Lemma sample_loop_invariant m sample_size preferred before todo :
  forall st r st' r',
    sample_loop strategy m sample_size preferred todo st r = Ok (st', r') ->
    loop_invariant before st -> loop_invariant before st'.
Proof.
  induction todo as [|todo IH]; intros st r st' r' H Hinv.
  - injection H as <- <-. exact Hinv.
  - cbn [sample_loop] in H. unfold bind in H.
    destruct (sample_path strategy (ss_sampler st) r) as [[[path sampler'] r1]|e];
      [|discriminate H].
    destruct path as [|edge path].
    { eapply IH; [exact H|]. exact Hinv. }
    cbn [ss_sampled_aps] in H.
    destruct (Z.of_nat (ss_sampled_aps st) =? sample_size)%Z.
    { injection H as <- <-. exact Hinv. }
    destruct (convert_reachability_to_ap m (edge :: path) preferred r1)
      as [[[ap|] r2]|e]; [| |discriminate H].
    2:{ eapply IH; [exact H|]. exact Hinv. }
    cbn [ss_unique_hashes] in H.
    destruct Hinv as [Hle Heq].
    destruct (bool_decide (ap_hash ap ∈ ss_unique_hashes st)) eqn:Hin.
    + eapply IH; [exact H|]. unfold loop_invariant. cbn. lia.
    + eapply IH; [exact H|]. unfold loop_invariant. cbn.
      apply bool_decide_eq_false in Hin.
      rewrite size_union by set_solver. rewrite size_singleton. lia.
Qed.

(** What a call does to the two sides of the invariant: [g'] has gained
    as many hashes as paths counted. *)
Definition same_excess (g g' : PathGenerator) : Prop :=
  size (unique_hashes g') + sum_list (generated g)
  = size (unique_hashes g) + sum_list (generated g').

(** [g'] has gained no fewer hashes than paths counted. *)
Definition more_excess (g g' : PathGenerator) : Prop :=
  size (unique_hashes g) + sum_list (generated g')
  <= size (unique_hashes g') + sum_list (generated g).

Lemma sample_attack_paths_keeps g preferred r aps g' r' :
  sample_attack_paths strategy g preferred r = Ok ((aps, g'), r') ->
  same_excess g g'.
Proof.
  unfold sample_attack_paths, bind, ret. intros H.
  match type of H with
  | context [sample_loop ?s ?m ?n ?p ?t ?st0 r] =>
      destruct (sample_loop s m n p t st0 r) as [[st r1]|e] eqn:Hloop;
      [|discriminate H]
  end.
  injection H as <- <- <-.
  apply (sample_loop_invariant _ _ _ (size (unique_hashes g))) in Hloop.
  - destruct Hloop as [Hle Heq]. unfold same_excess. cbn.
    rewrite sum_list_snoc. lia.
  - unfold loop_invariant. cbn. lia.
Qed.

Lemma generator_step_keeps g r aps g' r' :
  Generation.step strategy g r = Ok ((aps, g'), r') -> same_excess g g'.
Proof.
  unfold Generation.step, bind, lift, ret. intros H.
  destruct (sample_attack_paths strategy g None r) as [[[aps0 g0] r0]|e] eqn:Hs;
    [|discriminate H].
  destruct (update_stability g0 aps0) as [g1|e] eqn:H1; [|discriminate H].
  destruct (update_statistics g1 aps0) as [g2|e] eqn:H2; [|discriminate H].
  injection H as <- <- <-.
  apply sample_attack_paths_keeps in Hs.
  apply update_stability_keeps in H1. apply update_statistics_keeps in H2.
  unfold same_excess in *. cbn.
  destruct H1 as [-> ->] in H2. destruct H2 as [-> ->]. exact Hs.
Qed.

Lemma advance_iteration_keeps g aps out g' :
  _advance_iteration g aps = Ok (out, g') ->
  unique_hashes (base g') = unique_hashes (base g)
  /\ generated (base g') = generated (base g).
Proof.
  unfold _advance_iteration, update_paths.
  destruct (split_paths (query g) aps) as [q n]. intros H. break_res H.
  injection H as <- <-. cbn.
  apply update_stability_keeps in E. apply update_statistics_keeps in E0.
  cbn in E. destruct E as [E1 E2]. destruct E0 as [E3 E4].
  rewrite E3, E1, E4, E2. split; reflexivity.
Qed.

Lemma update_steering_compliant_vulns_keeps g g' :
  update_steering_compliant_vulns classifier g = Ok g' -> base g' = base g.
Proof.
  unfold update_steering_compliant_vulns. intros H. break_res H.
  injection H as <-. reflexivity.
Qed.

Lemma steering_step_keeps g r out g' r' :
  Steering.step strategy classifier g r = Ok ((out, g'), r') ->
  same_excess (base g) (base g').
Proof.
  unfold Steering.step, bind, lift, ret. intros H.
  assert (Hsampled : forall g0 preferred r0 pb r1 rg steered,
            base g0 = base g ->
            sample_attack_paths strategy (base g0) preferred r0 = Ok (pb, r1) ->
            _advance_iteration (with_base g0 (snd pb)) (fst pb) = Ok rg ->
            same_excess (base g) (base (finish_iteration (snd rg) steered))).
  { intros g0 preferred r0 [aps b] r1 [out' g1] steered Hb Hs Ha.
    cbn [fst snd] in *.
    apply sample_attack_paths_keeps in Hs. rewrite Hb in Hs.
    apply advance_iteration_keeps in Ha. cbn in Ha. destruct Ha as [Hu Hg].
    unfold same_excess in *. cbn. rewrite Hu, Hg. exact Hs. }
  destruct (_can_steer g).
  - destruct (retrains g) as [again|e]; [|discriminate H].
    destruct (if again then update_steering_compliant_vulns classifier g else Ok g)
      as [g0|e] eqn:Hg0; [|discriminate H].
    assert (Hb : base g0 = base g).
    { destruct again; [apply update_steering_compliant_vulns_keeps in Hg0; exact Hg0|].
      injection Hg0 as <-. reflexivity. }
    destruct (sample_attack_paths strategy (base g0)
                (Some (steering_compliant_vulns g0)) r) as [[pb r1]|e] eqn:Hs;
      [|discriminate H].
    destruct (_advance_iteration (with_base g0 (snd pb)) (fst pb)) as [rg|e] eqn:Ha;
      [|discriminate H].
    injection H as <- <- <-. exact (Hsampled g0 _ r pb r1 rg true Hb Hs Ha).
  - destruct (sample_attack_paths strategy (base g) None r) as [[pb r1]|e] eqn:Hs;
      [|discriminate H].
    destruct (_advance_iteration (with_base g (snd pb)) (fst pb)) as [rg|e] eqn:Ha;
      [|discriminate H].
    injection H as <- <- <-. exact (Hsampled g _ r pb r1 rg false eq_refl Hs Ha).
Qed.

(** The hashes the loop has when it stops include those it started with. *)
Lemma hashes_after_loop_includes m sample_size preferred todo :
  forall st r,
    ss_unique_hashes st
    ⊆ hashes_after_loop strategy m sample_size preferred todo st r.
Proof.
  induction todo as [|todo IH]; intros st r; cbn [hashes_after_loop];
    [reflexivity|].
  destruct (sample_path strategy (ss_sampler st) r) as [[[path sampler'] r1]|e];
    [|reflexivity].
  destruct path as [|edge path].
  { etransitivity; [|apply IH]. reflexivity. }
  cbn [ss_sampled_aps ss_unique_hashes].
  destruct (Z.of_nat (ss_sampled_aps st) =? sample_size)%Z; [reflexivity|].
  destruct (convert_reachability_to_ap m (edge :: path) preferred r1)
    as [[[ap|] r2]|e]; [| |reflexivity].
  2:{ etransitivity; [|apply IH]. reflexivity. }
  destruct (bool_decide (ap_hash ap ∈ ss_unique_hashes st));
    (etransitivity; [|apply IH]); cbn [ss_unique_hashes];
    [reflexivity|apply union_subseteq_r].
Qed.

(** When the loop ends, they are the hashes of the state it returns. *)
Lemma hashes_after_loop_returns m sample_size preferred todo :
  forall st r st' r',
    sample_loop strategy m sample_size preferred todo st r = Ok (st', r') ->
    hashes_after_loop strategy m sample_size preferred todo st r
    = ss_unique_hashes st'.
Proof.
  induction todo as [|todo IH]; intros st r st' r' H.
  - injection H as <- <-. reflexivity.
  - cbn [sample_loop] in H. unfold bind in H. cbn [hashes_after_loop].
    destruct (sample_path strategy (ss_sampler st) r) as [[[path sampler'] r1]|e];
      [|discriminate H].
    destruct path as [|edge path]; [exact (IH _ _ _ _ H)|].
    cbn [ss_sampled_aps ss_unique_hashes] in *.
    destruct (Z.of_nat (ss_sampled_aps st) =? sample_size)%Z.
    { injection H as <- <-. reflexivity. }
    destruct (convert_reachability_to_ap m (edge :: path) preferred r1)
      as [[[ap|] r2]|e]; [| |discriminate H]; exact (IH _ _ _ _ H).
Qed.

(** The generator after a call that raised: [unique_hashes] and
    [generated] are as the call left them. Its other fields (the weights of
    the sampler, the bins of an update that stopped half way) are what the
    call had reached when it raised; nothing is assumed of them. *)
Definition left_with (hg : gset string * list nat) (g' : PathGenerator) : Prop :=
  unique_hashes g' = fst hg /\ generated g' = snd hg.

Lemma sample_attack_paths_leaves_more g preferred r g' :
  left_with (sample_attack_paths_leaves strategy g preferred r) g' ->
  more_excess g g'.
Proof.
  unfold sample_attack_paths_leaves, left_with, more_excess.
  destruct (sample_attack_paths strategy g preferred r) as [[[aps g1] r1]|e] eqn:Hs;
    cbn [fst snd]; intros [-> ->].
  - apply sample_attack_paths_keeps in Hs. unfold same_excess in Hs. lia.
  - pose proof (hashes_after_loop_includes (gen_model g) (sample_size g) preferred
                  (Z.to_nat (sample_size g))
                  {| ss_sampler := path_sampler g;
                     ss_unique_hashes := unique_hashes g;
                     ss_attack_paths := []; ss_sampled_aps := 0;
                     ss_collisions := 0 |} r) as Hsub.
    cbn [ss_unique_hashes] in Hsub. apply subseteq_size in Hsub. lia.
Qed.

Lemma steering_step_leaves_more g r g' :
  left_with (Steering.step_leaves strategy classifier g r) (base g') ->
  more_excess (base g) (base g').
Proof.
  unfold Steering.step_leaves.
  assert (Hsame : left_with (unique_hashes (base g), generated (base g)) (base g')
                  -> more_excess (base g) (base g')).
  { unfold left_with, more_excess. cbn [fst snd]. intros [-> ->]. lia. }
  destruct (_can_steer g); [|apply sample_attack_paths_leaves_more].
  destruct (retrains g) as [again|e]; [|exact Hsame].
  destruct (if again then update_steering_compliant_vulns classifier g else Ok g)
    as [g0|e] eqn:Hg0; [|exact Hsame].
  assert (Hb : base g0 = base g).
  { destruct again; [apply update_steering_compliant_vulns_keeps in Hg0; exact Hg0|].
    injection Hg0 as <-. reflexivity. }
  intros H. apply sample_attack_paths_leaves_more in H. rewrite Hb in H. exact H.
Qed.

Lemma add_bootstrap_hashes g paths out g' :
  add_bootstrap g paths = Ok (out, g') ->
  exists aps, from_traces (gen_model (base g)) paths = Ok aps
    /\ unique_hashes (base g')
       = list_to_set (map ap_hash aps) ∪ unique_hashes (base g)
    /\ generated (base g') = generated (base g) ++ [length aps].
Proof.
  unfold add_bootstrap. intros H.
  destruct (from_traces (gen_model (base g)) paths) as [aps|e];
    cbn [mbind res_mbind res_bind] in H; [|discriminate H].
  destruct (_advance_iteration (with_base g (pretend_sampled (base g) aps)) aps)
    as [[result g1]|e] eqn:Ha; cbn [mbind res_mbind res_bind] in H;
    [|discriminate H].
  break_res H. injection H as <- <-.
  exists aps. split; [reflexivity|].
  apply advance_iteration_keeps in Ha. cbn in Ha. destruct Ha as [Hu Hg].
  cbn. rewrite Hu, Hg. split; reflexivity.
Qed.

Lemma fresh_hashes_size (aps : list AttackPath) (old : gset string) :
  NoDup (map ap_hash aps) -> Forall (fun ap => ap_hash ap ∉ old) aps ->
  size (list_to_set (map ap_hash aps) ∪ old) = length aps + size old.
Proof.
  intros Hnodup Hnew. rewrite size_union.
  - rewrite size_list_to_set by exact Hnodup. rewrite length_map. reflexivity.
  - intros h Hh1 Hh2. apply elem_of_list_to_set in Hh1.
    apply list_elem_of_In, in_map_iff in Hh1. destruct Hh1 as (ap & <- & Hap).
    rewrite Forall_forall in Hnew. apply (Hnew ap); [|exact Hh2].
    apply list_elem_of_In. exact Hap.
Qed.

Lemma add_bootstrap_fresh_keeps g paths out g' :
  fresh_bootstrap g paths ->
  add_bootstrap g paths = Ok (out, g') ->
  same_excess (base g) (base g').
Proof.
  intros (aps & Haps & Hnodup & Hnew) H.
  apply add_bootstrap_hashes in H. destruct H as (aps' & Haps' & Hu & Hg).
  rewrite Haps in Haps'. injection Haps' as <-.
  unfold same_excess. rewrite Hu, Hg, sum_list_snoc.
  rewrite (fresh_hashes_size aps _ Hnodup Hnew). lia.
Qed.

Lemma add_bootstrap_leaves_more g paths g' :
  fresh_bootstrap g paths ->
  left_with (add_bootstrap_leaves g paths) (base g') ->
  more_excess (base g) (base g').
Proof.
  intros (aps & Haps & Hnodup & Hnew). unfold add_bootstrap_leaves. rewrite Haps.
  unfold left_with, more_excess. cbn [fst snd pretend_sampled unique_hashes generated].
  intros [-> ->]. rewrite sum_list_snoc, (fresh_hashes_size aps _ Hnodup Hnew). lia.
Qed.

(** X3. Whatever the traces, a bootstrap never leaves more hashes than
    paths counted. *)
Theorem add_bootstrap_at_most g paths out g' :
  add_bootstrap g paths = Ok (out, g') ->
  size (unique_hashes (base g)) <= sum_list (generated (base g)) ->
  size (unique_hashes (base g')) <= sum_list (generated (base g')).
Proof.
  intros H Hinv.
  apply add_bootstrap_hashes in H. destruct H as (aps & _ & Hu & Hg).
  rewrite Hu, Hg, sum_list_snoc.
  assert (Hsize : forall l : list string, size (list_to_set l : gset string) <= length l).
  { induction l as [|x l IHl]; cbn.
    - rewrite size_empty. lia.
    - rewrite size_union_alt, size_singleton.
      assert (Hsub : list_to_set l ∖ {[x]} ⊆ (list_to_set l : gset string))
        by apply subseteq_difference_l, reflexivity.
      apply subseteq_size in Hsub. lia. }
  rewrite size_union_alt.
  assert (Hsub : unique_hashes (base g) ∖ list_to_set (map ap_hash aps)
                 ⊆ unique_hashes (base g))
    by apply subseteq_difference_l, reflexivity.
  apply subseteq_size in Hsub.
  pose proof (Hsize (map ap_hash aps)) as Hle. rewrite length_map in Hle. lia.
Qed.

(** Runs of a [PathGenerator]: any number of [step] calls. *)
Inductive steps : PathGenerator -> Rng -> PathGenerator -> Rng -> Prop :=
| steps_done g r : steps g r g r
| steps_step g r aps g1 r1 g2 r2 :
    Generation.step strategy g r = Ok ((aps, g1), r1) ->
    steps g1 r1 g2 r2 -> steps g r g2 r2.

(** Runs of a [SteeringPathGenerator]: [step] calls and fresh
    [add_bootstrap] calls, in any order. *)
Inductive run : SteeringPathGenerator -> Rng -> SteeringPathGenerator -> Rng -> Prop :=
| run_done g r : run g r g r
| run_step g r out g1 r1 g2 r2 :
    Steering.step strategy classifier g r = Ok ((out, g1), r1) ->
    run g1 r1 g2 r2 -> run g r g2 r2
| run_bootstrap g r paths out g1 g2 r2 :
    fresh_bootstrap g paths ->
    add_bootstrap g paths = Ok (out, g1) ->
    run g1 r g2 r2 -> run g r g2 r2.

(** The life of a [PathGenerator] whose caller catches what [step] raises
    and calls it again, as the server does: the draws of a call are any. *)
Inductive life : PathGenerator -> PathGenerator -> Prop :=
| life_done g : life g g
| life_returns g r aps g1 r1 g2 :
    Generation.step strategy g r = Ok ((aps, g1), r1) ->
    life g1 g2 -> life g g2
| life_raises g r e g1 g2 :
    Generation.step strategy g r = Raise e ->
    left_with (Generation.step_leaves strategy g r) g1 ->
    life g1 g2 -> life g g2.

(** The same for a [SteeringPathGenerator], with fresh [add_bootstrap]
    calls. *)
Inductive steering_life : SteeringPathGenerator -> SteeringPathGenerator -> Prop :=
| steering_life_done g : steering_life g g
| steering_life_returns g r out g1 r1 g2 :
    Steering.step strategy classifier g r = Ok ((out, g1), r1) ->
    steering_life g1 g2 -> steering_life g g2
| steering_life_raises g r e g1 g2 :
    Steering.step strategy classifier g r = Raise e ->
    left_with (Steering.step_leaves strategy classifier g r) (base g1) ->
    steering_life g1 g2 -> steering_life g g2
| steering_life_bootstrap g paths out g1 g2 :
    fresh_bootstrap g paths ->
    add_bootstrap g paths = Ok (out, g1) ->
    steering_life g1 g2 -> steering_life g g2
| steering_life_bootstrap_raises g paths e g1 g2 :
    fresh_bootstrap g paths ->
    add_bootstrap g paths = Raise e ->
    left_with (add_bootstrap_leaves g paths) (base g1) ->
    steering_life g1 g2 -> steering_life g g2.

(** No more paths counted than hashes. *)
Definition at_least (g : PathGenerator) : Prop :=
  sum_list (generated g) <= size (unique_hashes g).

(** C4, as the code has it. A generator starts with as many hashes as
    paths counted (none), and keeps it so through every [step] that
    returns, of either generator, and through every [add_bootstrap] that
    returns and whose traces have pairwise distinct hashes that are not in
    [unique_hashes] yet. A call that raises keeps the hashes it has added
    and may not have counted them: when the caller goes on after it, the
    hashes are at least as many as the paths counted. *)
Theorem unique_hashes_count_generated_paths :
  (forall m s sample_size compute_statistics found,
     dedup_invariant (PathGenerator_init m s sample_size compute_statistics found))
  /\ (forall g r g' r',
        dedup_invariant g -> steps g r g' r' -> dedup_invariant g')
  /\ (forall g r g' r',
        dedup_invariant (base g) -> run g r g' r' -> dedup_invariant (base g'))
  /\ (forall g g', at_least g -> life g g' -> at_least g')
  /\ (forall g g',
        at_least (base g) -> steering_life g g' -> at_least (base g')).
Proof.
  assert (Same : forall g g',
            same_excess g g' -> dedup_invariant g -> dedup_invariant g').
  { unfold same_excess, dedup_invariant. intros. lia. }
  assert (Same' : forall g g', same_excess g g' -> at_least g -> at_least g').
  { unfold same_excess, at_least. intros. lia. }
  assert (More : forall g g', more_excess g g' -> at_least g -> at_least g').
  { unfold more_excess, at_least. intros. lia. }
  split; [|split; [|split; [|split]]].
  - intros m s n c found. unfold dedup_invariant. cbn. apply size_empty.
  - intros g r g' r' Hinv Hrun. induction Hrun as [|g r aps g1 r1 g2 r2 Hs _ IH].
    + exact Hinv.
    + apply IH. eapply Same; [|exact Hinv]. eapply generator_step_keeps; eauto.
  - intros g r g' r' Hinv Hrun.
    induction Hrun as [|g r out g1 r1 g2 r2 Hs _ IH
                        |g r paths out g1 g2 r2 Hfresh Hb _ IH].
    + exact Hinv.
    + apply IH. eapply Same; [|exact Hinv]. eapply steering_step_keeps; eauto.
    + apply IH. eapply Same; [|exact Hinv]. eapply add_bootstrap_fresh_keeps; eauto.
  - intros g g' Hinv Hlife.
    induction Hlife as [|g r aps g1 r1 g2 Hs _ IH|g r e g1 g2 Hs Hl _ IH].
    + exact Hinv.
    + apply IH. eapply Same'; [|exact Hinv]. eapply generator_step_keeps; eauto.
    + apply IH. eapply More; [|exact Hinv].
      apply (sample_attack_paths_leaves_more g None r g1 Hl).
  - intros g g' Hinv Hlife.
    induction Hlife as [|g r out g1 r1 g2 Hs _ IH|g r e g1 g2 Hs Hl _ IH
                        |g paths out g1 g2 Hf Hb _ IH
                        |g paths e g1 g2 Hf Hb Hl _ IH].
    + exact Hinv.
    + apply IH. eapply Same'; [|exact Hinv]. eapply steering_step_keeps; eauto.
    + apply IH. eapply More; [|exact Hinv].
      apply (steering_step_leaves_more g r g1 Hl).
    + apply IH. eapply Same'; [|exact Hinv]. eapply add_bootstrap_fresh_keeps; eauto.
    + apply IH. eapply More; [|exact Hinv].
      apply (add_bootstrap_leaves_more g paths g1 Hf Hl).
Qed.

End Runs.

(** C4, refuted as stated. A bootstrap that lists the same trace twice
    counts two generated paths and leaves one hash. *)
Lemma duplicate_bootstrap_breaks_count :
  (rg ← add_bootstrap line_generator [one_step_trace; one_step_trace];
   Ok (size (unique_hashes (base (snd rg))), generated (base (snd rg))))
  = Ok (1, [2]).
Proof. vm_compute. reflexivity. Qed.

(** A step that raises after it has added a hash. The first walk of the
    fork generator ends at host 1 and gives a new path; the second ends at
    host 2 and records the edge 3 -> 2, which the graph does not have, so
    that [_update_weights] raises [KeyError]: the step leaves one hash and
    no entry in [generated]. *)
Lemma raising_step_keeps_its_hashes :
  Steering.step ending_at_1_2 accept_all fork_generator fork_tape = Raise KeyError
  /\ size (fst (Steering.step_leaves ending_at_1_2 accept_all fork_generator
                  fork_tape)) = 1
  /\ snd (Steering.step_leaves ending_at_1_2 accept_all fork_generator fork_tape)
     = [].
Proof. vm_compute. repeat split. Qed.

(** A bootstrap of one trace, then a step that samples four walks of which
    three give a new path: four hashes for 1 + 3 paths. *)
Definition succeeds {A} (x : res A) : bool :=
  match x with Ok _ => true | Raise _ => false end.

Lemma succeeds_get2 {A B} (d : A * B) (x : res (A * B)) :
  succeeds x = true -> x = Ok (fst (get d x), snd (get d x)).
Proof. destruct x as [[a b]|e]; [reflexivity | discriminate]. Qed.

Lemma succeeds_get3 {A B C} (d : A * B * C) (x : res (A * B * C)) :
  succeeds x = true
  -> x = Ok ((fst (fst (get d x)), snd (fst (get d x))), snd (get d x)).
Proof. destruct x as [[[a b] c]|e]; [reflexivity | discriminate]. Qed.

Lemma bootstrapped_twice_eq :
  add_bootstrap line_generator [one_step_trace; one_step_trace]
  = Ok (fst bootstrapped_twice, snd bootstrapped_twice).
Proof. unfold bootstrapped_twice. apply succeeds_get2. vm_compute. reflexivity. Qed.

(** The doubled bootstrap: one hash for two paths counted. *)
Lemma add_bootstrap_at_most_witness :
  size (unique_hashes (base (snd bootstrapped_twice)))
  <= sum_list (generated (base (snd bootstrapped_twice))).
Proof.
  apply (add_bootstrap_at_most line_generator [one_step_trace; one_step_trace]
           (fst bootstrapped_twice) (snd bootstrapped_twice) bootstrapped_twice_eq).
  vm_compute. apply le_n.
Defined.

Lemma bootstrapped_eq :
  add_bootstrap small_generator [one_step_trace]
  = Ok (fst bootstrapped, snd bootstrapped).
Proof. unfold bootstrapped. apply succeeds_get2. vm_compute. reflexivity. Qed.

Lemma stepped_eq :
  Steering.step uniform accept_all (snd bootstrapped) tape
  = Ok ((fst (fst stepped), snd (fst stepped)), snd stepped).
Proof. unfold stepped. apply succeeds_get3. vm_compute. reflexivity. Qed.

Lemma unique_hashes_count_generated_paths_witness :
  run uniform accept_all small_generator tape (snd (fst stepped)) (snd stepped)
  /\ dedup_invariant (base (snd (fst stepped)))
  /\ generated (base (snd (fst stepped))) = [1; 3].
Proof.
  assert (Hrun : run uniform accept_all small_generator tape
                     (snd (fst stepped)) (snd stepped)).
  { apply (run_bootstrap uniform accept_all small_generator tape [one_step_trace]
             (fst bootstrapped) (snd bootstrapped)).
    - exists [one_step_path]. split; [vm_compute; reflexivity|]. split.
      + apply NoDup_singleton.
      + constructor; [apply not_elem_of_empty | constructor].
    - exact bootstrapped_eq.
    - apply (run_step uniform accept_all (snd bootstrapped) tape
               (fst (fst stepped)) (snd (fst stepped)) (snd stepped)).
      + exact stepped_eq.
      + apply run_done. }
  split; [exact Hrun|]. split; [|vm_compute; reflexivity].
  destruct (unique_hashes_count_generated_paths uniform accept_all)
    as (Hinit & _ & Hkeeps & _).
  apply (Hkeeps small_generator tape _ _ (Hinit _ _ _ _ _) Hrun).
Defined.

End DedupFacts.

(** ** The steering loop: when the classifier is trained again *)
Module SteeringFacts.
Import Float64 Float64Facts Statistics Generation Steering Scenarios.

Lemma Qle_bool_Qred_l (x y : Q) : Qle_bool (Qred x) y = Qle_bool x y.
Proof.
  destruct (Qle_bool x y) eqn:E.
  - apply Qle_bool_iff. rewrite Qred_correct. apply Qle_bool_iff. exact E.
  - destruct (Qle_bool (Qred x) y) eqn:E'; [|reflexivity].
    apply Qle_bool_iff in E'. rewrite Qred_correct in E'.
    apply Qle_bool_iff in E'. congruence.
Qed.




(** Within that distance the rounding decides: five precisions of 1/9 have
    the mean 1/9, yet their float sum divided by five is above the float
    of 1/9 and the test fails; with 1/2 it holds. *)
Lemma update_steering_vulns_rounds :
  update_steering_vulns [1 # 9; 1 # 9; 1 # 9; 1 # 9; 1 # 9]%Q = Ok false
  /\ mean [1 # 9; 1 # 9; 1 # 9; 1 # 9; 1 # 9]%Q = Ok (1 # 9)%Q
  /\ update_steering_vulns [1 # 2; 1 # 2; 1 # 2; 1 # 2; 1 # 2]%Q = Ok true.
Proof. vm_compute. repeat split. Qed.

(** With fewer, it still divides the sum by five. *)
Lemma update_steering_vulns_short_window (precision : list Q) (p : Q) :
  length precision <= 5 -> last precision = Some p ->
  update_steering_vulns precision
  = Ok (Qle_bool (fdiv (fsum precision) 5) (b64 p)).
Proof.
  intros Hlen Hlast. unfold update_steering_vulns, last_n. rewrite Hlast.
  replace (length precision - 5) with 0 by lia. reflexivity.
Qed.

(** C8: what the code does three iterations in. The generator can steer
    and has a non-empty set of compliant CVEs; the mean of its three
    precisions, 0.7, is above the latest one, 0.6; yet the test holds
    (2.1 / 5 = 0.42 <= 0.6) and the classifier is trained again. *)
Theorem retrains_below_the_mean :
  _can_steer stalled_generator = true
  /\ size (steering_compliant_vulns stalled_generator) = 1
  /\ precision stalled_generator = [1 # 2; 1; 3 # 5]%Q
  /\ mean (precision stalled_generator) = Ok (7 # 10)%Q
  /\ Qle_bool (7 # 10) (3 # 5) = false
  /\ update_steering_vulns (precision stalled_generator) = Ok true
  /\ retrains stalled_generator = Ok true.
Proof. vm_compute. repeat split. Qed.

End SteeringFacts.

(** ** The model: what [add_host], [add_edge] and [add_link] keep *)
Module ModelInvariants.
Import Vulnerabilities Model.

(** [u -> v] is an edge: [v] is listed among the successors of [u]. *)

Definition has_edge (g : DiGraph) (u v : Z) : Prop :=
  exists l, succ g !! u = Some l /\ v ∈ l.

(** The same edge read from [v]: [u] is listed among its predecessors. *)
Definition has_back_edge (g : DiGraph) (u v : Z) : Prop :=
  exists l, pred g !! v = Some l /\ u ∈ l.

(** What [add_node] and [add_edge] keep of a [DiGraph]. *)
Record graph_wf (g : DiGraph) : Prop := {
  wf_nodes_succ : forall n, n ∈ nodes g <-> is_Some (succ g !! n);
  wf_nodes_pred : forall n, n ∈ nodes g <-> is_Some (pred g !! n);
  wf_nodes_nodup : NoDup (nodes g);
  wf_dual : forall u v, has_edge g u v <-> has_back_edge g u v;
  wf_closed : forall u v, has_edge g u v -> v ∈ nodes g;
  wf_succ_nodup : forall u l, succ g !! u = Some l -> NoDup l;
  wf_pred_nodup : forall u l, pred g !! u = Some l -> NoDup l
}.

Lemma graph_wf_empty : graph_wf empty_graph.
Proof.
  split; unfold has_edge, has_back_edge, empty_graph; cbn [succ pred nodes];
    intros; repeat setoid_rewrite lookup_empty.
  - split; [intros H; inversion H | intros [? H]; discriminate].
  - split; [intros H; inversion H | intros [? H]; discriminate].
  - constructor.
  - split; intros (l & H & _); discriminate.
  - destruct H as (l & H & _); discriminate.
  - discriminate.
  - discriminate.
Qed.

Lemma add_node_old g n : is_Some (succ g !! n) -> add_node n g = g.
Proof. intros [l H]. unfold add_node. rewrite H. reflexivity. Qed.

Lemma graph_wf_add_node g n : graph_wf g -> graph_wf (add_node n g).
Proof.
  intros W. unfold add_node. destruct (succ g !! n) eqn:E; [exact W|].
  assert (Hn : n ∉ nodes g).
  { intros Hin. apply (wf_nodes_succ g W) in Hin. rewrite E in Hin.
    destruct Hin; discriminate. }
  assert (Ep : pred g !! n = None).
  { destruct (pred g !! n) eqn:Ep; [|reflexivity].
    exfalso. apply Hn. apply (wf_nodes_pred g W). eauto. }
  split; cbn [succ pred nodes].
  - intros k. rewrite elem_of_app, list_elem_of_singleton.
    destruct (decide (k = n)) as [->|Hk].
    + rewrite lookup_insert_eq. split; eauto.
    + rewrite lookup_insert_ne by congruence. rewrite (wf_nodes_succ g W). tauto.
  - intros k. rewrite elem_of_app, list_elem_of_singleton.
    destruct (decide (k = n)) as [->|Hk].
    + rewrite lookup_insert_eq. split; eauto.
    + rewrite lookup_insert_ne by congruence. rewrite (wf_nodes_pred g W). tauto.
  - apply NoDup_app. split; [apply (wf_nodes_nodup g W)|]. split.
    + intros x Hx Hx'. apply list_elem_of_singleton in Hx'. subst. auto.
    + apply NoDup_singleton.
  - intros u v. unfold has_edge, has_back_edge. cbn [succ pred nodes].
    split.
    + intros (l & H & Hin). destruct (decide (u = n)) as [->|Hu].
      * rewrite lookup_insert_eq in H. injection H as <-. inversion Hin.
      * rewrite lookup_insert_ne in H by congruence.
        destruct (proj1 (wf_dual g W u v)) as (l' & H' & Hin'); [exists l; auto|].
        exists l'. split; [|exact Hin'].
        rewrite lookup_insert_ne; [exact H'|]. intros <-. congruence.
    + intros (l & H & Hin). destruct (decide (v = n)) as [->|Hv].
      * rewrite lookup_insert_eq in H. injection H as <-. inversion Hin.
      * rewrite lookup_insert_ne in H by congruence.
        destruct (proj2 (wf_dual g W u v)) as (l' & H' & Hin'); [exists l; auto|].
        exists l'. split; [|exact Hin'].
        rewrite lookup_insert_ne; [exact H'|]. intros <-. congruence.
  - intros u v (l & H & Hin). cbn [succ pred nodes] in H. rewrite elem_of_app. left.
    destruct (decide (u = n)) as [->|Hu].
    + rewrite lookup_insert_eq in H. injection H as <-. inversion Hin.
    + rewrite lookup_insert_ne in H by congruence.
      apply (wf_closed g W u v). exists l; auto.
  - intros u l H. destruct (decide (u = n)) as [->|Hu].
    + rewrite lookup_insert_eq in H. injection H as <-. constructor.
    + rewrite lookup_insert_ne in H by congruence. eapply wf_succ_nodup; eauto.
  - intros u l H. destruct (decide (u = n)) as [->|Hu].
    + rewrite lookup_insert_eq in H. injection H as <-. constructor.
    + rewrite lookup_insert_ne in H by congruence. eapply wf_pred_nodup; eauto.
Qed.

Lemma add_node_nodes g n k :
  graph_wf g -> k ∈ nodes (add_node n g) <-> k = n \/ k ∈ nodes g.
Proof.
  intros W. unfold add_node. destruct (succ g !! n) eqn:E; cbn [nodes].
  - split; [tauto|]. intros [->|H]; [|exact H].
    apply (wf_nodes_succ g W). eauto.
  - rewrite elem_of_app, list_elem_of_singleton. tauto.
Qed.

Lemma has_edge_add_node g n a b : has_edge (add_node n g) a b <-> has_edge g a b.
Proof.
  unfold add_node. destruct (succ g !! n) eqn:E; [reflexivity|].
  unfold has_edge; cbn [succ]. destruct (decide (a = n)) as [->|Ha].
  - rewrite lookup_insert_eq, E. split; intros (l & H & Hin); [|discriminate].
    injection H as <-. inversion Hin.
  - rewrite lookup_insert_ne by congruence. reflexivity.
Qed.

Lemma adj_add_spec adj u v old k :
  adj !! u = Some old ->
  adj_add u v adj !! k
  = if decide (k = u)
    then Some (if bool_decide (v ∈ old) then old else old ++ [v])
    else adj !! k.
Proof.
  intros H. unfold adj_add. rewrite H. simpl.
  destruct (bool_decide (v ∈ old)), (decide (k = u)) as [->|Hk]; auto.
  - apply lookup_insert_eq.
  - apply lookup_insert_ne. congruence.
Qed.

Lemma adj_add_elem adj u v old k x :
  adj !! u = Some old ->
  (exists l, adj_add u v adj !! k = Some l /\ x ∈ l)
  <-> (exists l, adj !! k = Some l /\ x ∈ l) \/ (k = u /\ x = v).
Proof.
  intros H. rewrite (adj_add_spec adj u v old k H).
  destruct (decide (k = u)) as [->|Hk].
  - rewrite H. split.
    + intros (l & Hl & Hin). injection Hl as <-.
      destruct (bool_decide (v ∈ old)) eqn:B.
      * left. eauto.
      * apply elem_of_app in Hin. destruct Hin as [Hin|Hin]; [left; eauto|].
        apply list_elem_of_singleton in Hin. right. auto.
    + intros [(l & Hl & Hin)|[_ ->]].
      * injection Hl as <-. eexists. split; [reflexivity|].
        destruct (bool_decide (v ∈ old)); [exact Hin|]. apply elem_of_app. auto.
      * eexists. split; [reflexivity|].
        destruct (bool_decide (v ∈ old)) eqn:B.
        -- apply bool_decide_eq_true in B. exact B.
        -- apply elem_of_app. right. apply list_elem_of_singleton. reflexivity.
  - split; [intros; left; assumption|]. intros [?|[? _]]; [assumption|contradiction].
Qed.

Lemma add_edge_endpoints g u v :
  graph_wf g ->
  let g1 := add_node v (add_node u g) in
  graph_wf g1 /\ u ∈ nodes g1 /\ v ∈ nodes g1.
Proof.
  intros W g1.
  assert (W0 : graph_wf (add_node u g)) by (apply graph_wf_add_node; exact W).
  assert (W1 : graph_wf g1) by (apply graph_wf_add_node; exact W0).
  split; [exact W1|]. split.
  - apply add_node_nodes; [exact W0|]. right. apply add_node_nodes; auto.
  - apply add_node_nodes; auto.
Qed.

Lemma has_edge_add_edge g u v a b :
  graph_wf g ->
  has_edge (add_edge u v g) a b <-> has_edge g a b \/ (a = u /\ b = v).
Proof.
  intros W. destruct (add_edge_endpoints g u v W) as (W1 & Hu & Hv).
  apply (wf_nodes_succ _ W1) in Hu. destruct Hu as [old Hold].
  unfold add_edge, has_edge at 1. cbn [succ].
  rewrite (adj_add_elem _ u v old a b Hold).
  fold (has_edge (add_node v (add_node u g)) a b).
  rewrite !has_edge_add_node. reflexivity.
Qed.

Lemma has_back_edge_add_edge g u v a b :
  graph_wf g ->
  has_back_edge (add_edge u v g) a b <-> has_back_edge g a b \/ (a = u /\ b = v).
Proof.
  intros W. destruct (add_edge_endpoints g u v W) as (W1 & Hu & Hv).
  apply (wf_nodes_pred _ W1) in Hv. destruct Hv as [old Hold].
  unfold add_edge, has_back_edge at 1. cbn [pred].
  rewrite (adj_add_elem _ v u old b a Hold).
  fold (has_back_edge (add_node v (add_node u g)) a b).
  rewrite <- !(wf_dual _ W1), <- (wf_dual _ W), !has_edge_add_node. tauto.
Qed.

Lemma graph_wf_add_edge g u v : graph_wf g -> graph_wf (add_edge u v g).
Proof.
  intros W. destruct (add_edge_endpoints g u v W) as (W1 & Hu & Hv).
  pose proof (proj1 (wf_nodes_succ _ W1 u) Hu) as [su Hsu].
  pose proof (proj1 (wf_nodes_pred _ W1 v) Hv) as [pv Hpv].
  split.
  - intros n. unfold add_edge; cbn [nodes succ].
    rewrite (adj_add_spec _ u v su n Hsu). destruct (decide (n = u)) as [->|Hn].
    + split; eauto.
    + apply (wf_nodes_succ _ W1).
  - intros n. unfold add_edge; cbn [nodes pred].
    rewrite (adj_add_spec _ v u pv n Hpv). destruct (decide (n = v)) as [->|Hn].
    + split; eauto.
    + apply (wf_nodes_pred _ W1).
  - apply (wf_nodes_nodup _ W1).
  - intros a b. rewrite has_edge_add_edge, has_back_edge_add_edge by exact W.
    rewrite (wf_dual _ W). reflexivity.
  - intros a b H. apply has_edge_add_edge in H; [|exact W]. unfold add_edge; cbn [nodes].
    destruct H as [H|[-> ->]]; [|exact Hv].
    apply (wf_closed _ W1 a b). rewrite !has_edge_add_node. exact H.
  - intros n l. unfold add_edge; cbn [succ].
    rewrite (adj_add_spec _ u v su n Hsu). destruct (decide (n = u)) as [->|Hn].
    + intros H. injection H as <-. pose proof (wf_succ_nodup _ W1 _ _ Hsu) as ND.
      destruct (bool_decide (v ∈ su)) eqn:B; [exact ND|].
      apply bool_decide_eq_false in B. apply NoDup_app. split; [exact ND|]. split.
      * intros x Hx Hx'. apply list_elem_of_singleton in Hx'. subst. auto.
      * apply NoDup_singleton.
    + apply (wf_succ_nodup _ W1).
  - intros n l. unfold add_edge; cbn [pred].
    rewrite (adj_add_spec _ v u pv n Hpv). destruct (decide (n = v)) as [->|Hn].
    + intros H. injection H as <-. pose proof (wf_pred_nodup _ W1 _ _ Hpv) as ND.
      destruct (bool_decide (u ∈ pv)) eqn:B; [exact ND|].
      apply bool_decide_eq_false in B. apply NoDup_app. split; [exact ND|]. split.
      * intros x Hx Hx'. apply list_elem_of_singleton in Hx'. subst. auto.
      * apply NoDup_singleton.
    + apply (wf_pred_nodup _ W1).
Qed.


(** What the default [add_host] and [add_edge] keep of a model. *)
Record model_wf (m : AttackGraphModel) : Prop := {
  wf_graph : graph_wf (graph m);
  wf_keys : forall h, h ∈ host_keys m <-> is_Some (hosts m !! h);
  wf_keys_nodup : NoDup (host_keys m);
  wf_host_node : forall h, is_Some (hosts m !! h) -> h ∈ nodes (graph m);
  wf_cves : forall h host cve,
    hosts m !! h = Some host -> cve ∈ cves host ->
    is_Some (vulnerabilties m !! cve);
  wf_ids : forall h host, hosts m !! h = Some host -> host_id host = h
}.

Definition fresh_model (pool : gmap string Vulnerability) : AttackGraphModel :=
  {| graph := empty_graph; hosts := ∅; vulnerabilties := pool; host_keys := [] |}.

Lemma model_wf_fresh pool : model_wf (fresh_model pool).
Proof.
  split; unfold fresh_model; cbn [graph hosts vulnerabilties host_keys]; intros;
    repeat setoid_rewrite lookup_empty.
  - apply graph_wf_empty.
  - split; [intros H; inversion H | intros [? H]; discriminate].
  - constructor.
  - destruct H; discriminate.
  - discriminate.
  - discriminate.
Qed.

Lemma add_host_inv host m m' :
  add_host host m = Ok m' ->
  Forall (fun cve => is_Some (vulnerabilties m !! cve)) (cves host)
  /\ m' = {| graph := add_node (host_id host) (graph m);
             hosts := <[host_id host := host]> (hosts m);
             vulnerabilties := vulnerabilties m;
             host_keys := if bool_decide (is_Some (hosts m !! host_id host))
                          then host_keys m else host_keys m ++ [host_id host] |}.
Proof.
  unfold add_host. intros H.
  destruct (forallb _ (cves host)) eqn:F; cbn [negb] in H; [|discriminate].
  destruct (forallb _ (map_to_list _)); cbn [negb] in H; [|discriminate].
  injection H as <-. split; [|reflexivity].
  apply Forall_forall. intros cve Hin.
  rewrite forallb_forall in F. apply list_elem_of_In in Hin.
  specialize (F cve Hin). apply bool_decide_eq_true in F. exact F.
Qed.

Lemma model_wf_add_host host m m' :
  add_host host m = Ok m' -> model_wf m -> model_wf m'.
Proof.
  intros H W. apply add_host_inv in H. destruct H as [F ->].
  split; cbn [graph hosts vulnerabilties host_keys].
  - apply graph_wf_add_node, W.
  - intros h. destruct (decide (h = host_id host)) as [->|Hh].
    + rewrite lookup_insert_eq. split; [eauto|]. intros _.
      destruct (bool_decide (is_Some (hosts m !! host_id host))) eqn:B.
      * apply bool_decide_eq_true in B. apply (wf_keys m W). exact B.
      * apply elem_of_app. right. apply list_elem_of_singleton. reflexivity.
    + rewrite lookup_insert_ne by congruence.
      pose proof (wf_keys m W h) as K.
      destruct (bool_decide _); [exact K|].
      rewrite elem_of_app, list_elem_of_singleton. tauto.
  - destruct (bool_decide (is_Some (hosts m !! host_id host))) eqn:B;
      [apply W|].
    apply bool_decide_eq_false in B. apply NoDup_app. split; [apply W|]. split.
    + intros x Hx Hx'. apply list_elem_of_singleton in Hx'. subst.
      apply B, (wf_keys m W). exact Hx.
    + apply NoDup_singleton.
  - intros h Hh. apply add_node_nodes; [apply W|].
    destruct (decide (h = host_id host)) as [->|Hne]; [auto|].
    destruct Hh as [x Hh]. rewrite lookup_insert_ne in Hh by congruence.
    right. apply (wf_host_node m W). eauto.
  - intros h host' cve Hh Hin. destruct (decide (h = host_id host)) as [->|Hne].
    + rewrite lookup_insert_eq in Hh. injection Hh as <-.
      rewrite Forall_forall in F. apply F. exact Hin.
    + rewrite lookup_insert_ne in Hh by congruence. eapply (wf_cves m W); eauto.
  - intros h host' Hh. destruct (decide (h = host_id host)) as [->|Hne].
    + rewrite lookup_insert_eq in Hh. injection Hh as <-. reflexivity.
    + rewrite lookup_insert_ne in Hh by congruence. eapply (wf_ids m W); eauto.
Qed.

Lemma add_edge_keeps_nodes g u v n :
  graph_wf g -> n ∈ nodes g -> n ∈ nodes (add_edge u v g).
Proof.
  intros W H. unfold add_edge; cbn [nodes].
  assert (W0 : graph_wf (add_node u g)) by (apply graph_wf_add_node; exact W).
  apply add_node_nodes; [exact W0|]. right. apply add_node_nodes; auto.
Qed.

Lemma model_wf_add_edge u v m : model_wf m -> model_wf (model_add_edge u v m).
Proof.
  intros W. split; unfold model_add_edge; cbn [graph hosts vulnerabilties host_keys];
    try apply W.
  - apply graph_wf_add_edge, W.
  - intros h Hh. apply add_edge_keeps_nodes; [apply W|].
    apply (wf_host_node m W). exact Hh.
Qed.

Lemma load_hosts_raise e hs :
  foldl (fun acc host => m ← acc; add_host host m) (Raise e) hs = Raise e.
Proof. induction hs as [|h hs IH]; [reflexivity|]. cbn. exact IH. Qed.

Lemma load_hosts_wf hs : forall m0 m,
  foldl (fun acc host => m ← acc; add_host host m) (Ok m0) hs = Ok m ->
  model_wf m0 ->
  model_wf m /\ vulnerabilties m = vulnerabilties m0
  /\ (forall a b, has_edge (graph m) a b <-> has_edge (graph m0) a b).
Proof.
  induction hs as [|h hs IH]; intros m0 m H W.
  - cbn in H. injection H as <-. tauto.
  - cbn [foldl] in H. cbn [mbind res_mbind res_bind] in H.
    destruct (add_host h m0) as [m1|e] eqn:E.
    + destruct (IH m1 m H (model_wf_add_host _ _ _ E W)) as (W' & V & HE).
      split; [exact W'|]. apply add_host_inv in E. destruct E as [_ ->].
      cbn [vulnerabilties graph] in V, HE. split; [exact V|].
      intros a b. rewrite HE. apply has_edge_add_node.
    + rewrite load_hosts_raise in H. discriminate.
Qed.

Lemma load_edges_wf es : forall m,
  model_wf m ->
  let m' := foldl (fun m e => model_add_edge (fst e) (snd e) m) m es in
  model_wf m' /\ vulnerabilties m' = vulnerabilties m
  /\ hosts m' = hosts m /\ host_keys m' = host_keys m
  /\ (forall a b, has_edge (graph m') a b <-> has_edge (graph m) a b \/ (a, b) ∈ es).
Proof.
  induction es as [|[u v] es IH]; intros m W; cbn [foldl].
  - split; [exact W|]. do 3 (split; [reflexivity|]). intros a b.
    split; [auto|]. intros [H|H]; [exact H|inversion H].
  - destruct (IH (model_add_edge u v m) (model_wf_add_edge u v m W))
      as (W' & V & Hh & Hk & HE).
    cbn [fst snd]. split; [exact W'|]. split; [exact V|].
    split; [exact Hh|]. split; [exact Hk|]. intros a b. split.
    + intros H. apply HE in H. destruct H as [H|H].
      * unfold model_add_edge in H; cbn [graph] in H.
        apply has_edge_add_edge in H; [|apply W].
        destruct H as [H|[-> ->]]; [left; exact H|right; left].
      * right. right. exact H.
    + intros H. apply HE. rewrite elem_of_cons in H.
      unfold model_add_edge; cbn [graph]. rewrite has_edge_add_edge by apply W.
      destruct H as [H|[H|H]]; [auto| |auto].
      injection H as -> ->. auto.
Qed.


(** *** [add_host] with [drop_vuln=True] *)

(** What the loop leaves of a list: after an unknown CVE has been removed,
    the element that took its place is passed over unchecked. *)
Fixpoint skipping (known : string -> bool) (l : list string) : list string :=
  match l with
  | [] => []
  | c :: rest =>
      if known c then c :: skipping known rest
      else match rest with
           | [] => []
           | d :: rest' => d :: skipping known rest'
           end
  end.

Lemma list_remove_fresh pre c rest :
  c ∉ pre -> list_remove c (pre ++ c :: rest) = pre ++ rest.
Proof.
  induction pre as [|p pre IH]; intros H; cbn.
  - rewrite String.eqb_refl. reflexivity.
  - rewrite not_elem_of_cons in H. destruct H as [Hp H].
    destruct (String.eqb_spec c p); [contradiction|]. rewrite IH; auto.
Qed.

Lemma skipping_length known l : length (skipping known l) <= length l.
Proof.
  induction l as [l IH] using (induction_ltof1 _ (@length string)).
  destruct l as [|c rest]; cbn; [lia|].
  destruct (known c).
  - cbn. assert (length (skipping known rest) <= length rest) by (apply IH; unfold ltof; cbn; lia). lia.
  - destruct rest as [|d rest']; cbn; [lia|].
    assert (length (skipping known rest') <= length rest') by (apply IH; unfold ltof; cbn; lia). lia.
Qed.

Lemma drop_loop_skipping known : forall l todo pre,
  NoDup (pre ++ l) -> length l <= todo ->
  drop_loop known todo (length pre) (pre ++ l) = pre ++ skipping known l.
Proof.
  induction l as [l IH] using (induction_ltof1 _ (@length string)).
  intros todo pre ND Hlen. destruct l as [|c rest].
  - destruct todo; cbn [drop_loop skipping]; [reflexivity|].
    rewrite lookup_ge_None_2; [reflexivity|]. rewrite app_nil_r. lia.
  - cbn [length] in Hlen. destruct todo as [|todo]; [lia|].
    cbn [drop_loop]. rewrite list_lookup_middle by reflexivity.
    cbn [skipping]. destruct (known c) eqn:K.
    + replace (pre ++ c :: rest) with ((pre ++ [c]) ++ rest)
        by (rewrite <- app_assoc; reflexivity).
      replace (S (length pre)) with (length (pre ++ [c]))
        by (rewrite length_app; cbn; lia).
      rewrite IH.
      * rewrite <- app_assoc. reflexivity.
      * unfold ltof. cbn. lia.
      * rewrite <- app_assoc. exact ND.
      * lia.
    + assert (Hc : c ∉ pre).
      { apply NoDup_app in ND. destruct ND as (_ & H & _).
        intros Hin. apply (H c Hin). left. }
      rewrite (list_remove_fresh pre c rest Hc).
      assert (ND' : NoDup (pre ++ rest)).
      { apply NoDup_app in ND. destruct ND as (N1 & N2 & N3).
        apply NoDup_cons in N3. destruct N3 as [_ N3].
        apply NoDup_app. split; [exact N1|]. split; [|exact N3].
        intros x Hx Hx'. apply (N2 x Hx). right. exact Hx'. }
      destruct rest as [|d rest'].
      * destruct todo; cbn [drop_loop]; [reflexivity|].
        rewrite lookup_ge_None_2; [reflexivity|]. rewrite app_nil_r. lia.
      * replace (pre ++ d :: rest') with ((pre ++ [d]) ++ rest')
          by (rewrite <- app_assoc; reflexivity).
        replace (S (length pre)) with (length (pre ++ [d]))
          by (rewrite length_app; cbn; lia).
        rewrite IH.
        -- rewrite <- app_assoc. reflexivity.
        -- unfold ltof. cbn. lia.
        -- rewrite <- app_assoc. exact ND'.
        -- cbn [length] in Hlen. lia.
Qed.

(** X10. [add_host(host, drop_vuln=True)] on a host whose CVE list has no
    duplicates: the list the host is left with is [skipping], not the
    known CVEs. The loop removes an unknown CVE from the list it is
    iterating over, so the CVE that follows is never looked at: of two
    unknown CVEs in a row (after known ones) the second stays on the
    host. *)
Theorem drop_vuln_passes_over_the_next_cve
    (host : NetworkHost) (m : AttackGraphModel) :
  NoDup (cves host) ->
  let known cve := bool_decide (is_Some (vulnerabilties m !! cve)) in
  exists host',
    add_host_with host false true m = (register host' m, None)
    /\ cves host' = skipping known (cves host)
    /\ forall pre a b post,
         cves host = pre ++ a :: b :: post ->
         Forall (fun c => known c = true) pre -> known a = false ->
         b ∈ cves host'.
Proof.
  intros ND known.
  exists {| host_id := host_id host; hostname := hostname host;
            ipv4 := ipv4 host;
            cves := drop_unknown known (cves host);
            services := drop_unknown known <$> services host;
            domain := domain host |}.
  split; [reflexivity|]. cbn [cves].
  assert (E : drop_unknown known (cves host) = skipping known (cves host)).
  { unfold drop_unknown. apply (drop_loop_skipping known (cves host) _ []); auto. }
  split; [exact E|]. intros pre a b post Hc Hpre Ha. rewrite E, Hc.
  clear E Hc ND. induction Hpre as [|p pre Hp _ IH]; cbn [app skipping].
  - rewrite Ha. left.
  - rewrite Hp. right. exact IH.
Qed.


Lemma add_host_with_default host m :
  add_host_with host false false m
  = match add_host host m with
    | Ok m' => (m', None)
    | Raise e => (register host m, Some e)
    end.
Proof.
  unfold add_host_with, add_host, register.
  destruct (forallb _ (cves host)); cbn [negb andb]; [|reflexivity].
  destruct (forallb _ (map_to_list _)); reflexivity.
Qed.

(** X11. [add_host] with the default flags registers the host before
    it checks its CVEs: when one of them is not in the pool the call raises
    [ValueError], and the model it leaves already has the host in [hosts],
    in [host_keys] and among the nodes of the graph. *)
Theorem rejected_host_stays_in_the_model
    (host : NetworkHost) (m : AttackGraphModel) (cve : string) :
  model_wf m -> cve ∈ cves host -> vulnerabilties m !! cve = None ->
  exists m',
    add_host_with host false false m = (m', Some ValueError)
    /\ hosts m' !! host_id host = Some host
    /\ host_id host ∈ host_keys m'
    /\ is_Some (succ (graph m') !! host_id host).
Proof.
  intros W Hin Hnone. exists (register host m). split; [|split; [|split]].
  - unfold add_host_with.
    replace (forallb _ (cves host)) with false; [reflexivity|].
    symmetry. apply not_true_is_false. intros F. rewrite forallb_forall in F.
    apply list_elem_of_In in Hin. specialize (F cve Hin).
    apply bool_decide_eq_true in F. rewrite Hnone in F. destruct F; discriminate.
  - unfold register; cbn [hosts]. apply lookup_insert_eq.
  - unfold register; cbn [host_keys hosts].
    destruct (bool_decide (is_Some (hosts m !! host_id host))) eqn:B.
    + apply bool_decide_eq_true in B. apply (wf_keys m W). exact B.
    + apply elem_of_app. right. apply list_elem_of_singleton. reflexivity.
  - unfold register; cbn [graph]. unfold add_node.
    destruct (succ (graph m) !! host_id host) eqn:E; [eauto|].
    cbn [succ]. rewrite lookup_insert_eq. eauto.
Qed.

(** *** [read_from_file] *)

Lemma load_inv pool hs es m :
  load pool hs es = Ok m ->
  exists m1,
    foldl (fun acc host => m ← acc; add_host host m) (Ok (fresh_model pool)) hs
    = Ok m1
    /\ m = foldl (fun m e => model_add_edge (fst e) (snd e) m) m1 es.
Proof.
  unfold load. fold (fresh_model pool). intros H.
  destruct (foldl _ (Ok (fresh_model pool)) hs) as [m1|e];
    cbn [mbind res_mbind res_bind] in H; [|discriminate].
  injection H as <-. eauto.
Qed.

Lemma load_wf pool hs es m :
  load pool hs es = Ok m ->
  model_wf m /\ vulnerabilties m = pool
  /\ (forall a b, has_edge (graph m) a b <-> (a, b) ∈ es).
Proof.
  intros H. apply load_inv in H. destruct H as (m1 & H1 & ->).
  destruct (load_hosts_wf hs _ _ H1 (model_wf_fresh pool)) as (W1 & V1 & E1).
  destruct (load_edges_wf es m1 W1) as (W & V & _ & _ & E).
  split; [exact W|]. split; [rewrite V, V1; reflexivity|].
  intros a b. rewrite E, E1. split; [|auto].
  intros [(l & Hl & _)|Hin]; [|exact Hin].
  unfold fresh_model, empty_graph in Hl; cbn [graph succ] in Hl.
  rewrite lookup_empty in Hl. discriminate.
Qed.

(** X12. A model that [read_from_file] returns: its pool is the one of
    the file, [host_keys] has no duplicates and lists exactly the keys of
    [hosts], every host is stored under its own id, is a node of the graph
    and only lists CVEs of the pool, and [get_random_host] returns the id
    of a host of the model. *)
Theorem loaded_model_is_consistent
    (pool : gmap string Vulnerability) (hs : list NetworkHost)
    (es : list (Z * Z)) (m : AttackGraphModel) :
  load pool hs es = Ok m ->
  vulnerabilties m = pool
  /\ NoDup (host_keys m)
  /\ (forall h, h ∈ host_keys m <-> is_Some (hosts m !! h))
  /\ (forall h host, hosts m !! h = Some host ->
        host_id host = h
        /\ is_Some (succ (graph m) !! h)
        /\ Forall (fun cve => is_Some (pool !! cve)) (cves host))
  /\ (forall r h r', get_random_host m r = Ok (h, r') -> is_Some (hosts m !! h)).
Proof.
  intros H. destruct (load_wf _ _ _ _ H) as (W & V & _).
  split; [exact V|]. split; [apply W|]. split; [apply W|]. split.
  - intros h host Hh. split; [eapply (wf_ids m W); eauto|]. split.
    + apply (wf_nodes_succ _ (wf_graph m W)), (wf_host_node m W). eauto.
    + apply Forall_forall. intros cve Hin. rewrite <- V.
      eapply (wf_cves m W); eauto.
  - intros r h r' Hr. apply (wf_keys m W). apply list_elem_of_In.
    eapply ModelFacts.choice_In. exact Hr.
Qed.

(** X13. The graph of a model that [read_from_file] returns has exactly
    the edges of the file, and the successor and predecessor lists agree on
    them: [v] is a successor of [u] iff [u] is a predecessor of [v] iff
    [(u, v)] is listed; both ends of a listed edge are nodes. *)
Theorem loaded_graph_has_the_listed_edges
    (pool : gmap string Vulnerability) (hs : list NetworkHost)
    (es : list (Z * Z)) (m : AttackGraphModel) :
  load pool hs es = Ok m ->
  forall u v,
    ((exists ss, successors (graph m) u = Ok ss /\ v ∈ ss) <-> (u, v) ∈ es)
    /\ ((exists ps, predecessors (graph m) v = Ok ps /\ u ∈ ps) <-> (u, v) ∈ es)
    /\ ((u, v) ∈ es ->
        is_Some (succ (graph m) !! u) /\ is_Some (succ (graph m) !! v)).
Proof.
  intros H u v. destruct (load_wf _ _ _ _ H) as (W & _ & E).
  pose proof (wf_graph m W) as G.
  assert (S1 : (exists ss, successors (graph m) u = Ok ss /\ v ∈ ss)
               <-> has_edge (graph m) u v).
  { unfold successors, has_edge. destruct (succ (graph m) !! u) as [l|].
    - split; intros (x & Hx & Hin); [injection Hx as <-|injection Hx as <-]; eauto.
    - split; intros (x & Hx & _); discriminate. }
  assert (S2 : (exists ps, predecessors (graph m) v = Ok ps /\ u ∈ ps)
               <-> has_back_edge (graph m) u v).
  { unfold predecessors, has_back_edge. destruct (pred (graph m) !! v) as [l|].
    - split; intros (x & Hx & Hin); [injection Hx as <-|injection Hx as <-]; eauto.
    - split; intros (x & Hx & _); discriminate. }
  split; [rewrite S1; apply E|]. split; [rewrite S2, <- (wf_dual _ G); apply E|].
  intros Hin. apply E in Hin. split.
  - destruct Hin as (l & Hl & _). eauto.
  - apply (wf_nodes_succ _ G), (wf_closed _ G u v). exact Hin.
Qed.

(** *** [add_link] *)

Definition symmetric (g : DiGraph) : Prop :=
  forall a b, has_edge g a b -> has_edge g b a.

Lemma symmetric_add_link u v m :
  model_wf m -> symmetric (graph m) ->
  model_wf (add_link u v m) /\ symmetric (graph (add_link u v m)).
Proof.
  intros W S. unfold add_link.
  pose proof (model_wf_add_edge u v m W) as W1.
  split; [apply model_wf_add_edge; exact W1|].
  intros a b. unfold model_add_edge; cbn [graph].
  rewrite !has_edge_add_edge; [|apply W|apply graph_wf_add_edge, W|apply W
                               |apply graph_wf_add_edge, W].
  intros [[H|[-> ->]]|[-> ->]]; auto.
Qed.

Lemma has_edge_add_link u v m a b :
  model_wf m ->
  has_edge (graph (add_link u v m)) a b
  <-> has_edge (graph m) a b \/ (a = u /\ b = v) \/ (a = v /\ b = u).
Proof.
  intros W. unfold add_link, model_add_edge; cbn [graph].
  rewrite !has_edge_add_edge; [|apply W|apply graph_wf_add_edge, W]. tauto.
Qed.

Lemma add_links_spec links : forall m,
  model_wf m -> symmetric (graph m) ->
  let m' := foldl (fun m l => add_link (fst l) (snd l) m) m links in
  model_wf m' /\ symmetric (graph m')
  /\ (forall a b, has_edge (graph m) a b -> has_edge (graph m') a b)
  /\ (forall u v, (u, v) ∈ links -> has_edge (graph m') u v).
Proof.
  induction links as [|[u v] links IH]; intros m W S; cbn [foldl fst snd].
  - split; [exact W|]. split; [exact S|]. split; [auto|].
    intros u v H. inversion H.
  - destruct (symmetric_add_link u v m W S) as [W1 S1].
    destruct (IH _ W1 S1) as (W' & S' & Mono & In').
    split; [exact W'|]. split; [exact S'|]. split.
    + intros a b H. apply Mono. apply has_edge_add_link; auto.
    + intros a b H. apply elem_of_cons in H. destruct H as [H|H]; [|auto].
      injection H as -> ->. apply Mono. apply has_edge_add_link; auto.
Qed.

(** X14. [add_link] adds both directions. On a network built with
    [add_link] only (from a model whose graph is already symmetric, such as
    one without edges) every linked pair is an edge both ways, and every
    node has the same hosts as successors and as predecessors. *)
Theorem linked_hosts_see_each_other
    (m : AttackGraphModel) (links : list (Z * Z)) :
  model_wf m -> symmetric (graph m) ->
  let m' := foldl (fun m l => add_link (fst l) (snd l) m) m links in
  (forall u v, (u, v) ∈ links ->
     has_edge (graph m') u v /\ has_edge (graph m') v u)
  /\ forall n ss ps,
       successors (graph m') n = Ok ss -> predecessors (graph m') n = Ok ps ->
       forall x, x ∈ ss <-> x ∈ ps.
Proof.
  intros W S m'. destruct (add_links_spec links m W S) as (W' & S' & _ & In').
  fold m' in W', S', In'. split.
  - intros u v H. split; [|apply S']; apply In'; exact H.
  - intros n ss ps Hs Hp x. unfold successors in Hs. unfold predecessors in Hp.
    destruct (succ (graph m') !! n) as [l|] eqn:Es; [|discriminate].
    destruct (pred (graph m') !! n) as [l'|] eqn:Ep; [|discriminate].
    injection Hs as <-. injection Hp as <-.
    pose proof (wf_dual _ (wf_graph m' W')) as D. split.
    + intros Hx. assert (E : has_edge (graph m') n x) by (exists l; auto).
      apply S', D in E. destruct E as (l0 & Hl0 & Hin). congruence.
    + intros Hx. assert (E : has_back_edge (graph m') x n) by (exists l'; auto).
      apply D, S' in E. destruct E as (l0 & Hl0 & Hin). congruence.
Qed.


(** *** The theorems on the scenarios *)
Import Scenarios.

Lemma succeeds_get1 {A} (d : A) (x : res A) :
  DedupFacts.succeeds x = true -> x = Ok (get d x).
Proof. destruct x; [reflexivity|discriminate]. Qed.

Lemma line_model_eq :
  load pool [host 1 "a" []; host 2 "b" ["CVE-ROOT"]; host 3 "c" ["CVE-USER"]]
       [(1, 2); (2, 3)]%Z = Ok line_model.
Proof. unfold line_model. apply succeeds_get1. vm_compute. reflexivity. Qed.

Lemma unlinked_model_eq :
  load pool [host 1 "a" []; host 2 "b" ["CVE-ROOT"]] [] = Ok unlinked_model.
Proof. unfold unlinked_model. apply succeeds_get1. vm_compute. reflexivity. Qed.

(** Host 9 lists two CVEs the pool does not have, then a known one: the
    second unknown CVE survives. *)
Lemma drop_vuln_passes_over_the_next_cve_witness :
  exists host',
    add_host_with (host 9 "x" ["CVE-X"; "CVE-Y"; "CVE-USER"]) false true line_model
    = (register host' line_model, None)
    /\ cves host' = ["CVE-Y"; "CVE-USER"].
Proof.
  destruct (drop_vuln_passes_over_the_next_cve
              (host 9 "x" ["CVE-X"; "CVE-Y"; "CVE-USER"]) line_model)
    as (host' & H1 & H2 & _).
  - apply (bool_decide_unpack _). vm_compute. reflexivity.
  - exists host'. split; [exact H1|]. rewrite H2. vm_compute. reflexivity.
Defined.

Lemma rejected_host_stays_in_the_model_witness :
  exists m',
    add_host_with (host 9 "x" ["CVE-X"]) false false line_model
    = (m', Some ValueError)
    /\ hosts m' !! 9%Z = Some (host 9 "x" ["CVE-X"])
    /\ 9%Z ∈ host_keys m'
    /\ is_Some (succ (graph m') !! 9%Z).
Proof.
  apply (rejected_host_stays_in_the_model (host 9 "x" ["CVE-X"]) line_model "CVE-X").
  - exact (proj1 (load_wf _ _ _ _ line_model_eq)).
  - left.
  - vm_compute. reflexivity.
Defined.

Lemma loaded_model_is_consistent_witness :
  vulnerabilties line_model = pool
  /\ NoDup (host_keys line_model)
  /\ (forall h, h ∈ host_keys line_model <-> is_Some (hosts line_model !! h))
  /\ (forall h host, hosts line_model !! h = Some host ->
        host_id host = h
        /\ is_Some (succ (graph line_model) !! h)
        /\ Forall (fun cve => is_Some (pool !! cve)) (cves host))
  /\ (forall r h r', get_random_host line_model r = Ok (h, r') ->
        is_Some (hosts line_model !! h)).
Proof. exact (loaded_model_is_consistent _ _ _ _ line_model_eq). Defined.

Lemma loaded_graph_has_the_listed_edges_witness :
  ((exists ss, successors (graph line_model) 1 = Ok ss /\ 2%Z ∈ ss)
   <-> (1, 2)%Z ∈ [(1, 2); (2, 3)]%Z)
  /\ ((exists ps, predecessors (graph line_model) 2 = Ok ps /\ 1%Z ∈ ps)
      <-> (1, 2)%Z ∈ [(1, 2); (2, 3)]%Z)
  /\ ((1, 2)%Z ∈ [(1, 2); (2, 3)]%Z ->
      is_Some (succ (graph line_model) !! 1%Z)
      /\ is_Some (succ (graph line_model) !! 2%Z)).
Proof. exact (loaded_graph_has_the_listed_edges _ _ _ _ line_model_eq 1%Z 2%Z). Defined.

Lemma linked_hosts_see_each_other_witness :
  let m' := foldl (fun m l => add_link (fst l) (snd l) m) unlinked_model [(1, 2)%Z] in
  (forall u v, (u, v) ∈ [(1, 2)%Z] ->
     has_edge (graph m') u v /\ has_edge (graph m') v u)
  /\ forall n ss ps,
       successors (graph m') n = Ok ss -> predecessors (graph m') n = Ok ps ->
       forall x, x ∈ ss <-> x ∈ ps.
Proof.
  apply (linked_hosts_see_each_other unlinked_model [(1, 2)%Z]).
  - exact (proj1 (load_wf _ _ _ _ unlinked_model_eq)).
  - intros a b H.
    apply (proj2 (proj2 (load_wf _ _ _ _ unlinked_model_eq))) in H. inversion H.
Defined.

Lemma line_model_wf : model_wf line_model.
Proof. exact (proj1 (load_wf _ _ _ _ line_model_eq)). Qed.

Lemma line_edges a b :
  has_edge (graph line_model) a b <-> (a, b) ∈ [(1, 2); (2, 3)]%Z.
Proof. exact (proj2 (proj2 (load_wf _ _ _ _ line_model_eq)) a b). Qed.

End ModelInvariants.

(** ** The path sampler: what a walk returns and when sampling succeeds *)
Module WalkFacts.
Import Vulnerabilities Model Sampling Scenarios ModelInvariants.

Lemma sample1_In {A} (population : list A) (counts : list nat) r x r' :
  Random.sample1 population counts r = Ok (x, r') -> In x population.
Proof.
  unfold Random.sample1. destruct population as [|y l] eqn:E; [discriminate|].
  destruct (negb _); [discriminate|].
  destruct (_ =? 0); [discriminate|].
  destruct (draw r) as [u r1]. intros H. injection H as <- <-.
  set (i := Random.bisect _ _).
  destruct (Nat.lt_ge_cases i (length (y :: l))) as [Hi|Hi].
  - exact (nth_In (y :: l) y Hi).
  - change (In (nth i (y :: l) y) (y :: l)).
    rewrite nth_overflow by exact Hi. left. reflexivity.
Qed.

(** What [_sample_next_host] returns on a forward request. *)
Lemma next_host_forward s cur visited r o r' :
  _sample_next_host s cur visited true r = Ok (o, r') ->
  exists ss, successors (graph (model s)) cur = Ok ss /\
    match o with
    | Some h => h ∈ ss /\ h ∉ visited
    | None => r' = r /\ forall h, h ∈ ss -> h ∈ visited
    end.
Proof.
  unfold _sample_next_host, bind, lift.
  destruct (successors (graph (model s)) cur) as [ss|e]; [|discriminate].
  intros H. exists ss. split; [reflexivity|].
  set (neighbors := List.filter _ ss) in H.
  assert (Hn : forall h, In h neighbors -> h ∈ ss /\ h ∉ visited).
  { intros h Hin. apply filter_In in Hin. destruct Hin as [Hin Hv].
    split; [apply list_elem_of_In; exact Hin|].
    apply negb_true_iff, bool_decide_eq_false in Hv. exact Hv. }
  assert (Hsome : forall h, o = Some h -> In h neighbors -> 
                  match o with
                  | Some h => h ∈ ss /\ h ∉ visited
                  | None => r' = r /\ forall h, h ∈ ss -> h ∈ visited
                  end).
  { intros h -> Hin. apply Hn. exact Hin. }
  destruct neighbors as [|a [|b [|c rest]]] eqn:En.
  - injection H as <- <-. split; [reflexivity|]. intros h Hh.
    destruct (decide (h ∈ visited)) as [Hv|Hv]; [exact Hv|]. exfalso.
    assert (Hin : In h (List.filter (fun host => negb (bool_decide (host ∈ visited))) ss)).
    { apply filter_In. split; [apply list_elem_of_In; exact Hh|].
      apply negb_true_iff, bool_decide_eq_false. exact Hv. }
    fold neighbors in Hin. rewrite En in Hin. destruct Hin.
  - injection H as <- <-. apply (Hsome a); [reflexivity|left; reflexivity].
  - destruct (use_dynamic_weights s).
    + destruct (weight s (cur, a)); [|discriminate].
      destruct (weight s (cur, b)); [|discriminate].
      unfold Random.random in H. destruct (draw r) as [u r1].
      destruct (_ =? 0); [discriminate|].
      destruct (negb _); injection H as <- <-.
      * apply (Hsome a); [reflexivity|left; reflexivity].
      * apply (Hsome b); [reflexivity|right; left; reflexivity].
    + unfold Random.random in H. destruct (draw r) as [u r1].
      destruct (negb _); injection H as <- <-.
      * apply (Hsome a); [reflexivity|left; reflexivity].
      * apply (Hsome b); [reflexivity|right; left; reflexivity].
  - destruct (use_dynamic_weights s).
    + destruct (weights_of s _) as [ws|e]; [|discriminate].
      destruct (Random.sample1 _ ws r) as [[h r1]|e] eqn:Es; [|discriminate].
      injection H as <- <-. apply sample1_In in Es.
      apply (Hsome h); [reflexivity|exact Es].
    + destruct (Random.choice _ r) as [[h r1]|e] eqn:Es; [|discriminate].
      injection H as <- <-. apply ModelFacts.choice_In in Es.
      apply (Hsome h); [reflexivity|exact Es].
Qed.

(** A path that leaves [cur] along edges of the graph, each edge starting
    where the one before ends. *)
Fixpoint chain (g : DiGraph) (cur : Z) (path : list Edge) : Prop :=
  match path with
  | [] => True
  | e :: rest => fst e = cur /\ has_edge g cur (snd e) /\ chain g (snd e) rest
  end.

Lemma successors_has_edge g u ss v :
  successors g u = Ok ss -> v ∈ ss -> has_edge g u v.
Proof.
  unfold successors, has_edge. destruct (succ g !! u) as [l|]; [|discriminate].
  intros H Hin. injection H as <-. eauto.
Qed.

Lemma walk_forward_spec s steps :
  forall cur visited acc r path visited' r',
    walk s steps true cur visited acc r = Ok ((path, visited'), r') ->
    exists new,
      path = acc ++ new /\ length new <= steps
      /\ chain (graph (model s)) cur new
      /\ NoDup (map snd new)
      /\ (forall h, h ∈ map snd new -> (h ∉ visited) /\ h <> 0%Z)
      /\ visited' = list_to_set (map snd new) ∪ visited.
Proof.
  assert (Stop : forall (cur : Z) (visited : gset Z) (acc : list Edge) n,
    exists new : list Edge,
      acc = acc ++ new /\ length new <= n
      /\ chain (graph (model s)) cur new
      /\ NoDup (map snd new)
      /\ (forall h, h ∈ map snd new -> (h ∉ visited) /\ h <> 0%Z)
      /\ visited = list_to_set (map snd new) ∪ visited).
  { intros cur visited acc n. exists []. rewrite app_nil_r. cbn.
    split; [reflexivity|]. split; [lia|]. split; [exact I|].
    split; [constructor|]. split; [intros h Hh; inversion Hh|].
    rewrite (left_id_L ∅ (∪)). reflexivity. }
  induction steps as [|steps IH]; intros cur visited acc r path visited' r' H.
  - injection H as <- <- <-. apply Stop.
  - cbn [walk] in H. unfold bind in H.
    destruct (_sample_next_host s cur visited true r) as [[[next|] r1]|e] eqn:En;
      [| |discriminate H].
    + destruct (next =? 0)%Z eqn:Ez.
      * injection H as <- <- <-. apply Stop.
      * apply IH in H. destruct H as (new & -> & Hlen & Hc & Hnd & Hv & ->).
        apply next_host_forward in En. destruct En as (ss & Hss & Hin & Hnv).
        exists ((cur, next) :: new). rewrite <- app_assoc.
        split; [reflexivity|]. split; [cbn; lia|]. split.
        { cbn. split; [reflexivity|]. split; [|exact Hc].
          eapply successors_has_edge; eauto. }
        split.
        { cbn. apply NoDup_cons. split; [|exact Hnd].
          intros Hx. apply Hv in Hx. destruct Hx as [Hx _].
          apply Hx, elem_of_union. left. apply elem_of_singleton. reflexivity. }
        split.
        { intros h Hh. cbn in Hh. apply elem_of_cons in Hh.
          destruct Hh as [->|Hh].
          - split; [exact Hnv|]. apply Z.eqb_neq. exact Ez.
          - apply Hv in Hh. destruct Hh as [Hh Hz]. split; [|exact Hz].
            intros Hx. apply Hh, elem_of_union. right. exact Hx. }
        cbn [map snd list_to_set].
        rewrite (assoc_L (∪)), (comm_L (∪) (list_to_set _) {[next]}).
        reflexivity.
    + injection H as <- <- <-. apply Stop.
Qed.


(** The forward walk from [start]: what it returns. *)
Lemma forward_walk_simple
    (s : PathSampler) (start max_length : Z) (visited : option (gset Z))
    (r r' : Rng) (path : list Edge) (visited' : gset Z) :
  _sample_one_end s start max_length true visited r = Ok ((path, visited'), r') ->
  chain (graph (model s)) start path
  /\ (Z.of_nat (length path) <= Z.max 0 max_length)%Z
  /\ NoDup (start :: map snd path)
  /\ (forall h, h ∈ map snd path -> (h ∉ default ∅ visited) /\ h <> 0%Z)
  /\ visited' = list_to_set (start :: map snd path) ∪ default ∅ visited.
Proof.
  unfold _sample_one_end. intros H. apply walk_forward_spec in H.
  destruct H as (new & -> & Hlen & Hc & Hnd & Hv & ->). cbn [app].
  split; [exact Hc|]. split; [lia|]. split.
  - apply NoDup_cons. split; [|exact Hnd]. intros Hx. apply Hv in Hx.
    destruct Hx as [Hx _]. apply Hx, elem_of_union. left.
    apply elem_of_singleton. reflexivity.
  - split.
    + intros h Hh. apply Hv in Hh. destruct Hh as [Hh Hz]. split; [|exact Hz].
      intros Hx. apply Hh, elem_of_union. right. exact Hx.
    + cbn [list_to_set].
      rewrite (assoc_L (∪)), (comm_L (∪) (list_to_set _) {[start]}).
      reflexivity.
Qed.

(** X16. A forward walk of [_sample_one_end] returns a simple path of the
    graph: its edges are edges of the graph, each starts where the one
    before ends, the first at [start_host]; it has at most [max_length]
    edges; it never comes back to a host, enters no host of the given
    [visited] set and never host 0; and the [visited] set it leaves is the
    given one plus the hosts of the path. *)
Theorem forward_walk_is_a_simple_path
    (s : PathSampler) (start max_length : Z) (visited : option (gset Z))
    (r r' : Rng) (path : list Edge) (visited' : gset Z) :
  _sample_one_end s start max_length true visited r = Ok ((path, visited'), r') ->
  chain (graph (model s)) start path
  /\ (Z.of_nat (length path) <= Z.max 0 max_length)%Z
  /\ NoDup (start :: map snd path)
  /\ (forall h, h ∈ map snd path -> (h ∉ default ∅ visited) /\ h <> 0%Z)
  /\ visited' = list_to_set (start :: map snd path) ∪ default ∅ visited.
Proof. apply forward_walk_simple. Qed.

(** The two outcomes of [_sample_length]. *)
Lemma sample_length_bounds (s : PathSampler) (r : Rng) :
  match _sample_length s r with
  | Ok (len, _) => (min_length s <= len <= max_length s)%Z
  | Raise e => e = ValueError /\ (max_length s < min_length s)%Z
  end.
Proof.
  unfold _sample_length, bind.
  set (g := (if (max_length s - min_length s + 1 =? 0)%Z then ret 0%Z
             else Random.gauss_int) r).
  assert (Hg : exists x r1, g = Ok (x, r1)).
  { subst g. destruct (_ =? 0)%Z; [eexists _, _; reflexivity|].
    unfold Random.gauss_int. destruct (draw r). eexists _, _; reflexivity. }
  destruct Hg as (x & r1 & ->).
  destruct ((x + min_length s - 1 <? min_length s)%Z
            || (max_length s <? x + min_length s - 1)%Z) eqn:B.
  - unfold Random.randint. destruct (max_length s <? min_length s)%Z eqn:C.
    + split; [reflexivity|]. apply Z.ltb_lt. exact C.
    + apply Z.ltb_ge in C. destruct (draw r1) as [u r2].
      pose proof (Z.mod_pos_bound (Z.of_nat u) (max_length s - min_length s + 1)).
      lia.
  - apply orb_false_iff in B. destruct B as [B1 B2].
    apply Z.ltb_ge in B1, B2. cbn. lia.
Qed.

(** X15. [_sample_length] returns a length within
    [[min_length, max_length]] whatever the draws, and raises only
    [ValueError], which it does exactly when [max_length < min_length]
    (the sampler was asked for a minimum above the number of valid
    hosts). *)
Theorem sample_length_within_bounds (s : PathSampler) (r : Rng) :
  match _sample_length s r with
  | Ok (len, _) => (min_length s <= len <= max_length s)%Z
  | Raise e => e = ValueError /\ (max_length s < min_length s)%Z
  end.
Proof. apply sample_length_bounds. Qed.


(** *** Sampling never fails on a well-formed sampler *)

Record sampler_ok (s : PathSampler) : Prop := {
  ok_graph : graph_wf (graph (model s));
  ok_weights :
    use_dynamic_weights s = true ->
    forall e : Edge, has_edge (graph (model s)) (fst e) (snd e) ->
      exists w, edge_weights s !! e = Some w /\ 1 <= w;
  ok_max : (max_length s <= Z.of_nat ABSOLUTE_MAX_LENGTH)%Z
}.

Lemma weights_of_ok s es :
  (forall e, In e es -> exists w, edge_weights s !! e = Some w /\ 1 <= w) ->
  exists ws, weights_of s es = Ok ws /\ length ws = length es
             /\ Forall (fun w => 1 <= w) ws.
Proof.
  induction es as [|e es IH]; intros H.
  - exists []. repeat split. constructor.
  - destruct (H e (or_introl eq_refl)) as (w & Hw & Hge).
    destruct IH as (ws & Hws & Hlen & Hall); [intros; apply H; right; assumption|].
    exists (w :: ws). cbn [weights_of]. unfold weight. rewrite Hw. cbn [res_bind].
    rewrite Hws. cbn [res_bind]. split; [reflexivity|].
    split; [cbn; lia|]. constructor; assumption.
Qed.

Lemma accumulate_last ws : forall acc,
  ws <> [] -> Forall (fun w => 1 <= w) ws ->
  1 <= List.last (Random.accumulate acc ws) 0.
Proof.
  induction ws as [|w ws IH]; intros acc Hne Hall; [contradiction|].
  inversion Hall as [|? ? Hw Hall']; subst. cbn [Random.accumulate].
  destruct ws as [|w' ws'].
  - cbn. lia.
  - change (1 <= List.last (Random.accumulate (acc + w) (w' :: ws')) 0).
    apply IH; [discriminate|exact Hall'].
Qed.

Lemma sample1_total {A} (x : A) (l : list A) (ws : list nat) r :
  length ws = length (x :: l) -> Forall (fun w => 1 <= w) ws ->
  exists y r', Random.sample1 (x :: l) ws r = Ok (y, r').
Proof.
  intros Hlen Hall. unfold Random.sample1.
  rewrite Hlen, Nat.eqb_refl. cbn [negb].
  assert (Hne : ws <> []) by (intros ->; discriminate).
  pose proof (accumulate_last ws 0 Hne Hall) as Hl.
  destruct (List.last (Random.accumulate 0 ws) 0 =? 0) eqn:E.
  - apply Nat.eqb_eq in E. lia.
  - destruct (draw r). eexists _, _. reflexivity.
Qed.

Lemma next_host_total s cur visited r :
  sampler_ok s -> is_Some (succ (graph (model s)) !! cur) ->
  exists o r', _sample_next_host s cur visited true r = Ok (o, r').
Proof.
  intros OK [ss Hss]. unfold _sample_next_host, bind, lift, successors.
  rewrite Hss. cbv beta zeta.
  set (neighbors := List.filter _ ss).
  assert (Hn : forall h, In h neighbors -> has_edge (graph (model s)) cur h).
  { intros h Hin. apply filter_In in Hin. destruct Hin as [Hin _].
    exists ss. split; [exact Hss|apply list_elem_of_In; exact Hin]. }
  destruct neighbors as [|a [|b [|c rest]]] eqn:En.
  - eexists _, _. reflexivity.
  - eexists _, _. reflexivity.
  - destruct (use_dynamic_weights s) eqn:D.
    + destruct (ok_weights s OK D (cur, a)) as (wa & Hwa & Ha);
        [apply Hn; left; reflexivity|].
      destruct (ok_weights s OK D (cur, b)) as (wb & Hwb & Hb);
        [apply Hn; right; left; reflexivity|].
      unfold weight. rewrite Hwa, Hwb. unfold Random.random.
      destruct (draw r) as [u r1].
      destruct (wa + wb =? 0) eqn:E; [apply Nat.eqb_eq in E; lia|].
      destruct (negb _); eexists _, _; reflexivity.
    + unfold Random.random. destruct (draw r) as [u r1].
      destruct (negb _); eexists _, _; reflexivity.
  - destruct (use_dynamic_weights s) eqn:D.
    + destruct (weights_of_ok s (@map Z Edge (fun host => (cur, host))
                                       (a :: b :: c :: rest)))
        as (ws & Hws & Hlen & Hall).
      { intros e He. apply in_map_iff in He. destruct He as (h & <- & Hh).
        apply (ok_weights s OK D). apply Hn. exact Hh. }
      rewrite Hws. rewrite length_map in Hlen.
      destruct (sample1_total a (b :: c :: rest) ws r Hlen Hall) as (y & r1 & ->).
      eexists _, _. reflexivity.
    + unfold Random.choice. destruct (draw r). eexists _, _. reflexivity.
Qed.

Lemma walk_total s steps :
  sampler_ok s ->
  forall cur visited acc r,
    is_Some (succ (graph (model s)) !! cur) ->
    exists out r', walk s steps true cur visited acc r = Ok (out, r').
Proof.
  intros OK. induction steps as [|steps IH]; intros cur visited acc r Hcur.
  - eexists _, _. reflexivity.
  - cbn [walk]. unfold bind.
    destruct (next_host_total s cur visited r OK Hcur) as (o & r1 & E).
    rewrite E. destruct o as [next|]; [|eexists _, _; reflexivity].
    destruct (next =? 0)%Z; [eexists _, _; reflexivity|].
    apply IH. apply next_host_forward in E. destruct E as (ss & Hss & Hin & _).
    apply (wf_nodes_succ _ (ok_graph s OK)).
    apply (wf_closed _ (ok_graph s OK) cur next).
    eapply successors_has_edge; eauto.
Qed.

Lemma chain_edges g path : forall cur,
  chain g cur path -> forall e, In e path -> has_edge g (fst e) (snd e).
Proof.
  induction path as [|e0 path IH]; intros cur H e He; [destruct He|].
  destruct H as (H1 & H2 & H3). destruct He as [<-|He].
  - rewrite H1. exact H2.
  - eapply IH; eauto.
Qed.

Lemma add_weights_ok path : forall ws ew,
  (forall e, In e path -> is_Some (ew !! e)) ->
  exists ew', add_weights ws path ew = Ok ew'
    /\ forall e w, ew !! e = Some w -> exists w', ew' !! e = Some w' /\ w <= w'.
Proof.
  induction path as [|e0 path IH]; intros ws ew H.
  - exists ew. destruct ws; cbn; split; eauto.
  - destruct ws as [|w0 ws]; [exists ew; cbn; split; eauto|].
    cbn [add_weights]. destruct (H e0 (or_introl eq_refl)) as [old Hold].
    rewrite Hold.
    destruct (IH ws (<[e0 := old + w0]> ew)) as (ew' & E & Hmono).
    { intros e He. destruct (decide (e = e0)) as [->|Hne].
      - rewrite lookup_insert_eq. eauto.
      - rewrite lookup_insert_ne by congruence. apply H. right. exact He. }
    exists ew'. split; [exact E|]. intros e w Hw.
    destruct (decide (e = e0)) as [->|Hne].
    + destruct (Hmono e0 (old + w0)) as (w' & Hw' & Hle);
        [apply lookup_insert_eq|].
      exists w'. split; [exact Hw'|]. rewrite Hold in Hw. injection Hw as <-. lia.
    + apply Hmono. rewrite lookup_insert_ne by congruence. exact Hw.
Qed.

Lemma WEIGHT_PATTERN_total n :
  n <= ABSOLUTE_MAX_LENGTH -> exists ws, WEIGHT_PATTERN n = Ok ws.
Proof.
  intros H. unfold WEIGHT_PATTERN. apply Nat.leb_le in H. rewrite H. eauto.
Qed.

Lemma update_weights_ok s path cur :
  sampler_ok s -> use_dynamic_weights s = true ->
  chain (graph (model s)) cur path ->
  exists s', _update_weights s path = Ok s' /\ sampler_ok s'
    /\ model s' = model s /\ sampled s' = S (sampled s)
    /\ min_length s' = min_length s /\ max_length s' = max_length s
    /\ valid_hosts s' = valid_hosts s.
Proof.
  intros OK D Hc. unfold _update_weights.
  assert (Hew : exists ew,
    (if ((min_length s <=? Z.of_nat (length path))
         && (Z.of_nat (length path) <? max_length s + 1))%Z
     then ws ← WEIGHT_PATTERN (length path); add_weights ws path (edge_weights s)
     else Ok (edge_weights s)) = Ok ew
    /\ forall e w, edge_weights s !! e = Some w ->
         exists w', ew !! e = Some w' /\ w <= w').
  { destruct (_ && _)%Z eqn:B; [|eauto].
    apply andb_true_iff in B. destruct B as [_ B]. apply Z.ltb_lt in B.
    pose proof (ok_max s OK) as M.
    destruct (WEIGHT_PATTERN_total (length path)) as (ws & ->); [lia|].
    cbn [mbind res_mbind res_bind]. apply add_weights_ok.
    intros e He. pose proof (chain_edges _ _ _ Hc e He) as E.
    destruct (ok_weights s OK D _ E) as (w & Hw & _). eauto. }
  destruct Hew as (ew & -> & Hmono). cbn [mbind res_mbind res_bind].
  eexists. split; [reflexivity|]. split; [|repeat split].
  split; cbn [model use_dynamic_weights edge_weights max_length];
    [apply OK| |apply OK].
  intros _ e E. destruct (ok_weights s OK D e E) as (w & Hw & Hge).
  destruct (Hmono _ _ Hw) as (w' & Hw' & Hle).
  destruct (_ =? 0).
  - rewrite lookup_fmap, Hw'. cbn [fmap option_fmap option_map].
    eexists. split; [reflexivity|].
    destruct (100 <=? w') eqn:C; [|lia].
    apply Nat.leb_le in C. apply Nat.div_le_lower_bound; lia.
  - exists w'. split; [exact Hw'|lia].
Qed.

(** X17. On a well-formed sampler (a well-formed graph, every
    edge with a weight of at least 1 when weights are dynamic,
    [max_length <= 40]) with [min_length <= max_length], [sample_path] with
    [StartingAt(hosts)] for a non-empty list of nodes always returns,
    whatever the draws: no [KeyError], [ZeroDivisionError] or [IndexError].
    The path is a chain of graph edges from one of the hosts, no longer
    than [max_length], and the sampler it leaves is well-formed again.
    [Uniform] is the case [hosts = valid_hosts]. *)
Theorem sampling_from_given_hosts_never_fails
    (s : PathSampler) (hosts : list Z) (r : Rng) :
  sampler_ok s -> hosts <> [] ->
  Forall (fun h => is_Some (succ (graph (model s)) !! h)) hosts ->
  (min_length s <= max_length s)%Z ->
  exists path s' r',
    sample_path (strategy_sample (StartingAt hosts)) s r = Ok ((path, s'), r')
    /\ sampler_ok s'
    /\ (Z.of_nat (length path) <= Z.max 0 (max_length s))%Z
    /\ exists start, start ∈ hosts /\ chain (graph (model s)) start path.
Proof.
  intros OK Hne Hnodes Hmm. unfold sample_path, bind. cbn [strategy_sample].
  unfold bind.
  pose proof (sample_length_bounds s r) as HL.
  destruct (_sample_length s r) as [[len r1]|e];
    [|exfalso; destruct HL as [_ HL]; lia].
  cbv beta iota in HL.
  destruct (Random.choice hosts r1) as [[start r2]|e] eqn:Ec.
  2:{ unfold Random.choice in Ec. destruct hosts; [contradiction|].
      destruct (draw r1); discriminate. }
  pose proof (ModelFacts.choice_In _ _ _ _ Ec) as Hstart.
  apply list_elem_of_In in Hstart.
  assert (Hnode : is_Some (succ (graph (model s)) !! start)).
  { rewrite Forall_forall in Hnodes. apply Hnodes. exact Hstart. }
  unfold _sample_one_end at 1.
  destruct (walk_total s (Z.to_nat len) OK start ({[start]} ∪ default ∅ None) [] r2 Hnode)
    as ([path visited'] & r3 & Ew).
  rewrite Ew. unfold ret. cbn [fst].
  pose proof (forward_walk_simple s start len None r2 r3 path visited' Ew)
    as (Hc & Hlen & _).
  assert (Hlen' : (Z.of_nat (length path) <= Z.max 0 (max_length s))%Z) by lia.
  destruct (use_dynamic_weights s) eqn:D.
  - destruct (update_weights_ok s path start OK D Hc) as (s' & Eu & OK' & _).
    unfold lift. rewrite Eu. exists path, s', r3.
    split; [reflexivity|]. split; [exact OK'|]. split; [exact Hlen'|].
    exists start. auto.
  - exists path, s, r3. split; [reflexivity|]. split; [exact OK|].
    split; [exact Hlen'|]. exists start. auto.
Qed.


(** *** [PathSampler.__init__] *)

Lemma edges_of_has_edge g (e : Edge) :
  graph_wf g -> e ∈ edges_of g <-> has_edge g (fst e) (snd e).
Proof.
  intros W. unfold edges_of, has_edge. rewrite list_elem_of_In, in_flat_map.
  split.
  - intros (u & Hu & He). apply in_map_iff in He. destruct He as (v & <- & Hv).
    cbn [fst snd]. apply list_elem_of_In, (wf_nodes_succ g W) in Hu.
    destruct Hu as [l Hl]. rewrite Hl in Hv. cbn in Hv.
    exists l. split; [exact Hl|apply list_elem_of_In; exact Hv].
  - intros (l & Hl & Hv). exists (fst e). split.
    + apply list_elem_of_In, (wf_nodes_succ g W). eauto.
    + rewrite Hl. cbn [default from_option id]. apply in_map_iff.
      exists (snd e). split; [destruct e; reflexivity|].
      apply list_elem_of_In. exact Hv.
Qed.

Lemma lookup_initial_weights (l : list Edge) (e : Edge) :
  (list_to_map (map (fun e => (e, 4)) l) : gmap Edge nat) !! e
  = if decide (e ∈ l) then Some 4 else None.
Proof.
  induction l as [|x l IH]; cbn [map list_to_map foldr].
  - rewrite lookup_empty. destruct (decide (e ∈ [])) as [H|H]; [inversion H|reflexivity].
  - cbn [fst snd]. destruct (decide (e = x)) as [->|Hne].
    + rewrite lookup_insert_eq. destruct (decide (x ∈ x :: l)) as [H|H]; [reflexivity|].
      exfalso. apply H. left.
    + rewrite lookup_insert_ne by congruence. rewrite IH.
      destruct (decide (e ∈ l)) as [H|H], (decide (e ∈ x :: l)) as [H'|H'];
        try reflexivity; exfalso.
      * apply H'. right. exact H.
      * apply elem_of_cons in H'. destruct H'; contradiction.
Qed.

Lemma select_valid_hosts_ok m filter keys :
  model_wf m ->
  exists valid,
    select_valid_hosts m filter keys = Ok valid
    /\ length valid <= length keys
    /\ forall h, h ∈ valid ->
         h ∈ keys /\ is_Some (hosts m !! h) /\ is_Some (succ (graph m) !! h).
Proof.
  intros W. induction keys as [|k keys IH]; cbn [select_valid_hosts].
  - exists []. split; [reflexivity|]. split; [lia|]. intros h H. inversion H.
  - destruct IH as (valid & E & Hlen & Hv).
    assert (Hrest : forall h, h ∈ valid ->
              h ∈ k :: keys /\ is_Some (hosts m !! h)
              /\ is_Some (succ (graph m) !! h)).
    { intros h Hh. destruct (Hv h Hh) as (H1 & H2 & H3).
      split; [right; exact H1|]. auto. }
    destruct (hosts m !! k) as [host|] eqn:Hk.
    2:{ exists valid. split; [exact E|]. split; [cbn; lia|]. exact Hrest. }
    pose proof (wf_ids m W k host Hk) as Hid. rewrite Hid.
    assert (Hnode : k ∈ nodes (graph m)) by (apply (wf_host_node m W); eauto).
    pose proof (proj1 (wf_nodes_succ _ (wf_graph m W) k) Hnode) as [ls Hls].
    pose proof (proj1 (wf_nodes_pred _ (wf_graph m W) k) Hnode) as [lp Hlp].
    unfold out_degree, in_degree. rewrite Hls, Hlp, E.
    cbn [mbind res_mbind res_bind].
    destruct ((length ls =? 0) && (length lp =? 0)).
    { exists valid. split; [reflexivity|]. split; [cbn; lia|]. exact Hrest. }
    destruct (match filter with
              | Some f => negb (bool_decide (k ∈ f))
              | None => false
              end).
    { exists valid. split; [reflexivity|]. split; [cbn; lia|]. exact Hrest. }
    exists (k :: valid). split; [reflexivity|]. split; [cbn; lia|].
    intros h Hh. apply elem_of_cons in Hh. destruct Hh as [->|Hh].
    + split; [left|]. split; eauto.
    + apply Hrest. exact Hh.
Qed.

Definition fresh_sampler_ok (m : AttackGraphModel) (dynamic : bool)
    (s : PathSampler) : Prop :=
  sampler_ok s /\ model s = m
  /\ (max_length s <= Z.of_nat (length (valid_hosts s)))%Z
  /\ Forall (fun h => is_Some (hosts m !! h) /\ is_Some (succ (graph m) !! h))
            (valid_hosts s)
  /\ (dynamic = true ->
      forall e : Edge,
        (has_edge (graph m) (fst e) (snd e) -> edge_weights s !! e = Some 4)
        /\ (is_Some (edge_weights s !! e) -> has_edge (graph m) (fst e) (snd e))).

(** The same, with what the fields say when dynamic weights are off. *)
Definition fields_ok (m : AttackGraphModel) (dynamic : bool)
    (s : PathSampler) : Prop :=
  fresh_sampler_ok m dynamic s
  /\ use_dynamic_weights s = dynamic
  /\ (dynamic = false -> edge_weights s = ∅).

Lemma sampler_init_tail m (m0 M0 : Z) (filter : option (gset Z))
    (dynamic : bool) :
  model_wf m -> (M0 <= Z.of_nat ABSOLUTE_MAX_LENGTH)%Z ->
  exists s,
    (valid ← select_valid_hosts m filter (host_keys m);
     let weights : gmap Edge nat :=
       if dynamic
       then list_to_map (map (fun e => (e, 4)) (edges_of (graph m)))
       else ∅ in
     Ok {| model := m;
           min_length := m0;
           max_length := Z.min (Z.min M0 (Z.of_nat (length valid)))
                               (Z.of_nat ABSOLUTE_MAX_LENGTH);
           valid_hosts := valid;
           sampled := 0;
           use_dynamic_weights := dynamic;
           edge_weights := weights |} : res PathSampler) = Ok s
    /\ fields_ok m dynamic s.
Proof.
  intros W HM.
  destruct (select_valid_hosts_ok m filter (host_keys m) W) as (valid & -> & _ & Hv).
  cbn [mbind res_mbind res_bind]. eexists. split; [reflexivity|].
  split; [|split; [reflexivity|intros ->; reflexivity]].
  unfold fresh_sampler_ok.
  cbn [model max_length valid_hosts edge_weights use_dynamic_weights].
  assert (Hw : dynamic = true ->
    forall e : Edge,
      (has_edge (graph m) (fst e) (snd e) ->
       (if dynamic
        then list_to_map (map (fun e => (e, 4)) (edges_of (graph m)))
        else ∅ : gmap Edge nat) !! e = Some 4)
      /\ (is_Some ((if dynamic
                    then list_to_map (map (fun e => (e, 4)) (edges_of (graph m)))
                    else ∅ : gmap Edge nat) !! e) ->
          has_edge (graph m) (fst e) (snd e))).
  { intros -> e. rewrite lookup_initial_weights.
    rewrite <- (edges_of_has_edge _ e (wf_graph m W)).
    destruct (decide _) as [H|H]; split; auto.
    - intros H'. contradiction.
    - intros [x H']. discriminate H'. }
  split; [|split; [reflexivity|split; [lia|split; [|exact Hw]]]].
  - split; cbn [model max_length valid_hosts edge_weights use_dynamic_weights].
    + apply W.
    + intros D e E. exists 4. split; [|lia]. apply Hw; assumption.
    + lia.
  - apply Forall_forall. intros h Hh. destruct (Hv h Hh) as (_ & H1 & H2). auto.
Qed.

(** The fields of a sampler on a well-formed model: the two errors of the
    constructor, or a well-formed sampler. *)
Lemma sampler_fields_ok
    (m : AttackGraphModel) (min_length0 max_length0 : option Z)
    (hosts_filter : option (gset Z)) (dynamic : bool) :
  model_wf m ->
  match PathSampler_fields m min_length0 max_length0 hosts_filter dynamic with
  | Ok s => fields_ok m dynamic s
  | Raise e =>
      (e = AssertionError
       /\ exists M, max_length0 = Some M /\ (Z.of_nat ABSOLUTE_MAX_LENGTH < M)%Z)
      \/ (e = ValueError
          /\ exists m0, min_length0 = Some m0
                        /\ (default (Z.of_nat ABSOLUTE_MAX_LENGTH) max_length0 < m0)%Z)
  end.
Proof.
  intros W. unfold PathSampler_fields.
  assert (Tail : forall M0 m0, (M0 <= Z.of_nat ABSOLUTE_MAX_LENGTH)%Z ->
    match
      (valid ← select_valid_hosts m hosts_filter (host_keys m);
       let weights : gmap Edge nat :=
         if dynamic
         then list_to_map (map (fun e => (e, 4)) (edges_of (graph m)))
         else ∅ in
       Ok {| model := m; min_length := m0;
             max_length := Z.min (Z.min M0 (Z.of_nat (length valid)))
                                 (Z.of_nat ABSOLUTE_MAX_LENGTH);
             valid_hosts := valid; sampled := 0;
             use_dynamic_weights := dynamic; edge_weights := weights |}
       : res PathSampler)
    with
    | Ok s => fields_ok m dynamic s
    | Raise e =>
        (e = AssertionError
         /\ exists M, max_length0 = Some M /\ (Z.of_nat ABSOLUTE_MAX_LENGTH < M)%Z)
        \/ (e = ValueError
            /\ exists m0, min_length0 = Some m0
                 /\ (default (Z.of_nat ABSOLUTE_MAX_LENGTH) max_length0 < m0)%Z)
    end).
  { intros M0 m0 HM.
    destruct (sampler_init_tail m m0 M0 hosts_filter dynamic W HM) as (s & -> & H).
    exact H. }
  destruct max_length0 as [M|]; cbn [default from_option id].
  - destruct (Z.of_nat ABSOLUTE_MAX_LENGTH <? M)%Z eqn:A;
      cbn [mbind res_mbind res_bind].
    { left. split; [reflexivity|]. exists M. split; [reflexivity|].
      apply Z.ltb_lt. exact A. }
    apply Z.ltb_ge in A.
    destruct min_length0 as [m0|].
    + destruct (M <? m0)%Z eqn:B; cbn [mbind res_mbind res_bind].
      { right. split; [reflexivity|]. exists m0. split; [reflexivity|].
        apply Z.ltb_lt. exact B. }
      apply (Tail M m0 A).
    + cbn [mbind res_mbind res_bind]. apply (Tail M 1%Z A).
  - cbn [mbind res_mbind res_bind].
    destruct min_length0 as [m0|].
    + destruct (Z.of_nat ABSOLUTE_MAX_LENGTH <? m0)%Z eqn:B;
        cbn [mbind res_mbind res_bind].
      { right. split; [reflexivity|]. exists m0. split; [reflexivity|].
        apply Z.ltb_lt. exact B. }
      apply (Tail _ m0). lia.
    + cbn [mbind res_mbind res_bind]. apply (Tail _ 1%Z). lia.
Qed.


(** *** The constructor with its strategy *)

(** What the search of [dfs] has left to do: the nodes not visited and
    the queue. *)
Definition pending (g : DiGraph) (visited : gset Z) (queue : list (Z * nat)) : nat :=
  size ((list_to_set (nodes g) : gset Z) ∖ visited) + length queue.

Lemma dfs_neighbors_pending g neighbors distance visited queue :
  Forall (fun n => n ∈ nodes g) neighbors ->
  Forall (fun e => fst e ∈ nodes g) queue ->
  let '(v, q) := dfs_neighbors neighbors distance visited queue in
  pending g v q = pending g visited queue /\ Forall (fun e => fst e ∈ nodes g) q.
Proof.
  revert visited queue.
  induction neighbors as [|n rest IH]; intros visited queue Hn Hq; cbn [dfs_neighbors].
  - split; [reflexivity|exact Hq].
  - apply Forall_cons in Hn as [Hin Hrest].
    destruct (bool_decide (n ∈ visited)) eqn:E.
    + apply IH; assumption.
    + apply bool_decide_eq_false in E.
      specialize (IH ({[n]} ∪ visited) (queue ++ [(n, S distance)]) Hrest).
      destruct (dfs_neighbors rest distance ({[n]} ∪ visited) (queue ++ [(n, S distance)]))
        as [v q].
      destruct IH as [IH1 IH2].
      { apply Forall_app. split; [exact Hq|]. constructor; [exact Hin|constructor]. }
      split; [|exact IH2]. rewrite IH1. unfold pending.
      rewrite length_app. cbn [length].
      assert (Hsize : size ((list_to_set (nodes g) : gset Z) ∖ visited)
                  = S (size ((list_to_set (nodes g) : gset Z) ∖ ({[n]} ∪ visited)))).
      { replace ((list_to_set (nodes g) : gset Z) ∖ visited)
          with ({[n]} ∪ (list_to_set (nodes g) : gset Z) ∖ ({[n]} ∪ visited)).
        - rewrite size_union, size_singleton; [reflexivity|].
          apply disjoint_singleton_l.
          rewrite elem_of_difference, elem_of_union, elem_of_singleton. tauto.
        - apply set_eq. intros x. rewrite elem_of_union, !elem_of_difference,
            elem_of_union, elem_of_singleton, elem_of_list_to_set.
          destruct (decide (x = n)) as [->|]; tauto. }
      lia.
Qed.

Lemma dfs_loop_ends g target :
  graph_wf g ->
  forall passes visited queue,
    Forall (fun e => fst e ∈ nodes g) queue ->
    pending g visited queue < passes ->
    exists r, dfs_loop passes g target visited queue = Some (Ok r).
Proof.
  intros W. induction passes as [|passes IH]; intros visited queue Hq Hp; [lia|].
  cbn [dfs_loop]. destruct queue as [|[node distance] queue'].
  - eexists; reflexivity.
  - destruct (node =? target)%Z; [eexists; reflexivity|].
    apply Forall_cons in Hq as [Hnode Hq'].
    cbn [fst] in Hnode. apply (wf_nodes_succ g W) in Hnode. destruct Hnode as [l Hl].
    unfold successors. rewrite Hl.
    assert (Hl' : Forall (fun n => n ∈ nodes g) l).
    { apply Forall_forall. intros x Hx. apply (wf_closed g W node).
      exists l. split; assumption. }
    pose proof (dfs_neighbors_pending g l distance visited queue' Hl' Hq') as H.
    destruct (dfs_neighbors l distance visited queue') as [v q].
    destruct H as [H1 H2]. apply IH; [exact H2|].
    rewrite H1. unfold pending in *. cbn [length] in Hp. lia.
Qed.

Lemma dfs_returns g source target :
  graph_wf g -> source ∈ nodes g ->
  exists r, dfs_loop (S (length (nodes g))) g target {[source]} [(source, 0)]
            = Some (Ok r)
            /\ dfs g source target = Ok r.
Proof.
  intros W Hs.
  destruct (dfs_loop_ends g target W (S (length (nodes g))) {[source]} [(source, 0)])
    as [r Hr].
  - constructor; [exact Hs|constructor].
  - unfold pending. cbn [length].
    rewrite size_difference by (apply singleton_subseteq_l, elem_of_list_to_set; exact Hs).
    rewrite size_singleton, size_list_to_set by (apply W).
    assert (0 < length (nodes g)) by (destruct (nodes g); [inversion Hs|cbn; lia]).
    lia.
  - exists r. split; [exact Hr|]. unfold dfs. rewrite Hr. reflexivity.
Qed.

(** On a graph of the model the passes of [dfs] always suffice. *)
Lemma dfs_passes_suffice g source target :
  graph_wf g ->
  exists r, dfs_loop (S (length (nodes g))) g target {[source]} [(source, 0)]
            = Some r.
Proof.
  intros W. destruct (decide (source ∈ nodes g)) as [Hs|Hs].
  - destruct (dfs_returns g source target W Hs) as (r & Hr & _). eexists. exact Hr.
  - cbn [dfs_loop]. destruct (source =? target)%Z; [eexists; reflexivity|].
    unfold successors. destruct (succ g !! source) as [l|] eqn:E.
    + exfalso. apply Hs, (wf_nodes_succ g W). eexists. exact E.
    + eexists. reflexivity.
Qed.

Lemma dfs_targets_returns g source targets acc :
  graph_wf g -> source ∈ nodes g ->
  exists r, dfs_targets g source targets acc = Ok r.
Proof.
  intros W Hs. revert acc. induction targets as [|t rest IH]; intros acc; cbn [dfs_targets].
  - eexists; reflexivity.
  - destruct (dfs_returns g source t W Hs) as (r & _ & ->).
    cbn [mbind res_mbind res_bind]. apply IH.
Qed.

Lemma dfs_sources_returns g sources targets acc :
  graph_wf g -> Forall (fun s => s ∈ nodes g) sources ->
  exists r, dfs_sources g sources targets acc = Ok r.
Proof.
  intros W Hs. revert acc. induction sources as [|s rest IH]; intros acc; cbn [dfs_sources].
  - eexists; reflexivity.
  - apply Forall_cons in Hs as [H1 H2].
    destruct (dfs_targets_returns g s targets acc W H1) as (r & ->).
    cbn [mbind res_mbind res_bind]. apply IH. exact H2.
Qed.

(** The hosts a strategy samples its end points from. *)
Definition strategy_hosts (st : Strategy) : list Z :=
  match st with
  | Sampled Uniform => []
  | Sampled (StartingAt hs) | Sampled (EndingAt hs)
  | Sampled (PassingThrough hs) => hs
  | SourceTarget sources targets _ => sources ++ targets
  end.

Lemma filter_valid (valid hs : list Z) :
  Forall (fun h => h ∈ valid) (List.filter (fun h => bool_decide (h ∈ valid)) hs).
Proof.
  apply Forall_forall. intros h Hh. apply list_elem_of_In, filter_In in Hh.
  destruct Hh as [_ Hh]. apply bool_decide_eq_true in Hh. exact Hh.
Qed.

(** X18. [PathSampler.__init__], with its call of [strategy.init], on a
    well-formed model: it raises only [AssertionError] (a [max_length]
    above 40) or [ValueError] (a [min_length] above the maximum). Otherwise
    [max_length] is at most the number of valid hosts, every valid host is
    a host of the model and a node, and the hosts the strategy keeps are
    valid. With [use_dynamic_weights=True] the sampler is well-formed and
    the weighted edges are exactly the edges of the graph, each with
    weight 4. With [use_dynamic_weights=False] no edge has a weight: the
    sampler is well-formed and does not use weights for the four simple
    strategies, while [SourceTarget] switches the use of weights on. *)
Theorem fresh_sampler_is_well_formed
    (m : AttackGraphModel) (min_length0 max_length0 : option Z)
    (hosts_filter : option (gset Z)) (strategy : option Strategy)
    (dynamic : bool) :
  model_wf m ->
  match PathSampler_init m min_length0 max_length0 hosts_filter strategy dynamic with
  | Ok (s, st) =>
      model s = m
      /\ (max_length s <= Z.of_nat (length (valid_hosts s)))%Z
      /\ Forall (fun h => is_Some (hosts m !! h) /\ is_Some (succ (graph m) !! h))
                (valid_hosts s)
      /\ Forall (fun h => h ∈ valid_hosts s) (strategy_hosts st)
      /\ (dynamic = true ->
          sampler_ok s /\ use_dynamic_weights s = true
          /\ forall e : Edge,
               (has_edge (graph m) (fst e) (snd e) -> edge_weights s !! e = Some 4)
               /\ (is_Some (edge_weights s !! e) ->
                   has_edge (graph m) (fst e) (snd e)))
      /\ (dynamic = false ->
          edge_weights s = ∅
          /\ match st with
             | Sampled _ => use_dynamic_weights s = false /\ sampler_ok s
             | SourceTarget _ _ _ => use_dynamic_weights s = true
             end)
  | Raise e =>
      (e = AssertionError
       /\ exists M, max_length0 = Some M /\ (Z.of_nat ABSOLUTE_MAX_LENGTH < M)%Z)
      \/ (e = ValueError
          /\ exists m0, min_length0 = Some m0
                        /\ (default (Z.of_nat ABSOLUTE_MAX_LENGTH) max_length0 < m0)%Z)
  end.
Proof.
  intros W. unfold PathSampler_init.
  pose proof (sampler_fields_ok m min_length0 max_length0 hosts_filter dynamic W) as F.
  destruct (PathSampler_fields m min_length0 max_length0 hosts_filter dynamic)
    as [s|e]; cbn [mbind res_mbind res_bind]; [|exact F].
  destruct F as ((Hok & Hm & Hmax & Hv & Hw) & Hd & He).
  destruct (default (Sampled Uniform) strategy) as [st|sources targets old].
  - split; [exact Hm|]. split; [exact Hmax|]. split; [exact Hv|]. split.
    { destruct st; cbn [strategy_init strategy_hosts];
        [constructor | apply filter_valid ..]. }
    split.
    + intros D. split; [exact Hok|]. split; [rewrite Hd; exact D|exact (Hw D)].
    + intros D. split; [exact (He D)|]. split; [rewrite Hd; exact D|exact Hok].
  - unfold SourceTarget_init.
    destruct (dfs_sources_returns (graph (model s))
                (List.filter (fun h => bool_decide (h ∈ valid_hosts s)) sources)
                (List.filter (fun h => bool_decide (h ∈ valid_hosts s)) targets)
                ∅) as [results ->].
    { apply Hok. }
    { eapply Forall_impl; [apply filter_valid|]. intros h Hh. cbn beta in Hh.
      rewrite Hm. apply (wf_nodes_succ _ (wf_graph m W)).
      rewrite Forall_forall in Hv. apply (Hv h Hh). }
    cbn [mbind res_mbind res_bind model max_length valid_hosts edge_weights
         use_dynamic_weights strategy_hosts].
    split; [exact Hm|]. split; [exact Hmax|]. split; [exact Hv|]. split.
    { apply Forall_app. split; apply filter_valid. }
    split.
    + intros D. split; [|split; [reflexivity|exact (Hw D)]].
      rewrite D in Hd. destruct Hok as [G Wt Mx].
      split; cbn [model max_length valid_hosts edge_weights use_dynamic_weights].
      * exact G.
      * intros _. exact (Wt Hd).
      * exact Mx.
    + intros D. split; [exact (He D)|reflexivity].
Qed.


(** *** [EndingAt] with dynamic weights *)

(** X19. [EndingAt] with dynamic weights on a graph none of whose
    edges has its reverse: when weights are kept for edges of the graph
    only and [min_length <= 1], [sample_path] never returns a path with an
    edge. The walk with [forward=False] records reversed successor edges,
    which have no weight, so [_update_weights] raises [KeyError] on every
    walk that made a step. *)
Theorem ending_at_returns_no_path_over_one_way_edges
    (s : PathSampler) (hosts : list Z) (r r' : Rng)
    (path : list Edge) (s' : PathSampler) :
  use_dynamic_weights s = true ->
  (forall e : Edge, is_Some (edge_weights s !! e) ->
     has_edge (graph (model s)) (fst e) (snd e)) ->
  (forall u v, has_edge (graph (model s)) u v -> ~ has_edge (graph (model s)) v u) ->
  (min_length s <= 1)%Z ->
  sample_path (strategy_sample (EndingAt hosts)) s r = Ok ((path, s'), r') ->
  path = [].
Proof.
  intros D Hdom Hanti Hmin. unfold sample_path, bind. cbn [strategy_sample].
  unfold bind.
  pose proof (sample_length_bounds s r) as HL.
  destruct (_sample_length s r) as [[len r1]|e]; [|discriminate].
  cbv beta iota in HL.
  destruct (Random.choice hosts r1) as [[start r2]|e]; [|discriminate].
  unfold _sample_one_end. change (@nil Edge) with (SamplingFacts.mirror []).
  rewrite SamplingFacts.walk_mirror.
  destruct (walk s (Z.to_nat len) true start _ [] r2)
    as [[[fwd visited'] r3]|e] eqn:Ew; [|discriminate].
  unfold ret. cbn [fst]. rewrite D. unfold lift.
  apply walk_forward_spec in Ew.
  destruct Ew as (new & Hnew & Hlen & Hc & _). cbn [app] in Hnew. subst fwd.
  destruct (_update_weights s (SamplingFacts.mirror new)) as [s1|e] eqn:Eu;
    [|discriminate].
  intros H. injection H as <- <- <-.
  destruct (SamplingFacts.mirror new) as [|p0 rest] eqn:Em; [reflexivity|].
  exfalso.
  assert (Hp0 : exists e, In e new /\ p0 = SamplingFacts.swap e).
  { assert (Hin : In p0 (SamplingFacts.mirror new)) by (rewrite Em; left; reflexivity).
    unfold SamplingFacts.mirror in Hin. apply in_rev, in_map_iff in Hin.
    destruct Hin as (e & <- & He). eauto. }
  destruct Hp0 as (e & He & ->).
  pose proof (chain_edges _ _ _ Hc e He) as Hedge.
  assert (Hnone : edge_weights s !! SamplingFacts.swap e = None).
  { destruct (edge_weights s !! SamplingFacts.swap e) eqn:E; [|reflexivity].
    exfalso. apply (Hanti _ _ Hedge). apply (Hdom (SamplingFacts.swap e)). eauto. }
  assert (Hlen' : length (SamplingFacts.swap e :: rest) = length new).
  { rewrite <- Em. unfold SamplingFacts.mirror. rewrite length_rev, length_map.
    reflexivity. }
  unfold _update_weights in Eu. rewrite Hlen' in Eu.
  assert (Hpos : 1 <= length new) by (destruct new; [destruct He|cbn; lia]).
  replace ((min_length s <=? Z.of_nat (length new))
           && (Z.of_nat (length new) <? max_length s + 1))%Z with true in Eu.
  2:{ symmetry. apply andb_true_iff. split; [apply Z.leb_le|apply Z.ltb_lt]; lia. }
  unfold WEIGHT_PATTERN in Eu.
  destruct (length new <=? ABSOLUTE_MAX_LENGTH);
    cbn [mbind res_mbind res_bind] in Eu; [|discriminate].
  cbn [add_weights] in Eu. rewrite Hnone in Eu. discriminate.
Qed.

(** *** The theorems on the scenarios *)

Lemma line_sampler_eq :
  PathSampler_fields line_model None None None true = Ok (sampler_of line_model).
Proof.
  unfold sampler_of, PathSampler_init.
  assert (H : DedupFacts.succeeds (PathSampler_fields line_model None None None true)
              = true) by (vm_compute; reflexivity).
  destruct (PathSampler_fields line_model None None None true);
    [reflexivity|discriminate H].
Qed.

Lemma line_sampler_ok : fresh_sampler_ok line_model true (sampler_of line_model).
Proof.
  pose proof (sampler_fields_ok line_model None None None true line_model_wf) as H.
  rewrite line_sampler_eq in H. exact (proj1 H).
Qed.

(** The walk of two steps from host 1 of the line. *)
Lemma forward_walk_is_a_simple_path_witness :
  chain (graph (model (sampler_of line_model))) 1 [(1, 2); (2, 3)]%Z
  /\ (Z.of_nat (length [(1, 2); (2, 3)]%Z) <= Z.max 0 2)%Z
  /\ NoDup (1%Z :: map snd [(1, 2); (2, 3)]%Z)
  /\ (forall h, h ∈ map snd [(1, 2); (2, 3)]%Z -> (h ∉ default (∅ : gset Z) None) /\ h <> 0%Z)
  /\ ({[3%Z; 2%Z; 1%Z]} : gset Z)
     = list_to_set (1%Z :: map snd [(1, 2); (2, 3)]%Z) ∪ default ∅ None.
Proof.
  apply (forward_walk_is_a_simple_path (sampler_of line_model) 1 2 None [] []).
  vm_compute. reflexivity.
Defined.

Lemma sampling_from_given_hosts_never_fails_witness :
  exists path s' r',
    sample_path (strategy_sample (StartingAt [1%Z])) (sampler_of line_model) [0; 0]
    = Ok ((path, s'), r')
    /\ sampler_ok s'
    /\ (Z.of_nat (length path) <= Z.max 0 (max_length (sampler_of line_model)))%Z
    /\ exists start, start ∈ [1%Z]
                     /\ chain (graph (model (sampler_of line_model))) start path.
Proof.
  apply (sampling_from_given_hosts_never_fails (sampler_of line_model) [1%Z] [0; 0]).
  - exact (proj1 line_sampler_ok).
  - discriminate.
  - constructor; [|constructor]. eexists. vm_compute. reflexivity.
  - vm_compute. discriminate.
Defined.

(** A [SourceTarget] sampler of the line built without dynamic weights:
    the strategy keeps the valid hosts 1 and 3, at distance 2, and the
    sampler uses weights of which it has none. *)
Lemma fresh_sampler_is_well_formed_witness :
  match PathSampler_init line_model None None None
          (Some (SourceTarget [1; 9] [3] ∅))%Z false with
  | Ok (s, st) =>
      model s = line_model
      /\ (max_length s <= Z.of_nat (length (valid_hosts s)))%Z
      /\ Forall (fun h => is_Some (hosts line_model !! h)
                          /\ is_Some (succ (graph line_model) !! h))
                (valid_hosts s)
      /\ Forall (fun h => h ∈ valid_hosts s) (strategy_hosts st)
      /\ (false = true ->
          sampler_ok s /\ use_dynamic_weights s = true
          /\ forall e : Edge,
               (has_edge (graph line_model) (fst e) (snd e) ->
                edge_weights s !! e = Some 4)
               /\ (is_Some (edge_weights s !! e) ->
                   has_edge (graph line_model) (fst e) (snd e)))
      /\ (false = false ->
          edge_weights s = ∅
          /\ match st with
             | Sampled _ => use_dynamic_weights s = false /\ sampler_ok s
             | SourceTarget _ _ _ => use_dynamic_weights s = true
             end)
  | Raise e =>
      (e = AssertionError
       /\ exists M, None = Some M /\ (Z.of_nat ABSOLUTE_MAX_LENGTH < M)%Z)
      \/ (e = ValueError
          /\ exists m0, None = Some m0
                        /\ (default (Z.of_nat ABSOLUTE_MAX_LENGTH) None < m0)%Z)
  end.
Proof.
  exact (fresh_sampler_is_well_formed line_model None None None
           (Some (SourceTarget [1; 9] [3] ∅))%Z false line_model_wf).
Defined.

(** That sampler, and what a walk of it meets at an edge: no weight. *)
Lemma source_target_without_weights :
  exists s,
    PathSampler_init line_model None None None
      (Some (SourceTarget [1; 9] [3] ∅))%Z false
    = Ok (s, SourceTarget [1%Z] [3%Z] {[ (1%Z, 3%Z) := 2 ]})
    /\ use_dynamic_weights s = true
    /\ weight s (1, 2)%Z = Raise KeyError.
Proof. eexists. split; [vm_compute; reflexivity|]. split; reflexivity. Qed.

Lemma ended_at_3_eq :
  sample_path (strategy_sample (EndingAt [3%Z])) (sampler_of line_model) [0; 0]
  = Ok ((fst (fst ended_at_3), snd (fst ended_at_3)), snd ended_at_3).
Proof. unfold ended_at_3. apply DedupFacts.succeeds_get3. vm_compute. reflexivity. Qed.

(** On the line, every walk that ends at host 2 raises [KeyError]; the one
    that ends at host 3, which has no successor, returns no path. *)
Lemma ending_at_returns_no_path_over_one_way_edges_witness :
  fst (fst ended_at_3) = []
  /\ sample_path (strategy_sample (EndingAt [2%Z])) (sampler_of line_model) [0; 0]
     = Raise KeyError.
Proof.
  split; [|vm_compute; reflexivity].
  apply (ending_at_returns_no_path_over_one_way_edges
           (sampler_of line_model) [3%Z] [0; 0] (snd ended_at_3)
           (fst (fst ended_at_3)) (snd (fst ended_at_3))).
  - reflexivity.
  - intros e He. destruct line_sampler_ok as (_ & Hm & _ & _ & Hw).
    rewrite Hm. apply (Hw eq_refl e). exact He.
  - intros u v H1 H2. destruct line_sampler_ok as (_ & Hm & _).
    rewrite Hm in H1, H2. apply line_edges in H1, H2.
    repeat (apply elem_of_cons in H1; destruct H1 as [H1|H1];
            [injection H1 as -> ->|]);
      try (inversion H1; fail);
      repeat (apply elem_of_cons in H2; destruct H2 as [H2|H2];
              [discriminate H2|]); inversion H2.
  - vm_compute. discriminate.
  - exact ended_at_3_eq.
Defined.

End WalkFacts.

(** ** The weights of the sampler *)
Module WeightFacts.
Import Vulnerabilities Model Sampling Scenarios ModelInvariants.

Lemma removelast_seq n : removelast (seq 0 (S n)) = seq 0 n.
Proof. rewrite seq_S. apply removelast_last. Qed.

Lemma rev_lookup {A} (l : list A) k :
  k < length l -> rev l !! k = l !! (length l - S k).
Proof. intros H. rewrite rev_alt. apply (reverse_lookup l k H). Qed.

(** The pattern read position by position: it climbs by one from each end. *)
Lemma generate_weight_pattern_spec (n : nat) :
  length (generate_weight_pattern (Z.of_nat n)) = n
  /\ forall k, k < n ->
       generate_weight_pattern (Z.of_nat n) !! k = Some (Nat.min k (n - 1 - k)).
Proof.
  unfold generate_weight_pattern. destruct n as [|n].
  - cbn. split; [reflexivity|lia].
  - replace (Z.of_nat (S n) <=? 0)%Z with false by (symmetry; apply Z.leb_gt; lia).
    replace (Z.to_nat (Z.of_nat (S n) - 1)) with n by lia.
    cbv zeta.
    pose proof (Nat.div_mod_eq n 2) as Hdm.
    pose proof (Nat.mod_upper_bound n 2 ltac:(lia)) as Hmod.
    destruct (n mod 2 =? 0) eqn:E.
    + apply Nat.eqb_eq in E. replace (n / 2 + 1) with (S (n / 2)) by lia.
      rewrite removelast_seq. split.
      * rewrite length_app, length_seq, length_rev, length_seq. lia.
      * intros k Hk. destruct (Nat.lt_ge_cases k (S (n / 2))) as [Hlt|Hge].
        -- rewrite lookup_app_l by (rewrite length_seq; exact Hlt).
           rewrite lookup_seq_lt by exact Hlt. f_equal. lia.
        -- rewrite lookup_app_r by (rewrite length_seq; exact Hge).
           rewrite length_seq, rev_lookup by (rewrite length_seq; lia).
           rewrite length_seq, lookup_seq_lt by lia. f_equal. lia.
    + apply Nat.eqb_neq in E. replace (n / 2 + 1) with (S (n / 2)) by lia. split.
      * rewrite length_app, length_seq, length_rev, length_seq. lia.
      * intros k Hk. destruct (Nat.lt_ge_cases k (S (n / 2))) as [Hlt|Hge].
        -- rewrite lookup_app_l by (rewrite length_seq; exact Hlt).
           rewrite lookup_seq_lt by exact Hlt. f_equal. lia.
        -- rewrite lookup_app_r by (rewrite length_seq; exact Hge).
           rewrite length_seq, rev_lookup by (rewrite length_seq; lia).
           rewrite length_seq, lookup_seq_lt by lia. f_equal. lia.
Qed.

Lemma weight_pattern_climbs_from_both_ends (n : nat) :
  n <= ABSOLUTE_MAX_LENGTH ->
  exists middle,
    WEIGHT_PATTERN n = Ok (0 :: middle ++ [0; 0])
    /\ length middle = n - 3
    /\ (forall k, k < n - 3 -> middle !! k = Some (Nat.min k (n - 4 - k)))
    /\ (3 <= n -> length (0 :: middle ++ [0; 0]) = n).
Proof.
  intros H. unfold WEIGHT_PATTERN. apply Nat.leb_le in H. rewrite H.
  eexists. split; [reflexivity|].
  destruct (Nat.le_gt_cases 3 n) as [Hn|Hn].
  - replace (Z.of_nat n - 3)%Z with (Z.of_nat (n - 3)) by lia.
    destruct (generate_weight_pattern_spec (n - 3)) as [Hlen Hk].
    split; [exact Hlen|]. split.
    + intros k Hlt. rewrite (Hk k Hlt). f_equal. lia.
    + intros _. cbn [length]. rewrite length_app, Hlen. cbn. lia.
  - unfold generate_weight_pattern.
    replace (Z.of_nat n - 3 <=? 0)%Z with true by (symmetry; apply Z.leb_le; lia).
    split; [cbn; lia|]. split; [lia|lia].
Qed.


(** What a path of [n] edges adds to the weight of its [k]-th edge. *)
Definition bump (n k : nat) : nat :=
  if (k =? 0) || (n - 2 <=? k) then 0 else Nat.min (k - 1) (n - 3 - k).

Lemma WEIGHT_PATTERN_bump n ws k :
  WEIGHT_PATTERN n = Ok ws -> k < n -> ws !! k = Some (bump n k).
Proof.
  intros H Hk.
  assert (Hn : n <= ABSOLUTE_MAX_LENGTH).
  { unfold WEIGHT_PATTERN in H. destruct (n <=? ABSOLUTE_MAX_LENGTH) eqn:E;
      [apply Nat.leb_le; exact E|discriminate]. }
  destruct (weight_pattern_climbs_from_both_ends n Hn) as (mid & E & Hlen & Hmid & _).
  rewrite E in H. injection H as <-. unfold bump.
  destruct k as [|k]; [reflexivity|].
  assert (Hk1 : (0 :: mid ++ [0; 0]) !! S k = (mid ++ [0; 0]) !! k) by reflexivity.
  rewrite Hk1. replace (S k =? 0) with false by reflexivity. cbn [orb].
  destruct (n - 2 <=? S k) eqn:C.
  - apply Nat.leb_le in C. rewrite lookup_app_r by lia.
    destruct (k - length mid) as [|[|j]] eqn:D; try reflexivity. lia.
  - apply Nat.leb_gt in C. rewrite lookup_app_l by lia.
    rewrite Hmid by lia. f_equal. lia.
Qed.

Lemma add_weights_spec path : forall ws ew ew',
  NoDup path -> length path <= length ws ->
  add_weights ws path ew = Ok ew' ->
  (forall k e, path !! k = Some e ->
     exists w wk, ew !! e = Some w /\ ws !! k = Some wk
                  /\ ew' !! e = Some (w + wk))
  /\ (forall e, e ∉ path -> ew' !! e = ew !! e).
Proof.
  induction path as [|e0 path IH]; intros ws ew ew' ND Hlen H.
  - destruct ws; cbn in H; injection H as <-; split; auto; intros k e Hk;
      rewrite lookup_nil in Hk; discriminate.
  - destruct ws as [|w0 ws]; [cbn in Hlen; lia|].
    cbn [add_weights] in H. destruct (ew !! e0) as [old|] eqn:Eold; [|discriminate].
    apply NoDup_cons in ND. destruct ND as [Hnotin ND].
    cbn [length] in Hlen.
    destruct (IH ws _ ew' ND ltac:(lia) H) as [Hin Hout]. split.
    + intros k e Hk. destruct k as [|k].
      * cbn in Hk. injection Hk as <-. exists old, w0.
        split; [exact Eold|]. split; [reflexivity|].
        rewrite (Hout e0 Hnotin). apply lookup_insert_eq.
      * cbn in Hk. destruct (Hin k e Hk) as (w & wk & H1 & H2 & H3).
        exists w, wk. split; [|split; [exact H2|exact H3]].
        rewrite lookup_insert_ne in H1; [exact H1|].
        intros <-. apply Hnotin. eapply list_elem_of_lookup_2; eauto.
    + intros e He. apply not_elem_of_cons in He. destruct He as [Hne He].
      rewrite (Hout e He). apply lookup_insert_ne. congruence.
Qed.

(** X20. [_update_weights] on a path without repeated edge whose
    length is within [[min_length, max_length]], away from the trimming
    every 200 samples: the weight of the [k]-th edge of the path grows by
    [bump], that is by [min(k - 1, n - 3 - k)] in the middle of a path of
    [n] edges and by nothing for the first edge and the last two; no other
    weight changes. *)
Theorem update_weights_adds_the_pattern
    (s s' : PathSampler) (path : list Edge) :
  NoDup path ->
  (min_length s <= Z.of_nat (length path) <= max_length s)%Z ->
  S (sampled s) mod 200 <> 0 ->
  _update_weights s path = Ok s' ->
  sampled s' = S (sampled s)
  /\ (forall k e, path !! k = Some e ->
        exists w, edge_weights s !! e = Some w
                  /\ edge_weights s' !! e = Some (w + bump (length path) k))
  /\ (forall e, e ∉ path -> edge_weights s' !! e = edge_weights s !! e)
  /\ bump (length path) 0 = 0
  /\ bump (length path) (length path - 1) = 0
  /\ bump (length path) (length path - 2) = 0.
Proof.
  intros ND Hrange Hmod H. unfold _update_weights in H.
  replace ((min_length s <=? Z.of_nat (length path))
           && (Z.of_nat (length path) <? max_length s + 1))%Z with true in H.
  2:{ symmetry. apply andb_true_iff. split; [apply Z.leb_le|apply Z.ltb_lt]; lia. }
  destruct (WEIGHT_PATTERN (length path)) as [ws|e] eqn:Ew;
    cbn [mbind res_mbind res_bind] in H; [|discriminate].
  destruct (add_weights ws path (edge_weights s)) as [ew|e] eqn:Ea;
    cbn [mbind res_mbind res_bind] in H; [|discriminate].
  apply Nat.eqb_neq in Hmod. rewrite Hmod in H. injection H as <-.
  cbn [sampled edge_weights].
  assert (Hlen : length path <= length ws).
  { unfold WEIGHT_PATTERN in Ew. destruct (_ <=? _); [|discriminate].
    injection Ew as <-. cbn [length]. rewrite length_app. cbn [length].
    destruct (Nat.le_gt_cases 3 (length path)) as [Hn|Hn]; [|lia].
    replace (Z.of_nat (length path) - 3)%Z with (Z.of_nat (length path - 3)) by lia.
    rewrite (proj1 (generate_weight_pattern_spec _)). lia. }
  destruct (add_weights_spec path ws _ ew ND Hlen Ea) as [Hin Hout].
  split; [reflexivity|]. split; [|split; [exact Hout|]].
  - intros k e Hk. destruct (Hin k e Hk) as (w & wk & H1 & H2 & H3).
    exists w. split; [exact H1|]. rewrite H3. f_equal. f_equal.
    apply lookup_lt_Some in Hk.
    rewrite (WEIGHT_PATTERN_bump _ _ _ Ew Hk) in H2. congruence.
  - unfold bump. split; [reflexivity|]. split.
    + destruct (length path - 1 =? 0) eqn:A; [reflexivity|].
      replace (length path - 2 <=? length path - 1) with true; [reflexivity|].
      symmetry. apply Nat.leb_le. lia.
    + destruct (length path - 2 =? 0) eqn:A; [reflexivity|].
      rewrite Nat.leb_refl. reflexivity.
Qed.

(** *** The theorem on the long line *)

Lemma reweighted_eq :
  _update_weights (sampler_of long_line) six_steps = Ok reweighted.
Proof. unfold reweighted. apply succeeds_get1. vm_compute. reflexivity. Qed.

(** Along the six edges of the long line only the third edge gains weight. *)
Lemma update_weights_adds_the_pattern_witness :
  sampled reweighted = S (sampled (sampler_of long_line))
  /\ (forall k e, six_steps !! k = Some e ->
        exists w, edge_weights (sampler_of long_line) !! e = Some w
                  /\ edge_weights reweighted !! e
                     = Some (w + bump (length six_steps) k))
  /\ (forall e, e ∉ six_steps ->
        edge_weights reweighted !! e = edge_weights (sampler_of long_line) !! e)
  /\ bump (length six_steps) 0 = 0
  /\ bump (length six_steps) (length six_steps - 1) = 0
  /\ bump (length six_steps) (length six_steps - 2) = 0.
Proof.
  apply (update_weights_adds_the_pattern (sampler_of long_line) reweighted six_steps).
  - apply (bool_decide_unpack _). vm_compute. reflexivity.
  - vm_compute. split; discriminate.
  - vm_compute. discriminate.
  - exact reweighted_eq.
Defined.

End WeightFacts.

(** ** The trace of an attack path, written and read back *)
Module TraceFacts.
Import Vulnerabilities Model Sampling Builtins AttackPaths Generation Scenarios
  ModelInvariants.

(** *** [str] and [int] on integers *)

Definition is_digit (c : ascii) : Prop := is_Some (digit_of c).

Lemma digit_of_pretty_N_char (x : N) :
  (x < 10)%N -> digit_of (pretty_N_char x) = Some (Z.of_N x).
Proof.
  intros H.
  assert (x = 0 \/ x = 1 \/ x = 2 \/ x = 3 \/ x = 4 \/ x = 5 \/ x = 6 \/ x = 7
          \/ x = 8 \/ x = 9)%N as Hc by lia.
  repeat (destruct Hc as [->|Hc]; [reflexivity|]). subst. reflexivity.
Qed.

Lemma digits_digit c cs acc b d :
  digit_of c = Some d -> digits (c :: cs) acc b = digits cs (10 * acc + d)%Z true.
Proof. intros H. cbn [digits]. rewrite H. reflexivity. Qed.

(** The characters [pretty_N_go x s] puts in front of [s] are the decimal
    digits of [x]: reading them continues a number by [x]. *)
Lemma pretty_N_go_digits (x : N) :
  forall s, exists ds,
    list_ascii_of_string (pretty_N_go x s) = ds ++ list_ascii_of_string s
    /\ Forall is_digit ds
    /\ ((0 < x)%N -> ds <> [])
    /\ forall rest acc b,
         (0 < x)%N ->
         digits (ds ++ rest) acc b
         = digits rest (acc * 10 ^ Z.of_nat (length ds) + Z.of_N x)%Z true.
Proof.
  induction (N.lt_wf_0 x) as [x _ IH]. intros s.
  destruct (N.eq_dec x 0%N) as [->|Hx].
  - exists []. rewrite pretty_N_go_0. split; [reflexivity|].
    split; [constructor|]. split; [lia|]. intros; lia.
  - assert (Hpos : (0 < x)%N) by lia.
    rewrite pretty_N_go_step by exact Hpos.
    destruct (IH (x `div` 10)%N ltac:(apply N.div_lt; lia)
                 (String (pretty_N_char (x `mod` 10)) s)) as (ds & E & Hd & Hne & Hv).
    pose proof (digit_of_pretty_N_char (x `mod` 10)%N
                  ltac:(apply N.mod_lt; lia)) as Hc.
    exists (ds ++ [pretty_N_char (x `mod` 10)]).
    split; [rewrite E, <- app_assoc; reflexivity|].
    split; [apply Forall_app; split; [exact Hd|constructor; [eexists; exact Hc|constructor]]|].
    split; [intros _ H; apply app_eq_nil in H; destruct H; discriminate|].
    intros rest acc b _. rewrite <- app_assoc. cbn [app].
    pose proof (N.div_mod x 10 ltac:(lia)) as Hdm.
    destruct (N.eq_dec (N.div x 10) 0%N) as [Hz|Hnz].
    + assert (ds = []) as ->.
      { rewrite Hz, pretty_N_go_0 in E. cbn [list_ascii_of_string] in E.
        destruct ds as [|d ds]; [reflexivity|]. exfalso.
        apply (f_equal (@length ascii)) in E. cbn [length] in E.
        rewrite length_app in E. cbn [length] in E. lia. }
      cbn [app length]. rewrite (digits_digit _ _ _ _ _ Hc). f_equal.
      rewrite Hz in Hdm. change (Z.of_nat 1) with 1%Z. rewrite Z.pow_1_r.
      clear -Hdm. set (m := (x `mod` 10)%N) in *. clearbody m. lia.
    + rewrite Hv by (apply N.neq_0_lt_0; exact Hnz). rewrite (digits_digit _ _ _ _ _ Hc). f_equal.
      rewrite length_app. cbn [length].
      replace (Z.of_nat (length ds + 1)) with (Z.of_nat (length ds) + 1)%Z by lia.
      rewrite Z.pow_add_r by lia. rewrite Z.pow_1_r.
      clear -Hdm. set (p := (10 ^ Z.of_nat (length ds))%Z).
      set (q := (x `div` 10)%N) in *. set (m := (x `mod` 10)%N) in *.
      clearbody p q m. nia.
Qed.


Lemma pretty_Z_shape (z : Z) :
  exists sign ds,
    list_ascii_of_string (pretty z) = sign ++ ds
    /\ ((sign = [] /\ (0 <= z)%Z) \/ (sign = ["-"%char] /\ (z < 0)%Z))
    /\ ds <> [] /\ Forall is_digit ds
    /\ forall b, digits ds 0%Z b = Ok (Z.abs z).
Proof.
  assert (Hpos : forall p : positive, exists ds,
    list_ascii_of_string (pretty (N.pos p)) = ds
    /\ ds <> [] /\ Forall is_digit ds
    /\ forall b, digits ds 0%Z b = Ok (Z.pos p)).
  { intros p. unfold pretty, pretty_N.
    destruct (decide (N.pos p = 0%N)) as [H|_]; [discriminate|].
    destruct (pretty_N_go_digits (N.pos p) "") as (ds & E & Hd & Hne & Hv).
    exists ds. cbn [list_ascii_of_string] in E. rewrite app_nil_r in E.
    split; [exact E|]. split; [apply Hne; reflexivity|]. split; [exact Hd|].
    intros b. specialize (Hv [] 0%Z b eq_refl). rewrite app_nil_r in Hv.
    rewrite Hv. cbn [digits]. f_equal. }
  destruct z as [|p|p].
  - exists [], ["0"%char]. split; [reflexivity|]. split; [left; split; [reflexivity|lia]|].
    split; [discriminate|]. split; [|intros b; reflexivity].
    constructor; [|constructor]. eexists. reflexivity.
  - destruct (Hpos p) as (ds & E & Hne & Hd & Hv). exists [], ds.
    split; [exact E|]. split; [left; split; [reflexivity|lia]|]. auto.
  - destruct (Hpos p) as (ds & E & Hne & Hd & Hv). exists ["-"%char], ds.
    split.
    { change ("-"%char :: list_ascii_of_string (pretty (N.pos p)) = "-"%char :: ds).
      f_equal. exact E. }
    split; [right; split; [reflexivity|lia]|]. auto.
Qed.

Lemma is_digit_not_space c : is_digit c -> is_space c = false.
Proof.
  intros [d H]. unfold digit_of in H. unfold is_space.
  destruct ((48 <=? nat_of_ascii c) && (nat_of_ascii c <=? 57)) eqn:E; [|discriminate].
  apply andb_true_iff in E. destruct E as [E1 E2].
  apply Nat.leb_le in E1, E2.
  apply orb_false_iff. split; [apply orb_false_iff; split|].
  - apply Nat.eqb_neq. lia.
  - apply andb_false_iff. right. apply Nat.leb_gt. lia.
  - apply andb_false_iff. right. apply Nat.leb_gt. lia.
Qed.

Lemma is_digit_not (c x : ascii) : is_digit c -> digit_of x = None -> c <> x.
Proof. intros [d H] Hx ->. congruence. Qed.

Lemma lstrip_keeps c cs : is_space c = false -> lstrip (c :: cs) = c :: cs.
Proof. intros H. cbn [lstrip]. rewrite H. reflexivity. Qed.

Lemma strip_keeps (l : list ascii) c0 c1 front back :
  l = c0 :: back -> l = front ++ [c1] ->
  is_space c0 = false -> is_space c1 = false ->
  rev (lstrip (rev (lstrip l))) = l.
Proof.
  intros H0 H1 S0 S1. rewrite H0 at 1. rewrite (lstrip_keeps _ _ S0), <- H0.
  rewrite H1 at 1. rewrite rev_app_distr. cbn [rev app].
  rewrite (lstrip_keeps _ _ S1).
  change (c1 :: rev front) with ([c1] ++ rev front).
  rewrite rev_app_distr, rev_involutive. cbn [rev app]. symmetry. exact H1.
Qed.

Lemma nonempty_ends {A} (l : list A) :
  l <> [] -> (exists x back, l = x :: back) /\ (exists front y, l = front ++ [y]).
Proof.
  intros H. split.
  - destruct l; [contradiction|eauto].
  - destruct (exists_last H) as (front & y & ->). eauto.
Qed.

Lemma int_of_str_of_int (z : Z) : int_of_str (str_of_int z) = Ok z.
Proof.
  unfold int_of_str, str_of_int.
  destruct (pretty_Z_shape z) as (sign & ds & E & Hsign & Hne & Hd & Hv).
  destruct (nonempty_ends ds Hne) as [(x & back & Hx) (front & y & Hy)].
  assert (Dx : is_digit x).
  { rewrite Hx in Hd. inversion Hd; assumption. }
  assert (Dy : is_digit y).
  { rewrite Hy in Hd. apply Forall_app in Hd. destruct Hd as [_ Hd].
    inversion Hd; assumption. }
  rewrite E. destruct Hsign as [[-> Hz]|[-> Hz]]; cbn [app].
  - rewrite (strip_keeps ds x y front back Hx Hy)
      by (apply is_digit_not_space; assumption).
    rewrite Hx. rewrite Hx in Hv. clear Hx Hy Hne Hd E.
    destruct x as [[] [] [] [] [] [] [] []];
      try (exfalso; destruct Dx as [? Dx]; vm_compute in Dx; discriminate Dx);
      cbv iota beta; rewrite Hv; f_equal; lia.
  - assert (Hall : "-"%char :: ds = ("-"%char :: front) ++ [y])
      by (rewrite Hy; reflexivity).
    rewrite (strip_keeps ("-"%char :: ds) "-"%char y ("-"%char :: front) ds
               eq_refl Hall eq_refl (is_digit_not_space y Dy)).
    cbv iota beta. rewrite Hv. cbn [mbind res_mbind res_bind]. f_equal. lia.
Qed.


(** *** [split] and [join] *)

Fixpoint lacks (c : ascii) (s : string) : bool :=
  match s with
  | EmptyString => true
  | String x s' => negb (Ascii.eqb x c) && lacks c s'
  end.

Lemma append_cons (x : ascii) (a b : string) :
  String x a +:+ b = String x (a +:+ b).
Proof. reflexivity. Qed.

Lemma append_nil_l (b : string) : "" +:+ b = b.
Proof. reflexivity. Qed.

Lemma append_assoc (a b c : string) : (a +:+ b) +:+ c = a +:+ b +:+ c.
Proof.
  induction a as [|x a IH]; [reflexivity|]. rewrite !append_cons, IH. reflexivity.
Qed.

Lemma append_nil_r (a : string) : a +:+ "" = a.
Proof.
  induction a as [|x a IH]; [reflexivity|]. rewrite append_cons, IH. reflexivity.
Qed.

Lemma list_of_append (a b : string) :
  list_ascii_of_string (a +:+ b) = list_ascii_of_string a ++ list_ascii_of_string b.
Proof.
  induction a as [|x a IH]; [reflexivity|]. rewrite append_cons.
  cbn [list_ascii_of_string app]. rewrite IH. reflexivity.
Qed.

Lemma lacks_append c a b : lacks c (a +:+ b) = lacks c a && lacks c b.
Proof.
  induction a as [|x a IH]; [reflexivity|]. rewrite append_cons.
  cbn [lacks]. rewrite IH, andb_assoc. reflexivity.
Qed.

Lemma lacks_list c s :
  Forall (fun x => x <> c) (list_ascii_of_string s) -> lacks c s = true.
Proof.
  induction s as [|x s IH]; cbn; intros H; [reflexivity|].
  inversion H as [|? ? Hx Hs]; subst. rewrite (IH Hs), andb_true_r.
  apply negb_true_iff, Ascii.eqb_neq. exact Hx.
Qed.

Lemma string_of_rev_list (s : string) (cur : list ascii) :
  string_of_list_ascii (rev (rev (list_ascii_of_string s) ++ cur))
  = string_of_list_ascii (rev cur) +:+ s.
Proof.
  rewrite rev_app_distr, rev_involutive.
  induction (rev cur) as [|x l IH]; cbn [app string_of_list_ascii].
  - apply string_of_list_ascii_of_string.
  - rewrite IH. reflexivity.
Qed.

Section OneCharacter.

Variable c : ascii.

Lemma prefix1_false x s : x <> c -> String.prefix (String c "") (String x s) = false.
Proof. intros H. cbn. destruct (ascii_dec c x); [congruence|reflexivity]. Qed.

Lemma prefix1_true s : String.prefix (String c "") (String c s) = true.
Proof. cbn. destruct (ascii_dec c c); [|congruence]. destruct s; reflexivity. Qed.

Lemma split1_scan (u : string) : forall rest cur,
  lacks c u = true ->
  split_go (String c "") (u +:+ rest) 0 cur
  = split_go (String c "") rest 0 (rev (list_ascii_of_string u) ++ cur).
Proof.
  induction u as [|x u IH]; intros rest cur H; [reflexivity|].
  cbn [lacks] in H. apply andb_true_iff in H. destruct H as [Hx Hu].
  apply negb_true_iff, Ascii.eqb_neq in Hx.
  rewrite append_cons. cbn [split_go]. rewrite (prefix1_false _ _ Hx). rewrite IH by exact Hu.
  cbn [list_ascii_of_string rev]. rewrite <- app_assoc. reflexivity.
Qed.

Lemma split1_cut rest cur :
  split_go (String c "") (String c rest) 0 cur
  = string_of_list_ascii (rev cur) :: split_go (String c "") rest 0 [].
Proof. cbn [split_go]. rewrite prefix1_true. reflexivity. Qed.

(** Two pieces. *)
Lemma split1_two (a b : string) :
  lacks c a = true -> lacks c b = true ->
  split (String c "") (a +:+ String c b) = [a; b].
Proof.
  intros Ha Hb. unfold split. rewrite (split1_scan a _ _ Ha), split1_cut.
  rewrite <- (append_nil_r b) at 1. rewrite (split1_scan b _ _ Hb).
  cbn [split_go]. rewrite !string_of_rev_list. reflexivity.
Qed.

(** Three pieces. *)
Lemma split1_three (a b d : string) :
  lacks c a = true -> lacks c b = true -> lacks c d = true ->
  split (String c "") (a +:+ String c (b +:+ String c d)) = [a; b; d].
Proof.
  intros Ha Hb Hd. unfold split. rewrite (split1_scan a _ _ Ha), split1_cut.
  rewrite (split1_scan b _ _ Hb), split1_cut.
  rewrite <- (append_nil_r d) at 1. rewrite (split1_scan d _ _ Hd).
  cbn [split_go]. rewrite !string_of_rev_list. reflexivity.
Qed.

End OneCharacter.


Section TwoCharacters.

Variable c : ascii.

Let sep : string := String c (String c "").

Lemma prefix2_other x s : x <> c -> String.prefix sep (String x s) = false.
Proof. intros H. cbn. destruct (ascii_dec c x); [congruence|reflexivity]. Qed.

Lemma prefix2_single y s :
  y <> c -> String.prefix sep (String c (String y s)) = false.
Proof.
  intros H. cbn. destruct (ascii_dec c c); [|congruence].
  destruct (ascii_dec c y); [congruence|reflexivity].
Qed.

Lemma prefix2_double s : String.prefix sep (String c (String c s)) = true.
Proof.
  cbn. destruct (ascii_dec c c); [|congruence]. destruct s; reflexivity.
Qed.

Lemma split2_scan (u : string) : forall rest cur,
  lacks c u = true ->
  split_go sep (u +:+ rest) 0 cur
  = split_go sep rest 0 (rev (list_ascii_of_string u) ++ cur).
Proof.
  induction u as [|x u IH]; intros rest cur H; [reflexivity|].
  cbn [lacks] in H. apply andb_true_iff in H. destruct H as [Hx Hu].
  apply negb_true_iff, Ascii.eqb_neq in Hx.
  rewrite append_cons. cbn [split_go]. rewrite (prefix2_other _ _ Hx).
  rewrite IH by exact Hu. cbn [list_ascii_of_string rev].
  rewrite <- app_assoc. reflexivity.
Qed.

Lemma split2_single y rest cur :
  y <> c ->
  split_go sep (String c (String y rest)) 0 cur
  = split_go sep (String y rest) 0 (c :: cur).
Proof. intros H. cbn [split_go]. rewrite (prefix2_single _ _ H). reflexivity. Qed.

Lemma split2_cut rest cur :
  split_go sep (String c (String c rest)) 0 cur
  = string_of_list_ascii (rev cur) :: split_go sep rest 0 [].
Proof. cbn [split_go]. rewrite prefix2_double. reflexivity. Qed.

(** A string of the shape of one step of a trace: three pieces without
    the character, the last two not empty, joined by single ones. *)
Definition step_like (s : string) : Prop :=
  exists a b d,
    s = a +:+ String c (b +:+ String c d)
    /\ lacks c a = true /\ lacks c b = true /\ lacks c d = true
    /\ b <> "" /\ d <> "".

Lemma lacks_head x s : lacks c (String x s) = true -> x <> c.
Proof.
  cbn [lacks]. intros H. apply andb_true_iff in H. destruct H as [H _].
  apply negb_true_iff, Ascii.eqb_neq in H. exact H.
Qed.

Lemma split2_step s rest cur :
  step_like s ->
  split_go sep (s +:+ rest) 0 cur
  = split_go sep rest 0 (rev (list_ascii_of_string s) ++ cur).
Proof.
  intros (a & b & d & -> & Ha & Hb & Hd & Nb & Nd).
  rewrite append_assoc, append_cons, append_assoc, append_cons.
  rewrite (split2_scan a _ _ Ha).
  destruct b as [|b0 b]; [contradiction|]. rewrite append_cons.
  rewrite (split2_single _ _ _ (lacks_head _ _ Hb)).
  rewrite <- append_cons. rewrite (split2_scan (String b0 b) _ _ Hb).
  destruct d as [|d0 d]; [contradiction|]. rewrite append_cons.
  rewrite (split2_single _ _ _ (lacks_head _ _ Hd)).
  rewrite <- append_cons. rewrite (split2_scan (String d0 d) _ _ Hd).
  f_equal. rewrite list_of_append. cbn [list_ascii_of_string].
  rewrite list_of_append. cbn [list_ascii_of_string].
  rewrite !rev_app_distr. cbn [rev]. rewrite !rev_app_distr. cbn [rev app].
  rewrite <- !app_assoc. cbn [app]. reflexivity.
Qed.

Lemma split_join s ss :
  Forall step_like (s :: ss) -> split sep (join sep (s :: ss)) = s :: ss.
Proof.
  unfold split. revert s. induction ss as [|s' ss IH]; intros s H.
  - inversion H as [|? ? Hs _]; subst. cbn [join].
    rewrite <- (append_nil_r s) at 1. rewrite (split2_step s _ _ Hs).
    cbn [split_go]. rewrite string_of_rev_list. reflexivity.
  - inversion H as [|? ? Hs Hss]; subst.
    change (join sep (s :: s' :: ss)) with (s +:+ sep +:+ join sep (s' :: ss)).
    rewrite (split2_step s _ _ Hs).
    change (sep +:+ join sep (s' :: ss))
      with (String c (String c (join sep (s' :: ss)))).
    rewrite split2_cut, string_of_rev_list. rewrite (IH s' Hss). reflexivity.
Qed.

End TwoCharacters.


(** *** One step of a trace, written and read back *)

Lemma pretty_lacks (c : ascii) (z : Z) :
  digit_of c = None -> c <> "-"%char -> lacks c (pretty z) = true.
Proof.
  intros Hc Hm. apply lacks_list.
  destruct (pretty_Z_shape z) as (sign & ds & -> & Hsign & _ & Hd & _).
  apply Forall_app. split.
  - destruct Hsign as [[-> _]|[-> _]]; [constructor|].
    constructor; [congruence|constructor].
  - eapply Forall_impl; [exact Hd|]. intros x Hx. eapply is_digit_not; eauto.
Qed.

Lemma PRIVILEGE_STR_lacks (p : Privilege) :
  lacks "#" (PRIVILEGE_STR p) = true /\ lacks "@" (PRIVILEGE_STR p) = true.
Proof. destruct p; split; reflexivity. Qed.

(** The text before and after the CVE in a step. *)
Definition endpoint (p : Privilege) (h : Z) : string :=
  PRIVILEGE_STR p +:+ String "@" (str_of_int h).

Lemma trace_step_shape p src cve q dst :
  trace_step p src cve q dst
  = endpoint p src +:+ String "#" (cve +:+ String "#" (endpoint q dst)).
Proof.
  unfold trace_step, endpoint.
  rewrite !append_assoc, !append_cons, !append_nil_l. reflexivity.
Qed.

Lemma endpoint_lacks p h : lacks "#" (endpoint p h) = true.
Proof.
  unfold endpoint. rewrite lacks_append. cbn [lacks].
  rewrite (proj1 (PRIVILEGE_STR_lacks p)).
  unfold str_of_int. rewrite pretty_lacks; [reflexivity|reflexivity|discriminate].
Qed.

Lemma endpoint_host p h :
  match split "@" (endpoint p h) with
  | _ :: x :: _ => int_of_str x
  | _ => Raise IndexError
  end = Ok h.
Proof.
  unfold endpoint.
  rewrite (split1_two "@" (PRIVILEGE_STR p) (str_of_int h)).
  - apply int_of_str_of_int.
  - apply PRIVILEGE_STR_lacks.
  - unfold str_of_int. apply pretty_lacks; [reflexivity|discriminate].
Qed.

Lemma endpoint_nonempty p h : endpoint p h <> "".
Proof. destruct p; discriminate. Qed.

Lemma parse_step_trace_step m p src cve q dst v :
  lacks "#" cve = true -> vulnerabilties m !! cve = Some v ->
  parse_step m (trace_step p src cve q dst) = Ok ((src, dst), v).
Proof.
  intros Hc Hv. unfold parse_step. rewrite trace_step_shape.
  rewrite (split1_three "#" _ _ _ (endpoint_lacks p src) Hc (endpoint_lacks q dst)).
  rewrite !endpoint_host. cbn [mbind res_mbind res_bind]. rewrite Hv. reflexivity.
Qed.

Lemma trace_step_like p src cve q dst :
  lacks "#" cve = true -> cve <> "" ->
  step_like "#" (trace_step p src cve q dst).
Proof.
  intros Hc Hne. exists (endpoint p src), cve, (endpoint q dst).
  split; [apply trace_step_shape|].
  split; [apply endpoint_lacks|]. split; [exact Hc|].
  split; [apply endpoint_lacks|]. split; [exact Hne|apply endpoint_nonempty].
Qed.

(** *** The trace the builder writes *)

(** The step the builder records for an edge and the CVE exploited on its
    target: the privilege written on both sides is the one the CVE yields. *)
Definition step_of (e : Edge) (cv : string * Vulnerability) : string :=
  trace_step (priv_gained (snd cv)) (fst e) (fst cv) (priv_gained (snd cv)) (snd e).

Lemma exploit_loop_trace m preferred path :
  forall held vs ts r vs' ts' r',
    exploit_loop m preferred path held vs ts r = Ok ((vs', ts'), r') ->
    exists cvs,
      length cvs <= length path
      /\ vs' = vs ++ map snd cvs
      /\ ts' = ts ++ zip_with step_of path cvs
      /\ Forall (fun cv => vulnerabilties m !! fst cv = Some (snd cv)) cvs.
Proof.
  induction path as [|[src dst] path IH]; intros held vs ts r vs' ts' r' H.
  - injection H as <- <- <-. exists []. cbn. rewrite !app_nil_r.
    split; [lia|]. split; [reflexivity|]. split; [reflexivity|constructor].
  - cbn [exploit_loop] in H. unfold bind in H.
    destruct (sample_cve_on_host m dst held preferred r) as [[[cve|] r1]|e];
      [| |discriminate H].
    + destruct (vulnerabilties m !! cve) as [v|] eqn:Hv; [|discriminate H].
      apply IH in H. destruct H as (cvs & Hlen & -> & -> & Hall).
      exists ((cve, v) :: cvs). cbn [length map zip_with snd fst].
      rewrite <- !app_assoc. split; [lia|]. split; [reflexivity|].
      split; [reflexivity|]. constructor; [exact Hv|exact Hall].
    + injection H as <- <- <-. exists []. cbn. rewrite !app_nil_r.
      split; [lia|]. split; [reflexivity|]. split; [reflexivity|constructor].
Qed.

Definition readable (m : AttackGraphModel) : Prop :=
  forall cve v, vulnerabilties m !! cve = Some v ->
    cve <> "" /\ lacks "#" cve = true.

Lemma parse_steps_written m path : forall cvs,
  readable m -> length cvs <= length path ->
  Forall (fun cv => vulnerabilties m !! fst cv = Some (snd cv)) cvs ->
  exists evs,
    parse_steps m (zip_with step_of path cvs) = Ok evs
    /\ map snd evs = map snd cvs
    /\ map fst evs = firstn (length cvs) path
    /\ Forall (step_like "#") (zip_with step_of path cvs).
Proof.
  induction path as [|[src dst] path IH]; intros cvs R Hlen Hall.
  - destruct cvs; [|cbn in Hlen; lia]. exists []. cbn. repeat split. constructor.
  - destruct cvs as [|[cve v] cvs].
    { exists []. cbn. repeat split. constructor. }
    inversion Hall as [|? ? Hv Hall']; subst. cbn [fst snd] in Hv.
    cbn [length] in Hlen.
    destruct (IH cvs R ltac:(lia) Hall') as (evs & E & H1 & H2 & H3).
    destruct (R cve v Hv) as [Hne Hc].
    exists (((src, dst), v) :: evs). cbn [zip_with parse_steps].
    assert (Es : step_of (src, dst) (cve, v)
                 = trace_step (priv_gained v) src cve (priv_gained v) dst)
      by reflexivity.
    rewrite Es.
    rewrite (parse_step_trace_step m _ src cve _ dst v Hc Hv).
    cbn [mbind res_mbind res_bind]. rewrite E. cbn [mbind res_mbind res_bind].
    split; [reflexivity|]. split; [cbn; f_equal; exact H1|].
    split; [cbn; f_equal; exact H2|].
    constructor; [|exact H3]. apply trace_step_like; assumption.
Qed.

Lemma zip_with_firstn {A B C} (f : A -> B -> C) (l : list A) : forall k : list B,
  zip_with f (firstn (length k) l) k = zip_with f l k.
Proof.
  induction l as [|x l IH]; intros [|y k]; cbn; try reflexivity.
  f_equal. apply IH.
Qed.

(** X21. The trace of a built attack path has one step per exploited
    CVE, joined by ["##"], and the step of an edge names on both sides the
    privilege its CVE yields: the privilege held on the source when the CVE
    was chosen is not recorded. *)
Theorem trace_repeats_the_gained_privilege
    (m : AttackGraphModel) (path : list Edge) (preferred : option (gset string))
    (r r' : Rng) (ap : AttackPath) :
  convert_reachability_to_ap m path preferred r = Ok (Some ap, r') ->
  exists cves,
    length cves = ap_length ap
    /\ Forall2 (fun cve v => vulnerabilties m !! cve = Some v) cves (ap_vulns ap)
    /\ ap_trace ap
       = join "##" (zip_with step_of (ap_edges ap) (zip cves (ap_vulns ap))).
Proof.
  intros H. apply BuilderFacts.convert_reachability_to_ap_spec in H.
  destruct H as (vs & ts & Hloop & Hinit).
  apply exploit_loop_trace in Hloop. cbn [app] in Hloop.
  destruct Hloop as (cvs & Hlen & -> & -> & Hall).
  pose proof (BuilderFacts.AttackPath_init_inv _ _ _ _ Hinit) as (Hne & Hv & He & Ht).
  assert (Hl : ap_length ap = length cvs).
  { destruct (BuilderFacts.AttackPath_init_spec (join "##" (zip_with step_of path cvs))
                (map snd cvs) (firstn (length (map snd cvs)) path) Hne)
      as (ap' & E & _ & _ & _ & L & _).
    rewrite Hinit in E. injection E as <-. rewrite L. apply length_map. }
  exists (map fst cvs). rewrite length_map. split; [symmetry; exact Hl|].
  rewrite Hv, He, Ht. split.
  - clear -Hall. induction Hall as [|[cve v] cvs H _ IH]; cbn; constructor; auto.
  - f_equal. rewrite zip_fst_snd, length_map. symmetry. apply zip_with_firstn.
Qed.

(** X22. When no CVE id of the pool is empty or contains ["#"],
    [from_trace] applied to the trace of an attack path the builder
    returned gives that same attack path back: the same vulnerabilities,
    edges, metrics and hash. *)
Theorem built_path_reads_back_from_its_trace
    (m : AttackGraphModel) (path : list Edge) (preferred : option (gset string))
    (r r' : Rng) (ap : AttackPath) :
  readable m ->
  convert_reachability_to_ap m path preferred r = Ok (Some ap, r') ->
  from_trace (ap_trace ap) m = Ok ap.
Proof.
  intros R H. apply BuilderFacts.convert_reachability_to_ap_spec in H.
  destruct H as (vs & ts & Hloop & Hinit).
  apply exploit_loop_trace in Hloop. cbn [app] in Hloop.
  destruct Hloop as (cvs & Hlen & -> & -> & Hall).
  destruct (parse_steps_written m path cvs R Hlen Hall) as (evs & E & H1 & H2 & H3).
  pose proof (BuilderFacts.AttackPath_init_inv _ _ _ _ Hinit) as (Hne & _ & _ & Ht).
  unfold from_trace. rewrite Ht.
  destruct (zip_with step_of path cvs) as [|s ss] eqn:Ez.
  { exfalso. destruct cvs as [|cv cvs]; [apply Hne; reflexivity|].
    destruct path; [cbn in Hlen; lia|discriminate]. }
  rewrite (split_join "#" s ss H3), E. cbn [mbind res_mbind res_bind].
  rewrite H1, H2. rewrite length_map in Hinit. exact Hinit.
Qed.

(** *** The theorems on the line *)

Lemma line_readable : readable line_model.
Proof.
  intros cve v H.
  rewrite (proj1 (proj2 (load_wf _ _ _ _ line_model_eq))) in H.
  unfold pool in H. apply elem_of_list_to_map_2 in H.
  repeat (apply elem_of_cons in H; destruct H as [H|H];
          [injection H as -> _; split; [discriminate|reflexivity]|]).
  inversion H.
Qed.

Lemma line_path_eq :
  convert_reachability_to_ap line_model [(1, 2); (2, 3)]%Z None []
  = Ok (Some line_path, []).
Proof. vm_compute. reflexivity. Qed.

Lemma trace_repeats_the_gained_privilege_witness :
  exists cves,
    length cves = ap_length line_path
    /\ Forall2 (fun cve v => vulnerabilties line_model !! cve = Some v)
               cves (ap_vulns line_path)
    /\ ap_trace line_path
       = join "##" (zip_with step_of (ap_edges line_path)
                             (zip cves (ap_vulns line_path))).
Proof.
  exact (trace_repeats_the_gained_privilege line_model [(1, 2); (2, 3)]%Z None
           [] [] line_path line_path_eq).
Defined.

Lemma built_path_reads_back_from_its_trace_witness :
  from_trace (ap_trace line_path) line_model = Ok line_path.
Proof.
  exact (built_path_reads_back_from_its_trace line_model [(1, 2); (2, 3)]%Z None
           [] [] line_path line_readable line_path_eq).
Defined.

End TraceFacts.

(** ** The statistics of the attack paths *)
Module StatisticsFacts.
Import Vulnerabilities Model Sampling Builtins AttackPaths Scenarios ModelInvariants.

(** The sum of the counts of a dictionary. *)
Definition total (m : gmap Z nat) : nat := map_fold (fun _ c acc => c + acc) 0 m.

(** The sum of the counts of a dictionary of dictionaries. *)
Definition total2 (m : gmap Z (gmap Z nat)) : nat :=
  map_fold (fun _ row acc => total row + acc) 0 m.

Lemma total_insert (m : gmap Z nat) k v :
  total (<[k := v]> m) + default 0 (m !! k) = total m + v.
Proof.
  unfold total.
  assert (C : forall (m' : gmap Z nat) (j1 j2 : Z) (z1 z2 y : nat),
             j1 <> j2 -> m' !! j1 = Some z1 -> m' !! j2 = Some z2 ->
             z1 + (z2 + y) = z2 + (z1 + y)) by (intros; lia).
  destruct (m !! k) as [old|] eqn:E; cbn [default from_option id].
  - rewrite <- (insert_delete_eq m k v).
    rewrite map_fold_insert_L; [|apply C|apply lookup_delete_eq].
    rewrite (map_fold_delete_L _ _ k old m); [lia|apply C|exact E].
  - rewrite map_fold_insert_L; [lia|apply C|exact E].
Qed.

Lemma total_empty : total ∅ = 0.
Proof. apply map_fold_empty. Qed.

Lemma total2_insert (m : gmap Z (gmap Z nat)) k row :
  total2 (<[k := row]> m) + total (default ∅ (m !! k)) = total2 m + total row.
Proof.
  unfold total2.
  assert (C : forall (m' : gmap Z (gmap Z nat)) (j1 j2 : Z) (z1 z2 : gmap Z nat)
                (y : nat),
             j1 <> j2 -> m' !! j1 = Some z1 -> m' !! j2 = Some z2 ->
             total z1 + (total z2 + y) = total z2 + (total z1 + y)) by (intros; lia).
  destruct (m !! k) as [old|] eqn:E; cbn [default from_option id].
  - rewrite <- (insert_delete_eq m k row).
    rewrite map_fold_insert_L; [|apply C|apply lookup_delete_eq].
    rewrite (map_fold_delete_L _ _ k old m); [lia|apply C|exact E].
  - rewrite map_fold_insert_L; [|apply C|exact E].
    rewrite total_empty. lia.
Qed.

Lemma total_count_host hc h : total (count_host hc h) = S (total hc).
Proof.
  unfold count_host. pose proof (total_insert hc h (S (default 0 (hc !! h)))). lia.
Qed.

Lemma total2_count_edge ec e : total2 (count_edge ec e) = S (total2 ec).
Proof.
  unfold count_edge.
  set (row := default ∅ (ec !! fst e)).
  pose proof (total2_insert ec (fst e)
                (<[snd e := S (default 0 (row !! snd e))]> row)) as H1.
  pose proof (total_insert row (snd e) (S (default 0 (row !! snd e)))) as H2.
  fold row in H1. lia.
Qed.

Lemma total_fold_count_host hs : forall hc,
  total (fold_left count_host hs hc) = total hc + length hs.
Proof.
  induction hs as [|h hs IH]; intros hc; cbn [fold_left length]; [lia|].
  rewrite IH, total_count_host. lia.
Qed.

Lemma total2_fold_count_edge es : forall ec,
  total2 (fold_left count_edge es ec) = total2 ec + length es.
Proof.
  induction es as [|e es IH]; intros ec; cbn [fold_left length]; [lia|].
  rewrite IH, total2_count_edge. lia.
Qed.

Lemma sum_list_alter (l : list nat) k n :
  k < length l -> sum_list (alter (fun c => c + n) k l) = sum_list l + n.
Proof.
  revert k. induction l as [|x l IH]; intros k H; [cbn in H; lia|].
  destruct k as [|k]; cbn.
  - lia.
  - cbn in H. rewrite IH by lia. lia.
Qed.

Lemma py_index_bound len i k : py_index len i = Ok k -> k < len.
Proof.
  unfold py_index.
  destruct ((0 <=? i) && (i <? Z.of_nat len))%Z eqn:A.
  - apply andb_true_iff in A. destruct A as [A1 A2].
    apply Z.leb_le in A1. apply Z.ltb_lt in A2. intros H. injection H as <-. lia.
  - destruct ((- Z.of_nat len <=? i) && (i <? 0))%Z eqn:B; [|discriminate].
    apply andb_true_iff in B. destruct B as [B1 B2].
    apply Z.leb_le in B1. apply Z.ltb_lt in B2. intros H. injection H as <-. lia.
Qed.

Lemma py_additem_sum l i n l' :
  py_additem l i n = Ok l' ->
  sum_list l' = sum_list l + n /\ length l' = length l.
Proof.
  unfold py_additem. destruct (py_index (length l) i) as [k|e] eqn:E;
    cbn [mbind res_mbind res_bind]; [|discriminate].
  intros H. injection H as <-. apply py_index_bound in E.
  split; [apply sum_list_alter; exact E|apply length_alter].
Qed.

(** The counters of the statistics agree with one another. *)
Record counted (st : AttackPathStatistics) : Prop := {
  c_likelihoods : sum_list (likelihoods st) = num_paths st;
  c_impacts : sum_list (impacts st) = num_paths st;
  c_scores : sum_list (scores st) = num_paths st;
  c_risks : sum_list (risks st) = num_paths st;
  c_damages : sum_list (damages st) = num_paths st;
  c_lengths : sum_list (lengths st) = num_paths st;
  c_hosts : total (hosts_count st) = hosts_sum st;
  c_edges : total2 (edges_count st) = edges_sum st
}.

Lemma sum_list_repeat_0 n : sum_list (repeat 0 n) = 0.
Proof. induction n as [|n IH]; cbn; [reflexivity|exact IH]. Qed.

Lemma counted_init : counted AttackPathStatistics_init.
Proof.
  split; cbn [AttackPathStatistics_init likelihoods impacts scores risks damages
              lengths num_paths hosts_count edges_count hosts_sum edges_sum];
    try apply sum_list_repeat_0; reflexivity.
Qed.


Definition edges_in (paths : list AttackPath) : nat :=
  sum_list (map (fun ap => length (ap_edges ap)) paths).

Definition hosts_in (paths : list AttackPath) : nat :=
  sum_list (map (fun ap => size (ap_hosts ap)) paths).

Lemma update_one_counts st ap st' :
  update_one st ap = Ok st' ->
  num_paths st' = num_paths st
  /\ sum_list (likelihoods st') = sum_list (likelihoods st) + 1
  /\ sum_list (impacts st') = sum_list (impacts st) + 1
  /\ sum_list (scores st') = sum_list (scores st) + 1
  /\ sum_list (risks st') = sum_list (risks st) + 1
  /\ sum_list (damages st') = sum_list (damages st) + 1
  /\ sum_list (lengths st') = sum_list (lengths st) + 1
  /\ total (hosts_count st') = total (hosts_count st) + size (ap_hosts ap)
  /\ hosts_sum st' = hosts_sum st + size (ap_hosts ap)
  /\ total2 (edges_count st') = total2 (edges_count st) + length (ap_edges ap)
  /\ edges_sum st' = edges_sum st + length (ap_edges ap).
Proof.
  unfold update_one. cbv zeta.
  cbn [_update_hosts_and_edges likelihoods impacts scores risks damages lengths
       num_paths hosts_count edges_count hosts_sum edges_sum].
  intros H.
  destruct (py_additem (likelihoods st) _ 1) as [li|e] eqn:E1;
    cbn [mbind res_mbind res_bind] in H; [|discriminate].
  destruct (py_additem (impacts st) _ 1) as [im|e] eqn:E2;
    cbn [mbind res_mbind res_bind] in H; [|discriminate].
  destruct (py_additem (scores st) _ 1) as [sc|e] eqn:E3;
    cbn [mbind res_mbind res_bind] in H; [|discriminate].
  destruct (py_additem (risks st) _ 1) as [ri|e] eqn:E4;
    cbn [mbind res_mbind res_bind] in H; [|discriminate].
  destruct (py_additem (damages st) _ 1) as [dg|e] eqn:E5;
    cbn [mbind res_mbind res_bind] in H; [|discriminate].
  destruct (tally_length (lengths st) (ap_length ap)) as [le|e] eqn:E6;
    cbn [mbind res_mbind res_bind] in H; [|discriminate].
  injection H as <-.
  cbn [likelihoods impacts scores risks damages lengths
       num_paths hosts_count edges_count hosts_sum edges_sum].
  apply py_additem_sum in E1, E2, E3, E4, E5.
  assert (E6' : sum_list le = sum_list (lengths st) + 1).
  { unfold tally_length in E6. destruct (MAX_LENGTH <=? ap_length ap);
      apply py_additem_sum in E6; apply E6. }
  rewrite total_fold_count_host, total2_fold_count_edge.
  change (length (elements (ap_hosts ap))) with (size (ap_hosts ap)).
  repeat split; try tauto; try lia.
Qed.

Lemma hosts_in_cons ap paths : hosts_in (ap :: paths) = size (ap_hosts ap) + hosts_in paths.
Proof. reflexivity. Qed.

Lemma edges_in_cons ap paths :
  edges_in (ap :: paths) = length (ap_edges ap) + edges_in paths.
Proof. reflexivity. Qed.

Lemma update_loop_counts paths : forall st st',
  update_loop st paths = Ok st' ->
  num_paths st' = num_paths st
  /\ sum_list (likelihoods st') = sum_list (likelihoods st) + length paths
  /\ sum_list (impacts st') = sum_list (impacts st) + length paths
  /\ sum_list (scores st') = sum_list (scores st) + length paths
  /\ sum_list (risks st') = sum_list (risks st) + length paths
  /\ sum_list (damages st') = sum_list (damages st) + length paths
  /\ sum_list (lengths st') = sum_list (lengths st) + length paths
  /\ total (hosts_count st') = total (hosts_count st) + hosts_in paths
  /\ hosts_sum st' = hosts_sum st + hosts_in paths
  /\ total2 (edges_count st') = total2 (edges_count st) + edges_in paths
  /\ edges_sum st' = edges_sum st + edges_in paths.
Proof.
  induction paths as [|ap paths IH]; intros st st' H.
  - injection H as <-. change (hosts_in []) with 0. change (edges_in []) with 0.
    cbn [length]. repeat split; lia.
  - cbn [update_loop] in H.
    destruct (update_one st ap) as [st1|e] eqn:E;
      cbn [mbind res_mbind res_bind] in H; [|discriminate].
    apply update_one_counts in E. apply IH in H.
    rewrite hosts_in_cons, edges_in_cons. cbn [length].
    destruct E as (A0 & A1 & A2 & A3 & A4 & A5 & A6 & A7 & A8 & A9 & A10).
    destruct H as (B0 & B1 & B2 & B3 & B4 & B5 & B6 & B7 & B8 & B9 & B10).
    repeat split; lia.
Qed.

(** X23. [AttackPathStatistics.update] counts every path once: when each
    of the six histograms sums to [num_paths] and the host and edge
    dictionaries sum to [hosts_sum] and [edges_sum], the same holds after an
    update that succeeds; [num_paths] grows by the number of paths,
    [hosts_sum] by the number of distinct hosts of each path and [edges_sum]
    by the number of edges of each path. *)
Theorem update_counts_every_path_once
    (st st' : AttackPathStatistics) (new_paths : list AttackPath) :
  counted st -> update st new_paths = Ok st' ->
  counted st'
  /\ num_paths st' = num_paths st + length new_paths
  /\ hosts_sum st' = hosts_sum st + hosts_in new_paths
  /\ edges_sum st' = edges_sum st + edges_in new_paths.
Proof.
  intros C H. unfold update in H. apply update_loop_counts in H.
  cbn [likelihoods impacts scores risks damages lengths
       num_paths hosts_count edges_count hosts_sum edges_sum] in H.
  destruct H as (B0 & B1 & B2 & B3 & B4 & B5 & B6 & B7 & B8 & B9 & B10).
  destruct C as [C1 C2 C3 C4 C5 C6 C7 C8].
  split; [split; lia|]. repeat split; lia.
Qed.

Lemma counted_once_eq :
  update AttackPathStatistics_init [one_step_path] = Ok counted_once.
Proof. unfold counted_once. apply succeeds_get1. vm_compute. reflexivity. Qed.

(** One path of one edge and two hosts, counted from the empty statistics. *)
Lemma update_counts_every_path_once_witness :
  counted counted_once
  /\ num_paths counted_once = num_paths AttackPathStatistics_init + length [one_step_path]
  /\ hosts_sum counted_once = hosts_sum AttackPathStatistics_init + hosts_in [one_step_path]
  /\ edges_sum counted_once = edges_sum AttackPathStatistics_init + edges_in [one_step_path].
Proof.
  apply (update_counts_every_path_once AttackPathStatistics_init counted_once
           [one_step_path]); [apply counted_init | apply counted_once_eq].
Defined.

End StatisticsFacts.

(** ** The stability of the distributions *)
Module StabilityFacts.
Import Vulnerabilities Model Sampling Builtins AttackPaths Generation Steering Scenarios ModelInvariants.

(** A list that never goes down. *)
Fixpoint ascending (l : list Q) : Prop :=
  match l with
  | x :: (y :: _) as rest => (x <= y)%Q /\ ascending rest
  | _ => True
  end.

Definition fraction (q : Q) : Prop := (0 <= q <= 1)%Q.

Lemma cumsum_step acc x l :
  cumsum acc (x :: l)
  = Qred (acc + inject_Z (Z.of_N x)) :: cumsum (Qred (acc + inject_Z (Z.of_N x))) l.
Proof. reflexivity. Qed.

Lemma count_nonneg (x : N) : (0 <= inject_Z (Z.of_N x))%Q.
Proof. unfold Qle; cbn. lia. Qed.

Lemma count_pos (x : N) : (0 < x)%N -> (0 < inject_Z (Z.of_N x))%Q.
Proof. intros H. unfold Qlt; cbn. lia. Qed.

(** The running sums start above [acc], never go down, and end highest. *)
Lemma cumsum_spec l : forall acc,
  ascending (acc :: cumsum acc l)
  /\ Forall (fun x => (acc <= x /\ x <= List.last (cumsum acc l) acc)%Q) (cumsum acc l)
  /\ (acc <= List.last (cumsum acc l) acc)%Q
  /\ (Exists (fun x => (0 < x)%N) l -> (acc < List.last (cumsum acc l) acc)%Q)
  /\ (Forall (fun x => x = 0%N) l -> (List.last (cumsum acc l) acc == acc)%Q).
Proof.
  induction l as [|x l IH]; intros acc.
  - cbn. split; [exact I|]. split; [constructor|]. split; [apply Qle_refl|].
    split; [intros H; inversion H|intros _; reflexivity].
  - rewrite cumsum_step. set (acc' := Qred (acc + inject_Z (Z.of_N x))).
    assert (Hacc : (acc <= acc')%Q).
    { subst acc'. rewrite Qred_correct. pose proof (count_nonneg x). lra. }
    destruct (IH acc') as (A & B & C & D & E).
    assert (Hlast : List.last (acc' :: cumsum acc' l) acc
                    = List.last (cumsum acc' l) acc').
    { destruct (cumsum acc' l) eqn:El; [reflexivity|].
      cbn [List.last]. clear. revert q. induction l0 as [|y l0 IHl]; intros q.
      - reflexivity.
      - cbn [List.last]. apply IHl. }
    rewrite Hlast. split; [split; [exact Hacc|exact A]|]. split.
    + constructor; [split; [exact Hacc|exact C]|].
      eapply Forall_impl; [exact B|]. intros y [Hy1 Hy2]. split; [lra|exact Hy2].
    + split; [lra|]. split.
      * intros H. inversion H as [? ? Hx|? ? Hl]; subst.
        -- assert (acc < acc')%Q; [|lra]. subst acc'. rewrite Qred_correct.
           pose proof (count_pos x Hx). lra.
        -- specialize (D Hl). lra.
      * intros H. inversion H as [|? ? Hx Hl]; subst. rewrite (E Hl).
        subst acc'. rewrite Qred_correct. cbn. unfold inject_Z. lra.
Qed.


Lemma length_cumsum l : forall acc, length (cumsum acc l) = length l.
Proof. induction l as [|x l IH]; intros acc; cbn; [reflexivity|]. f_equal. apply IH. Qed.

Lemma ascending_map (f : Q -> Q) l :
  (forall x y, (x <= y)%Q -> (f x <= f y)%Q) -> ascending l -> ascending (map f l).
Proof.
  intros Hf. induction l as [|x [|y l] IH]; cbn; auto.
  intros [Hxy H]. split; [apply Hf; exact Hxy|]. apply IH. exact H.
Qed.

Lemma ascending_tail x l : ascending (x :: l) -> ascending l.
Proof. destruct l; cbn; tauto. Qed.

Lemma last_map {A B} (f : A -> B) l d d' :
  l <> [] -> List.last (map f l) d' = f (List.last l d).
Proof.
  induction l as [|x [|y l] IH]; intros H; [contradiction|reflexivity|].
  change (List.last (map f (y :: l)) d' = f (List.last (y :: l) d)).
  apply IH. discriminate.
Qed.

Lemma ascending_zeros {A} (l : list A) : ascending (map (fun _ => 0%Q) l).
Proof.
  induction l as [|x [|y l] IH]; cbn; auto. split; [apply Qle_refl|exact IH].
Qed.

Lemma divide_fraction (x t : Q) : (0 <= x)%Q -> (x <= t)%Q -> (0 < t)%Q ->
  fraction (Qred (x / t)).
Proof.
  intros H0 H1 Ht. unfold fraction. rewrite Qred_correct. split.
  - apply Qle_shift_div_l; [exact Ht|]. lra.
  - apply Qle_shift_div_r; [exact Ht|]. lra.
Qed.

Lemma divide_monotone (t x y : Q) : (0 < t)%Q -> (x <= y)%Q ->
  (Qred (x / t) <= Qred (y / t))%Q.
Proof.
  intros Ht H. rewrite !Qred_correct. unfold Qdiv.
  apply Qmult_le_compat_r; [exact H|]. apply Qlt_le_weak, Qinv_lt_0_compat. exact Ht.
Qed.

Lemma cdf_fraction (metrics : list N) : Forall fraction (_measurements_to_cdf metrics).
Proof.
  unfold _measurements_to_cdf. cbv zeta.
  destruct (cumsum_spec metrics 0) as (A & B & C & D & E).
  set (cs := cumsum 0 metrics) in *. set (t := List.last cs 0%Q) in *.
  destruct (Qle_bool t 0) eqn:T; cbn [negb].
  - apply Forall_forall. intros y Hy. apply list_elem_of_In, in_map_iff in Hy.
    destruct Hy as (? & <- & _). unfold fraction. lra.
  - assert (Ht : (0 < t)%Q).
    { apply Qnot_le_lt. intros H. apply Qle_bool_iff in H. congruence. }
    apply Forall_forall. intros y Hy. apply list_elem_of_In, in_map_iff in Hy.
    destruct Hy as (x & <- & Hx). rewrite Forall_forall in B.
    apply list_elem_of_In in Hx. destruct (B x Hx) as [B1 B2].
    apply divide_fraction; assumption.
Qed.

(** X24. [_measurements_to_cdf] returns a cumulative distribution: as many
    entries as counts, each between 0 and 1, in ascending order; the last
    entry is 1 when some count is positive, and every entry is 0 when all
    counts are 0. *)
Theorem measurements_to_cdf_is_a_distribution (metrics : list N) :
  let cdf := _measurements_to_cdf metrics in
  length cdf = length metrics
  /\ Forall fraction cdf
  /\ ascending cdf
  /\ (Exists (fun x => (0 < x)%N) metrics -> (List.last cdf 0 == 1)%Q)
  /\ (Forall (fun x => x = 0%N) metrics -> Forall (fun y => y = 0%Q) cdf).
Proof.
  unfold _measurements_to_cdf. cbv zeta.
  destruct (cumsum_spec metrics 0) as (A & B & C & D & E).
  set (cs := cumsum 0 metrics) in *. set (t := List.last cs 0%Q) in *.
  destruct (Qle_bool t 0) eqn:T; cbn [negb].
  - assert (Ht : (t <= 0)%Q) by (apply Qle_bool_iff; exact T).
    rewrite length_map. split; [apply length_cumsum|]. split.
    { apply Forall_forall. intros y Hy. apply list_elem_of_In, in_map_iff in Hy.
      destruct Hy as (? & <- & _). unfold fraction. lra. }
    split; [apply ascending_zeros|]. split.
    { intros H. specialize (D H). lra. }
    intros _. apply Forall_forall. intros y Hy.
    apply list_elem_of_In, in_map_iff in Hy. destruct Hy as (? & <- & _). reflexivity.
  - assert (Ht : (0 < t)%Q).
    { apply Qnot_le_lt. intros H. apply Qle_bool_iff in H. congruence. }
    rewrite length_map. split; [apply length_cumsum|]. split.
    { apply Forall_forall. intros y Hy. apply list_elem_of_In, in_map_iff in Hy.
      destruct Hy as (x & <- & Hx). rewrite Forall_forall in B.
      apply list_elem_of_In in Hx. destruct (B x Hx) as [B1 B2].
      apply divide_fraction; assumption. }
    split.
    { apply ascending_map; [intros x y; apply divide_monotone; exact Ht|].
      apply (ascending_tail 0%Q). exact A. }
    split.
    { intros _. assert (Hne : cs <> []).
      { intros Hnil. subst t. rewrite Hnil in Ht. cbn in Ht. lra. }
      rewrite (last_map _ cs 0%Q 0%Q Hne). fold t. rewrite Qred_correct.
      apply Qmult_inv_r. lra. }
    intros H. specialize (E H). lra.
Qed.


Lemma Qabs_diff_fraction a b : fraction a -> fraction b -> fraction (Qabs_diff a b).
Proof.
  unfold fraction, Qabs_diff. intros Ha Hb. rewrite Qred_correct. split.
  - apply Qabs_nonneg.
  - apply Qabs_Qle_condition. lra.
Qed.

Lemma Qmax_fraction a b : fraction a -> fraction b -> fraction (Qmax a b).
Proof. unfold Qmax. destruct (Qle_bool a b); auto. Qed.

Lemma statistical_difference_fraction cdf1 cdf2 :
  Forall fraction cdf1 -> Forall fraction cdf2 ->
  fraction (statistical_difference cdf1 cdf2).
Proof.
  unfold statistical_difference. intros H1. revert cdf2.
  induction H1 as [|a l1 Ha H1 IH]; intros cdf2 H2.
  - cbn. unfold fraction. lra.
  - destruct H2 as [|b l2 Hb H2]; [cbn; unfold fraction; lra|].
    cbn [combine map fold_right fst snd]. apply Qmax_fraction.
    + apply Qabs_diff_fraction; assumption.
    + apply IH. exact H2.
Qed.

Lemma complement_fraction d : fraction d -> fraction (Qred (1 - d)).
Proof. unfold fraction. rewrite Qred_correct. lra. Qed.

Definition five_fractions (t : FiveFloats) : Prop :=
  let '(lik, imp, sco, ris, len) := t in
  fraction lik /\ fraction imp /\ fraction sco /\ fraction ris /\ fraction len.

Record stable (g : PathGenerator) : Prop := {
  st_lik : Forall fraction (prev_cdf_lik g);
  st_imp : Forall fraction (prev_cdf_imp g);
  st_sco : Forall fraction (prev_cdf_sco g);
  st_ris : Forall fraction (prev_cdf_ris g);
  st_len : Forall fraction (prev_cdf_len g);
  st_all : Forall five_fractions (stability g)
}.

Lemma fraction_zeros n : Forall fraction (repeat 0%Q n).
Proof.
  apply Forall_forall. intros x Hx. apply list_elem_of_In, repeat_spec in Hx.
  subst x. unfold fraction. lra.
Qed.

Lemma stable_init m s size stats found :
  Forall five_fractions found -> stable (PathGenerator_init m s size stats found).
Proof.
  intros H. split;
    cbn [PathGenerator_init prev_cdf_lik prev_cdf_imp prev_cdf_sco prev_cdf_ris
         prev_cdf_len stability]; try apply fraction_zeros.
  exact H.
Qed.

(** X25. [update_stability] keeps the stored distributions and
    every stability value between 0 and 1: each of the five values it
    appends is one minus a largest distance of two distributions. It appends
    one tuple when [iteration] is positive and none at iteration 0. *)
Theorem stability_stays_between_0_and_1 (g g' : PathGenerator) (new_paths : list AttackPath) :
  stable g -> update_stability g new_paths = Ok g' ->
  stable g'
  /\ length (stability g') = length (stability g) + (if 0 <? iteration g then 1 else 0).
Proof.
  intros S H. unfold update_stability in H.
  destruct (count_paths _ new_paths) as [c|e]; [|discriminate H].
  cbn [mbind res_bind] in H. cbv zeta in H. injection H as <-. split.
  - split; cbn [prev_cdf_lik prev_cdf_imp prev_cdf_sco prev_cdf_ris prev_cdf_len
                  stability]; try apply cdf_fraction.
    destruct (0 <? iteration g); [|apply S].
    apply Forall_app. split; [apply S|]. apply Forall_cons. split; [|constructor].
    repeat split; apply complement_fraction, statistical_difference_fraction;
      try apply cdf_fraction; apply S.
  - cbn [stability]. destruct (0 <? iteration g); [rewrite length_app; cbn; lia|lia].
Qed.

Lemma stable_at_iteration n g : stable g -> stable (at_iteration n g).
Proof. intros [A B C D E F]. split; assumption. Qed.

Lemma measured_once_eq :
  update_stability (at_iteration 1 (base line_generator)) [one_step_path]
  = Ok measured_once.
Proof. unfold measured_once. apply succeeds_get1. vm_compute. reflexivity. Qed.

(** The line generator at iteration 1: one tuple is appended. *)
Lemma stability_stays_between_0_and_1_witness :
  stable measured_once
  /\ length (stability measured_once)
     = length (stability (at_iteration 1 (base line_generator)))
       + (if 0 <? iteration (at_iteration 1 (base line_generator)) then 1 else 0).
Proof.
  apply (stability_stays_between_0_and_1 (at_iteration 1 (base line_generator))
           measured_once [one_step_path]).
  - apply stable_at_iteration, stable_init. constructor.
  - apply measured_once_eq.
Defined.

End StabilityFacts.

(** ** The paths of one sampling round *)
Module GeneratorFacts.
Import Vulnerabilities Model Sampling Builtins AttackPaths Generation Steering Scenarios
       ModelInvariants StabilityFacts.

Section Sampled.

Variable strategy : PathSampler -> M (list Edge).

(** What the loop of [sample_attack_paths] maintains: [seen] is
    [unique_hashes] when the loop starts and [budget] the number of walks
    the loop may still consume plus the paths built so far. *)
Record collecting (seen : gset string) (budget : nat) (todo : nat) (st : SampleState)
  : Prop := {
  col_nodup : NoDup (map ap_hash (ss_attack_paths st));
  col_new : Forall (fun ap => ap_hash ap ∉ seen) (ss_attack_paths st);
  col_hashes : ss_unique_hashes st = list_to_set (map ap_hash (ss_attack_paths st)) ∪ seen;
  col_count : length (ss_attack_paths st) + ss_collisions st = ss_sampled_aps st;
  col_budget : ss_sampled_aps st + todo <= budget
}.

Lemma sample_loop_collects m sample_size preferred seen budget todo :
  forall st r st' r',
    sample_loop strategy m sample_size preferred todo st r = Ok (st', r') ->
    collecting seen budget todo st -> collecting seen budget 0 st'.
Proof.
  induction todo as [|todo IH]; intros st r st' r' H Hinv.
  - injection H as <- <-. exact Hinv.
  - cbn [sample_loop] in H. unfold bind in H.
    destruct (sample_path strategy (ss_sampler st) r) as [[[path sampler'] r1]|e];
      [|discriminate H].
    destruct Hinv as [I1 I2 I3 I4 I5].
    destruct path as [|edge path].
    { eapply IH; [exact H|]. split; cbn; try assumption. lia. }
    cbn [ss_sampled_aps] in H.
    destruct (Z.of_nat (ss_sampled_aps st) =? sample_size)%Z.
    { injection H as <- <-. split; cbn; try assumption. lia. }
    destruct (convert_reachability_to_ap m (edge :: path) preferred r1)
      as [[[ap|] r2]|e]; [| |discriminate H].
    2:{ eapply IH; [exact H|]. split; cbn; try assumption. lia. }
    cbn [ss_unique_hashes] in H.
    destruct (bool_decide (ap_hash ap ∈ ss_unique_hashes st)) eqn:Hin.
    + eapply IH; [exact H|]. split; cbn; try assumption; lia.
    + eapply IH; [exact H|]. apply bool_decide_eq_false in Hin.
      rewrite I3 in Hin.
      assert (Hnot : (ap_hash ap ∉ map ap_hash (ss_attack_paths st)) /\ (ap_hash ap ∉ seen)).
      { split; intros Hc; apply Hin; apply elem_of_union;
          [left; apply elem_of_list_to_set; exact Hc | right; exact Hc]. }
      destruct Hnot as [Hn1 Hn2].
      split; cbn [ss_attack_paths ss_unique_hashes ss_collisions ss_sampled_aps].
      * rewrite map_app. apply NoDup_app. split; [exact I1|]. split.
        -- intros h Hh Hh'. apply list_elem_of_singleton in Hh'. subst h.
           exact (Hn1 Hh).
        -- apply NoDup_singleton.
      * apply Forall_app. split; [exact I2|]. apply Forall_cons.
        split; [exact Hn2|constructor].
      * rewrite I3, map_app, list_to_set_app_L. cbn [map list_to_set].
        rewrite (right_id_L ∅ (∪)).
        rewrite (comm_L (∪) (list_to_set (map ap_hash (ss_attack_paths st))) {[ap_hash ap]}).
        rewrite (assoc_L (∪)). reflexivity.
      * rewrite length_app. cbn. lia.
      * lia.
Qed.

(** X26. The attack paths that [sample_attack_paths] returns are new:
    their hashes are pairwise distinct and none was in [unique_hashes]
    before the call; [unique_hashes] gains exactly these hashes,
    [generated] gains the number of returned paths, which is at most
    [sample_size], and [collision] gains a rate between 0 and 1. *)
Theorem sampled_paths_are_new (g g' : PathGenerator)
    (preferred : option (gset string)) (r r' : Rng) (aps : list AttackPath) :
  sample_attack_paths strategy g preferred r = Ok ((aps, g'), r') ->
  NoDup (map ap_hash aps)
  /\ Forall (fun ap => ap_hash ap ∉ unique_hashes g) aps
  /\ unique_hashes g' = list_to_set (map ap_hash aps) ∪ unique_hashes g
  /\ generated g' = generated g ++ [length aps]
  /\ length aps <= Z.to_nat (sample_size g)
  /\ exists rate, collision g' = collision g ++ [rate] /\ fraction rate.
Proof.
  unfold sample_attack_paths, bind, ret. intros H.
  match type of H with
  | context [sample_loop ?s ?m ?n ?p ?t ?st0 r] =>
      destruct (sample_loop s m n p t st0 r) as [[st r1]|e] eqn:Hloop;
      [|discriminate H]
  end.
  injection H as <- <- <-.
  apply (sample_loop_collects _ _ _ (unique_hashes g) (Z.to_nat (sample_size g)))
    in Hloop.
  2:{ split; cbn; [constructor|constructor| |reflexivity|lia].
      rewrite (left_id_L ∅ (∪)). reflexivity. }
  destruct Hloop as [I1 I2 I3 I4 I5].
  cbn [unique_hashes generated collision].
  split; [exact I1|]. split; [exact I2|]. split; [exact I3|].
  split; [f_equal; f_equal; lia|]. split; [lia|].
  eexists. split; [reflexivity|].
  destruct (0 <? ss_sampled_aps st) eqn:Hpos.
  - apply Nat.ltb_lt in Hpos. apply divide_fraction.
    + change 0%Q with (inject_Z 0). rewrite <- Zle_Qle. lia.
    + rewrite <- Zle_Qle. lia.
    + change 0%Q with (inject_Z 0). rewrite <- Zlt_Qlt. lia.
  - unfold fraction. lra.
Qed.

End Sampled.

Lemma sampled_eq :
  sample_attack_paths uniform (base (snd bootstrapped)) None tape
  = Ok ((fst (fst fresh_round), snd (fst fresh_round)), snd fresh_round).
Proof. unfold fresh_round. apply DedupFacts.succeeds_get3. vm_compute. reflexivity. Qed.

(** The step after the bootstrap: three new paths. *)
Lemma sampled_paths_are_new_witness :
  NoDup (map ap_hash (fst (fst fresh_round)))
  /\ Forall (fun ap => ap_hash ap ∉ unique_hashes (base (snd bootstrapped)))
            (fst (fst fresh_round))
  /\ unique_hashes (snd (fst fresh_round))
     = list_to_set (map ap_hash (fst (fst fresh_round)))
       ∪ unique_hashes (base (snd bootstrapped))
  /\ generated (snd (fst fresh_round))
     = generated (base (snd bootstrapped)) ++ [length (fst (fst fresh_round))]
  /\ length (fst (fst fresh_round)) <= Z.to_nat (sample_size (base (snd bootstrapped)))
  /\ exists rate,
       collision (snd (fst fresh_round)) = collision (base (snd bootstrapped)) ++ [rate]
       /\ fraction rate.
Proof.
  apply (sampled_paths_are_new uniform (base (snd bootstrapped)) (snd (fst fresh_round))
           None tape (snd fresh_round) (fst (fst fresh_round))).
  apply sampled_eq.
Defined.

End GeneratorFacts.

(** ** The histories of the generators *)
Module HistoryFacts.
Import Vulnerabilities Model Sampling Builtins AttackPaths Generation Steering Scenarios
       ModelInvariants StabilityFacts GeneratorFacts.

(** The histories of a [PathGenerator] have one entry per iteration.
    [stability], the list of the class, has an entry for every iteration
    of the generator but its first, next to those of the other generators
    of the process. *)
Record aligned_base (b : PathGenerator) : Prop := {
  al_generated : length (generated b) = iteration b;
  al_collision : length (collision b) = iteration b;
  al_stability : iteration b - 1 <= length (stability b)
}.

(** [stability] holds the entries of this generator only. *)
Definition own_only (b : PathGenerator) : Prop :=
  length (stability b) = iteration b - 1.

(** The histories of a [SteeringPathGenerator]. *)
Record aligned (g : SteeringPathGenerator) : Prop := {
  al_base : aligned_base (base g);
  al_precision : length (precision g) = iteration (base g);
  al_steering : length (steering g) = iteration (base g);
  al_query_generated : length (query_generated g) = iteration (base g);
  al_query_hashes : query_hashes g ⊆ unique_hashes (base g);
  al_query_le : Forall2 le (query_generated g) (generated (base g))
}.

Lemma py_getitem_lookup {A} (l : list A) (i : nat) :
  i < length l -> exists x, l !! i = Some x /\ py_getitem l (Z.of_nat i) = Ok x.
Proof.
  intros H. destruct (lookup_lt_is_Some_2 l i H) as [x Hx]. exists x.
  split; [exact Hx|]. unfold py_getitem, py_index.
  assert (E1 : (0 <=? Z.of_nat i)%Z = true) by (apply Z.leb_le; lia).
  assert (E2 : (Z.of_nat i <? Z.of_nat (length l))%Z = true) by (apply Z.ltb_lt; lia).
  rewrite E1, E2. cbn [andb mbind res_mbind res_bind]. rewrite Nat2Z.id, Hx. reflexivity.
Qed.

Lemma stability_entry_first g k : stability_entry g 0 k = Ok None.
Proof. reflexivity. Qed.

Lemma stability_entry_later g (j : nat) k t :
  stability g !! j = Some t ->
  stability_entry g (Z.of_nat (S j)) k = Ok (Some (k t)).
Proof.
  intros H. unfold stability_entry.
  assert (E : (Z.of_nat (S j) =? 0)%Z = false) by (apply Z.eqb_neq; lia).
  rewrite E. replace (Z.of_nat (S j) - 1)%Z with (Z.of_nat j) by lia.
  destruct (py_getitem_lookup (stability g) j) as (x & Hx & ->).
  { apply lookup_lt_is_Some_1. eauto. }
  cbn [mbind res_mbind res_bind]. congruence.
Qed.

(** The summary of an iteration that has been run. *)
Lemma base_summary_defined b times (i : nat) :
  aligned_base b -> length times = iteration b -> i < iteration b ->
  exists s,
    Generation.iteration_summary b times (Some (Z.of_nat i)) = Ok s
    /\ sum_iteration s = Z.of_nat i
    /\ generated b !! i = Some (sum_generated s)
    /\ collision b !! i = Some (sum_collision s)
    /\ times !! i = Some (sum_time s)
    /\ match i with
       | 0 => sum_st_likelihood s = None /\ sum_st_impact s = None
              /\ sum_st_risk s = None /\ sum_st_score s = None
              /\ sum_st_length s = None
       | S j => exists lik imp sco ris len,
           stability b !! j = Some (lik, imp, sco, ris, len)
           /\ sum_st_likelihood s = Some lik /\ sum_st_impact s = Some imp
           /\ sum_st_risk s = Some sco /\ sum_st_score s = Some ris
           /\ sum_st_length s = Some len
       end.
Proof.
  intros [A1 A2 A3] Ht Hi. unfold Generation.iteration_summary.
  destruct (py_getitem_lookup (generated b) i) as (gen & Hgen & ->); [lia|].
  destruct (py_getitem_lookup (collision b) i) as (col & Hcol & ->); [lia|].
  destruct (py_getitem_lookup times i) as (time & Htime & ->); [lia|].
  cbn [mbind res_mbind res_bind].
  destruct i as [|j].
  - change (Z.of_nat 0) with 0%Z. rewrite !stability_entry_first.
    cbn [mbind res_mbind res_bind]. eexists. split; [reflexivity|].
    cbn. repeat split; assumption.
  - destruct (lookup_lt_is_Some_2 (stability b) j) as [[[[[lik imp] sco] ris] len] Hst];
      [lia|].
    rewrite !(stability_entry_later b j _ _ Hst).
    cbn [mbind res_mbind res_bind]. eexists. split; [reflexivity|].
    cbn [sum_iteration sum_generated sum_collision sum_time sum_st_likelihood
         sum_st_impact sum_st_risk sum_st_score sum_st_length
         five_0 five_1 five_2 five_3 five_4].
    repeat split; try assumption.
    exists lik, imp, sco, ris, len. repeat split. exact Hst.
Qed.

Lemma aligned_base_init m s size stats found :
  aligned_base (PathGenerator_init m s size stats found).
Proof. split; cbn; lia. Qed.

Record kept (b b' : PathGenerator) : Prop := {
  kp_iteration : iteration b' = iteration b;
  kp_generated : generated b' = generated b;
  kp_collision : collision b' = collision b;
  kp_hashes : unique_hashes b' = unique_hashes b
}.

Lemma update_stability_history b paths b' :
  update_stability b paths = Ok b' ->
  kept b b'
  /\ length (stability b') = length (stability b) + (if 0 <? iteration b then 1 else 0).
Proof.
  unfold update_stability. intros H.
  destruct (count_paths _ paths) as [c|e]; [|discriminate H].
  cbn [mbind res_mbind res_bind] in H. cbv zeta in H. injection H as <-.
  split; [split; reflexivity|]. cbn [stability].
  destruct (0 <? iteration b); [rewrite length_app; cbn; lia|lia].
Qed.

Lemma update_statistics_history b paths b' :
  update_statistics b paths = Ok b' ->
  kept b b' /\ stability b' = stability b.
Proof.
  unfold update_statistics. intros H.
  destruct (match statistics b with Some st => _ | None => _ end) as [st|e];
    [|discriminate H].
  cbn [mbind res_mbind res_bind] in H. injection H as <-.
  split; [split|]; reflexivity.
Qed.


Lemma filter_hashes (f : AttackPath -> bool) (aps : list AttackPath) :
  length (List.filter f aps) <= length aps
  /\ (list_to_set (map ap_hash (List.filter f aps)) : gset string)
     ⊆ list_to_set (map ap_hash aps).
Proof.
  induction aps as [|ap aps [IH1 IH2]]; [split; [cbn; lia|reflexivity]|].
  cbn [List.filter]. destruct (f ap); cbn [length map list_to_set].
  - split; [lia|]. apply union_mono_l. exact IH2.
  - split; [lia|]. apply union_subseteq_r'. exact IH2.
Qed.

Section Sessions.

Variable strategy : PathSampler -> M (list Edge).
Variable classifier :
  list (SteeringBaseFeatures * bool) -> res (SteeringBaseFeatures -> bool).

Lemma sample_attack_paths_history b preferred r aps b' r' :
  sample_attack_paths strategy b preferred r = Ok ((aps, b'), r') ->
  iteration b' = iteration b
  /\ generated b' = generated b ++ [length aps]
  /\ length (collision b') = S (length (collision b))
  /\ stability b' = stability b
  /\ unique_hashes b' = list_to_set (map ap_hash aps) ∪ unique_hashes b.
Proof.
  unfold sample_attack_paths, bind, ret. intros H.
  match type of H with
  | context [sample_loop ?s ?m ?n ?p ?t ?st0 r] =>
      destruct (sample_loop s m n p t st0 r) as [[st r1]|e] eqn:Hloop;
      [|discriminate H]
  end.
  injection H as <- <- <-.
  apply (sample_loop_collects _ _ _ _ (unique_hashes b) (Z.to_nat (sample_size b)))
    in Hloop.
  2:{ split; cbn; [constructor|constructor| |reflexivity|lia].
      rewrite (left_id_L ∅ (∪)). reflexivity. }
  destruct Hloop as [I1 I2 I3 I4 I5].
  cbn [iteration generated collision stability unique_hashes].
  split; [reflexivity|]. split; [f_equal; f_equal; lia|].
  split; [rewrite length_app; cbn; lia|]. split; [reflexivity|exact I3].
Qed.

Lemma advance_iteration_history g aps q n g' :
  _advance_iteration g aps = Ok ((q, n), g') ->
  kept (base g) (base g')
  /\ length (stability (base g'))
     = length (stability (base g)) + (if 0 <? iteration (base g) then 1 else 0)
  /\ length (precision g') = S (length (precision g))
  /\ steering g' = steering g
  /\ query_generated g' = query_generated g ++ [length q]
  /\ query_hashes g' = list_to_set (map ap_hash q) ∪ query_hashes g
  /\ q = List.filter (check_bounds (query g)) aps.
Proof.
  unfold _advance_iteration, update_paths, split_paths. intros H.
  cbn [base query disable_steering min_dataset_size max_dataset_size query_aps
       nonquery_aps query_hashes query_generated precision steering
       steering_compliant_vulns] in H.
  destruct (update_stability (base g) _) as [b1|e] eqn:E1;
    cbn [mbind res_mbind res_bind] in H; [|discriminate H].
  destruct (update_statistics b1 _) as [b2|e] eqn:E2;
    cbn [mbind res_mbind res_bind] in H; [|discriminate H].
  injection H as <- <- <-.
  apply update_stability_history in E1. destruct E1 as [[K1 K2 K3 K4] L1].
  apply update_statistics_history in E2. destruct E2 as [[J1 J2 J3 J4] L2].
  cbn [base precision steering query_generated query_hashes].
  split; [split; congruence|]. split; [rewrite L2; exact L1|].
  split; [rewrite length_app; cbn; lia|]. repeat split.
Qed.

Lemma update_steering_compliant_vulns_history g g' :
  update_steering_compliant_vulns classifier g = Ok g' ->
  base g' = base g /\ precision g' = precision g /\ steering g' = steering g
  /\ query_generated g' = query_generated g /\ query_hashes g' = query_hashes g
  /\ query g' = query g.
Proof.
  unfold update_steering_compliant_vulns. intros H.
  destruct (labelled true (query_aps g)) as [qf|e];
    cbn [mbind res_mbind res_bind] in H; [|discriminate H].
  destruct (labelled false (nonquery_aps g)) as [nf|e];
    cbn [mbind res_mbind res_bind] in H; [|discriminate H].
  destruct (classifier (qf ++ nf)) as [predict|e];
    cbn [mbind res_mbind res_bind] in H; [|discriminate H].
  injection H as <-. repeat split.
Qed.

(** One round: the base generator gains an entry of [generated] and of
    [collision], then [_advance_iteration] and [finish_iteration] run. *)
Lemma round_aligned g0 (b : PathGenerator) aps q n g1 steered :
  aligned g0 ->
  iteration b = iteration (base g0) ->
  generated b = generated (base g0) ++ [length aps] ->
  length (collision b) = S (length (collision (base g0))) ->
  stability b = stability (base g0) ->
  unique_hashes b = list_to_set (map ap_hash aps) ∪ unique_hashes (base g0) ->
  _advance_iteration (with_base g0 b) aps = Ok ((q, n), g1) ->
  forall g2,
    iteration (base g2) = S (iteration (base g1)) ->
    generated (base g2) = generated (base g1) ->
    collision (base g2) = collision (base g1) ->
    stability (base g2) = stability (base g1) ->
    unique_hashes (base g2) = unique_hashes (base g1) ->
    precision g2 = precision g1 -> steering g2 = steering g1 ++ [steered] ->
    query_generated g2 = query_generated g1 -> query_hashes g2 = query_hashes g1 ->
    aligned g2 /\ (own_only (base g0) -> own_only (base g2)).
Proof.
  intros [[A1 A2 A3] A4 A5 A6 A7 A8] B1 B2 B3 B4 B5 H g2 C1 C2 C3 C4 C5 C6 C7 C8 C9.
  apply advance_iteration_history in H.
  cbn [base with_base precision steering query_generated query_hashes query] in H.
  destruct H as ([K1 K2 K3 K4] & L & P & S & QG & QH & Hq).
  destruct (filter_hashes (check_bounds (query g0)) aps) as [F1 F2].
  rewrite <- Hq in F1, F2.
  assert (Hst : length (stability (base g2))
                = length (stability (base g0))
                  + (if 0 <? iteration (base g0) then 1 else 0)).
  { rewrite C4, L, B4, B1. reflexivity. }
  assert (Hit : iteration (base g2) = Datatypes.S (iteration (base g0))).
  { rewrite C1, K1, B1. reflexivity. }
  split.
  2:{ unfold own_only. intros Hown. rewrite Hst, Hit, Hown.
      destruct (iteration (base g0)); cbn; lia. }
  split; [split|..].
  - rewrite C2, K2, B2, length_app. cbn. lia.
  - rewrite C3, K3, B3. lia.
  - rewrite Hst, Hit. destruct (iteration (base g0)); cbn in *; lia.
  - rewrite C6, P, C1, K1, B1. lia.
  - rewrite C7, S, length_app, C1, K1, B1. cbn. lia.
  - rewrite C8, QG, length_app, C1, K1, B1. cbn. lia.
  - rewrite C9, QH, C5, K4, B5. apply union_mono; assumption.
  - rewrite C8, QG, C2, K2, B2. apply Forall2_app; [exact A8|].
    apply Forall2_cons. split; [exact F1|constructor].
Qed.

Lemma steering_step_aligned g r out g' r' :
  Steering.step strategy classifier g r = Ok ((out, g'), r') ->
  aligned g -> aligned g' /\ (own_only (base g) -> own_only (base g')).
Proof.
  unfold Steering.step, bind, lift, ret. intros H Hinv.
  assert (Hround : forall g0 preferred r0 pb r1 rg steered,
            aligned g0 ->
            sample_attack_paths strategy (base g0) preferred r0 = Ok (pb, r1) ->
            _advance_iteration (with_base g0 (snd pb)) (fst pb) = Ok rg ->
            aligned (finish_iteration (snd rg) steered)
            /\ (own_only (base g0) -> own_only (base (finish_iteration (snd rg) steered)))).
  { intros g0 preferred r0 [aps b] r1 [[q n] g1] steered Hal Hs Ha.
    cbn [fst snd] in *.
    apply sample_attack_paths_history in Hs. destruct Hs as (S1 & S2 & S3 & S4 & S5).
    eapply (round_aligned g0 b aps q n g1 steered Hal S1 S2 S3 S4 S5 Ha);
      reflexivity. }
  destruct (_can_steer g).
  - destruct (retrains g) as [again|e]; [|discriminate H].
    destruct (if again then update_steering_compliant_vulns classifier g else Ok g)
      as [g0|e] eqn:Hg0; [|discriminate H].
    assert (Hal : aligned g0 /\ base g0 = base g).
    { destruct again; [|injection Hg0 as <-; split; [exact Hinv|reflexivity]].
      apply update_steering_compliant_vulns_history in Hg0.
      destruct Hg0 as (E1 & E2 & E3 & E4 & E5 & E6).
      destruct Hinv as [A1 A2 A3 A4 A5 A6].
      split; [|exact E1].
      split; rewrite ?E1, ?E2, ?E3, ?E4, ?E5; assumption. }
    destruct Hal as [Hal Hbase].
    destruct (sample_attack_paths strategy (base g0)
                (Some (steering_compliant_vulns g0)) r) as [[pb r1]|e] eqn:Hs;
      [|discriminate H].
    destruct (_advance_iteration (with_base g0 (snd pb)) (fst pb)) as [rg|e] eqn:Ha;
      [|discriminate H].
    injection H as <- <- <-. rewrite <- Hbase.
    exact (Hround g0 _ r pb r1 rg true Hal Hs Ha).
  - destruct (sample_attack_paths strategy (base g) None r) as [[pb r1]|e] eqn:Hs;
      [|discriminate H].
    destruct (_advance_iteration (with_base g (snd pb)) (fst pb)) as [rg|e] eqn:Ha;
      [|discriminate H].
    injection H as <- <- <-. exact (Hround g _ r pb r1 rg false Hinv Hs Ha).
Qed.

Lemma add_bootstrap_aligned g paths out g' :
  add_bootstrap g paths = Ok (out, g') -> aligned g ->
  aligned g' /\ (own_only (base g) -> own_only (base g')).
Proof.
  unfold add_bootstrap. intros H Hinv.
  destruct (from_traces (gen_model (base g)) paths) as [aps|e];
    cbn [mbind res_mbind res_bind] in H; [|discriminate H].
  destruct (_advance_iteration (with_base g (pretend_sampled (base g) aps)) aps)
    as [[[q n] g1]|e] eqn:Ha; cbn [mbind res_mbind res_bind] in H;
    [|discriminate H].
  destruct (if use_dynamic_weights (path_sampler (base g1)) then _ else _)
    as [s|e]; cbn [mbind res_mbind res_bind] in H; [|discriminate H].
  injection H as <- <-.
  eapply (round_aligned g (pretend_sampled (base g) aps) aps q n g1 false Hinv);
    try reflexivity; try exact Ha.
  cbn. rewrite !length_app. cbn. lia.
Qed.

(** Entries that other generators append do not disturb the histories. *)
Lemma others_append_aligned g entries :
  aligned g -> aligned (with_base g (others_append entries (base g))).
Proof.
  intros [[A1 A2 A3] A4 A5 A6 A7 A8].
  split; [split|..];
    cbn [base with_base others_append generated collision stability iteration
         precision steering query_generated query_hashes unique_hashes];
    try assumption.
  rewrite length_app. lia.
Qed.

(** The life of a steering generator: [step] and [add_bootstrap] calls
    that return, in any order and with any traces. When the process has
    other generators ([shared]), they append to [stability] between the
    calls. *)
Inductive session (shared : bool)
  : SteeringPathGenerator -> Rng -> SteeringPathGenerator -> Rng -> Prop :=
| session_done g r : session shared g r g r
| session_step g r out g1 r1 g2 r2 :
    Steering.step strategy classifier g r = Ok ((out, g1), r1) ->
    session shared g1 r1 g2 r2 -> session shared g r g2 r2
| session_bootstrap g r paths out g1 g2 r2 :
    add_bootstrap g paths = Ok (out, g1) ->
    session shared g1 r g2 r2 -> session shared g r g2 r2
| session_others g r entries g2 r2 :
    shared = true ->
    session shared (with_base g (others_append entries (base g))) r g2 r2 ->
    session shared g r g2 r2.

(** X27. The histories of a steering generator stay aligned through
    the [step] and [add_bootstrap] calls that return: [generated],
    [collision], [precision], [steering] and [query_generated] have one
    entry per iteration, no entry of [query_generated] exceeds the entry of
    [generated] of its iteration, and [query_hashes] is a subset of
    [unique_hashes]. [stability] is a list of the class, shared by the
    generators of the process: it has at least one entry less than
    iterations, and exactly that many for a generator that found the list
    empty and is the only one to append. So [iteration_summary(i)] raises
    no [IndexError] for an iteration that has been run; it reads the entry
    [i - 1] of the shared list, and it reports the third value of that
    tuple, the one of the scores, under [st_risk] and the fourth, the one
    of the risks, under [st_score]. *)
Theorem histories_have_one_entry_per_iteration :
  (forall m s q low high size stats off found,
     aligned (SteeringPathGenerator_init m s q low high size stats off found)
     /\ stability (base (SteeringPathGenerator_init m s q low high size stats off
                           found)) = found
     /\ (found = [] ->
         own_only (base (SteeringPathGenerator_init m s q low high size stats off
                           found))))
  /\ (forall shared g r g' r',
        aligned g -> session shared g r g' r' -> aligned g')
  /\ (forall g r g' r',
        aligned g -> own_only (base g) -> session false g r g' r' ->
        own_only (base g'))
  /\ (forall g times (i : nat),
        aligned g -> length times = iteration (base g) -> i < iteration (base g) ->
        exists s,
          Steering.iteration_summary g times (Some (Z.of_nat i)) = Ok s
          /\ generated (base g) !! i = Some (sum_generated (prev_summary s))
          /\ collision (base g) !! i = Some (sum_collision (prev_summary s))
          /\ steering g !! i = Some (sum_steering s)
          /\ precision g !! i = Some (sum_precision s)
          /\ match i with
             | 0 => sum_st_risk (prev_summary s) = None
                    /\ sum_st_score (prev_summary s) = None
             | S j => exists lik imp sco ris len,
                 stability (base g) !! j = Some (lik, imp, sco, ris, len)
                 /\ sum_st_risk (prev_summary s) = Some sco
                 /\ sum_st_score (prev_summary s) = Some ris
             end).
Proof.
  split; [|split; [|split]].
  - intros. split; [|split; [reflexivity|intros ->; reflexivity]].
    split; [apply aligned_base_init|..]; try reflexivity.
  - intros shared g r g' r' Hinv Hrun.
    induction Hrun as [|g r out g1 r1 g2 r2 Hs _ IH
                        |g r paths out g1 g2 r2 Hb _ IH
                        |g r entries g2 r2 _ _ IH].
    + exact Hinv.
    + apply IH. eapply steering_step_aligned; eauto.
    + apply IH. eapply add_bootstrap_aligned; eauto.
    + apply IH. apply others_append_aligned. exact Hinv.
  - intros g r g' r' Hinv Hown Hrun.
    remember false as shared eqn:Hshared.
    induction Hrun as [|g r out g1 r1 g2 r2 Hs _ IH
                        |g r paths out g1 g2 r2 Hb _ IH
                        |g r entries g2 r2 Hsh _ IH].
    + exact Hown.
    + destruct (steering_step_aligned _ _ _ _ _ Hs Hinv) as [Hal Ho].
      apply IH; auto.
    + destruct (add_bootstrap_aligned _ _ _ _ Hb Hinv) as [Hal Ho].
      apply IH; auto.
    + congruence.
  - intros g times i [A1 A2 A3 A4 A5 A6] Ht Hi.
    destruct (base_summary_defined (base g) times i A1 Ht Hi)
      as (s & Hs & S1 & S2 & S3 & S4 & S5).
    unfold Steering.iteration_summary. rewrite Hs.
    destruct (py_getitem_lookup (steering g) i) as (stg & Hstg & ->); [lia|].
    destruct (py_getitem_lookup (precision g) i) as (prec & Hprec & ->); [lia|].
    cbn [mbind res_mbind res_bind]. eexists. split; [reflexivity|].
    cbn [prev_summary sum_steering sum_precision]. repeat split; try assumption.
    destruct i as [|j].
    + tauto.
    + destruct S5 as (lik & imp & sco & ris & len & E0 & E1 & E2 & E3 & E4 & E5).
      exists lik, imp, sco, ris, len. repeat split; assumption.
Qed.

End Sessions.

(** A generator that did not find [stability] empty: after its two
    iterations the list has two entries, and the summary of its second
    iteration reports the entry of the other generator, not the one it
    appended itself. *)
Lemma later_generator_reads_anothers_entry :
  iteration (base (snd (fst late_stepped))) = 2
  /\ length (stability (base (snd (fst late_stepped)))) = 2
  /\ stability (base (snd (fst late_stepped))) !! 0 = Some anothers_entry
  /\ (s ← Steering.iteration_summary (snd (fst late_stepped)) [0; 0]%Q (Some 1%Z);
      Ok (sum_st_likelihood (prev_summary s), sum_st_length (prev_summary s)))
     = Ok (Some (1 # 2)%Q, Some (1 # 2)%Q)
  /\ stability (base (snd (fst late_stepped))) !! 1 <> Some anothers_entry.
Proof.
  split; [vm_compute; reflexivity|]. split; [vm_compute; reflexivity|].
  split; [vm_compute; reflexivity|]. split; [vm_compute; reflexivity|].
  vm_compute. discriminate.
Qed.

End HistoryFacts.

(** ** The training buffers *)
Module DatasetFacts.
Import Vulnerabilities Model Sampling Builtins AttackPaths Generation Steering Scenarios
       StabilityFacts.

(** What the cut [buffer[-MAX:]] of [update_paths] leaves of a training
    buffer: always its end; at most [MAX] paths for a positive [MAX], all
    of them for [MAX = 0], and all but the first [-MAX] for a negative
    [MAX]. *)
Definition trimmed (MAX : Z) (buffer kept : list AttackPath) : Prop :=
  exists dropped,
    buffer = dropped ++ kept
    /\ ((0 < MAX)%Z -> length kept = min (length buffer) (Z.to_nat MAX))
    /\ (MAX = 0%Z -> kept = buffer)
    /\ ((MAX < 0)%Z -> length dropped = min (Z.to_nat (- MAX)) (length buffer)).

Lemma trim_trimmed MAX buffer : trimmed MAX buffer (trim MAX buffer).
Proof.
  unfold trim, trimmed, last_n.
  destruct (MAX <? Z.of_nat (length buffer))%Z eqn:E1.
  - apply Z.ltb_lt in E1. destruct (0 <? MAX)%Z eqn:E2.
    + apply Z.ltb_lt in E2.
      exists (firstn (length buffer - Z.to_nat MAX) buffer).
      split; [symmetry; apply firstn_skipn|].
      split; [intros _; rewrite length_skipn; lia|]. split; intros; lia.
    + apply Z.ltb_ge in E2. destruct (MAX =? 0)%Z eqn:E3.
      * apply Z.eqb_eq in E3. exists []. split; [reflexivity|].
        split; [lia|]. split; [reflexivity|lia].
      * apply Z.eqb_neq in E3. exists (firstn (Z.to_nat (- MAX)) buffer).
        split; [symmetry; apply firstn_skipn|]. split; [lia|]. split; [lia|].
        intros _. rewrite length_firstn. reflexivity.
  - apply Z.ltb_ge in E1. exists []. split; [reflexivity|].
    split; [lia|]. split; [reflexivity|lia].
Qed.

Lemma filter_partition {A} (f : A -> bool) (l : list A) :
  List.filter f l ++ List.filter (fun x => negb (f x)) l ≡ₚ l
  /\ Forall (fun x => f x = true) (List.filter f l)
  /\ Forall (fun x => f x = false) (List.filter (fun x => negb (f x)) l).
Proof.
  induction l as [|x l (IH1 & IH2 & IH3)]; [repeat split; constructor|].
  cbn [List.filter]. destruct (f x) eqn:E; cbn [negb app].
  - split; [constructor; exact IH1|]. split; [|exact IH3].
    apply Forall_cons. split; assumption.
  - split; [|split; [exact IH2|apply Forall_cons; split; assumption]].
    rewrite <- Permutation_middle. constructor. exact IH1.
Qed.

(** X28. [update_paths] sends every new path to exactly one of the
    two lists it returns, the paths within the bounds of the query and the
    others; the precision it appends is the share of the former, between 0
    and 1, and it is 0 when there is no new path; and each training buffer
    keeps the end of what it held plus the new paths: at most [MAX] paths
    for a positive [max_dataset_size], every path when it is 0. *)
Theorem update_paths_splits_and_trims (g g' : SteeringPathGenerator)
    (new_paths q n : list AttackPath) :
  update_paths g new_paths = ((q, n), g') ->
  q ++ n ≡ₚ new_paths
  /\ Forall (fun ap => check_bounds (query g) ap = true) q
  /\ Forall (fun ap => check_bounds (query g) ap = false) n
  /\ (exists p, precision g' = precision g ++ [p] /\ fraction p
        /\ (p * inject_Z (Z.of_nat (length new_paths))
            == inject_Z (Z.of_nat (length q)))%Q
        /\ (new_paths = [] -> p = 0%Q))
  /\ trimmed (max_dataset_size g) (query_aps g ++ q) (query_aps g')
  /\ trimmed (max_dataset_size g) (nonquery_aps g ++ n) (nonquery_aps g').
Proof.
  unfold update_paths, split_paths. intros H. injection H as <- <- <-.
  destruct (filter_partition (check_bounds (query g)) new_paths) as (P & F1 & F2).
  split; [exact P|]. split; [exact F1|]. split; [exact F2|].
  cbn [precision query_aps nonquery_aps].
  split; [|split; apply trim_trimmed].
  eexists. split; [reflexivity|].
  assert (L : length (List.filter (check_bounds (query g)) new_paths)
              + length (List.filter (fun p => negb (check_bounds (query g) p)) new_paths)
              = length new_paths).
  { rewrite <- length_app. apply Permutation_length. exact P. }
  rewrite L.
  set (k := length (List.filter (check_bounds (query g)) new_paths)) in *.
  destruct (length new_paths =? 0) eqn:E.
  - apply Nat.eqb_eq in E. split; [unfold fraction; lra|].
    assert (k = 0) by lia. rewrite E, H. split; reflexivity.
  - apply Nat.eqb_neq in E.
    assert (T : (0 < inject_Z (Z.of_nat (length new_paths)))%Q).
    { change 0%Q with (inject_Z 0). rewrite <- Zlt_Qlt. lia. }
    split; [|split].
    + apply divide_fraction; [| |exact T].
      * change 0%Q with (inject_Z 0). rewrite <- Zle_Qle. lia.
      * rewrite <- Zle_Qle. lia.
    + rewrite Qred_correct. field. lra.
    + intros Hnil. rewrite Hnil in E. contradiction E. reflexivity.
Qed.

Lemma split_once_eq :
  update_paths stalled_generator [one_step_path; line_path]
  = ((fst (fst split_once), snd (fst split_once)), snd split_once).
Proof.
  unfold split_once. destruct (update_paths _ _) as [[q n] g']. reflexivity.
Qed.

Lemma update_paths_splits_and_trims_witness :
  fst (fst split_once) ++ snd (fst split_once) ≡ₚ [one_step_path; line_path]
  /\ Forall (fun ap => check_bounds (query stalled_generator) ap = true)
            (fst (fst split_once))
  /\ Forall (fun ap => check_bounds (query stalled_generator) ap = false)
            (snd (fst split_once))
  /\ (exists p, precision (snd split_once) = precision stalled_generator ++ [p]
        /\ fraction p
        /\ (p * inject_Z (Z.of_nat (length [one_step_path; line_path]))
            == inject_Z (Z.of_nat (length (fst (fst split_once)))))%Q
        /\ ([one_step_path; line_path] = [] -> p = 0%Q))
  /\ trimmed (max_dataset_size stalled_generator)
             (query_aps stalled_generator ++ fst (fst split_once))
             (query_aps (snd split_once))
  /\ trimmed (max_dataset_size stalled_generator)
             (nonquery_aps stalled_generator ++ snd (fst split_once))
             (nonquery_aps (snd split_once)).
Proof.
  apply (update_paths_splits_and_trims stalled_generator (snd split_once)
           [one_step_path; line_path] (fst (fst split_once)) (snd (fst split_once))).
  apply split_once_eq.
Defined.

End DatasetFacts.

(** ** The exhaustive enumeration *)
Module GroundTruthFacts.
Import Vulnerabilities Model Sampling Builtins Statistics AttackPaths Generation
       GroundTruth ModelFacts BuilderFacts ModelInvariants TraceFacts.

(** *** The simple paths *)

Section SimplePaths.

Variable successors : gmap Z (list Z).
Variable has_path : gmap (Z * Z) bool.
Variable target : Z.

(** [v] is listed among the successors of [u]. *)
Definition links (u v : Z) : Prop :=
  exists next_nodes, successors !! u = Some next_nodes /\ v ∈ next_nodes.

(** Each node of the list is a successor of the one before it. *)
Fixpoint is_walk (nodes : list Z) : Prop :=
  match nodes with
  | u :: (v :: _) as rest => links u v /\ is_walk rest
  | _ => True
  end.

(** What [_all_simple_paths] prepares: both dictionaries know every node,
    and [has_path] says no only where no walk leads to the target. *)
Record prepared : Prop := {
  pr_closed : map_Forall (fun _ next_nodes =>
                Forall (fun v => is_Some (successors !! v)) next_nodes) successors;
  pr_total : map_Forall (fun n _ => is_Some (has_path !! (n, target))) successors;
  pr_sound : forall n rest,
    n <> target -> has_path !! (n, target) = Some false ->
    is_walk (n :: rest) -> last (n :: rest) <> Some target
}.

(** The paths the function is to yield from [current_path], which ends in
    [cur]: the simple paths that extend it by 1 to [cutoff] nodes along the
    successors and end in the target. *)
Definition simple_path_to (cutoff : nat) (current_path : list Z) (cur : Z)
    (p : list Z) : Prop :=
  exists ext,
    p = current_path ++ ext
    /\ 1 <= length ext <= cutoff
    /\ is_walk (cur :: ext)
    /\ last ext = Some target
    /\ NoDup p.

Lemma extend_path_spec deeper current_path (spec : Z -> list Z -> Prop) :
  forall next_nodes,
    (forall n, n ∈ next_nodes -> n <> target -> n ∉ current_path ->
       has_path !! (n, target) = Some true ->
       exists found, deeper (current_path ++ [n]) = Ok found
                     /\ forall p, p ∈ found <-> spec n p) ->
    (forall n, n ∈ next_nodes -> is_Some (has_path !! (n, target))) ->
    exists paths,
      extend_path deeper current_path target has_path next_nodes = Ok paths
      /\ forall p, p ∈ paths <->
           exists n, n ∈ next_nodes
             /\ ((n = target /\ p = current_path ++ [n])
                 \/ (n <> target /\ (n ∉ current_path)
                     /\ has_path !! (n, target) = Some true /\ spec n p)).
Proof.
  induction next_nodes as [|n rest IH]; intros Hdeep Htot.
  - exists []. split; [reflexivity|]. intros p. split.
    + intros H. apply elem_of_nil in H. contradiction.
    + intros (n & Hn & _). apply elem_of_nil in Hn. contradiction.
  - destruct IH as (more & Hmore & Hspec).
    { intros k Hk. apply Hdeep. apply elem_of_cons. right. exact Hk. }
    { intros k Hk. apply Htot. apply elem_of_cons. right. exact Hk. }
    cbn [extend_path].
    destruct (n =? target)%Z eqn:En.
    { apply Z.eqb_eq in En. rewrite Hmore. cbn [mbind res_mbind res_bind].
      eexists. split; [reflexivity|]. intros p. rewrite elem_of_cons, Hspec.
      split.
      - intros [-> | (k & Hk & Hcase)].
        + exists n. split; [apply elem_of_cons; left; reflexivity|].
          left. split; [exact En|reflexivity].
        + exists k. split; [apply elem_of_cons; right; exact Hk|exact Hcase].
      - intros (k & Hk & Hcase). apply elem_of_cons in Hk.
        destruct Hk as [-> | Hk]; [|right; exists k; split; assumption].
        destruct Hcase as [[_ ->] | [Hne _]]; [left; reflexivity|contradiction]. }
    apply Z.eqb_neq in En.
    destruct (bool_decide (n ∈ current_path)) eqn:Ein.
    { apply bool_decide_eq_true in Ein. exists more. split; [exact Hmore|].
      intros p. rewrite Hspec. split.
      - intros (k & Hk & Hcase). exists k.
        split; [apply elem_of_cons; right; exact Hk|exact Hcase].
      - intros (k & Hk & Hcase). apply elem_of_cons in Hk.
        destruct Hk as [-> | Hk]; [|exists k; split; assumption].
        destruct Hcase as [[Heq _] | (_ & Hnot & _)]; contradiction. }
    apply bool_decide_eq_false in Ein.
    destruct (Htot n) as [b Hb]; [apply elem_of_cons; left; reflexivity|].
    rewrite Hb. destruct b.
    + destruct (Hdeep n) as (found & Hfound & Hfspec); try assumption.
      { apply elem_of_cons. left. reflexivity. }
      rewrite Hfound, Hmore. cbn [mbind res_mbind res_bind].
      eexists. split; [reflexivity|]. intros p. rewrite elem_of_app, Hspec, Hfspec.
      split.
      * intros [Hp | (k & Hk & Hcase)].
        -- exists n. split; [apply elem_of_cons; left; reflexivity|].
           right. repeat split; assumption.
        -- exists k. split; [apply elem_of_cons; right; exact Hk|exact Hcase].
      * intros (k & Hk & Hcase). apply elem_of_cons in Hk.
        destruct Hk as [-> | Hk]; [|right; exists k; split; assumption].
        destruct Hcase as [[Heq _] | (_ & _ & _ & Hp)]; [contradiction|].
        left. exact Hp.
    + exists more. split; [exact Hmore|].
      intros p. rewrite Hspec. split.
      * intros (k & Hk & Hcase). exists k.
        split; [apply elem_of_cons; right; exact Hk|exact Hcase].
      * intros (k & Hk & Hcase). apply elem_of_cons in Hk.
        destruct Hk as [-> | Hk]; [|exists k; split; assumption].
        destruct Hcase as [[Heq _] | (_ & _ & Htrue & _)]; [contradiction|].
        congruence.
Qed.

Lemma simple_paths_spec (P : prepared) :
  forall cutoff current_path cur,
    last current_path = Some cur ->
    is_Some (successors !! cur) ->
    NoDup current_path -> target ∉ current_path ->
    exists paths,
      _all_simple_paths_source_to_target cutoff current_path target has_path
        successors = Ok paths
      /\ forall p, p ∈ paths <-> simple_path_to cutoff current_path cur p.
Proof.
  destruct P as [Pc Pt Ps].
  induction cutoff as [|cutoff IH]; intros current_path cur Hlast [nn Hnn] Hnd Ht.
  - exists []. split; [reflexivity|]. intros p. split.
    + intros H. apply elem_of_nil in H. contradiction.
    + intros (ext & _ & Hlen & _). lia.
  - cbn [_all_simple_paths_source_to_target]. rewrite Hlast, Hnn.
    pose proof (Pc cur nn Hnn) as Hclosed. rewrite Forall_forall in Hclosed.
    destruct (extend_path_spec
                (fun path => _all_simple_paths_source_to_target cutoff path target
                               has_path successors)
                current_path
                (fun n p => simple_path_to cutoff (current_path ++ [n]) n p) nn)
      as (paths & Hpaths & Hspec).
    { intros n Hn Hne Hnot _. apply IH.
      - apply last_snoc.
      - apply Hclosed. exact Hn.
      - apply NoDup_app. split; [exact Hnd|]. split; [|apply NoDup_singleton].
        intros x Hx Hx'. apply list_elem_of_singleton in Hx'. subst x. contradiction.
      - intros Hc. apply elem_of_app in Hc. destruct Hc as [Hc|Hc];
          [contradiction|]. apply list_elem_of_singleton in Hc. congruence. }
    { intros n Hn. destruct (Hclosed n Hn) as [l Hl]. exact (Pt n l Hl). }
    exists paths. split; [exact Hpaths|]. intros p. rewrite Hspec. split.
    + intros (n & Hn & [[-> ->] | (Hne & Hnot & Htrue & ext & -> & Hlen & Hw & Hl & Hd)]).
      * exists [target]. split; [reflexivity|]. split; [cbn; lia|].
        split; [cbn; split; [exists nn; split; assumption|exact I]|].
        split; [reflexivity|].
        apply NoDup_app. split; [exact Hnd|]. split; [|apply NoDup_singleton].
        intros x Hx Hx'. apply list_elem_of_singleton in Hx'. subst x. contradiction.
      * exists (n :: ext). rewrite <- app_assoc. split; [reflexivity|].
        split; [cbn; lia|]. split; [cbn; split; [exists nn; split; assumption|exact Hw]|].
        split; [|rewrite <- app_assoc in Hd; exact Hd].
        destruct ext as [|e ext]; [cbn in Hlen; lia|exact Hl].
    + intros (ext & -> & Hlen & Hw & Hl & Hd).
      destruct ext as [|n ext]; [cbn in Hlen; lia|].
      destruct Hw as [(nn' & Hnn' & Hn) Hw]. rewrite Hnn in Hnn'.
      injection Hnn' as <-. exists n. split; [exact Hn|].
      pose proof Hd as Hd0.
      apply NoDup_app in Hd. destruct Hd as (_ & Hdisj & Hdext).
      destruct (decide (n = target)) as [->|Hne].
      * left. split; [reflexivity|]. destruct ext as [|e ext]; [reflexivity|].
        exfalso. apply NoDup_cons in Hdext. destruct Hdext as [Hnotin _].
        apply Hnotin. change (last (e :: ext) = Some target) in Hl.
        apply last_Some in Hl. destruct Hl as [l' ->].
        apply elem_of_app. right. apply list_elem_of_singleton. reflexivity.
      * right. split; [exact Hne|].
        assert (Hnot : n ∉ current_path).
        { intros Hc. apply (Hdisj n Hc). apply elem_of_cons. left. reflexivity. }
        split; [exact Hnot|].
        assert (Hext : ext <> []).
        { intros ->. cbn in Hl. congruence. }
        assert (Hl' : last ext = Some target).
        { destruct ext as [|e ext]; [contradiction|exact Hl]. }
        split.
        { destruct (Hclosed n Hn) as [l Hl0]. destruct (Pt n l Hl0) as [b Hb].
          destruct b; [exact Hb|]. exfalso.
          apply (Ps n ext Hne Hb Hw).
          destruct ext as [|e ext]; [contradiction|exact Hl]. }
        exists ext. rewrite <- app_assoc. split; [reflexivity|].
        split; [destruct ext; [contradiction|cbn in *; lia]|].
        split; [exact Hw|]. split; [exact Hl'|].
        exact Hd0.
Qed.

End SimplePaths.

(** X29. Called as [_all_simple_paths] calls it, on the path [[source]]
    with dictionaries that know every node, the function returns, raising
    nothing, exactly the simple paths from [source] to [target] with at
    most [cutoff] edges: the walks along the successors that start at
    [source], end at [target] and visit no node twice. *)
Theorem enumeration_yields_exactly_the_simple_paths
    (successors : gmap Z (list Z)) (has_path : gmap (Z * Z) bool)
    (source target : Z) (cutoff : nat) :
  prepared successors has_path target ->
  is_Some (successors !! source) -> source <> target ->
  exists paths,
    _all_simple_paths_source_to_target cutoff [source] target has_path successors
    = Ok paths
    /\ forall p, p ∈ paths <->
         head p = Some source /\ last p = Some target
         /\ is_walk successors p /\ NoDup p /\ 2 <= length p <= S cutoff.
Proof.
  intros P Hs Hne.
  destruct (simple_paths_spec successors has_path target P cutoff [source] source)
    as (paths & Hpaths & Hspec); [reflexivity|exact Hs|apply NoDup_singleton| |].
  { intros Hc. apply list_elem_of_singleton in Hc. congruence. }
  exists paths. split; [exact Hpaths|]. intros p. rewrite Hspec. split.
  - intros (ext & -> & Hlen & Hw & Hl & Hd).
    split; [reflexivity|]. split.
    { destruct ext as [|e ext]; [cbn in Hlen; lia|exact Hl]. }
    split; [exact Hw|]. split; [exact Hd|]. cbn. lia.
  - intros (Hh & Hl & Hw & Hd & Hlen). destruct p as [|s ext]; [discriminate Hh|].
    injection Hh as ->. exists ext. split; [reflexivity|].
    cbn in Hlen. split; [lia|]. split; [exact Hw|]. split; [|exact Hd].
    destruct ext as [|e ext]; [cbn in Hlen; lia|exact Hl].
Qed.

(** *** The attack paths *)

(** The CVEs an attacker holding [held] can exploit along the edges, one
    on the target of each edge, each found in the pool. *)
Inductive exploitable (m : AttackGraphModel)
  : Privilege -> list Edge -> list (string * Vulnerability) -> Prop :=
| exploitable_nil held : exploitable m held [] []
| exploitable_cons held source target edges cve vuln cvs host :
    hosts m !! target = Some host ->
    cve ∈ cves host ->
    vulnerabilties m !! cve = Some vuln ->
    priv_leb (priv_required vuln) held = true ->
    exploitable m (priv_gained vuln) edges cvs ->
    exploitable m held ((source, target) :: edges) ((cve, vuln) :: cvs).

(** The steps the enumeration writes for these exploits: the privilege
    held on the source, then the one gained on the target. *)
Fixpoint held_steps (held : Privilege) (edges : list Edge)
    (cvs : list (string * Vulnerability)) : list string :=
  match edges, cvs with
  | (source, target) :: edges', (cve, vuln) :: cvs' =>
      trace_step held source cve (priv_gained vuln) target
      :: held_steps (priv_gained vuln) edges' cvs'
  | _, _ => []
  end.

(** Each edge starts where the one before it ends. *)
Fixpoint follows (source : Z) (edges : list Edge) : Prop :=
  match edges with
  | [] => True
  | e :: rest => fst e = source /\ follows (snd e) rest
  end.

Lemma exploit_loop_exploitable m preferred path :
  forall held vs ts r vs' ts' r',
    exploit_loop m preferred path held vs ts r = Ok ((vs', ts'), r') ->
    exists cvs,
      length cvs <= length path
      /\ vs' = vs ++ map snd cvs
      /\ ts' = ts ++ zip_with step_of path cvs
      /\ exploitable m held (firstn (length cvs) path) cvs.
Proof.
  induction path as [|[src dst] path IH]; intros held vs ts r vs' ts' r' H.
  - injection H as <- <- <-. exists []. cbn. rewrite !app_nil_r.
    split; [lia|]. split; [reflexivity|]. split; [reflexivity|constructor].
  - cbn [exploit_loop] in H. unfold bind in H.
    destruct (sample_cve_on_host m dst held preferred r) as [[[cve|] r1]|e] eqn:Hs;
      [| |discriminate H].
    + destruct (vulnerabilties m !! cve) as [vuln|] eqn:Hv; [|discriminate H].
      apply IH in H. destruct H as (cvs & Hlen & -> & -> & Hex).
      exists ((cve, vuln) :: cvs). cbn [length map zip_with firstn snd].
      rewrite <- !app_assoc. split; [lia|]. split; [reflexivity|].
      split; [reflexivity|].
      apply sample_cve_on_host_spec in Hs. destruct Hs as (host & Hh & Hin & Hq).
      apply (exploitable_cons m held src dst _ cve vuln cvs host); auto.
      * apply list_elem_of_In. exact Hin.
      * destruct Hq as [-> | (v & Hv' & Hq)]; [apply priv_leb_root|].
        rewrite Hv in Hv'. injection Hv' as <-. exact Hq.
    + injection H as <- <- <-. exists []. cbn. rewrite !app_nil_r.
      split; [lia|]. split; [reflexivity|]. split; [reflexivity|constructor].
Qed.

Lemma essentials_defined trace vulns :
  vulns <> [] ->
  exists lik risk imp sco,
    essentials trace vulns = Ok (join "##" trace, lik, imp, sco, risk, length vulns)
    /\ (exists v, last vulns = Some v /\ imp = impact v)
    /\ median (map score vulns) = Ok sco.
Proof.
  intros Hne. unfold essentials.
  destruct (last vulns) as [v|] eqn:Hlast.
  2:{ apply last_None in Hlast. contradiction. }
  destruct vulns as [|v0 vs]; [contradiction|].
  cbn [length Nat.eqb map median mbind res_mbind res_bind].
  do 4 eexists. split; [reflexivity|]. split; [|reflexivity].
  exists v. split; reflexivity.
Qed.

Lemma exploit_each_total m deeper held cves :
  (forall cve, cve ∈ cves -> is_Some (vulnerabilties m !! cve)) ->
  (forall cve vuln, cve ∈ cves -> exists found, deeper cve vuln = Ok found) ->
  exists all, exploit_each m deeper held cves = Ok all.
Proof.
  induction cves as [|cve rest IH]; intros Hpool Hdeep; [exists []; reflexivity|].
  destruct IH as (more & Hmore).
  { intros c Hc. apply Hpool. apply elem_of_cons. right. exact Hc. }
  { intros c v Hc. apply Hdeep. apply elem_of_cons. right. exact Hc. }
  cbn [exploit_each].
  destruct (Hpool cve) as [vuln Hv]; [apply elem_of_cons; left; reflexivity|].
  rewrite Hv. destruct (negb _); [exists more; exact Hmore|].
  destruct (Hdeep cve vuln) as (found & ->); [apply elem_of_cons; left; reflexivity|].
  rewrite Hmore. cbn [mbind res_mbind res_bind]. eexists. reflexivity.
Qed.

Lemma exploit_each_lists m deeper held cves all cve vuln found e :
  exploit_each m deeper held cves = Ok all ->
  cve ∈ cves -> vulnerabilties m !! cve = Some vuln ->
  priv_leb (priv_required vuln) held = true ->
  deeper cve vuln = Ok found -> e ∈ found -> e ∈ all.
Proof.
  revert all. induction cves as [|c rest IH]; intros all H Hin Hv Hp Hd He.
  - apply elem_of_nil in Hin. contradiction.
  - cbn [exploit_each] in H.
    destruct (vulnerabilties m !! c) as [v|] eqn:Hc; [|discriminate H].
    apply elem_of_cons in Hin.
    destruct (negb (priv_leb (priv_required v) held)) eqn:Hneg.
    + destruct Hin as [-> | Hin]; [|exact (IH all H Hin Hv Hp Hd He)].
      rewrite Hv in Hc. injection Hc as <-. rewrite Hp in Hneg. discriminate Hneg.
    + destruct (deeper c v) as [f|] eqn:Hf; cbn [mbind res_mbind res_bind] in H;
        [|discriminate H].
      destruct (exploit_each m deeper held rest) as [more|] eqn:Hmore;
        cbn [mbind res_mbind res_bind] in H; [|discriminate H].
      injection H as <-. apply elem_of_app.
      destruct Hin as [-> | Hin].
      * left. rewrite Hv in Hc. injection Hc as <-. rewrite Hd in Hf.
        injection Hf as <-. exact He.
      * right. exact (IH more eq_refl Hin Hv Hp Hd He).
Qed.

Section Enumeration.

Variable m : AttackGraphModel.
Hypothesis pool_has_the_cves : forall h host cve,
  hosts m !! h = Some host -> cve ∈ cves host -> is_Some (vulnerabilties m !! cve).

Lemma all_attack_paths_total : forall path trace vulns source held,
  Forall (fun target => is_Some (hosts m !! target)) path ->
  vulns <> [] \/ path <> [] ->
  exists all, _all_attack_paths_from_rp m path trace vulns source held = Ok all.
Proof.
  induction path as [|target rest IH]; intros trace vulns source held Hh Hne.
  - destruct Hne as [Hne|Hne]; [|contradiction].
    destruct (essentials_defined trace vulns Hne) as (lik & risk & imp & sco & E & _).
    cbn [_all_attack_paths_from_rp]. rewrite E. eexists. reflexivity.
  - cbn [_all_attack_paths_from_rp]. apply Forall_cons in Hh.
    destruct Hh as [[host Hhost] Hrest]. rewrite Hhost.
    apply exploit_each_total.
    + intros cve Hc. exact (pool_has_the_cves target host cve Hhost Hc).
    + intros cve vuln _. apply IH; [exact Hrest|]. left.
      intros Hnil. apply app_eq_nil in Hnil. destruct Hnil as [_ Hnil]. discriminate.
Qed.

Lemma exploitable_hosts held edges cvs :
  exploitable m held edges cvs ->
  Forall (fun target => is_Some (hosts m !! target)) (map snd edges)
  /\ length cvs = length edges.
Proof.
  induction 1 as [|held source target edges cve vuln cvs host Hh _ _ _ _ [IH1 IH2]];
    [split; [constructor|reflexivity]|].
  cbn. split; [|lia]. apply Forall_cons. split; [eexists; exact Hh|exact IH1].
Qed.

Lemma all_attack_paths_list held edges cvs :
  exploitable m held edges cvs ->
  forall trace vulns source all e,
    follows source edges ->
    _all_attack_paths_from_rp m (map snd edges) trace vulns source held = Ok all ->
    essentials (trace ++ held_steps held edges cvs) (vulns ++ map snd cvs) = Ok e ->
    e ∈ all.
Proof.
  induction 1 as [held|held src target edges cve vuln cvs host Hh Hin Hv Hp Hex IH];
    intros trace vulns source all e Hf H He.
  - cbn in H, He. rewrite !app_nil_r in He. rewrite He in H.
    cbn [mbind res_mbind res_bind] in H. injection H as <-.
    apply list_elem_of_singleton. reflexivity.
  - cbn [map snd _all_attack_paths_from_rp] in H. rewrite Hh in H.
    destruct Hf as [Hsrc Hf]. cbn [fst snd] in Hsrc, Hf. subst src.
    destruct (exploitable_hosts _ _ _ Hex) as [Hhosts _].
    destruct (all_attack_paths_total (map snd edges)
                (trace ++ [trace_step held source cve (priv_gained vuln) target])
                (vulns ++ [vuln]) target (priv_gained vuln) Hhosts) as (found & Hfound).
    { left. intros Hnil. apply app_eq_nil in Hnil. destruct Hnil as [_ Hnil].
      discriminate. }
    apply (exploit_each_lists m _ held (cves host) all cve vuln found e H Hin Hv Hp Hfound).
    apply (IH _ _ _ _ _ Hf Hfound).
    cbn [held_steps map snd] in He. rewrite <- !app_assoc. exact He.
Qed.

End Enumeration.

Lemma reachability_paths_list m rps : forall listed,
  _attack_paths_from_reachability_paths m rps = Ok listed ->
  forall source path all e,
    (source :: path) ∈ rps ->
    _all_attack_paths_from_rp m path [] [] source PRIV_GUEST = Ok all ->
    e ∈ all -> e ∈ listed.
Proof.
  induction rps as [|rp rps IH]; intros listed H source path all e Hin Hall He.
  - apply elem_of_nil in Hin. contradiction.
  - cbn [_attack_paths_from_reachability_paths] in H.
    destruct rp as [|s p]; [discriminate H|].
    destruct (_all_attack_paths_from_rp m p [] [] s PRIV_GUEST) as [aps|] eqn:Haps;
      cbn [mbind res_mbind res_bind] in H; [|discriminate H].
    destruct (_attack_paths_from_reachability_paths m rps) as [more|] eqn:Hmore;
      cbn [mbind res_mbind res_bind] in H; [|discriminate H].
    injection H as <-. apply elem_of_app. apply elem_of_cons in Hin.
    destruct Hin as [Heq | Hin].
    + injection Heq as <- <-. left. rewrite Hall in Haps. injection Haps as <-.
      exact He.
    + right. exact (IH more eq_refl source path all e Hin Hall He).
Qed.

(** X30. The enumeration lists every attack path the builder makes
    of a walk: on a consistent model, for the nodes of the path's edges,
    it returns, raising nothing, a list that holds an entry with the
    path's CVEs, so with its impact, score and length, and so does
    [_attack_paths_from_reachability_paths] on every list of paths that
    has these nodes. The trace of that entry names, on the source of each
    step, the privilege held there, where the trace of the built path
    names the privilege gained. *)
Theorem enumeration_lists_every_built_path (m : AttackGraphModel)
    (path : list Edge) (preferred : option (gset string)) (r r' : Rng)
    (ap : AttackPath) (source : Z) :
  model_wf m -> follows source path ->
  convert_reachability_to_ap m path preferred r = Ok (Some ap, r') ->
  exists cvs all likelihood risk,
    ap_vulns ap = map snd cvs
    /\ exploitable m PRIV_GUEST (ap_edges ap) cvs
    /\ ap_trace ap = join "##" (zip_with step_of (ap_edges ap) cvs)
    /\ _all_attack_paths_from_rp m (map snd (ap_edges ap)) [] [] source PRIV_GUEST
       = Ok all
    /\ (join "##" (held_steps PRIV_GUEST (ap_edges ap) cvs),
        likelihood, ap_impact ap, ap_score ap, risk, ap_length ap) ∈ all
    /\ forall rps listed,
         _attack_paths_from_reachability_paths m rps = Ok listed ->
         (source :: map snd (ap_edges ap)) ∈ rps ->
         (join "##" (held_steps PRIV_GUEST (ap_edges ap) cvs),
          likelihood, ap_impact ap, ap_score ap, risk, ap_length ap) ∈ listed.
Proof.
  intros W Hf H. apply convert_reachability_to_ap_spec in H.
  destruct H as (vs & ts & Hloop & Hinit).
  apply exploit_loop_exploitable in Hloop. cbn [app] in Hloop.
  destruct Hloop as (cvs & Hlen & -> & -> & Hex).
  pose proof (AttackPath_init_inv _ _ _ _ Hinit) as (Hne & Hv & He & Ht).
  destruct (AttackPath_init_spec (join "##" (zip_with step_of path cvs))
              (map snd cvs) (firstn (length (map snd cvs)) path) Hne)
    as (ap' & E & _ & _ & _ & L & _ & (v & Hlast & Himp) & Hsco & _).
  rewrite Hinit in E. injection E as <-.
  rewrite length_map in He.
  assert (Hf' : follows source (ap_edges ap)).
  { rewrite He. clear -Hf. revert source path Hf.
    generalize (length cvs) as k.
    induction k as [|k IH]; intros source [|e path] Hf; cbn; auto.
    destruct Hf as [H1 H2]. split; [exact H1|]. apply IH. exact H2. }
  assert (Hpool : forall h host cve, hosts m !! h = Some host -> cve ∈ cves host ->
                    is_Some (vulnerabilties m !! cve)) by exact (wf_cves m W).
  rewrite <- He in Hex.
  destruct (exploitable_hosts m _ _ _ Hex) as [Hhosts Hlen'].
  destruct (all_attack_paths_total m Hpool (map snd (ap_edges ap)) [] [] source
              PRIV_GUEST Hhosts) as (all & Hall).
  { right. intros Hnil. apply map_eq_nil in Hnil. rewrite Hnil in Hlen'.
    destruct cvs; [apply Hne; reflexivity|discriminate Hlen']. }
  destruct (essentials_defined (held_steps PRIV_GUEST (ap_edges ap) cvs)
              (map snd cvs) Hne) as (lik & risk & imp & sco & Ee & (v' & Hlast' & Himp') & Hsco').
  exists cvs, all, lik, risk.
  split; [exact Hv|]. split; [exact Hex|].
  split; [rewrite Ht, He, zip_with_firstn; reflexivity|].
  split; [exact Hall|].
  rewrite L, Himp. rewrite Hlast in Hlast'. injection Hlast' as <-.
  rewrite Hsco in Hsco'. injection Hsco' as <-. rewrite <- Himp'.
  match goal with
  | |- ?listed_in_all /\ _ => assert (Hin : listed_in_all)
  end.
  { apply (all_attack_paths_list m Hpool PRIV_GUEST (ap_edges ap) cvs Hex [] []
             source all _ Hf' Hall).
    exact Ee. }
  split; [exact Hin|]. intros rps listed Hrps Hrp.
  exact (reachability_paths_list m rps listed Hrps source _ all _ Hrp Hall Hin).
Qed.

(** *** The theorems on the scenarios *)
Import Scenarios.

Lemma triangle_prepared : prepared triangle_successors triangle_has_path 3.
Proof.
  split.
  - unfold triangle_successors.
    repeat (apply map_Forall_insert_2;
            [repeat (apply Forall_cons; split; [eexists; reflexivity|]);
             apply Forall_nil; exact I|]).
    apply map_Forall_empty.
  - unfold triangle_successors.
    repeat (apply map_Forall_insert_2; [eexists; reflexivity|]).
    apply map_Forall_empty.
  - intros n rest Hne H _. exfalso. unfold triangle_has_path in H.
    repeat (apply lookup_insert_Some in H;
            destruct H as [[H _]|[_ H]]; [congruence|]).
    apply lookup_insert_Some in H. destruct H as [[_ H]|[_ H]]; [discriminate H|].
    repeat (apply lookup_insert_Some in H;
            destruct H as [[H _]|[_ H]]; [congruence|]).
    apply lookup_insert_Some in H. destruct H as [[_ H]|[_ H]]; [discriminate H|].
    repeat (apply lookup_insert_Some in H;
            destruct H as [[H _]|[_ H]]; [congruence|]).
    rewrite lookup_empty in H. discriminate H.
Qed.

(** From 1 to 3 in the triangle, with at most two edges. *)
Lemma enumeration_yields_exactly_the_simple_paths_witness :
  exists paths,
    _all_simple_paths_source_to_target 2 [1%Z] 3 triangle_has_path
      triangle_successors = Ok paths
    /\ forall p, p ∈ paths <->
         head p = Some 1%Z /\ last p = Some 3%Z
         /\ is_walk triangle_successors p /\ NoDup p /\ 2 <= length p <= 3.
Proof.
  apply (enumeration_yields_exactly_the_simple_paths triangle_successors
           triangle_has_path 1 3 2 triangle_prepared).
  - eexists. reflexivity.
  - discriminate.
Defined.

(** The path built on the line 1 -> 2 -> 3. *)
Lemma enumeration_lists_every_built_path_witness :
  exists cvs all likelihood risk,
    ap_vulns line_path = map snd cvs
    /\ exploitable line_model PRIV_GUEST (ap_edges line_path) cvs
    /\ ap_trace line_path = join "##" (zip_with step_of (ap_edges line_path) cvs)
    /\ _all_attack_paths_from_rp line_model (map snd (ap_edges line_path)) [] []
         1%Z PRIV_GUEST = Ok all
    /\ (join "##" (held_steps PRIV_GUEST (ap_edges line_path) cvs),
        likelihood, ap_impact line_path, ap_score line_path, risk,
        ap_length line_path) ∈ all
    /\ forall rps listed,
         _attack_paths_from_reachability_paths line_model rps = Ok listed ->
         (1%Z :: map snd (ap_edges line_path)) ∈ rps ->
         (join "##" (held_steps PRIV_GUEST (ap_edges line_path) cvs),
          likelihood, ap_impact line_path, ap_score line_path, risk,
          ap_length line_path) ∈ listed.
Proof.
  apply (enumeration_lists_every_built_path line_model [(1, 2); (2, 3)]%Z None [] []
           line_path 1%Z line_model_wf).
  - cbn. repeat split.
  - apply line_path_eq.
Defined.

End GroundTruthFacts.
